(** * BusTub storage core: LRU-K replacer, extendible hash table,
      buffer pool manager and B+tree index.

    Shallow embedding of the C++ sources and the properties proved of them. *)

From Stdlib Require Import ZArith Lia Bool.
From Stdlib.Strings Require Import Byte.
From stdpp Require Import base option list gmap fin_maps sorting.

Local Open Scope Z_scope.
#[local] Set Warnings "-clear-no-such-hyp".

(** Machine integers.  [size_t] is 64 bits wide; arithmetic on it wraps. *)
Definition SIZE_MAX : Z := 2 ^ 64 - 1.
Definition wrap_size_t (z : Z) : Z := z mod 2 ^ 64.

(** [frame_id_t] and [page_id_t] are [int32_t]; [INVALID_PAGE_ID] is -1. *)
Definition INVALID_PAGE_ID : Z := -1.

(** How a call of the model can end.  Loops without a bound in the source
    ([while (true)], recursion up or down a tree) take fuel; [Fault] stands
    for an access outside an array or through a null or stale pointer,
    [Overflow] for [1 << global_depth_] leaving the range of [int] (undefined
    behaviour in C++). *)
Inductive outcome (A : Type) : Type :=
  | Done (a : A)
  | OutOfFuel
  | Fault
  | Overflow.
Arguments Done {A} a.
Arguments OutOfFuel {A}.
Arguments Fault {A}.
Arguments Overflow {A}.

#[global] Instance outcome_ret : MRet outcome := λ A a, Done a.
#[global] Instance outcome_fmap : FMap outcome := λ A B f m,
  match m with
  | Done a => Done (f a)
  | OutOfFuel => OutOfFuel
  | Fault => Fault
  | Overflow => Overflow
  end.
#[global] Instance outcome_bind : MBind outcome := λ A B f m,
  match m with
  | Done a => f a
  | OutOfFuel => OutOfFuel
  | Fault => Fault
  | Overflow => Overflow
  end.

(* ===================================================================== *)
(** * src/buffer/lru_k_replacer.cpp *)
(* ===================================================================== *)

Module LRUK.

(** Modelled from the spec: the [FrameInfo] struct of lru_k_replacer.h is
    not part of the sources; a record holds the retained access history
    (oldest first) and the evictable flag, which is false on creation. *)
Record FrameInfo := mkFrameInfo {
  history_ : list Z;
  is_evictable_ : bool
}.

Definition FrameInfo_default : FrameInfo := mkFrameInfo [] false.

Record LRUKReplacer := mkReplacer {
  frame_table_ : gmap Z FrameInfo;   (* std::unordered_map<frame_id_t, FrameInfo> *)
  replacer_size_ : Z;
  k_ : Z;
  curr_size_ : Z;
  current_timestamp_ : Z
}.

(** Constructor; the counters start at zero. *)
Definition init (num_frames k : Z) : LRUKReplacer :=
  mkReplacer ∅ num_frames k 0 0.

(** [history_.front()]. *)
Definition front (h : list Z) : Z := hd 0 h.

(** The K-distance computed for one frame inside the loop of [Evict]. *)
Definition k_distance_of (r : LRUKReplacer) (fi : FrameInfo) : Z :=
  if Z.of_nat (length (history_ fi)) <? k_ r
  then SIZE_MAX
  else wrap_size_t (current_timestamp_ r - front (history_ fi)).

(** One iteration of the loop of [Evict]; the accumulator is
    [(candidate, max_k_distance, earliest_timestamp)]. *)
Definition evict_scan (r : LRUKReplacer) (acc : Z * Z * Z) (e : Z * FrameInfo)
  : Z * Z * Z :=
  let '(candidate, max_k_distance, earliest_timestamp) := acc in
  let '(fid, frame_info) := e in
  if negb (is_evictable_ frame_info) then acc
  else
    let k_distance := k_distance_of r frame_info in
    let frame_earliest := front (history_ frame_info) in
    if (k_distance >? max_k_distance)
       || ((k_distance =? max_k_distance) && (frame_earliest <? earliest_timestamp))
    then (fid, k_distance, frame_earliest)
    else acc.

Definition evict_loop (r : LRUKReplacer) (l : list (Z * FrameInfo)) : Z * Z * Z :=
  foldl (evict_scan r) (-1, 0, SIZE_MAX) l.

Definition Evict (r : LRUKReplacer) : option Z * LRUKReplacer :=
  if curr_size_ r =? 0 then (None, r)
  else
    let '(candidate, _, _) := evict_loop r (map_to_list (frame_table_ r)) in
    if candidate =? -1 then (None, r)
    else (Some candidate,
          mkReplacer (delete candidate (frame_table_ r)) (replacer_size_ r) (k_ r)
                     (wrap_size_t (curr_size_ r - 1)) (current_timestamp_ r)).

Definition RecordAccess (r : LRUKReplacer) (frame_id : Z) : LRUKReplacer :=
  if wrap_size_t frame_id >? replacer_size_ r then r
  else
    let ts := wrap_size_t (current_timestamp_ r + 1) in
    let frame_info := default FrameInfo_default (frame_table_ r !! frame_id) in
    let h := history_ frame_info ++ [ts] in
    let h' := if Z.of_nat (length h) >? k_ r then tl h else h in
    mkReplacer (<[frame_id := mkFrameInfo h' (is_evictable_ frame_info)]> (frame_table_ r))
               (replacer_size_ r) (k_ r) (curr_size_ r) ts.

Definition SetEvictable (r : LRUKReplacer) (frame_id : Z) (set_evictable : bool)
  : LRUKReplacer :=
  match frame_table_ r !! frame_id with
  | None => r
  | Some frame_info =>
      let cs :=
        if is_evictable_ frame_info && negb set_evictable
        then wrap_size_t (curr_size_ r - 1)
        else if negb (is_evictable_ frame_info) && set_evictable
             then wrap_size_t (curr_size_ r + 1)
             else curr_size_ r in
      mkReplacer (<[frame_id := mkFrameInfo (history_ frame_info) set_evictable]> (frame_table_ r))
                 (replacer_size_ r) (k_ r) cs (current_timestamp_ r)
  end.

Definition Remove (r : LRUKReplacer) (frame_id : Z) : LRUKReplacer :=
  match frame_table_ r !! frame_id with
  | None => r
  | Some frame_info =>
      if negb (is_evictable_ frame_info) then r
      else mkReplacer (delete frame_id (frame_table_ r)) (replacer_size_ r) (k_ r)
                      (wrap_size_t (curr_size_ r - 1)) (current_timestamp_ r)
  end.

Definition Size (r : LRUKReplacer) : Z := curr_size_ r.

(** ** The eviction rule in the words of the specification *)

(** A K-distance is a number or +infinity. *)
Inductive kdist := Finite (d : Z) | Infinite.

(** "If it has fewer than K recorded accesses, its K-distance is +infinity;
    otherwise, current_time - oldest_retained_timestamp." *)
Definition K_distance (r : LRUKReplacer) (fi : FrameInfo) : kdist :=
  if Z.of_nat (length (history_ fi)) <? k_ r then Infinite
  else Finite (current_timestamp_ r - front (history_ fi)).

Definition kdist_lt (a b : kdist) : Prop :=
  match a, b with
  | Finite x, Finite y => x < y
  | Finite _, Infinite => True
  | Infinite, _ => False
  end.

Definition evictable (r : LRUKReplacer) (f : Z) : Prop :=
  ∃ fi, frame_table_ r !! f = Some fi ∧ is_evictable_ fi = true.

(** [f] has the largest K-distance among the evictable frames and, among
    those sharing it, the smallest retained-oldest timestamp. *)
Definition is_victim (r : LRUKReplacer) (f : Z) : Prop :=
  ∃ fi, frame_table_ r !! f = Some fi ∧ is_evictable_ fi = true ∧
    ∀ g gi, frame_table_ r !! g = Some gi → is_evictable_ gi = true →
      kdist_lt (K_distance r gi) (K_distance r fi) ∨
      (K_distance r gi = K_distance r fi ∧
       front (history_ fi) ≤ front (history_ gi)).

(** ** States the replacer can be in *)

Definition is_int32 (z : Z) : Prop := - 2 ^ 31 ≤ z < 2 ^ 31.

(** The states reached from the constructor through the public operations,
    as long as the 64-bit timestamp counter has not been used up. *)
Inductive reachable : LRUKReplacer → Prop :=
  | reach_init num_frames k :
      0 ≤ num_frames < 2 ^ 63 → 1 ≤ k < 2 ^ 64 →
      reachable (init num_frames k)
  | reach_RecordAccess r f :
      reachable r → is_int32 f → current_timestamp_ r + 1 < SIZE_MAX →
      reachable (RecordAccess r f)
  | reach_SetEvictable r f b :
      reachable r → reachable (SetEvictable r f b)
  | reach_Remove r f :
      reachable r → reachable (Remove r f)
  | reach_Evict r :
      reachable r → reachable (snd (Evict r)).

Definition evictable_frames (r : LRUKReplacer) : gmap Z FrameInfo :=
  filter (λ p, is_evictable_ p.2 = true) (frame_table_ r).

(** The invariant of reachable states. *)
Record wf (r : LRUKReplacer) : Prop := mk_wf {
  wf_k : 1 ≤ k_ r;
  wf_size_bound : 0 ≤ replacer_size_ r < 2 ^ 63;
  wf_ts : 0 ≤ current_timestamp_ r < SIZE_MAX;
  wf_curr_size : curr_size_ r = Z.of_nat (size (evictable_frames r));
  wf_frames : ∀ f fi, frame_table_ r !! f = Some fi →
      0 ≤ f ≤ replacer_size_ r ∧ history_ fi ≠ [] ∧
      Forall (λ t, 1 ≤ t ≤ current_timestamp_ r) (history_ fi)
}.

(** What the accumulator of the loop of [Evict] satisfies after the entries
    [l] have been visited. *)
Definition scan_ok (r : LRUKReplacer) (l : list (Z * FrameInfo)) (acc : Z * Z * Z)
  : Prop :=
  let '(c, mk, et) := acc in
  (c = -1 ∧ mk = 0 ∧ et = SIZE_MAX ∧
   ∀ g gi, (g, gi) ∈ l → is_evictable_ gi = false) ∨
  (∃ fi, (c, fi) ∈ l ∧ is_evictable_ fi = true ∧
     mk = k_distance_of r fi ∧ et = front (history_ fi) ∧
     ∀ g gi, (g, gi) ∈ l → is_evictable_ gi = true →
       k_distance_of r gi < mk ∨
       (k_distance_of r gi = mk ∧ et ≤ front (history_ gi))).

End LRUK.

(* ===================================================================== *)
(** * src/container/hash/extendible_hash_table.cpp *)
(* ===================================================================== *)

Module EHT.

Section table.
Context {K V : Type} `{EqDecision K}.

(** [std::hash<K>()(key)], a [size_t]. *)
Variable hash : K → Z.

(** Modelled from the spec: the [Bucket] class body of
    extendible_hash_table.h is not part of the sources ("a list of up to
    bucket_size key/value pairs, tagged with a local depth"); [IsFull] holds
    when the list has reached the bucket size. *)
Record Bucket := mkBucket {
  size_ : Z;
  depth_ : Z;
  list_ : list (K * V)
}.

Definition IsFull (b : Bucket) : bool := Z.of_nat (length (list_ b)) =? size_ b.
Definition GetDepth (b : Bucket) : Z := depth_ b.
Definition IncrementDepth (b : Bucket) : Bucket :=
  mkBucket (size_ b) (depth_ b + 1) (list_ b).

(** The loop of [Bucket::Find]: the value of the first pair with this key. *)
Fixpoint list_find_key (l : list (K * V)) (key : K) : option V :=
  match l with
  | [] => None
  | (k, v) :: l' => if decide (k = key) then Some v else list_find_key l' key
  end.

(** The loop of [Bucket::Remove]: erase the first pair with this key. *)
Fixpoint list_erase_key (l : list (K * V)) (key : K) : option (list (K * V)) :=
  match l with
  | [] => None
  | (k, v) :: l' =>
      if decide (k = key) then Some l'
      else (λ r, (k, v) :: r) <$> list_erase_key l' key
  end.

(** The first loop of [Bucket::Insert]: overwrite the value of the first
    pair with this key. *)
Fixpoint list_update_key (l : list (K * V)) (key : K) (value : V)
  : option (list (K * V)) :=
  match l with
  | [] => None
  | (k, v) :: l' =>
      if decide (k = key) then Some ((k, value) :: l')
      else (λ r, (k, v) :: r) <$> list_update_key l' key value
  end.

Definition Bucket_Find (b : Bucket) (key : K) : option V :=
  list_find_key (list_ b) key.

Definition Bucket_Remove (b : Bucket) (key : K) : bool * Bucket :=
  match list_erase_key (list_ b) key with
  | Some l' => (true, mkBucket (size_ b) (depth_ b) l')
  | None => (false, b)
  end.

Definition Bucket_Insert (b : Bucket) (key : K) (value : V) : bool * Bucket :=
  match list_update_key (list_ b) key value with
  | Some l' => (true, mkBucket (size_ b) (depth_ b) l')
  | None =>
      if IsFull b then (false, b)
      else (true, mkBucket (size_ b) (depth_ b) (list_ b ++ [(key, value)]))
  end.

(** The table.  Buckets are shared between directory slots through
    [std::shared_ptr]; [heap_] holds the bucket objects and [dir_] their
    addresses, so that [dir_[i] == bucket] is equality of addresses.
    [std::make_shared] allocates at the end of the heap. *)
Record ExtendibleHashTable := mkTable {
  global_depth_ : Z;
  bucket_size_ : Z;
  num_buckets_ : Z;
  dir_ : list nat;
  heap_ : list Bucket
}.

(** Constructor. *)
Definition init (bucket_size : Z) : ExtendibleHashTable :=
  mkTable 0 bucket_size 1 [0%nat] [mkBucket bucket_size 0 []].

(** [int mask = (1 << global_depth_) - 1; return hash(key) & mask;] *)
Definition IndexOf (t : ExtendibleHashTable) (key : K) : option nat :=
  if (0 <=? global_depth_ t) && (global_depth_ t <=? 30)
  then Some (Z.to_nat (Z.land (hash key) (Z.shiftl 1 (global_depth_ t) - 1)))
  else None.

(** [dir_[index]->...]: the bucket a slot points to. *)
Definition bucket_at (t : ExtendibleHashTable) (index : nat) : option (nat * Bucket) :=
  match dir_ t !! index with
  | None => None
  | Some a => match heap_ t !! a with
              | None => None
              | Some b => Some (a, b)
              end
  end.

Definition GetGlobalDepth (t : ExtendibleHashTable) : Z := global_depth_ t.
Definition GetNumBuckets (t : ExtendibleHashTable) : Z := num_buckets_ t.

Definition Find (t : ExtendibleHashTable) (key : K) : outcome (option V) :=
  match IndexOf t key with
  | None => Overflow
  | Some index =>
      match bucket_at t index with
      | None => Fault
      | Some (_, b) => Done (Bucket_Find b key)
      end
  end.

Definition set_heap (t : ExtendibleHashTable) (h : list Bucket) : ExtendibleHashTable :=
  mkTable (global_depth_ t) (bucket_size_ t) (num_buckets_ t) (dir_ t) h.

Definition Remove (t : ExtendibleHashTable) (key : K)
  : outcome (bool * ExtendibleHashTable) :=
  match IndexOf t key with
  | None => Overflow
  | Some index =>
      match bucket_at t index with
      | None => Fault
      | Some (a, b) =>
          let '(res, b') := Bucket_Remove b key in
          Done (res, set_heap t (<[a := b']> (heap_ t)))
      end
  end.

(** [(x >> (local_depth - 1)) & 1] as a condition. *)
Definition bit_set (x local_depth : Z) : bool :=
  negb (Z.land (Z.shiftr x (local_depth - 1)) 1 =? 0).

(** The loop re-inserting the items of the overflowed bucket into the two
    fresh buckets; the accumulator is [(bucket0, bucket1)]. *)
Definition redistribute (local_depth : Z) (items : list (K * V))
    (b0 b1 : Bucket) : Bucket * Bucket :=
  foldl (λ '(b0, b1) '(k, v),
           if bit_set (hash k) local_depth
           then (b0, snd (Bucket_Insert b1 k v))
           else (snd (Bucket_Insert b0 k v), b1))
        (b0, b1) items.

(** What that loop amounts to: the items whose hash has the bit clear, and
    those whose hash has it set, in their old order. *)
Definition low_items (ld : Z) (l : list (K * V)) : list (K * V) :=
  filter (λ p, bit_set (hash p.1) ld = false) l.
Definition high_items (ld : Z) (l : list (K * V)) : list (K * V) :=
  filter (λ p, bit_set (hash p.1) ld = true) l.

(** The loop repointing the directory slots of the overflowed bucket. *)
Definition repoint (local_depth : Z) (bucket bucket0 bucket1 : nat)
    (dir : list nat) : list nat :=
  imap (λ i a, if decide (a = bucket)
               then if bit_set (Z.of_nat i) local_depth then bucket1 else bucket0
               else a) dir.

(** "Expand the directory": [dir_.resize(length * 2)], the copy loop and
    [global_depth_++]. *)
Definition double (t : ExtendibleHashTable) : ExtendibleHashTable :=
  mkTable (global_depth_ t + 1) (bucket_size_ t) (num_buckets_ t)
          (dir_ t ++ dir_ t) (heap_ t).

(** The rest of the loop body: increment the bucket's depth, create the two
    buckets, re-insert the items, repoint the directory, count the bucket. *)
Definition split_bucket (t : ExtendibleHashTable) (bucket : nat) (b : Bucket)
  : ExtendibleHashTable :=
  let b' := IncrementDepth b in
  let heap1 := <[bucket := b']> (heap_ t) in
  let local_depth := GetDepth b' in
  let bucket0 := length heap1 in
  let bucket1 := S (length heap1) in
  let '(nb0, nb1) :=
    redistribute local_depth (list_ b')
                 (mkBucket (bucket_size_ t) local_depth [])
                 (mkBucket (bucket_size_ t) local_depth []) in
  mkTable (global_depth_ t) (bucket_size_ t) (num_buckets_ t + 1)
          (repoint local_depth bucket bucket0 bucket1 (dir_ t))
          (heap1 ++ [nb0; nb1]).

(** One pass through the body of the loop of [Insert] after the insertion
    into the bucket at address [bucket] has failed. *)
Definition split (t : ExtendibleHashTable) (bucket : nat) (b : Bucket)
  : ExtendibleHashTable :=
  split_bucket (if GetDepth b =? global_depth_ t then double t else t) bucket b.

Fixpoint Insert (fuel : nat) (t : ExtendibleHashTable) (key : K) (value : V)
  : outcome ExtendibleHashTable :=
  match fuel with
  | O => OutOfFuel
  | S fuel' =>
      match IndexOf t key with
      | None => Overflow
      | Some index =>
          match bucket_at t index with
          | None => Fault
          | Some (bucket, b) =>
              match Bucket_Insert b key value with
              | (true, b') => Done (set_heap t (<[bucket := b']> (heap_ t)))
              | (false, _) => Insert fuel' (split t bucket b) key value
              end
          end
      end
  end.

(** A sequence of [Insert] calls, each with the same fuel. *)
Fixpoint Insert_all (fuel : nat) (t : ExtendibleHashTable) (kvs : list (K * V))
  : outcome ExtendibleHashTable :=
  match kvs with
  | [] => Done t
  | (k, v) :: kvs' =>
      match Insert fuel t k v with
      | Done t' => Insert_all fuel t' kvs'
      | o => o
      end
  end.

(** ** Reachable states and their invariant *)

Inductive reachable : ExtendibleHashTable → Prop :=
  | reach_init bucket_size :
      0 ≤ bucket_size → reachable (init bucket_size)
  | reach_Insert fuel t key value t' :
      reachable t → Insert fuel t key value = Done t' → reachable t'
  | reach_Remove t key res t' :
      reachable t → Remove t key = Done (res, t') → reachable t'.

(** The keys a table may hold; the invariant is stated relative to it. *)
Variable ok : K → Prop.

(** What holds of the bucket a directory slot [i] points to. *)
Record bucket_ok (t : ExtendibleHashTable) (i : nat) (b : Bucket) : Prop := mk_bucket_ok {
  bo_depth : 0 ≤ depth_ b ≤ global_depth_ t;
  bo_size : size_ b = bucket_size_ t;
  bo_len : Z.of_nat (length (list_ b)) ≤ bucket_size_ t;
  bo_nodup : NoDup (list_ b).*1;
  bo_keys : ∀ k, k ∈ (list_ b).*1 →
      ok k ∧ hash k `mod` 2 ^ depth_ b = Z.of_nat i `mod` 2 ^ depth_ b
}.

Record inv (t : ExtendibleHashTable) : Prop := mk_inv {
  inv_depth : 0 ≤ global_depth_ t;
  inv_dir : Z.of_nat (length (dir_ t)) = 2 ^ global_depth_ t;
  inv_slots : ∀ i a, dir_ t !! i = Some a →
      ∃ b, heap_ t !! a = Some b ∧ bucket_ok t i b;
  inv_shared : ∀ i j a b,
      dir_ t !! i = Some a → dir_ t !! j = Some a → heap_ t !! a = Some b →
      Z.of_nat i `mod` 2 ^ depth_ b = Z.of_nat j `mod` 2 ^ depth_ b
}.

End table.

Arguments Bucket : clear implicits.
Arguments ExtendibleHashTable : clear implicits.

(** [GetLocalDepthInternal]; [dir_index] is an [int] and the size of the
    directory is cast to [int] for the comparison. *)
Definition GetLocalDepth {K V : Type} (t : ExtendibleHashTable K V) (dir_index : Z) : Z :=
  if (dir_index <? 0)
     || (dir_index >=? (Z.of_nat (length (dir_ t)) + 2 ^ 31) `mod` 2 ^ 32 - 2 ^ 31)
  then 0
  else match bucket_at t (Z.to_nat dir_index) with
       | Some (_, b) => GetDepth b
       | None => 0
       end.

(** The buckets the directory points to. *)
Definition buckets_in_use {K V : Type} (t : ExtendibleHashTable K V) : gset nat :=
  list_to_set (dir_ t).

(** Every slot that agrees with a slot [i] on the low local-depth bits of
    [i]'s bucket points to that bucket too. *)
Definition dir_complete {K V : Type} (t : ExtendibleHashTable K V) : Prop :=
  ∀ i a b j, dir_ t !! i = Some a → heap_ t !! a = Some b →
    (j < length (dir_ t))%nat →
    Z.of_nat j `mod` 2 ^ depth_ b = Z.of_nat i `mod` 2 ^ depth_ b →
    dir_ t !! j = Some a.

End EHT.

(** Scenario D of the specification: bucket size 2, keys 1, 5, 9; for [int]
    keys [std::hash] is the conversion to [size_t]. *)
Definition scenarioD : outcome (EHT.ExtendibleHashTable Z nat) :=
  EHT.Insert_all wrap_size_t 64 (EHT.init 2) [(1, 1%nat); (5, 2%nat); (9, 3%nat)].

Definition scenarioD_table : EHT.ExtendibleHashTable Z nat :=
  match scenarioD with
  | Done t => t
  | _ => EHT.init 2
  end.

(* ===================================================================== *)
(** * src/buffer/buffer_pool_manager_instance.cpp *)
(* ===================================================================== *)

Module BPM.

(** Modelled from the spec: page.h and config.h are not part of the
    sources.  A page is "a fixed-size byte array (conventionally 4 KiB)
    plus metadata: the page identifier it currently holds (or a sentinel
    INVALID), a pin count, a dirty flag". *)
Definition PAGE_SIZE : nat := 4096.

Record Page := mkPage {
  data_ : list Byte.byte;
  page_id_ : Z;
  pin_count_ : Z;
  is_dirty_ : bool
}.

Definition zeroed : list Byte.byte := replicate PAGE_SIZE Byte.x00.
Definition Page_default : Page := mkPage zeroed INVALID_PAGE_ID 0 false.

(** What the buffer pool does to its surroundings, in program order: the
    calls on the disk manager and the resets of a frame's memory. *)
Inductive event :=
  | EvWritePage (page_id : Z) (data : list Byte.byte)
  | EvReadPage (page_id : Z)
  | EvResetMemory (frame_id : Z).

(** Modelled from the spec: the disk manager is an external collaborator
    ("read_page(page_id, buf) populates buf from stable storage;
    write_page(page_id, buf) persists buf"); a page never written reads as
    zeroes. *)
Record BufferPoolManagerInstance := mkBPM {
  pool_size_ : Z;
  pages_ : list Page;
  page_table_ : EHT.ExtendibleHashTable Z Z;
  replacer_ : LRUK.LRUKReplacer;
  free_list_ : list Z;
  next_page_id_ : Z;
  disk_ : gmap Z (list Byte.byte);
  trace_ : list event
}.

(** [std::hash<page_id_t>]: the conversion of the [int] to [size_t]. *)
Definition hash_page_id (page_id : Z) : Z := wrap_size_t page_id.

(** [std::atomic<page_id_t>] arithmetic wraps in two's complement. *)
Definition wrap_int32 (z : Z) : Z := (z + 2 ^ 31) `mod` 2 ^ 32 - 2 ^ 31.

(** Constructor.  [bucket_size] is the constant [bucket_size_] of the
    header, which is not part of the sources. *)
Definition init (pool_size replacer_k bucket_size : Z) : BufferPoolManagerInstance :=
  mkBPM pool_size
        (replicate (Z.to_nat pool_size) Page_default)
        (EHT.init bucket_size)
        (LRUK.init pool_size replacer_k)
        (seqZ 0 pool_size)
        0 ∅ [].

Definition set_page (bpm : BufferPoolManagerInstance) (frame_id : Z) (pg : Page)
  : BufferPoolManagerInstance :=
  mkBPM (pool_size_ bpm) (<[Z.to_nat frame_id := pg]> (pages_ bpm)) (page_table_ bpm)
        (replacer_ bpm) (free_list_ bpm) (next_page_id_ bpm) (disk_ bpm) (trace_ bpm).

Definition set_page_table (bpm : BufferPoolManagerInstance)
    (pt : EHT.ExtendibleHashTable Z Z) : BufferPoolManagerInstance :=
  mkBPM (pool_size_ bpm) (pages_ bpm) pt (replacer_ bpm) (free_list_ bpm)
        (next_page_id_ bpm) (disk_ bpm) (trace_ bpm).

Definition set_replacer (bpm : BufferPoolManagerInstance) (r : LRUK.LRUKReplacer)
  : BufferPoolManagerInstance :=
  mkBPM (pool_size_ bpm) (pages_ bpm) (page_table_ bpm) r (free_list_ bpm)
        (next_page_id_ bpm) (disk_ bpm) (trace_ bpm).

Definition set_free_list (bpm : BufferPoolManagerInstance) (fl : list Z)
  : BufferPoolManagerInstance :=
  mkBPM (pool_size_ bpm) (pages_ bpm) (page_table_ bpm) (replacer_ bpm) fl
        (next_page_id_ bpm) (disk_ bpm) (trace_ bpm).

Definition log (bpm : BufferPoolManagerInstance) (e : event)
  : BufferPoolManagerInstance :=
  mkBPM (pool_size_ bpm) (pages_ bpm) (page_table_ bpm) (replacer_ bpm)
        (free_list_ bpm) (next_page_id_ bpm) (disk_ bpm) (trace_ bpm ++ [e]).

(** [disk_manager_->WritePage(page_id, data)]. *)
Definition WritePage (bpm : BufferPoolManagerInstance) (page_id : Z)
    (data : list Byte.byte) : BufferPoolManagerInstance :=
  log (mkBPM (pool_size_ bpm) (pages_ bpm) (page_table_ bpm) (replacer_ bpm)
             (free_list_ bpm) (next_page_id_ bpm) (<[page_id := data]> (disk_ bpm))
             (trace_ bpm))
      (EvWritePage page_id data).

(** [disk_manager_->ReadPage(page_id, buf)]: the bytes read. *)
Definition ReadPage (bpm : BufferPoolManagerInstance) (page_id : Z)
  : list Byte.byte * BufferPoolManagerInstance :=
  (default zeroed (disk_ bpm !! page_id), log bpm (EvReadPage page_id)).

(** [pages_[frame_id]]. *)
Definition page_at (bpm : BufferPoolManagerInstance) (frame_id : Z) : outcome Page :=
  if frame_id <? 0 then Fault
  else match pages_ bpm !! Z.to_nat frame_id with
       | Some pg => Done pg
       | None => Fault
       end.

(** [AllocatePage]: [return next_page_id_++]. *)
Definition AllocatePage (bpm : BufferPoolManagerInstance)
  : Z * BufferPoolManagerInstance :=
  (next_page_id_ bpm,
   mkBPM (pool_size_ bpm) (pages_ bpm) (page_table_ bpm) (replacer_ bpm)
         (free_list_ bpm) (wrap_int32 (next_page_id_ bpm + 1)) (disk_ bpm)
         (trace_ bpm)).

(** The block that [NewPgImp] and [FetchPgImp] both start with: take a
    frame from the free list, or else evict one, writing its page out first
    when it is dirty and removing the page from the page table.  The result
    is [None] where the source returns [nullptr]. *)
Definition obtain_frame (bpm : BufferPoolManagerInstance)
  : outcome (option (Z * BufferPoolManagerInstance)) :=
  match free_list_ bpm with
  | frame_id :: rest => Done (Some (frame_id, set_free_list bpm rest))
  | [] =>
      match LRUK.Evict (replacer_ bpm) with
      | (None, _) => Done None
      | (Some frame_id, r') =>
          let bpm := set_replacer bpm r' in
          pg ← page_at bpm frame_id;
          let bpm := if is_dirty_ pg
                     then WritePage bpm (page_id_ pg) (data_ pg)
                     else bpm in
          '(_, pt') ← EHT.Remove hash_page_id (page_table_ bpm) (page_id_ pg);
          Done (Some (frame_id, set_page_table bpm pt'))
      end
  end.

(** "Add to page table and replacer": the last three calls of both
    functions. *)
Definition register_frame (fuel : nat) (bpm : BufferPoolManagerInstance)
    (page_id frame_id : Z) : outcome BufferPoolManagerInstance :=
  pt' ← EHT.Insert hash_page_id fuel (page_table_ bpm) page_id frame_id;
  let bpm := set_page_table bpm pt' in
  let bpm := set_replacer bpm (LRUK.RecordAccess (replacer_ bpm) frame_id) in
  Done (set_replacer bpm (LRUK.SetEvictable (replacer_ bpm) frame_id false)).

(** The result is the new page id and the frame it lives in, for the
    returned [Page *]. *)
Definition NewPgImp (fuel : nat) (bpm : BufferPoolManagerInstance)
  : outcome (option (Z * Z) * BufferPoolManagerInstance) :=
  got ← obtain_frame bpm;
  match got with
  | None => Done (None, bpm)
  | Some (frame_id, bpm) =>
      let '(page_id, bpm) := AllocatePage bpm in
      let bpm := log bpm (EvResetMemory frame_id) in
      let bpm := set_page bpm frame_id (mkPage zeroed page_id 1 false) in
      bpm ← register_frame fuel bpm page_id frame_id;
      Done (Some (page_id, frame_id), bpm)
  end.

(** The result is the frame of the returned [Page *]. *)
Definition FetchPgImp (fuel : nat) (bpm : BufferPoolManagerInstance) (page_id : Z)
  : outcome (option Z * BufferPoolManagerInstance) :=
  found ← EHT.Find hash_page_id (page_table_ bpm) page_id;
  match found with
  | Some frame_id =>
      pg ← page_at bpm frame_id;
      let bpm := set_page bpm frame_id
                   (mkPage (data_ pg) (page_id_ pg) (pin_count_ pg + 1) (is_dirty_ pg)) in
      let bpm := set_replacer bpm (LRUK.RecordAccess (replacer_ bpm) frame_id) in
      let bpm := set_replacer bpm (LRUK.SetEvictable (replacer_ bpm) frame_id false) in
      Done (Some frame_id, bpm)
  | None =>
      got ← obtain_frame bpm;
      match got with
      | None => Done (None, bpm)
      | Some (frame_id, bpm) =>
          let bpm := log bpm (EvResetMemory frame_id) in
          let '(bytes, bpm) := ReadPage bpm page_id in
          let bpm := set_page bpm frame_id (mkPage bytes page_id 1 false) in
          bpm ← register_frame fuel bpm page_id frame_id;
          Done (Some frame_id, bpm)
      end
  end.

Definition UnpinPgImp (bpm : BufferPoolManagerInstance) (page_id : Z) (is_dirty : bool)
  : outcome (bool * BufferPoolManagerInstance) :=
  found ← EHT.Find hash_page_id (page_table_ bpm) page_id;
  match found with
  | None => Done (false, bpm)
  | Some frame_id =>
      pg ← page_at bpm frame_id;
      if pin_count_ pg <=? 0 then Done (false, bpm)
      else
        let pg := mkPage (data_ pg) (page_id_ pg) (pin_count_ pg - 1)
                         (if is_dirty then true else is_dirty_ pg) in
        let bpm := set_page bpm frame_id pg in
        let bpm := if pin_count_ pg =? 0
                   then set_replacer bpm (LRUK.SetEvictable (replacer_ bpm) frame_id true)
                   else bpm in
        Done (true, bpm)
  end.

(** A caller writing [bytes] through the [Page *] of frame [frame_id]. *)
Definition write_data (bpm : BufferPoolManagerInstance) (frame_id : Z)
    (bytes : list Byte.byte) : outcome BufferPoolManagerInstance :=
  pg ← page_at bpm frame_id;
  Done (set_page bpm frame_id
          (mkPage bytes (page_id_ pg) (pin_count_ pg) (is_dirty_ pg))).

(** Page ids the directory of the page table can tell apart by 30 hash
    bits, and a page table in a state from which every insert of such an id
    completes. *)
Definition page_id_ok (page_id : Z) : Prop := 0 ≤ page_id < 2 ^ 30.

Definition table_ready (pt : EHT.ExtendibleHashTable Z Z) : Prop :=
  EHT.inv hash_page_id page_id_ok pt ∧
  EHT.global_depth_ pt ≤ 30 ∧ 1 ≤ EHT.bucket_size_ pt.

(** The events a call of [NewPgImp] or [FetchPgImp] adds when it evicts
    the page [victim]. *)
Definition write_back (victim : Page) : list event :=
  if is_dirty_ victim then [EvWritePage (page_id_ victim) (data_ victim)] else [].

(** [FlushPgImp]: the write is unconditional. *)
Definition FlushPgImp (bpm : BufferPoolManagerInstance) (page_id : Z)
  : outcome (bool * BufferPoolManagerInstance) :=
  found ← EHT.Find hash_page_id (page_table_ bpm) page_id;
  match found with
  | None => Done (false, bpm)
  | Some frame_id =>
      pg ← page_at bpm frame_id;
      let bpm := WritePage bpm page_id (data_ pg) in
      Done (true, set_page bpm frame_id
                    (mkPage (data_ pg) (page_id_ pg) (pin_count_ pg) false))
  end.

(** The body of the loop of [FlushAllPgsImp] for frame [i]. *)
Definition flush_frame (bpm : BufferPoolManagerInstance) (i : Z)
  : outcome BufferPoolManagerInstance :=
  pg ← page_at bpm i;
  if negb (page_id_ pg =? INVALID_PAGE_ID) && is_dirty_ pg
  then
    let bpm := WritePage bpm (page_id_ pg) (data_ pg) in
    Done (set_page bpm i (mkPage (data_ pg) (page_id_ pg) (pin_count_ pg) false))
  else Done bpm.

Fixpoint flush_frames (frames : list Z) (bpm : BufferPoolManagerInstance)
  : outcome BufferPoolManagerInstance :=
  match frames with
  | [] => Done bpm
  | i :: rest => bpm ← flush_frame bpm i; flush_frames rest bpm
  end.

(** [for (size_t i = 0; i < pool_size_; ++i)]. *)
Definition FlushAllPgsImp (bpm : BufferPoolManagerInstance)
  : outcome BufferPoolManagerInstance :=
  flush_frames (seqZ 0 (pool_size_ bpm)) bpm.

(** [DeletePgImp].  [DeallocatePage] is declared in the header, which is
    not part of the sources; modelled from the spec ("deallocate the id"):
    it touches none of the fields modelled here. *)
Definition DeletePgImp (bpm : BufferPoolManagerInstance) (page_id : Z)
  : outcome (bool * BufferPoolManagerInstance) :=
  found ← EHT.Find hash_page_id (page_table_ bpm) page_id;
  match found with
  | None => Done (true, bpm)
  | Some frame_id =>
      pg ← page_at bpm frame_id;
      if pin_count_ pg >? 0 then Done (false, bpm)
      else
        '(_, pt') ← EHT.Remove hash_page_id (page_table_ bpm) page_id;
        let bpm := set_page_table bpm pt' in
        let bpm := set_replacer bpm (LRUK.Remove (replacer_ bpm) frame_id) in
        let bpm := log bpm (EvResetMemory frame_id) in
        let bpm := set_page bpm frame_id (mkPage zeroed INVALID_PAGE_ID 0 false) in
        Done (true, set_free_list bpm (free_list_ bpm ++ [frame_id]))
  end.

(** ** States the buffer pool can be in *)

(** Page [page_id] is in the pool, in frame [frame_id]. *)
Definition resident (bpm : BufferPoolManagerInstance) (page_id frame_id : Z) : Prop :=
  EHT.Find hash_page_id (page_table_ bpm) page_id = Done (Some frame_id).

(** The replacer can take one more access: its 64-bit timestamp counter has
    not been used up. *)
Definition can_record (bpm : BufferPoolManagerInstance) : Prop :=
  LRUK.current_timestamp_ (replacer_ bpm) + 1 < SIZE_MAX.

(** The states reached from the constructor through the public operations
    and through writes of callers to pages they have pinned, as long as
    page ids and timestamps have not been used up and only pages that were
    allocated are fetched. *)
Inductive reachable : BufferPoolManagerInstance → Prop :=
  | reach_init pool_size replacer_k bucket_size :
      0 ≤ pool_size < 2 ^ 31 → 1 ≤ replacer_k → 0 ≤ bucket_size →
      reachable (init pool_size replacer_k bucket_size)
  | reach_NewPg fuel bpm r bpm' :
      reachable bpm → can_record bpm → next_page_id_ bpm + 1 < 2 ^ 31 →
      NewPgImp fuel bpm = Done (r, bpm') → reachable bpm'
  | reach_FetchPg fuel bpm page_id r bpm' :
      reachable bpm → can_record bpm → 0 ≤ page_id < next_page_id_ bpm →
      FetchPgImp fuel bpm page_id = Done (r, bpm') → reachable bpm'
  | reach_UnpinPg bpm page_id is_dirty r bpm' :
      reachable bpm → UnpinPgImp bpm page_id is_dirty = Done (r, bpm') →
      reachable bpm'
  | reach_FlushPg bpm page_id r bpm' :
      reachable bpm → FlushPgImp bpm page_id = Done (r, bpm') → reachable bpm'
  | reach_FlushAllPgs bpm bpm' :
      reachable bpm → FlushAllPgsImp bpm = Done bpm' → reachable bpm'
  | reach_DeletePg bpm page_id r bpm' :
      reachable bpm → DeletePgImp bpm page_id = Done (r, bpm') → reachable bpm'
  | reach_write bpm frame_id pg bytes bpm' :
      reachable bpm → page_at bpm frame_id = Done pg → 0 < pin_count_ pg →
      write_data bpm frame_id bytes = Done bpm' → reachable bpm'.

(** The three states of a frame: on the free list, holding a resident
    page, or taken out of both for the page a call is about to put there. *)
Record frame_free (bpm : BufferPoolManagerInstance) (f : Z) (pg : Page) : Prop :=
  mk_frame_free {
    ff_listed : f ∈ free_list_ bpm;
    ff_page : pg = Page_default;
    ff_untracked : LRUK.frame_table_ (replacer_ bpm) !! f = None
  }.

Record frame_used (bpm : BufferPoolManagerInstance) (f : Z) (pg : Page) : Prop :=
  mk_frame_used {
    fu_unlisted : f ∉ free_list_ bpm;
    fu_id : 0 ≤ page_id_ pg < next_page_id_ bpm;
    fu_resident : resident bpm (page_id_ pg) f;
    fu_pin : 0 ≤ pin_count_ pg;
    fu_tracked : ∃ fi, LRUK.frame_table_ (replacer_ bpm) !! f = Some fi ∧
                       (LRUK.is_evictable_ fi = true ↔ pin_count_ pg = 0)
  }.

Record frame_detached (bpm : BufferPoolManagerInstance) (f : Z) : Prop :=
  mk_frame_detached {
    fd_unlisted : f ∉ free_list_ bpm;
    fd_untracked : LRUK.frame_table_ (replacer_ bpm) !! f = None;
    fd_unmapped : ∀ page_id, ¬ resident bpm page_id f
  }.

(** The invariant of reachable states; [d] is the detached frame, if any. *)
Record pool_inv (d : option Z) (bpm : BufferPoolManagerInstance) : Prop :=
  mk_pool_inv {
    pi_size : 0 ≤ pool_size_ bpm < 2 ^ 31;
    pi_pages : Z.of_nat (length (pages_ bpm)) = pool_size_ bpm;
    pi_table : EHT.reachable hash_page_id (page_table_ bpm);
    pi_replacer : LRUK.wf (replacer_ bpm);
    pi_replacer_size : LRUK.replacer_size_ (replacer_ bpm) = pool_size_ bpm;
    pi_next : 0 ≤ next_page_id_ bpm < 2 ^ 31;
    pi_free : NoDup (free_list_ bpm);
    pi_frames : ∀ f pg, page_at bpm f = Done pg →
        if decide (d = Some f) then frame_detached bpm f
        else frame_free bpm f pg ∨ frame_used bpm f pg;
    pi_resident : ∀ page_id f, resident bpm page_id f →
        0 ≤ page_id ∧ ∃ pg, page_at bpm f = Done pg ∧ page_id_ pg = page_id;
    pi_listed : ∀ f, f ∈ free_list_ bpm → ∃ pg, page_at bpm f = Done pg;
    pi_tracked : ∀ f fi, LRUK.frame_table_ (replacer_ bpm) !! f = Some fi →
        ∃ pg, page_at bpm f = Done pg
  }.

(** ** The bytes of a page *)

(** The bytes the pool holds for page [page_id]: those of its frame when
    the page is resident, and else those on disk. *)
Definition page_bytes (bpm : BufferPoolManagerInstance) (page_id : Z)
    (bytes : list Byte.byte) : Prop :=
  (∃ f pg, resident bpm page_id f ∧ page_at bpm f = Done pg ∧ data_ pg = bytes) ∨
  ((∀ f, ¬ resident bpm page_id f) ∧ default zeroed (disk_ bpm !! page_id) = bytes).

(** Callers mark what they write: a resident copy that is not dirty equals
    the copy on disk. *)
Definition clean_copy_on_disk (bpm : BufferPoolManagerInstance) (page_id : Z) : Prop :=
  ∀ f pg, resident bpm page_id f → page_at bpm f = Done pg → is_dirty_ pg = false →
    data_ pg = default zeroed (disk_ bpm !! page_id).

End BPM.

(** Scenario C of the specification: pool size 1; [new_page] gives [p0];
    [bytes] are written to it; [unpin(p0, true)]; the state before the
    second [new_page]. *)
Definition scenarioC_payload : list Byte.byte :=
  [Byte.x42; Byte.x55; Byte.x53] ++ replicate 4093 Byte.x00.

Definition scenarioC_before : outcome BPM.BufferPoolManagerInstance :=
  '(got, bpm) ← BPM.NewPgImp 64 (BPM.init 1 2 4);
  match got with
  | None => Fault
  | Some (p0, frame_id) =>
      bpm ← BPM.write_data bpm frame_id scenarioC_payload;
      '(_, bpm) ← BPM.UnpinPgImp bpm p0 true;
      Done bpm
  end.

Definition scenarioC_state : BPM.BufferPoolManagerInstance :=
  match scenarioC_before with
  | Done bpm => bpm
  | _ => BPM.init 1 2 4
  end.

(** A pool of two frames: [new_page] gives page 0, which stays pinned, and
    page 1, to which the payload of scenario C is written and which is
    unpinned with [is_dirty = true]. *)
Definition poolP1 : BPM.BufferPoolManagerInstance :=
  match BPM.NewPgImp 64 (BPM.init 2 2 4) with
  | Done (_, bpm) => bpm
  | _ => BPM.init 2 2 4
  end.

Definition poolP2 : BPM.BufferPoolManagerInstance :=
  match BPM.NewPgImp 64 poolP1 with
  | Done (_, bpm) => bpm
  | _ => poolP1
  end.

Definition poolP3 : BPM.BufferPoolManagerInstance :=
  match BPM.write_data poolP2 1 scenarioC_payload with
  | Done bpm => bpm
  | _ => poolP2
  end.

Definition poolP : BPM.BufferPoolManagerInstance :=
  match BPM.UnpinPgImp poolP3 1 true with
  | Done (_, bpm) => bpm
  | _ => poolP3
  end.

(* ===================================================================== *)
(** * src/storage/page/b_plus_tree_leaf_page.cpp,
      src/storage/page/b_plus_tree_internal_page.cpp,
      src/storage/index/b_plus_tree.cpp *)
(* ===================================================================== *)

Module BPT.

(** Keys are fixed-width blobs ordered by the comparator; they are modelled
    by integers ([KeyType()] is 0) and so are record ids. *)

(** Modelled from the spec: b_plus_tree_page.h/.cpp are not part of the
    sources.  Leaf and internal pages "share a header (page id, parent id,
    size, max-size, page-type)"; a page is the root when its parent id is
    INVALID; the minimum sizes are those of the spec's invariant 5: a leaf
    has at least ceil((max-1)/2) entries, an internal page at least
    ceil(max/2) children.  The [size_] field is the length of [array_]:
    the list holds the slots in use.  How many slots the buffer under the
    page has is [page_room] below, and the operations of the tree that add
    entries to a page go through [store_node], which compares the two. *)
Inductive IndexPageType := INVALID_INDEX_PAGE | LEAF_PAGE | INTERNAL_PAGE.

Record Node := mkNode {
  page_type_ : IndexPageType;
  max_size_ : Z;
  parent_page_id_ : Z;
  page_id_ : Z;
  next_page_id_ : Z;          (* leaf pages only *)
  array_ : list (Z * Z)       (* (key, record id) or (key, child page id) *)
}.

Definition GetSize (n : Node) : Z := Z.of_nat (length (array_ n)).
Definition GetMaxSize (n : Node) : Z := max_size_ n.
Definition IsLeafPage (n : Node) : bool :=
  match page_type_ n with LEAF_PAGE => true | _ => false end.
Definition IsRootPage (n : Node) : bool := parent_page_id_ n =? INVALID_PAGE_ID.
Definition GetMinSize (n : Node) : Z :=
  if IsLeafPage n then max_size_ n / 2 else (max_size_ n + 1) / 2.

Definition SetParentPageId (parent : Z) (n : Node) : Node :=
  mkNode (page_type_ n) (max_size_ n) parent (page_id_ n) (next_page_id_ n) (array_ n).
Definition SetNextPageId (next : Z) (n : Node) : Node :=
  mkNode (page_type_ n) (max_size_ n) (parent_page_id_ n) (page_id_ n) next (array_ n).
Definition set_array (a : list (Z * Z)) (n : Node) : Node :=
  mkNode (page_type_ n) (max_size_ n) (parent_page_id_ n) (page_id_ n) (next_page_id_ n) a.

(** [array_[index]] for an index of type [int]; reading outside the
    entries in use is a [Fault] of the model. *)
Definition entry_at (n : Node) (index : Z) : outcome (Z * Z) :=
  if index <? 0 then Fault
  else match array_ n !! Z.to_nat index with
       | Some e => Done e
       | None => Fault
       end.
Definition KeyAt (n : Node) (index : Z) : outcome Z := fst <$> entry_at n index.
Definition ValueAt (n : Node) (index : Z) : outcome Z := snd <$> entry_at n index.

(** Shifting the entries from [i] on up by one and storing [e] at [i]. *)
Definition insert_at (i : nat) (e : Z * Z) (a : list (Z * Z)) : list (Z * Z) :=
  take i a ++ e :: drop i a.

(** ** Leaf pages *)

Definition leaf_Init (page_id parent_id max_size : Z) (n : Node) : Node :=
  mkNode LEAF_PAGE max_size parent_id page_id INVALID_PAGE_ID [].

(** The binary search of [FindKeyIndex]; the interval halves at every
    step, so [length a + 1] rounds are enough. *)
Fixpoint bsearch (rounds : nat) (a : list (Z * Z)) (key left right : Z) : Z :=
  match rounds with
  | O => left
  | S rounds' =>
      if left <=? right then
        let mid := left + (right - left) / 2 in
        match a !! Z.to_nat mid with
        | None => left
        | Some (k, _) =>
            if k =? key then -1
            else if k <? key then bsearch rounds' a key (mid + 1) right
                 else bsearch rounds' a key left (mid - 1)
        end
      else left
  end.

Definition FindKeyIndex (n : Node) (key : Z) : Z :=
  bsearch (S (length (array_ n))) (array_ n) key 0 (GetSize n - 1).

Definition leaf_Insert (n : Node) (key value : Z) : bool * Node :=
  if GetSize n >=? GetMaxSize n then (false, n)
  else
    let insert_index := FindKeyIndex n key in
    if insert_index =? -1 then (false, n)
    else (true, set_array (insert_at (Z.to_nat insert_index) (key, value) (array_ n)) n).

(** [MoveHalfTo]: the split key, the page and the recipient afterwards.
    The recipient is written from slot 0 on and its size grows by the
    number of entries moved; every call site passes a freshly initialised
    recipient. *)
Definition leaf_MoveHalfTo (n recipient : Node) : outcome (Z * Node * Node) :=
  let start_index := GetSize n / 2 in
  split_key ← KeyAt n start_index;
  let moved := drop (Z.to_nat start_index) (array_ n) in
  match array_ recipient with
  | [] => Done (split_key,
                set_array (take (Z.to_nat start_index) (array_ n)) n,
                set_array moved recipient)
  | _ => Fault
  end.

(** The loop of [FindKey], [GetValue], [InsertIntoLeaf] and [Remove]: the
    index and value of the first entry with this key. *)
Fixpoint find_key_from (a : list (Z * Z)) (key : Z) (i : Z) : option (Z * Z) :=
  match a with
  | [] => None
  | (k, v) :: a' => if k =? key then Some (i, v) else find_key_from a' key (i + 1)
  end.
Definition find_key (n : Node) (key : Z) : option (Z * Z) :=
  find_key_from (array_ n) key 0.

(** [RemoveAt], of leaf and internal pages alike. *)
Definition RemoveAt (index : Z) (n : Node) : Node :=
  if (index <? 0) || (index >=? GetSize n) then n
  else set_array (delete (Z.to_nat index) (array_ n)) n.

(** ** Internal pages *)

Definition internal_Init (page_id parent_id max_size : Z) (n : Node) : Node :=
  mkNode INTERNAL_PAGE max_size parent_id page_id (next_page_id_ n) [].

Definition SetKeyAt (index key : Z) (n : Node) : outcome Node :=
  '(_, v) ← entry_at n index;
  Done (set_array (<[Z.to_nat index := (key, v)]> (array_ n)) n).

(** [while (i < GetSize() && comparator(array_[i].first, key) < 0) i++],
    started at entry [i] of an array whose rest is [a]. *)
Fixpoint scan_lt (a : list (Z * Z)) (key : Z) (i : Z) : Z :=
  match a with
  | [] => i
  | (k, _) :: a' => if k <? key then scan_lt a' key (i + 1) else i
  end.

(** The same with [<= 0], as in [FindLeafPage]. *)
Fixpoint scan_le (a : list (Z * Z)) (key : Z) (i : Z) : Z :=
  match a with
  | [] => i
  | (k, _) :: a' => if k <=? key then scan_le a' key (i + 1) else i
  end.

Definition internal_Insert (n : Node) (key value : Z) : bool * Node :=
  if GetSize n >=? GetMaxSize n then (false, n)
  else if GetSize n =? 0 then (true, set_array [(0, value)] n)
  else
    let insert_index := scan_lt (drop 1 (array_ n)) key 1 in
    match array_ n !! Z.to_nat insert_index with
    | Some (k, _) =>
        if k =? key then (false, n)
        else (true, set_array (insert_at (Z.to_nat insert_index) (key, value) (array_ n)) n)
    | None =>
        (true, set_array (insert_at (Z.to_nat insert_index) (key, value) (array_ n)) n)
    end.

(** The first index whose value is [value], as the loops of
    [InsertNodeAfter], [FindValue] and [FindIndexInParent] find it. *)
Fixpoint find_value_from (a : list (Z * Z)) (value : Z) (i : Z) : Z :=
  match a with
  | [] => -1
  | (_, v) :: a' => if v =? value then i else find_value_from a' value (i + 1)
  end.
Definition FindValue (n : Node) (value : Z) : Z := find_value_from (array_ n) value 0.

Definition InsertNodeAfter (old_value new_key new_value : Z) (n : Node) : Node :=
  let old_index := FindValue n old_value in
  if old_index =? -1 then n
  else set_array (insert_at (Z.to_nat (old_index + 1)) (new_key, new_value) (array_ n)) n.

Definition invalidate_first_key (a : list (Z * Z)) : list (Z * Z) :=
  match a with
  | [] => []
  | (_, v) :: a' => (0, v) :: a'
  end.

Definition internal_MoveHalfTo (n recipient : Node) : outcome (Z * Node * Node) :=
  let start_index := Z.max 1 (GetSize n / 2) in
  split_key ← KeyAt n start_index;
  let moved := drop (Z.to_nat start_index) (array_ n) in
  match array_ recipient with
  | [] => Done (split_key,
                set_array (take (Z.to_nat start_index) (array_ n)) n,
                set_array (invalidate_first_key moved) recipient)
  | _ => Fault
  end.

Definition PopulateNewRoot (left_value key right_value : Z) (n : Node) : Node :=
  set_array [(0, left_value); (key, right_value)] n.

(** ** The room of a page *)

(** A page object is laid over the data buffer of its frame
    ([reinterpret_cast] of [GetData()]): [array_] is what follows the page
    header there, with room for [LEAF_PAGE_SIZE] pairs in a leaf page and
    for [INTERNAL_PAGE_SIZE] in an internal page.  The declarations that fix
    these two numbers for a key type (the page size, the page headers, the
    widths of keys, record ids and page ids) are not part of the sources:
    they are parameters of the model. *)
Class PageLayout := mkLayout {
  LEAF_PAGE_SIZE : Z;
  INTERNAL_PAGE_SIZE : Z
}.

Definition page_room `{PageLayout} (n : Node) : Z :=
  if IsLeafPage n then LEAF_PAGE_SIZE else INTERNAL_PAGE_SIZE.

(** [Insert], [InsertNodeAfter], [MoveHalfTo] and [PopulateNewRoot] store
    into the slots below the new size and never look at the room there is
    ([Insert] compares the size with [max_size_] only): a page with more
    entries than it has room for lies partly behind its buffer. *)
Definition in_page `{PageLayout} (n : Node) : bool := GetSize n <=? page_room n.

(** ** The buffer pool as the tree sees it *)

(** The tree reaches its pages through the [BufferPoolManager] interface.
    Here the pool is large enough that no page is ever evicted, so that no
    [FetchPage] or [NewPage] returns [nullptr] and a [Page *] is the page
    id: a page stays in its frame from [NewPage] until a [DeletePage] that
    finds it unpinned.  Fetching or dereferencing a page that is not in the
    pool any more is a [Fault] of the model (its bytes would come from the
    disk manager). *)
Record Frame := mkFrame {
  node_ : Node;
  pin_count_ : Z;
  is_dirty_ : bool
}.

Inductive bpm_call :=
  | CallNewPage (page_id : Z)
  | CallFetchPage (page_id : Z)
  | CallUnpinPage (page_id : Z) (is_dirty : bool)
  | CallDeletePage (page_id : Z).

(** Modelled from the spec: the header page is an external collaborator
    with insert_record / update_record; the tree's calls on it are
    recorded.  Its page (id 0) is allocated before the tree is used, so
    tree pages have ids from 1 on. *)
Inductive header_call :=
  | InsertRecord (root_id : Z)
  | UpdateRecord (root_id : Z).

Record BPlusTree := mkTree {
  root_page_id_ : Z;
  leaf_max_size_ : Z;
  internal_max_size_ : Z;
  pool_ : gmap Z Frame;
  pool_next_page_id_ : Z;
  calls_ : list bpm_call;
  header_ : list header_call
}.

(** Constructor, on a pool holding the header page only. *)
Definition init (leaf_max_size internal_max_size : Z) : BPlusTree :=
  mkTree INVALID_PAGE_ID leaf_max_size internal_max_size ∅ 1 [] [].

(** Operations thread the tree (with its pool) and may fault. *)
Definition M (A : Type) : Type := BPlusTree → outcome (A * BPlusTree).

#[global] Instance M_ret : MRet M := λ A a t, Done (a, t).
#[global] Instance M_bind : MBind M := λ A B f m t,
  match m t with
  | Done (a, t') => f a t'
  | OutOfFuel => OutOfFuel
  | Fault => Fault
  | Overflow => Overflow
  end.

Definition lift {A} (o : outcome A) : M A := λ t, (λ a, (a, t)) <$> o.
Definition out_of_fuel {A} : M A := λ _, OutOfFuel.
Definition get : M BPlusTree := λ t, Done (t, t).

Definition set_pool (t : BPlusTree) (pool : gmap Z Frame) : BPlusTree :=
  mkTree (root_page_id_ t) (leaf_max_size_ t) (internal_max_size_ t) pool
         (pool_next_page_id_ t) (calls_ t) (header_ t).
Definition log_call (c : bpm_call) (t : BPlusTree) : BPlusTree :=
  mkTree (root_page_id_ t) (leaf_max_size_ t) (internal_max_size_ t)
         (pool_ t) (pool_next_page_id_ t) (calls_ t ++ [c]) (header_ t).
Definition set_root (root : Z) : M unit := λ t,
  Done (tt, mkTree root (leaf_max_size_ t) (internal_max_size_ t) (pool_ t)
                   (pool_next_page_id_ t) (calls_ t) (header_ t)).

Definition zero_node : Node := mkNode INVALID_INDEX_PAGE 0 0 0 0 [].

Definition NewPage : M Z := λ t,
  let page_id := pool_next_page_id_ t in
  Done (page_id,
        mkTree (root_page_id_ t) (leaf_max_size_ t) (internal_max_size_ t)
               (<[page_id := mkFrame zero_node 1 false]> (pool_ t))
               (page_id + 1) (calls_ t ++ [CallNewPage page_id]) (header_ t)).

Definition FetchPage (page_id : Z) : M unit := λ t,
  let t := log_call (CallFetchPage page_id) t in
  match pool_ t !! page_id with
  | Some fr =>
      Done (tt, set_pool t (<[page_id := mkFrame (node_ fr) (pin_count_ fr + 1)
                                                (is_dirty_ fr)]> (pool_ t)))
  | None => Fault
  end.

Definition UnpinPage (page_id : Z) (is_dirty : bool) : M bool := λ t,
  let t := log_call (CallUnpinPage page_id is_dirty) t in
  match pool_ t !! page_id with
  | None => Done (false, t)
  | Some fr =>
      if pin_count_ fr <=? 0 then Done (false, t)
      else Done (true,
                 set_pool t (<[page_id := mkFrame (node_ fr) (pin_count_ fr - 1)
                                 (if is_dirty then true else is_dirty_ fr)]>
                               (pool_ t)))
  end.

Definition DeletePage (page_id : Z) : M bool := λ t,
  let t := log_call (CallDeletePage page_id) t in
  match pool_ t !! page_id with
  | None => Done (true, t)
  | Some fr =>
      if pin_count_ fr >? 0 then Done (false, t)
      else Done (true, set_pool t (delete page_id (pool_ t)))
  end.

(** Reading and writing the node behind a page pointer. *)
Definition node_at (page : Z) : M Node := λ t,
  match pool_ t !! page with
  | Some fr => Done (node_ fr, t)
  | None => Fault
  end.

Definition set_node (page : Z) (n : Node) : M unit := λ t,
  match pool_ t !! page with
  | Some fr =>
      Done (tt, set_pool t (<[page := mkFrame n (pin_count_ fr) (is_dirty_ fr)]> (pool_ t)))
  | None => Fault
  end.

Definition update_node (page : Z) (f : Node → Node) : M unit :=
  n ← node_at page; set_node page (f n).

Section layout.
Context {layout : PageLayout}.

(** The page as one of the operations that add entries leaves it.  Where
    the page has grown, entries were stored into new slots, and a store
    past the buffer is a [Fault] of the model. *)
Definition store_node (page : Z) (n : Node) : M unit :=
  old ← node_at page;
  if (GetSize n <=? GetSize old) || in_page n then set_node page n
  else λ _, Fault.

Definition store_update (page : Z) (f : Node → Node) : M unit :=
  n ← node_at page; store_node page (f n).

Definition UpdateRootPageId (insert_record : Z) : M unit := λ t,
  let c := if insert_record =? 0 then UpdateRecord (root_page_id_ t)
           else InsertRecord (root_page_id_ t) in
  Done (tt, mkTree (root_page_id_ t) (leaf_max_size_ t) (internal_max_size_ t)
                   (pool_ t) (pool_next_page_id_ t) (calls_ t) (header_ t ++ [c])).

(** ** src/storage/index/b_plus_tree.cpp *)

Definition IsEmpty (t : BPlusTree) : bool := root_page_id_ t =? INVALID_PAGE_ID.

(** The loop of [FindLeafPage], entered with [page] pinned. *)
Fixpoint descend (fuel : nat) (page key : Z) : M Z :=
  match fuel with
  | O => out_of_fuel
  | S fuel' =>
      node ← node_at page;
      if IsLeafPage node then mret page
      else
        let index := scan_le (drop 1 (array_ node)) key 1 in
        child_page_id ← lift (ValueAt node (index - 1));
        FetchPage child_page_id;;
        UnpinPage page false;;
        descend fuel' child_page_id key
  end.

Definition FindLeafPage (fuel : nat) (key : Z) : M (option Z) :=
  t ← get;
  if IsEmpty t then mret None
  else
    FetchPage (root_page_id_ t);;
    leaf ← descend fuel (root_page_id_ t) key;
    mret (Some leaf).

Definition GetValue (fuel : nat) (key : Z) : M (option Z) :=
  t ← get;
  if IsEmpty t then mret None
  else
    leaf_page ← FindLeafPage fuel key;
    match leaf_page with
    | None => mret None
    | Some leaf_page =>
        leaf_node ← node_at leaf_page;
        match find_key leaf_node key with
        | Some (_, v) => UnpinPage leaf_page false;; mret (Some v)
        | None => UnpinPage leaf_page false;; mret None
        end
    end.

Definition StartNewTree (key value : Z) : M bool :=
  t ← get;
  new_page_id ← NewPage;
  update_node new_page_id (leaf_Init new_page_id INVALID_PAGE_ID (leaf_max_size_ t));;
  root_node ← node_at new_page_id;
  let '(success, root_node) := leaf_Insert root_node key value in
  store_node new_page_id root_node;;
  if negb success then
    UnpinPage new_page_id false;;
    DeletePage new_page_id;;
    mret false
  else
    set_root new_page_id;;
    UpdateRootPageId 1;;
    UnpinPage new_page_id true;;
    mret true.

(** The loop of [Split] and of [Coalesce] giving the children in [values]
    their new parent. *)
Fixpoint reparent (values : list Z) (parent_id : Z) : M unit :=
  match values with
  | [] => mret tt
  | child_page_id :: rest =>
      FetchPage child_page_id;;
      update_node child_page_id (SetParentPageId parent_id);;
      UnpinPage child_page_id true;;
      reparent rest parent_id
  end.

(** [Split]: the pointer to the new node and the split key. *)
Definition Split (node : Z) : M (Z * Z) :=
  t ← get;
  new_page_id ← NewPage;
  n ← node_at node;
  if IsLeafPage n then
    update_node new_page_id (leaf_Init new_page_id (parent_page_id_ n) (leaf_max_size_ t));;
    update_node new_page_id (SetNextPageId (next_page_id_ n));;
    update_node node (SetNextPageId new_page_id);;
    leaf_node ← node_at node;
    new_leaf ← node_at new_page_id;
    '(split_key, leaf_node, new_leaf) ← lift (leaf_MoveHalfTo leaf_node new_leaf);
    set_node node leaf_node;;
    store_node new_page_id new_leaf;;
    mret (new_page_id, split_key)
  else
    update_node new_page_id
      (internal_Init new_page_id (parent_page_id_ n) (internal_max_size_ t));;
    new_internal ← node_at new_page_id;
    '(split_key, internal_node, new_internal) ← lift (internal_MoveHalfTo n new_internal);
    set_node node internal_node;;
    store_node new_page_id new_internal;;
    reparent (array_ new_internal).*2 new_page_id;;
    mret (new_page_id, split_key).

Fixpoint InsertIntoParent (fuel : nat) (old_node key new_node : Z) : M unit :=
  match fuel with
  | O => out_of_fuel
  | S fuel' =>
      t ← get;
      old ← node_at old_node;
      new ← node_at new_node;
      if IsRootPage old then
        new_root_id ← NewPage;
        update_node new_root_id
          (internal_Init new_root_id INVALID_PAGE_ID (internal_max_size_ t));;
        store_update new_root_id (PopulateNewRoot (page_id_ old) key (page_id_ new));;
        update_node old_node (SetParentPageId new_root_id);;
        update_node new_node (SetParentPageId new_root_id);;
        set_root new_root_id;;
        UpdateRootPageId 1;;
        UnpinPage new_root_id true;;
        mret tt
      else
        let parent_id := parent_page_id_ old in
        FetchPage parent_id;;
        store_update parent_id (InsertNodeAfter (page_id_ old) key (page_id_ new));;
        update_node new_node (SetParentPageId parent_id);;
        parent ← node_at parent_id;
        (if GetSize parent >=? internal_max_size_ t then
           '(new_parent, split_key) ← Split parent_id;
           InsertIntoParent fuel' parent_id split_key new_parent;;
           np ← node_at new_parent;
           UnpinPage (page_id_ np) true;;
           mret tt
         else mret tt);;
        UnpinPage parent_id true;;
        mret tt
  end.

Definition InsertIntoLeaf (fuel : nat) (key value : Z) : M bool :=
  t ← get;
  leaf_page ← FindLeafPage fuel key;
  match leaf_page with
  | None => mret false
  | Some leaf_page =>
      leaf_node ← node_at leaf_page;
      match find_key leaf_node key with
      | Some _ => UnpinPage leaf_page false;; mret false
      | None =>
          let '(success, leaf_node) := leaf_Insert leaf_node key value in
          store_node leaf_page leaf_node;;
          if negb success then UnpinPage leaf_page false;; mret false
          else
            (if GetSize leaf_node >=? leaf_max_size_ t then
               '(new_leaf, split_key) ← Split leaf_page;
               InsertIntoParent fuel leaf_page split_key new_leaf;;
               nl ← node_at new_leaf;
               UnpinPage (page_id_ nl) true;;
               mret tt
             else mret tt);;
            UnpinPage leaf_page true;;
            mret true
      end
  end.

Definition Insert (fuel : nat) (key value : Z) : M bool :=
  t ← get;
  if IsEmpty t then StartNewTree key value
  else InsertIntoLeaf fuel key value.

(** [FindIndexInParent]. *)
Definition FindIndexInParent (node : Z) : M Z :=
  n ← node_at node;
  FetchPage (parent_page_id_ n);;
  parent ← node_at (parent_page_id_ n);
  let i := FindValue parent (page_id_ n) in
  UnpinPage (page_id_ parent) false;;
  mret i.

(** [FindSibling]: [None] where the source returns false, else the sibling
    pointer and [is_prev]. *)
Definition FindSibling (node : Z) : M (option (Z * bool)) :=
  n ← node_at node;
  let parent_page := parent_page_id_ n in
  FetchPage parent_page;;
  index ← FindIndexInParent node;
  if index =? -1 then UnpinPage parent_page false;; mret None
  else
    parent ← node_at parent_page;
    if index >? 0 then
      sibling_id ← lift (ValueAt parent (index - 1));
      FetchPage sibling_id;;
      UnpinPage parent_page false;;
      mret (Some (sibling_id, true))
    else if index <? GetSize parent - 1 then
      sibling_id ← lift (ValueAt parent (index + 1));
      FetchPage sibling_id;;
      UnpinPage parent_page false;;
      mret (Some (sibling_id, false))
    else
      UnpinPage parent_page false;;
      mret None.

(** The loop of [Coalesce] inserting entries one by one into the
    neighbour. *)
Fixpoint insert_all (insert : Node → Z → Z → bool * Node) (neighbor : Z)
    (entries : list (Z * Z)) : M unit :=
  match entries with
  | [] => mret tt
  | (k, v) :: rest =>
      nb ← node_at neighbor;
      store_node neighbor (snd (insert nb k v));;
      insert_all insert neighbor rest
  end.

Definition Redistribute (neighbor_node node parent : Z) (index : Z) : M unit :=
  n ← node_at node;
  if negb (IsLeafPage n) then mret tt
  else
    leaf_neighbor ← node_at neighbor_node;
    if index >? 0 then
      let last_index := GetSize leaf_neighbor - 1 in
      '(borrowed_key, borrowed_value) ← lift (entry_at leaf_neighbor last_index);
      update_node neighbor_node (RemoveAt last_index);;
      leaf_node ← node_at node;
      store_node node (snd (leaf_Insert leaf_node borrowed_key borrowed_value));;
      leaf_node ← node_at node;
      first_key ← lift (KeyAt leaf_node 0);
      p ← node_at parent;
      p ← lift (SetKeyAt index first_key p);
      set_node parent p
    else
      '(borrowed_key, borrowed_value) ← lift (entry_at leaf_neighbor 0);
      update_node neighbor_node (RemoveAt 0);;
      leaf_node ← node_at node;
      store_node node (snd (leaf_Insert leaf_node borrowed_key borrowed_value));;
      leaf_neighbor ← node_at neighbor_node;
      first_key ← lift (KeyAt leaf_neighbor 0);
      p ← node_at parent;
      p ← lift (SetKeyAt (index + 1) first_key p);
      set_node parent p.

Definition AdjustRoot (old_root_node : Z) : M unit :=
  old_root ← node_at old_root_node;
  if IsLeafPage old_root && (GetSize old_root =? 0) then
    set_root INVALID_PAGE_ID;;
    UpdateRootPageId 0;;
    DeletePage (page_id_ old_root);;
    mret tt
  else if negb (IsLeafPage old_root) && (GetSize old_root =? 1) then
    new_root_id ← lift (ValueAt old_root 0);
    set_root new_root_id;;
    FetchPage new_root_id;;
    update_node new_root_id (SetParentPageId INVALID_PAGE_ID);;
    UpdateRootPageId 0;;
    UnpinPage new_root_id true;;
    DeletePage (page_id_ old_root);;
    mret tt
  else mret tt.

(** [Coalesce], with the recursive call of [CoalesceOrRedistribute] passed
    in. *)
Definition Coalesce (rec : Z → M unit) (neighbor_node node parent : Z) (index : Z)
  : M unit :=
  n ← node_at node;
  (if IsLeafPage n then
     insert_all leaf_Insert neighbor_node (array_ n);;
     update_node neighbor_node (SetNextPageId (next_page_id_ n))
   else
     internal_parent ← node_at parent;
     parent_key ← lift (KeyAt internal_parent index);
     first_child ← lift (ValueAt n 0);
     insert_all internal_Insert neighbor_node ((parent_key, first_child) :: drop 1 (array_ n));;
     internal_neighbor ← node_at neighbor_node;
     reparent (array_ n).*2 (page_id_ internal_neighbor));;
  update_node parent (RemoveAt index);;
  internal_parent ← node_at parent;
  (if (GetSize internal_parent <? GetMinSize internal_parent)
      && negb (IsRootPage internal_parent)
   then rec parent
   else mret tt);;
  n ← node_at node;
  UnpinPage (page_id_ n) true;;
  DeletePage (page_id_ n);;
  mret tt.

Fixpoint CoalesceOrRedistribute (fuel : nat) (node : Z) : M unit :=
  match fuel with
  | O => out_of_fuel
  | S fuel' =>
      t ← get;
      n ← node_at node;
      if IsRootPage n then AdjustRoot node
      else
        found ← FindSibling node;
        match found : option (Z * bool) with
        | None => mret tt
        | Some (sibling, is_prev) =>
            let parent := parent_page_id_ n in
            FetchPage parent;;
            node_index ← FindIndexInParent node;
            if node_index =? -1 then UnpinPage parent false;; mret tt
            else
              n ← node_at node;
              sib ← node_at sibling;
              if GetSize n + GetSize sib
                 <=? (if IsLeafPage n then leaf_max_size_ t else internal_max_size_ t)
              then
                if (is_prev : bool)
                then Coalesce (CoalesceOrRedistribute fuel') sibling node parent node_index
                else Coalesce (CoalesceOrRedistribute fuel') node sibling parent (node_index - 1)
              else
                Redistribute sibling node parent node_index;;
                UnpinPage parent true;;
                mret tt
        end
  end.

Definition Remove (fuel : nat) (key : Z) : M unit :=
  t ← get;
  if IsEmpty t then mret tt
  else
    leaf_page ← FindLeafPage fuel key;
    match leaf_page with
    | None => mret tt
    | Some leaf_page =>
        leaf_node ← node_at leaf_page;
        match find_key leaf_node key with
        | None => UnpinPage leaf_page false;; mret tt
        | Some (index, _) =>
            update_node leaf_page (RemoveAt index);;
            leaf_node ← node_at leaf_page;
            if GetSize leaf_node <? GetMinSize leaf_node
            then CoalesceOrRedistribute fuel leaf_page
            else UnpinPage leaf_page true;; mret tt
        end
    end.

(** A run of inserts, then of removes, every call with the same fuel. *)
Fixpoint insert_keys (fuel : nat) (kvs : list (Z * Z)) : M unit :=
  match kvs with
  | [] => mret tt
  | (k, v) :: rest => Insert fuel k v;; insert_keys fuel rest
  end.

Fixpoint remove_keys (fuel : nat) (keys : list Z) : M unit :=
  match keys with
  | [] => mret tt
  | k :: rest => Remove fuel k;; remove_keys fuel rest
  end.

End layout.

(** A frame with one more pin, as [FetchPage] leaves it. *)
Definition pin (fr : Frame) : Frame :=
  mkFrame (node_ fr) (pin_count_ fr + 1) (is_dirty_ fr).

(** The calls of a traversal that changes nothing: fetches, and unpins
    that do not mark the page dirty. *)
Definition clean_call (c : bpm_call) : Prop :=
  match c with
  | CallFetchPage _ => True
  | CallUnpinPage _ is_dirty => is_dirty = false
  | _ => False
  end.

(** Everything of the tree but the log of buffer pool calls and the pool
    itself. *)
Definition same_fields (t t' : BPlusTree) : Prop :=
  root_page_id_ t' = root_page_id_ t ∧
  leaf_max_size_ t' = leaf_max_size_ t ∧
  internal_max_size_ t' = internal_max_size_ t ∧
  pool_next_page_id_ t' = pool_next_page_id_ t ∧
  header_ t' = header_ t.
Definition pins_nonneg (base : gmap Z Frame) : Prop :=
  ∀ p fr, base !! p = Some fr → 0 ≤ pin_count_ fr.


(** ** What the tree looks like, apart from pins, dirty flags and logs *)

Record View := mkView {
  v_root : Z;
  v_leaf_max : Z;
  v_internal_max : Z;
  v_nodes : gmap Z Node;
  v_next : Z
}.

Definition view (t : BPlusTree) : View :=
  mkView (root_page_id_ t) (leaf_max_size_ t) (internal_max_size_ t)
         (node_ <$> pool_ t) (pool_next_page_id_ t).

Definition with_nodes (v : View) (m : gmap Z Node) : View :=
  mkView (v_root v) (v_leaf_max v) (v_internal_max v) m (v_next v).
Definition with_root (v : View) (r : Z) : View :=
  mkView r (v_leaf_max v) (v_internal_max v) (v_nodes v) (v_next v).
Definition with_next (v : View) (n : Z) : View :=
  mkView (v_root v) (v_leaf_max v) (v_internal_max v) (v_nodes v) n.

(** [runs m v a v']: from every tree that looks like [v] the operation [m]
    completes, returns [a] and leaves a tree that looks like [v']. *)
Definition runs {A} (m : M A) (v : View) (a : A) (v' : View) : Prop :=
  ∀ t, view t = v → ∃ t', m t = Done (a, t') ∧ view t' = v'.

(** ** The search tree behind the pages *)

(** A key range [lo, hi) with either end possibly open. *)
Abbreviation bound := (option Z).
Definition above (lo : bound) (k : Z) : Prop :=
  match lo with Some l => l ≤ k | None => True end.
Definition below (hi : bound) (k : Z) : Prop :=
  match hi with Some h => k < h | None => True end.
Definition in_range (lo hi : bound) (k : Z) : Prop := above lo k ∧ below hi k.

Definition first_key (a : list (Z * Z)) (hi : bound) : bound :=
  match a with [] => hi | (k, _) :: _ => Some k end.

(** The children of an internal page that covers [lo, hi), each with the
    range its separators give it; the key of the first entry is unused. *)
Fixpoint child_bounds (lo hi : bound) (a : list (Z * Z)) : list (Z * (bound * bound)) :=
  match a with
  | [] => []
  | (_, c) :: a' => (c, (lo, first_key a' hi)) :: child_bounds (first_key a' hi) hi a'
  end.

(** The value a leaf's loop over its entries finds for a key. *)
Definition lookup_key (a : list (Z * Z)) (key : Z) : option Z :=
  snd <$> find_key_from a key 0.

(** Ghost description of the tree: the range and the height of every page
    that belongs to it. *)
Abbreviation shape := (bound * bound * nat)%type.
Abbreviation shapes := (gmap Z shape).

Definition child_ok (G : shapes) (nodes : gmap Z Node) (p : Z) (h : nat)
    (cb : Z * (bound * bound)) : Prop :=
  G !! cb.1 = Some (cb.2.1, cb.2.2, h) ∧
  parent_page_id_ <$> nodes !! cb.1 = Some p.

Definition node_ok (lm : Z) (G : shapes) (nodes : gmap Z Node) (p : Z)
    (s : shape) (n : Node) : Prop :=
  page_id_ n = p ∧
  match s with
  | (lo, hi, O) =>
      page_type_ n = LEAF_PAGE ∧ max_size_ n = lm ∧
      StronglySorted Z.lt (array_ n).*1 ∧
      Forall (in_range lo hi) (array_ n).*1 ∧
      Z.of_nat (length (array_ n)) < lm
  | (lo, hi, S h) =>
      page_type_ n = INTERNAL_PAGE ∧ array_ n ≠ [] ∧ NoDup (array_ n).*2 ∧
      Forall (child_ok G nodes p h) (child_bounds lo hi (array_ n))
  end.

Definition attached (G : shapes) (nodes : gmap Z Node) (root p : Z) : Prop :=
  p = root ∨
  ∃ P lo hi h pn,
    G !! P = Some (lo, hi, S h) ∧ nodes !! P = Some pn ∧ p ∈ (array_ pn).*2.

(** The invariant of the pages of a tree holding the map [M], of height
    [H]; [ex_ok] is a page whose own description is waived and [ex_att] a
    page not yet linked from its parent (both during a split). *)
Record shape_inv (lm : Z) (nodes : gmap Z Node) (next root : Z) (G : shapes)
    (M : gmap Z Z) (H : nat) (ex_ok ex_att : option Z) : Prop := {
  sh_nodes : ∀ p s, G !! p = Some s → Some p ≠ ex_ok →
    ∃ n, nodes !! p = Some n ∧ node_ok lm G nodes p s n;
  sh_ids : ∀ p, is_Some (nodes !! p) → 1 ≤ p < next;
  sh_height : ∀ p lo hi h, G !! p = Some (lo, hi, h) → (h ≤ H)%nat;
  sh_attached : ∀ p, is_Some (G !! p) → Some p ≠ ex_att → attached G nodes root p;
  sh_leaves : ∀ p lo hi n k, G !! p = Some (lo, hi, O) → nodes !! p = Some n →
    in_range lo hi k → lookup_key (array_ n) k = M !! k;
  sh_disjoint : ∀ p q lo hi lo' hi' k,
    G !! p = Some (lo, hi, O) → G !! q = Some (lo', hi', O) →
    in_range lo hi k → in_range lo' hi' k → p = q
}.

Definition root_ok (nodes : gmap Z Node) (root : Z) (G : shapes) (H : nat) : Prop :=
  G !! root = Some (None, None, H) ∧
  parent_page_id_ <$> nodes !! root = Some INVALID_PAGE_ID.

Definition tree_inv (v : View) (G : shapes) (M : gmap Z Z) (H : nat) : Prop :=
  2 ≤ v_leaf_max v ∧
  shape_inv (v_leaf_max v) (v_nodes v) (v_next v) (v_root v) G M H None None ∧
  root_ok (v_nodes v) (v_root v) G H.

(** How the parent [P] of a page [old] that has just been split describes
    its children: [old] still with the range [lo, hi) it had before. *)
Definition parent_link (G : shapes) (nodes : gmap Z Node) (old : Z) (lo hi : bound)
    (h : nat) (P : Z) (cb : Z * (bound * bound)) : Prop :=
  if decide (cb.1 = old) then cb.2 = (lo, hi) else child_ok G nodes P h cb.

(** The state between [Split] and [InsertIntoParent]: [old] keeps the keys
    below [s] and [new], which no page points to yet, has the others. *)
Record pending (v : View) (G : shapes) (M : gmap Z Z) (H : nat) (old s new : Z)
    (lo hi : bound) (h : nat) : Prop := {
  pd_lm : 2 ≤ v_leaf_max v;
  pd_old : G !! old = Some (lo, Some s, h);
  pd_new : G !! new = Some (Some s, hi, h);
  pd_fresh : ∀ p l r h' n, G !! p = Some (l, r, S h') → v_nodes v !! p = Some n →
    new ∉ (array_ n).*2;
  pd_parent :
    (old = v_root v ∧ lo = None ∧ hi = None ∧ h = H ∧
     parent_page_id_ <$> v_nodes v !! old = Some INVALID_PAGE_ID ∧
     shape_inv (v_leaf_max v) (v_nodes v) (v_next v) (v_root v) G M H None (Some new))
    ∨ (∃ P plo phi pn,
        parent_page_id_ <$> v_nodes v !! old = Some P ∧
        G !! P = Some (plo, phi, S h) ∧ v_nodes v !! P = Some pn ∧
        page_id_ pn = P ∧ page_type_ pn = INTERNAL_PAGE ∧ NoDup (array_ pn).*2 ∧
        old ∈ (array_ pn).*2 ∧
        Forall (parent_link G (v_nodes v) old lo hi h P)
               (child_bounds plo phi (array_ pn)) ∧
        root_ok (v_nodes v) (v_root v) G H ∧
        shape_inv (v_leaf_max v) (v_nodes v) (v_next v) (v_root v) G M H
                  (Some P) (Some new))
}.

(** The pages after the loop of [Split] has given the children in
    [values] their new parent. *)
Definition reparent_map (values : list Z) (parent_id : Z) (m : gmap Z Node)
  : gmap Z Node :=
  foldl (λ m c, alter (SetParentPageId parent_id) c m) m values.

(** The pages have room for the sizes the tree is configured with: a leaf
    page for [leaf_max_size] pairs, an internal page for
    [internal_max_size] entries and for three in any case (one more than the
    two of a new root). *)
Definition sizes_fit `{PageLayout} (v : View) : Prop :=
  v_leaf_max v ≤ LEAF_PAGE_SIZE ∧ v_internal_max v ≤ INTERNAL_PAGE_SIZE ∧
  3 ≤ INTERNAL_PAGE_SIZE.

(** Every internal page has room for one more entry. *)
Definition roomy `{PageLayout} (nodes : gmap Z Node) : Prop :=
  ∀ p n, nodes !! p = Some n → page_type_ n = INTERNAL_PAGE →
    Z.of_nat (length (array_ n)) < INTERNAL_PAGE_SIZE.

(** A tree holding exactly the map [M], on pages with room for its sizes:
    still empty, or with pages that satisfy the invariant and a height below
    the number of keys. *)
Definition tree_state `{PageLayout} (v : View) (M : gmap Z Z) : Prop :=
  sizes_fit v ∧ roomy (v_nodes v) ∧
  ((M = ∅ ∧ v_root v = INVALID_PAGE_ID ∧ 2 ≤ v_leaf_max v ∧ 1 ≤ v_next v ∧
    ∀ p, is_Some (v_nodes v !! p) → 1 ≤ p < v_next v)
   ∨ (∃ G H, tree_inv v G M H ∧ (H < size M)%nat)).


(** ** src/storage/index/index_iterator.cpp *)

(** An iterator: the leaf whose page it holds pinned ([None] for [nullptr]),
    the index into it and the page id it unpins ([page_id_] in the source,
    a name the pages have taken here). *)
Record IndexIterator := mkIter {
  leaf_ : option Z;
  index_ : Z;
  iter_page_id_ : Z
}.

(** [IndexIterator()], which [End] returns. *)
Definition End : IndexIterator := mkIter None 0 INVALID_PAGE_ID.

(** [IndexIterator(bpm, leaf, index)]. *)
Definition make_iterator (leaf : Z) (index : Z) : M IndexIterator :=
  n ← node_at leaf;
  mret (mkIter (Some leaf) index (page_id_ n)).

(** The loop of [Begin()], entered with [page] pinned. *)
Fixpoint leftmost (fuel : nat) (page : Z) : M Z :=
  match fuel with
  | O => out_of_fuel
  | S fuel' =>
      node ← node_at page;
      if IsLeafPage node then mret page
      else
        next_page_id ← lift (ValueAt node 0);
        UnpinPage page false;;
        FetchPage next_page_id;;
        leftmost fuel' next_page_id
  end.

Definition Begin (fuel : nat) : M IndexIterator :=
  t ← get;
  if IsEmpty t then mret End
  else
    FetchPage (root_page_id_ t);;
    leaf ← leftmost fuel (root_page_id_ t);
    make_iterator leaf 0.

(** [Begin(key)]. *)
Definition Begin_at (fuel : nat) (key : Z) : M IndexIterator :=
  t ← get;
  if IsEmpty t then mret End
  else
    leaf_page ← FindLeafPage fuel key;
    match leaf_page with
    | None => mret End
    | Some leaf_page =>
        leaf ← node_at leaf_page;
        make_iterator leaf_page (scan_lt (array_ leaf) key 0)
    end.

Definition IsEnd (it : IndexIterator) : M bool :=
  match leaf_ it with
  | None => mret true
  | Some leaf =>
      n ← node_at leaf;
      mret ((index_ it >=? GetSize n) && (next_page_id_ n =? INVALID_PAGE_ID))
  end.

(** [operator*]; [None] where the source throws. *)
Definition deref (it : IndexIterator) : M (option (Z * Z)) :=
  match leaf_ it with
  | None => mret None
  | Some leaf =>
      n ← node_at leaf;
      if index_ it >=? GetSize n then mret None
      else e ← lift (entry_at n (index_ it)); mret (Some e)
  end.

(** [operator++]. *)
Definition advance (it : IndexIterator) : M IndexIterator :=
  match leaf_ it with
  | None => mret it
  | Some leaf =>
      let index := index_ it + 1 in
      n ← node_at leaf;
      if index >=? GetSize n then
        let next_page_id := next_page_id_ n in
        UnpinPage (iter_page_id_ it) false;;
        if next_page_id =? INVALID_PAGE_ID then mret End
        else
          FetchPage next_page_id;;
          mret (mkIter (Some next_page_id) 0 next_page_id)
      else mret (mkIter (leaf_ it) index (iter_page_id_ it))
  end.

(** [~IndexIterator]. *)
Definition destroy (it : IndexIterator) : M unit :=
  match leaf_ it with
  | None => mret tt
  | Some _ => UnpinPage (iter_page_id_ it) false;; mret tt
  end.

(** [operator==]. *)
Definition iter_eq (a b : IndexIterator) : bool :=
  match leaf_ a, leaf_ b with
  | None, None => true
  | None, Some _ | Some _, None => false
  | Some _, Some _ => (iter_page_id_ a =? iter_page_id_ b) && (index_ a =? index_ b)
  end.

(** The loop [for (; it != End(); ++it) out.push_back( *it )] of a caller
    that scans the index; [None] when [operator*] throws.  The loop ends
    with an iterator equal to [End()], whose destructor does nothing. *)
Fixpoint scan (fuel : nat) (it : IndexIterator) : M (option (list (Z * Z))) :=
  match fuel with
  | O => out_of_fuel
  | S fuel' =>
      if iter_eq it End then mret (Some [])
      else
        e ← deref it;
        match e with
        | None => mret None
        | Some e =>
            it ← advance it;
            rest ← scan fuel' it;
            mret (cons e <$> rest)
        end
  end.

(** The leaves from page [p] on, in the order of their next pointers. *)
Fixpoint leaf_chain (pool : gmap Z Frame) (p : Z) (leaves : list Node) : Prop :=
  match leaves with
  | [] => p = INVALID_PAGE_ID
  | n :: rest =>
      p ≠ INVALID_PAGE_ID ∧ node_ <$> pool !! p = Some n ∧
      leaf_chain pool (next_page_id_ n) rest
  end.

End BPT.

(** The pages of the scenarios have room for 32 entries of either kind.
    That is less than a page of 4 KiB (the page size of the spec) offers for
    any of the keys the sources instantiate, the widest of which has 64
    bytes, and more than the scenarios need, which run with maximal sizes
    of at most 6. *)
Definition scenario_layout : BPT.PageLayout := BPT.mkLayout 32 32.

(** Pages with room for 4 entries only, to show a page overflow. *)
Definition small_layout : BPT.PageLayout := BPT.mkLayout 4 4.

(** Scenario E of the specification: [leaf_max_size = 3],
    [internal_max_size = 3], keys 1..10 inserted in order, the record id of
    a key being the key. *)
Definition scenarioE : outcome (unit * BPT.BPlusTree) :=
  BPT.insert_keys (layout := scenario_layout) 64
    ((λ k, (k, k)) <$> seqZ 1 10) (BPT.init 3 3).

Definition scenarioE_tree : BPT.BPlusTree :=
  match scenarioE with
  | Done (_, t) => t
  | _ => BPT.init 3 3
  end.

(** Scenario F: the same tree after the removal of the keys 1..[n]. *)
Definition scenarioF (n : Z) : outcome (unit * BPT.BPlusTree) :=
  BPT.remove_keys (layout := scenario_layout) 64 (seqZ 1 n) scenarioE_tree.

Definition scenarioF_tree (n : Z) : BPT.BPlusTree :=
  match scenarioF n with
  | Done (_, t) => t
  | _ => BPT.init 3 3
  end.

(** The page ids passed to [DeletePage] so far. *)
Definition deleted_pages (t : BPT.BPlusTree) : list Z :=
  omap (λ c, match c with BPT.CallDeletePage p => Some p | _ => None end)
       (BPT.calls_ t).

(** The node held in the pool for a page id. *)
Definition node_of (t : BPT.BPlusTree) (page_id : Z) : option BPT.Node :=
  BPT.node_ <$> BPT.pool_ t !! page_id.

(** Scenario A of the specification: pool size 7, K = 2, two rounds of
    accesses to frames 1..6, then every frame id in [frames] is marked
    evictable. *)
Definition scenarioA (frames : list Z) : LRUK.LRUKReplacer :=
  let r := foldl LRUK.RecordAccess (LRUK.init 7 2) [1;2;3;4;5;6;1;2;3;4;5;6] in
  foldl (λ r f, LRUK.SetEvictable r f true) r frames.

(* ===================================================================== *)
(** * Properties of the LRU-K replacer *)
(* ===================================================================== *)

Section lruk_facts.
Import LRUK.

Lemma wrap_size_t_small z : 0 ≤ z < 2 ^ 64 → wrap_size_t z = z.
Proof. intros. unfold wrap_size_t. by apply Z.mod_small. Qed.

(** A map whose keys lie in [0, n] has at most n + 1 entries. *)
Lemma gmap_Z_size_bounded {A} (m : gmap Z A) (n : Z) :
  0 ≤ n → (∀ k, is_Some (m !! k) → 0 ≤ k ≤ n) → Z.of_nat (size m) ≤ n + 1.
Proof.
  intros Hn Hk.
  assert (dom m ⊆ (list_to_set (seqZ 0 (n + 1)) : gset Z)) as Hsub.
  { intros k Hd. apply elem_of_dom in Hd. apply Hk in Hd.
    apply elem_of_list_to_set, elem_of_seqZ. lia. }
  apply subseteq_size in Hsub.
  rewrite size_dom in Hsub.
  rewrite size_list_to_set in Hsub by apply NoDup_seqZ.
  rewrite length_seqZ in Hsub. lia.
Qed.

Lemma evictable_frames_size_le r :
  (size (evictable_frames r) ≤ size (frame_table_ r))%nat.
Proof. apply map_subseteq_size, map_filter_subseteq. Qed.

Lemma wf_table_size r : wf r → Z.of_nat (size (frame_table_ r)) ≤ 2 ^ 63.
Proof.
  intros Hwf. destruct Hwf as [_ Hb _ _ Hf].
  pose proof (gmap_Z_size_bounded (frame_table_ r) (replacer_size_ r)) as H.
  assert (Z.of_nat (size (frame_table_ r)) ≤ replacer_size_ r + 1); [|lia].
  apply H; [lia|]. intros k [x Hx]. by apply Hf in Hx as [? _].
Qed.

Lemma wf_evictable_size r : wf r → Z.of_nat (size (evictable_frames r)) ≤ 2 ^ 63.
Proof.
  intros Hwf. pose proof (wf_table_size r Hwf).
  pose proof (evictable_frames_size_le r). lia.
Qed.

Lemma front_in (h : list Z) : h ≠ [] → front h ∈ h.
Proof. destruct h; [done|]. intros _. simpl. left. Qed.

Lemma wf_front_bounds r f fi :
  wf r → frame_table_ r !! f = Some fi →
  1 ≤ front (history_ fi) ≤ current_timestamp_ r.
Proof.
  intros Hwf Hf. destruct (wf_frames r Hwf f fi Hf) as (_ & Hne & Hall).
  rewrite Forall_forall in Hall. apply Hall. by apply front_in.
Qed.

(** Under the invariant the machine K-distance is [SIZE_MAX] exactly for
    the frames with fewer than K accesses. *)
Lemma k_distance_of_cases r f fi :
  wf r → frame_table_ r !! f = Some fi →
  (K_distance r fi = Infinite ∧ k_distance_of r fi = SIZE_MAX) ∨
  (K_distance r fi = Finite (k_distance_of r fi) ∧
   k_distance_of r fi = current_timestamp_ r - front (history_ fi) ∧
   0 ≤ k_distance_of r fi < SIZE_MAX).
Proof.
  intros Hwf Hf. pose proof (wf_front_bounds r f fi Hwf Hf) as Hfr.
  pose proof (wf_ts r Hwf) as Hts. unfold SIZE_MAX in *.
  unfold K_distance, k_distance_of.
  destruct (Z.of_nat (length (history_ fi)) <? k_ r); [by left|right].
  rewrite wrap_size_t_small by lia. repeat split; lia.
Qed.

(** *** The loop of [Evict] *)

Lemma evict_loop_scan_ok r l :
  (∀ g gi, (g, gi) ∈ l →
     0 ≤ k_distance_of r gi ∧ front (history_ gi) < SIZE_MAX) →
  scan_ok r l (evict_loop r l).
Proof.
  unfold evict_loop. induction l as [|[g gi] l IH] using rev_ind; intros Hb.
  - simpl. left. split_and!; try done. intros g gi Hin. inversion Hin.
  - rewrite foldl_app. simpl.
    assert (Hl : ∀ g gi, (g, gi) ∈ l →
              0 ≤ k_distance_of r gi ∧ front (history_ gi) < SIZE_MAX).
    { intros g' gi' Hin. apply (Hb g' gi'). apply elem_of_app. by left. }
    specialize (IH Hl).
    destruct (Hb g gi) as [Hkd Hfr]; [apply elem_of_app; right; by left|].
    destruct (foldl (evict_scan r) (-1, 0, SIZE_MAX) l) as [[c mk] et].
    unfold evict_scan. destruct (is_evictable_ gi) eqn:Hev; simpl.
    + destruct IH as [(-> & -> & -> & Hnone)|(fi & Hin & Hfe & -> & -> & Hmax)].
      * assert (((k_distance_of r gi >? 0)
                 || (k_distance_of r gi =? 0) && (front (history_ gi) <? SIZE_MAX)) = true)
          as ->.
        { destruct (Z.gtb_spec (k_distance_of r gi) 0); [done|]. simpl.
          apply andb_true_iff. split; [apply Z.eqb_eq|apply Z.ltb_lt]; lia. }
        right. exists gi. split_and!; try done.
        { apply elem_of_app. right. by left. }
        intros g' gi' Hin' Hev'. apply elem_of_app in Hin' as [Hin'|Hin'].
        -- apply (Hnone g' gi') in Hin'. congruence.
        -- apply list_elem_of_singleton in Hin'. injection Hin' as -> ->.
           right. lia.
      * destruct ((k_distance_of r gi >? k_distance_of r fi)
                  || (k_distance_of r gi =? k_distance_of r fi)
                     && (front (history_ gi) <? front (history_ fi))) eqn:Hcmp.
        -- right. exists gi. split_and!; try done.
           { apply elem_of_app. right. by left. }
           intros g' gi' Hin' Hev'. apply elem_of_app in Hin' as [Hin'|Hin'].
           ++ specialize (Hmax _ _ Hin' Hev').
              apply orb_true_iff in Hcmp as [Hc|Hc].
              ** apply Z.gtb_lt in Hc. lia.
              ** apply andb_true_iff in Hc as [Hc1 Hc2].
                 apply Z.eqb_eq in Hc1. apply Z.ltb_lt in Hc2. lia.
           ++ apply list_elem_of_singleton in Hin'. injection Hin' as -> ->.
              right. lia.
        -- right. exists fi. split_and!; try done.
           { apply elem_of_app. by left. }
           intros g' gi' Hin' Hev'. apply elem_of_app in Hin' as [Hin'|Hin'].
           ++ by apply (Hmax g' gi').
           ++ apply list_elem_of_singleton in Hin'. injection Hin' as -> ->.
              apply orb_false_iff in Hcmp as [Hc1 Hc2].
              rewrite Z.gtb_ltb in Hc1. apply Z.ltb_ge in Hc1.
              apply andb_false_iff in Hc2 as [Hc2|Hc2].
              ** apply Z.eqb_neq in Hc2. lia.
              ** apply Z.ltb_ge in Hc2. lia.
    + destruct IH as [(-> & -> & -> & Hnone)|(fi & Hin & Hfe & -> & -> & Hmax)].
      * left. split_and!; try done.
        intros g' gi' Hin'. apply elem_of_app in Hin' as [Hin'|Hin'].
        -- by apply (Hnone g' gi').
        -- apply list_elem_of_singleton in Hin'. by injection Hin' as -> ->.
      * right. exists fi. split_and!; try done.
        { apply elem_of_app. by left. }
        intros g' gi' Hin' Hev'. apply elem_of_app in Hin' as [Hin'|Hin'].
        -- by apply (Hmax g' gi').
        -- apply list_elem_of_singleton in Hin'. injection Hin' as -> ->. congruence.
Qed.

Lemma evict_loop_table r (Hwf : wf r) :
  scan_ok r (map_to_list (frame_table_ r))
          (evict_loop r (map_to_list (frame_table_ r))).
Proof.
  apply evict_loop_scan_ok. intros g gi Hin.
  apply elem_of_map_to_list in Hin.
  pose proof (wf_front_bounds r g gi Hwf Hin).
  pose proof (wf_ts r Hwf).
  destruct (k_distance_of_cases r g gi Hwf Hin) as [[_ ->]|(_ & _ & ?)];
    unfold SIZE_MAX in *; lia.
Qed.

Lemma no_evictable_iff r :
  size (evictable_frames r) = 0%nat ↔
  ∀ g gi, frame_table_ r !! g = Some gi → is_evictable_ gi = false.
Proof.
  rewrite map_size_empty_iff. unfold evictable_frames. split.
  - intros He g gi Hg. destruct (is_evictable_ gi) eqn:Hev; [|done].
    by eapply (map_filter_empty_not_lookup _ _ g gi) in He.
  - intros Hall. apply map_empty. intros g.
    apply map_lookup_filter_None. destruct (frame_table_ r !! g) as [gi|] eqn:Hg.
    + right. intros x [= <-]. simpl. rewrite (Hall g gi Hg). done.
    + by left.
Qed.

(** What [Evict] does in a state satisfying the invariant, in terms of the
    machine K-distances. *)
Lemma Evict_cases r :
  wf r →
  (Evict r = (None, r) ∧
   ∀ g gi, frame_table_ r !! g = Some gi → is_evictable_ gi = false) ∨
  (∃ c fi,
     Evict r = (Some c,
                mkReplacer (delete c (frame_table_ r)) (replacer_size_ r) (k_ r)
                           (wrap_size_t (curr_size_ r - 1)) (current_timestamp_ r)) ∧
     frame_table_ r !! c = Some fi ∧ is_evictable_ fi = true ∧
     ∀ g gi, frame_table_ r !! g = Some gi → is_evictable_ gi = true →
       k_distance_of r gi < k_distance_of r fi ∨
       (k_distance_of r gi = k_distance_of r fi ∧
        front (history_ fi) ≤ front (history_ gi))).
Proof.
  intros Hwf. unfold Evict.
  destruct (Z.eqb_spec (curr_size_ r) 0) as [Hz|Hnz].
  - left. split; [done|]. apply no_evictable_iff.
    rewrite (wf_curr_size r Hwf) in Hz. lia.
  - pose proof (evict_loop_table r Hwf) as Hok.
    destruct (evict_loop r (map_to_list (frame_table_ r))) as [[c mk] et].
    destruct Hok as [(-> & _ & _ & Hnone)|(fi & Hin & Hev & -> & -> & Hmax)].
    + left. split; [done|]. intros g gi Hg. apply (Hnone g gi).
      by apply elem_of_map_to_list.
    + apply elem_of_map_to_list in Hin.
      destruct (wf_frames r Hwf c fi Hin) as (Hc & _).
      destruct (Z.eqb_spec c (-1)) as [->|_]; [lia|].
      right. exists c, fi. split_and!; try done.
      intros g gi Hg Hgev. apply (Hmax g gi); [|done].
      by apply elem_of_map_to_list.
Qed.

(** *** The invariant holds in every reachable state *)

Lemma wf_init num_frames k :
  0 ≤ num_frames < 2 ^ 63 → 1 ≤ k → wf (init num_frames k).
Proof.
  intros Hn Hk. split; simpl; try done; try lia.
Qed.

Lemma tl_nonempty (h : list Z) : (2 ≤ length h)%nat → tl h ≠ [].
Proof. destruct h as [|? [|]]; simpl; [lia|lia|done]. Qed.

Lemma Forall_tl {A} (P : A → Prop) (h : list A) : Forall P h → Forall P (tl h).
Proof. destruct h; simpl; [done|]. by inversion 1. Qed.

Lemma wf_RecordAccess r f :
  wf r → is_int32 f → current_timestamp_ r + 1 < SIZE_MAX →
  wf (RecordAccess r f).
Proof.
  intros Hwf Hf Hts. unfold RecordAccess.
  destruct (Z.gtb_spec (wrap_size_t f) (replacer_size_ r)) as [|Hle]; [done|].
  pose proof (wf_size_bound r Hwf) as Hsz. pose proof (wf_ts r Hwf) as Hct.
  pose proof (wf_k r Hwf) as Hk.
  assert (0 ≤ f ≤ replacer_size_ r) as Hrange.
  { unfold is_int32, wrap_size_t in *. destruct (decide (0 ≤ f)).
    - rewrite Z.mod_small in Hle by lia. lia.
    - exfalso. replace (f mod 2 ^ 64) with (f + 2 ^ 64) in Hle; [lia|].
      apply (Z.mod_unique_pos _ _ (-1)); lia. }
  unfold SIZE_MAX in *. rewrite wrap_size_t_small by lia.
  set (fi := default FrameInfo_default (frame_table_ r !! f)).
  set (h := history_ fi ++ [current_timestamp_ r + 1]).
  set (h' := if Z.of_nat (length h) >? k_ r then tl h else h).
  assert (Forall (λ t, 1 ≤ t ≤ current_timestamp_ r) (history_ fi)) as Hold.
  { unfold fi. destruct (frame_table_ r !! f) as [x|] eqn:Hx; simpl; [|done].
    by apply (wf_frames r Hwf) in Hx as (_ & _ & ?). }
  assert (Forall (λ t, 1 ≤ t ≤ current_timestamp_ r + 1) h) as Hh.
  { unfold h. apply Forall_app. split.
    - eapply Forall_impl; [exact Hold|]. simpl. intros. lia.
    - apply Forall_singleton. lia. }
  constructor; simpl; [done|done|unfold SIZE_MAX; lia| |].
  - rewrite (wf_curr_size r Hwf). f_equal. unfold evictable_frames. simpl.
    destruct (is_evictable_ fi) eqn:Hev.
    + rewrite map_filter_insert_True by done.
      rewrite map_size_insert_Some; [done|].
      unfold fi in Hev. destruct (frame_table_ r !! f) as [x|] eqn:Hx; [|done].
      simpl in Hev. exists x. by apply map_lookup_filter_Some.
    + rewrite map_filter_insert_not'; [done|simpl; congruence|].
      intros y Hy. unfold fi in Hev. rewrite Hy in Hev. simpl in *. congruence.
  - intros g gi. rewrite lookup_insert_Some.
    intros [(<- & <-)|(Hne & Hg)]; simpl.
    + split; [done|]. split.
      * unfold h'. destruct (Z.gtb_spec (Z.of_nat (length h)) (k_ r)).
        -- apply tl_nonempty. lia.
        -- unfold h. by destruct (history_ fi).
      * unfold h'. destruct (Z.of_nat (length h) >? k_ r); [by apply Forall_tl|done].
    + destruct (wf_frames r Hwf g gi Hg) as (? & ? & Hall).
      split; [done|]. split; [done|].
      eapply Forall_impl; [exact Hall|]. simpl. intros. lia.
Qed.

Lemma wf_SetEvictable r f b : wf r → wf (SetEvictable r f b).
Proof.
  intros Hwf. unfold SetEvictable.
  destruct (frame_table_ r !! f) as [fi|] eqn:Hfi; [|done].
  pose proof (wf_evictable_size r Hwf) as Hbound.
  constructor; simpl; [apply Hwf|apply Hwf|apply Hwf| |].
  - rewrite (wf_curr_size r Hwf). unfold evictable_frames in *. simpl.
    destruct (is_evictable_ fi) eqn:Hev, b; simpl.
    + rewrite map_filter_insert_True by done.
      rewrite map_size_insert_Some; [done|].
      exists fi. by apply map_lookup_filter_Some.
    + rewrite map_filter_insert_False by (simpl; congruence).
      rewrite map_filter_delete, map_size_delete_Some.
      2:{ exists fi. by apply map_lookup_filter_Some. }
      assert (size (filter (λ p, is_evictable_ p.2 = true) (frame_table_ r)) ≠ 0%nat).
      { apply (map_size_ne_0_lookup_2 _ f). exists fi. by apply map_lookup_filter_Some. }
      rewrite wrap_size_t_small by lia. lia.
    + rewrite map_filter_insert_True by done.
      rewrite map_size_insert_None.
      2:{ apply map_lookup_filter_None. right. intros x. rewrite Hfi.
          intros [= <-]. simpl. congruence. }
      rewrite wrap_size_t_small by lia. lia.
    + rewrite map_filter_insert_not'; [done|simpl; congruence|].
      intros y. rewrite Hfi. intros [= <-]. simpl. congruence.
  - intros g gi. rewrite lookup_insert_Some.
    intros [(<- & <-)|(Hne & Hg)]; simpl.
    + by apply (wf_frames r Hwf f fi).
    + by apply (wf_frames r Hwf g gi).
Qed.

(** Dropping the record of an evictable frame, as [Remove] and [Evict] do. *)
Lemma wf_drop r f fi :
  wf r → frame_table_ r !! f = Some fi → is_evictable_ fi = true →
  wf (mkReplacer (delete f (frame_table_ r)) (replacer_size_ r) (k_ r)
                 (wrap_size_t (curr_size_ r - 1)) (current_timestamp_ r)).
Proof.
  intros Hwf Hfi Hev. pose proof (wf_evictable_size r Hwf) as Hbound.
  constructor; simpl; [apply Hwf|apply Hwf|apply Hwf| |].
  - rewrite (wf_curr_size r Hwf). unfold evictable_frames in *. simpl.
    rewrite map_filter_delete, map_size_delete_Some.
    2:{ exists fi. by apply map_lookup_filter_Some. }
    assert (size (filter (λ p, is_evictable_ p.2 = true) (frame_table_ r)) ≠ 0%nat).
    { apply (map_size_ne_0_lookup_2 _ f). exists fi. by apply map_lookup_filter_Some. }
    rewrite wrap_size_t_small by lia. lia.
  - intros g gi. rewrite lookup_delete_Some. intros [_ Hg].
    by apply (wf_frames r Hwf g gi).
Qed.

Lemma wf_Remove r f : wf r → wf (Remove r f).
Proof.
  intros Hwf. unfold Remove.
  destruct (frame_table_ r !! f) as [fi|] eqn:Hfi; [|done].
  destruct (is_evictable_ fi) eqn:Hev; simpl; [|done].
  by apply (wf_drop r f fi).
Qed.

Lemma wf_Evict r : wf r → wf (snd (Evict r)).
Proof.
  intros Hwf.
  destruct (Evict_cases r Hwf) as [[-> _]|(c & fi & -> & Hc & Hev & _)]; [done|].
  by apply (wf_drop r c fi).
Qed.

Lemma reachable_wf r : reachable r → wf r.
Proof.
  induction 1 as [n k Hn Hk|r f _ IH Hf Hts|r f b _ IH|r f _ IH|r _ IH].
  - apply wf_init; lia.
  - by apply wf_RecordAccess.
  - by apply wf_SetEvictable.
  - by apply wf_Remove.
  - by apply wf_Evict.
Qed.

(** The comparison of machine K-distances agrees with the order on
    K-distances of the eviction rule. *)
Lemma k_distance_order r f fi g gi :
  wf r → frame_table_ r !! f = Some fi → frame_table_ r !! g = Some gi →
  k_distance_of r gi < k_distance_of r fi ∨
  (k_distance_of r gi = k_distance_of r fi ∧
   front (history_ fi) ≤ front (history_ gi)) →
  kdist_lt (K_distance r gi) (K_distance r fi) ∨
  (K_distance r gi = K_distance r fi ∧
   front (history_ fi) ≤ front (history_ gi)).
Proof.
  intros Hwf Hf Hg Hcmp.
  destruct (k_distance_of_cases r f fi Hwf Hf) as [[-> Hzf]|(-> & Hzf & Hbf)];
  destruct (k_distance_of_cases r g gi Hwf Hg) as [[-> Hzg]|(-> & Hzg & Hbg)];
    simpl.
  - right. split; [done|]. lia.
  - by left.
  - exfalso. lia.
  - destruct Hcmp as [?|[Heq ?]]; [by left|right]. split; [by rewrite Heq|done].
Qed.

(** C3: in every reachable replacer state, [Evict] returns nothing exactly
    when no evictable frame exists; otherwise it returns an evictable frame
    whose K-distance (infinite with fewer than K recorded accesses, else the
    current time minus the oldest retained timestamp) is maximal among the
    evictable frames, ties going to the smallest retained-oldest timestamp,
    and it drops that frame's record. *)
Theorem Evict_selects_max_k_distance r :
  reachable r →
  (fst (Evict r) = None ↔ ¬ ∃ f, evictable r f) ∧
  (fst (Evict r) = None → snd (Evict r) = r) ∧
  (∀ f, fst (Evict r) = Some f →
     is_victim r f ∧
     frame_table_ (snd (Evict r)) = delete f (frame_table_ r) ∧
     Size (snd (Evict r)) = Size r - 1).
Proof.
  intros Hr. pose proof (reachable_wf r Hr) as Hwf.
  destruct (Evict_cases r Hwf) as [[-> Hnone]|(c & fi & -> & Hc & Hev & Hmax)];
    simpl.
  - split_and!; [|done|done]. split; [|done].
    intros _ (f & fi & Hf & Hev). rewrite (Hnone f fi Hf) in Hev. done.
  - split_and!.
    + split; [done|]. intros Hno. exfalso. apply Hno. by exists c, fi.
    + done.
    + intros f [= <-]. split_and!; [|done|].
      * exists fi. split_and!; [done|done|].
        intros g gi Hg Hgev. apply (k_distance_order r c fi g gi); try done.
        by apply (Hmax g gi).
      * unfold Size. simpl.
        pose proof (wf_evictable_size r Hwf) as Hb.
        assert (size (evictable_frames r) ≠ 0%nat).
        { apply (map_size_ne_0_lookup_2 _ c). exists fi.
          by apply map_lookup_filter_Some. }
        rewrite (wf_curr_size r Hwf). rewrite wrap_size_t_small; lia.
Qed.

Lemma scenarioA_reachable frames : reachable (scenarioA frames).
Proof.
  unfold scenarioA.
  assert (reachable (foldl RecordAccess (init 7 2) [1;2;3;4;5;6;1;2;3;4;5;6])) as H.
  { cbn [foldl].
    repeat (apply reach_RecordAccess; [|by vm_compute|by vm_compute]).
    by apply reach_init. }
  revert H. generalize (foldl RecordAccess (init 7 2) [1;2;3;4;5;6;1;2;3;4;5;6]).
  induction frames as [|f frames IH]; intros r Hr; simpl; [done|].
  apply IH. by apply reach_SetEvictable.
Qed.

Lemma Evict_selects_max_k_distance_witness :
  let r := scenarioA [1;2;3;4;5;6;7] in
  reachable r ∧
  (fst (Evict r) = None ↔ ¬ ∃ f, evictable r f) ∧
  (fst (Evict r) = None → snd (Evict r) = r) ∧
  (∀ f, fst (Evict r) = Some f →
     is_victim r f ∧
     frame_table_ (snd (Evict r)) = delete f (frame_table_ r) ∧
     Size (snd (Evict r)) = Size r - 1).
Proof.
  split; [apply scenarioA_reachable|].
  apply (Evict_selects_max_k_distance (scenarioA [1;2;3;4;5;6;7])).
  apply scenarioA_reachable.
Defined.

(** C4 fails as stated: frame 7 is never accessed, so it has no record and
    [SetEvictable] ignores it; the victim is frame 1, not frame 7. *)
Lemma scenarioA_evict_is_not_7 :
  fst (Evict (scenarioA [0;1;2;3;4;5;6;7])) ≠ Some 7.
Proof. by vm_compute. Qed.

(** C4 (amended): pool size 7, K = 2, accesses 1,2,3,4,5,6,1,2,3,4,5,6, all
    frames marked evictable (whichever of 0..7 one counts as "all"):
    [Evict] returns frame 1, which has the oldest retained timestamp among
    six frames that all have K accesses; frame 7 has no record. *)
Theorem scenarioA_evicts_frame_1 :
  fst (Evict (scenarioA [0;1;2;3;4;5;6;7])) = Some 1 ∧
  fst (Evict (scenarioA [1;2;3;4;5;6;7])) = Some 1 ∧
  fst (Evict (scenarioA [0;1;2;3;4;5;6])) = Some 1 ∧
  fst (Evict (scenarioA [1;2;3;4;5;6])) = Some 1 ∧
  frame_table_ (scenarioA [0;1;2;3;4;5;6;7]) !! 7 = None.
Proof. by vm_compute. Qed.

(** Frame ids strictly above the replacer size are rejected. *)
Lemma RecordAccess_rejects_above r f :
  wrap_size_t f > replacer_size_ r → RecordAccess r f = r.
Proof.
  intros H. unfold RecordAccess.
  destruct (Z.gtb_spec (wrap_size_t f) (replacer_size_ r)); [done|lia].
Qed.

(** C5 (the code at the failing input): the bound check is [>], so the
    frame id equal to the replacer size is accepted: the access advances the
    timestamp and leaves a record for that frame. *)
Theorem RecordAccess_accepts_replacer_size r :
  0 ≤ replacer_size_ r < 2 ^ 64 →
  is_Some (frame_table_ (RecordAccess r (replacer_size_ r)) !! replacer_size_ r) ∧
  current_timestamp_ (RecordAccess r (replacer_size_ r))
    = wrap_size_t (current_timestamp_ r + 1).
Proof.
  intros Hb. unfold RecordAccess. rewrite wrap_size_t_small by done.
  destruct (Z.gtb_spec (replacer_size_ r) (replacer_size_ r)); [lia|]. simpl.
  split; [|done]. rewrite lookup_insert_eq. by eexists.
Qed.

Lemma RecordAccess_accepts_replacer_size_witness :
  0 ≤ replacer_size_ (init 7 2) < 2 ^ 64 ∧
  is_Some (frame_table_ (RecordAccess (init 7 2) 7) !! 7) ∧
  current_timestamp_ (RecordAccess (init 7 2) 7) = wrap_size_t (0 + 1).
Proof.
  split; [by vm_compute|].
  apply (RecordAccess_accepts_replacer_size (init 7 2)). by vm_compute.
Defined.

End lruk_facts.

(* ===================================================================== *)
(** * Properties of the extendible hash table *)
(* ===================================================================== *)

Section eht_facts.
Import EHT.
Context {K V : Type} `{EqDecision K}.
Variable hash : K → Z.

Local Abbreviation Bucket := (EHT.Bucket K V).
Local Abbreviation Table := (EHT.ExtendibleHashTable K V).
Implicit Types (l : list (K * V)) (b : Bucket) (t : Table).

(** *** The loops over a bucket's list *)

Lemma list_update_key_None l key value :
  list_update_key l key value = None ↔ list_find_key l key = None.
Proof.
  induction l as [|[k v] l IH]; simpl; [done|].
  destruct (decide (k = key)); [done|].
  destruct (list_update_key l key value); simpl; split; try done.
  - intros Hn. apply IH in Hn. done.
  - by apply IH.
Qed.

Lemma list_find_key_None l key :
  list_find_key l key = None ↔ key ∉ l.*1.
Proof.
  induction l as [|[k v] l IH]; simpl.
  - split; [|done]. intros _ Hin. inversion Hin.
  - destruct (decide (k = key)) as [->|Hne].
    + split; [done|]. intros Hn. exfalso. apply Hn. left.
    + rewrite IH. rewrite not_elem_of_cons. split; [intros; by split|by intros [_ ?]].
Qed.

Lemma list_find_key_Some_NoDup l key value :
  NoDup l.*1 → (key, value) ∈ l → list_find_key l key = Some value.
Proof.
  induction l as [|[k v] l IH]; simpl; intros Hnd Hin.
  - inversion Hin.
  - apply NoDup_cons in Hnd as [Hk Hnd].
    apply elem_of_cons in Hin as [[= <- <-]|Hin].
    + by rewrite decide_True.
    + destruct (decide (k = key)) as [->|Hne]; [|by apply IH].
      exfalso. apply Hk. apply list_elem_of_fmap. by exists (key, value).
Qed.

Lemma list_update_key_Some l key value v0 :
  list_find_key l key = Some v0 →
  ∃ l', list_update_key l key value = Some l' ∧
        l'.*1 = l.*1 ∧ length l' = length l ∧
        list_find_key l' key = Some value ∧
        ∀ k', k' ≠ key → list_find_key l' k' = list_find_key l k'.
Proof.
  induction l as [|[k v] l IH]; simpl; [done|].
  destruct (decide (k = key)) as [->|Hne].
  - intros _. exists ((key, value) :: l). simpl. rewrite decide_True by done.
    split; [done|]. split; [done|]. split; [done|]. split; [done|].
    intros k' Hk'. by rewrite !decide_False by done.
  - intros Hf. destruct (IH Hf) as (l' & -> & Hk & Hlen & Hfk & Hother).
    exists ((k, v) :: l'). simpl. rewrite decide_False by done.
    split; [done|]. split; [by f_equal|]. split; [by f_equal|]. split; [done|].
    intros k' Hk'. destruct (decide (k = k')); [done|]. by apply Hother.
Qed.

Lemma list_find_key_app l l2 key :
  list_find_key (l ++ l2) key =
  match list_find_key l key with
  | Some v => Some v
  | None => list_find_key l2 key
  end.
Proof.
  induction l as [|[k v] l IH]; simpl; [done|].
  by destruct (decide (k = key)).
Qed.

Lemma list_erase_key_spec l key :
  match list_erase_key l key with
  | None => list_find_key l key = None
  | Some l' =>
      (length l' < length l)%nat ∧ l'.*1 ⊆ l.*1 ∧ (NoDup l.*1 → NoDup l'.*1) ∧
      (∀ k v, (k, v) ∈ l' → (k, v) ∈ l)
  end.
Proof.
  induction l as [|[k v] l IH]; simpl; [done|].
  destruct (decide (k = key)) as [->|Hne].
  - split_and!; [lia|set_solver| |].
    + intros Hnd. by apply NoDup_cons in Hnd as [_ ?].
    + intros ?? Hin. by right.
  - destruct (list_erase_key l key) as [l'|]; simpl; [|done].
    destruct IH as (Hlen & Hsub & Hnd & Hin). split_and!; [lia|set_solver| |].
    + intros Hnd'. apply NoDup_cons in Hnd' as [Hk Hnd'].
      apply NoDup_cons. split; [set_solver|by apply Hnd].
    + intros k' v' Hin'. apply elem_of_cons in Hin' as [[= -> ->]|Hin'];
        [left|right; by apply Hin].
Qed.

(** *** Bits of hashes and of slot indices *)

Lemma mask_is_mod (x gd : Z) :
  0 ≤ gd → Z.land x (Z.shiftl 1 gd - 1) = x `mod` 2 ^ gd.
Proof.
  intros Hgd. rewrite Z.shiftl_1_l, <- Z.land_ones by done.
  by rewrite Z.ones_equiv, <- Z.sub_1_r.
Qed.

Lemma bit_set_testbit (x ld : Z) : 1 ≤ ld → bit_set x ld = Z.testbit x (ld - 1).
Proof.
  intros Hld. unfold bit_set.
  assert (∀ a, Z.land a 1 = a `mod` 2) as ->.
  { intros a. apply (Z.land_ones a 1). lia. }
  rewrite <- Z.bit0_mod.
  rewrite Z.shiftr_spec by lia. rewrite Z.add_0_l.
  by destruct (Z.testbit x (ld - 1)).
Qed.

Lemma mod_pow2_succ (x y d : Z) :
  0 ≤ d →
  (x `mod` 2 ^ (d + 1) = y `mod` 2 ^ (d + 1) ↔
   x `mod` 2 ^ d = y `mod` 2 ^ d ∧ Z.testbit x d = Z.testbit y d).
Proof.
  intros Hd. split.
  - intros Heq. split.
    + apply Z.bits_inj'. intros m Hm.
      destruct (decide (m < d)).
      * rewrite !Z.mod_pow2_bits_low by lia.
        rewrite <- (Z.mod_pow2_bits_low x (d + 1)), <- (Z.mod_pow2_bits_low y (d + 1)) by lia.
        by rewrite Heq.
      * by rewrite !Z.mod_pow2_bits_high by lia.
    + rewrite <- (Z.mod_pow2_bits_low x (d + 1)), <- (Z.mod_pow2_bits_low y (d + 1)) by lia.
      by rewrite Heq.
  - intros [Heq Hbit]. apply Z.bits_inj'. intros m Hm.
    destruct (decide (m < d + 1)).
    + rewrite !Z.mod_pow2_bits_low by lia.
      destruct (decide (m = d)) as [->|]; [done|].
      rewrite <- (Z.mod_pow2_bits_low x d), <- (Z.mod_pow2_bits_low y d) by lia.
      by rewrite Heq.
    + by rewrite !Z.mod_pow2_bits_high by lia.
Qed.

Lemma mod_pow2_le (x y d e : Z) :
  0 ≤ d ≤ e → x `mod` 2 ^ e = y `mod` 2 ^ e → x `mod` 2 ^ d = y `mod` 2 ^ d.
Proof.
  intros Hde Heq. apply Z.bits_inj'. intros m Hm.
  destruct (decide (m < d)).
  - rewrite !Z.mod_pow2_bits_low by lia.
    rewrite <- (Z.mod_pow2_bits_low x e), <- (Z.mod_pow2_bits_low y e) by lia.
    by rewrite Heq.
  - by rewrite !Z.mod_pow2_bits_high by lia.
Qed.

Lemma mod_mod_pow2 (x d e : Z) :
  0 ≤ d ≤ e → (x `mod` 2 ^ e) `mod` 2 ^ d = x `mod` 2 ^ d.
Proof.
  intros Hde. apply Z.bits_inj'. intros m Hm.
  destruct (decide (m < d)).
  - by rewrite !Z.mod_pow2_bits_low by lia.
  - by rewrite !Z.mod_pow2_bits_high by lia.
Qed.

Lemma IndexOf_Some t key :
  0 ≤ global_depth_ t ≤ 30 →
  IndexOf hash t key = Some (Z.to_nat (hash key `mod` 2 ^ global_depth_ t)).
Proof.
  intros Hgd. unfold IndexOf.
  destruct (Z.leb_spec 0 (global_depth_ t)); [|lia].
  destruct (Z.leb_spec (global_depth_ t) 30); [|lia]. simpl.
  by rewrite mask_is_mod.
Qed.

Lemma IndexOf_inv t key index :
  IndexOf hash t key = Some index →
  0 ≤ global_depth_ t ≤ 30 ∧
  index = Z.to_nat (hash key `mod` 2 ^ global_depth_ t).
Proof.
  unfold IndexOf.
  destruct (Z.leb_spec 0 (global_depth_ t)); [|done].
  destruct (Z.leb_spec (global_depth_ t) 30); [|done]. simpl.
  intros [= <-]. by rewrite mask_is_mod.
Qed.

(** *** Writing a bucket back through one of the slots that share it *)

Lemma bucket_at_Some t j a b :
  bucket_at t j = Some (a, b) ↔ dir_ t !! j = Some a ∧ heap_ t !! a = Some b.
Proof.
  unfold bucket_at. destruct (dir_ t !! j) as [a'|]; [|naive_solver].
  destruct (heap_ t !! a') as [b'|] eqn:Hb; naive_solver.
Qed.

Lemma bucket_at_set_heap t a b b' j :
  heap_ t !! a = Some b →
  bucket_at (set_heap t (<[a := b']> (heap_ t))) j =
  match bucket_at t j with
  | Some (a', bj) => Some (a', if decide (a' = a) then b' else bj)
  | None => None
  end.
Proof.
  intros Ha. unfold bucket_at. simpl.
  destruct (dir_ t !! j) as [a'|]; [|done].
  destruct (decide (a' = a)) as [->|Hne].
  - rewrite list_lookup_insert_eq by (by eapply lookup_lt_Some).
    by rewrite Ha, decide_True.
  - rewrite list_lookup_insert_ne by done.
    destruct (heap_ t !! a'); [|done]. by rewrite decide_False.
Qed.

Lemma IndexOf_set_heap t h key :
  IndexOf hash (set_heap t h) key = IndexOf hash t key.
Proof. done. Qed.

Lemma Insert_S fuel t key value :
  Insert hash (S fuel) t key value =
  match IndexOf hash t key with
  | None => Overflow
  | Some index =>
      match bucket_at t index with
      | None => Fault
      | Some (bucket, b) =>
          match Bucket_Insert b key value with
          | (true, b') => Done (set_heap t (<[bucket := b']> (heap_ t)))
          | (false, _) => Insert hash fuel (split hash t bucket b) key value
          end
      end
  end.
Proof. done. Qed.

(** C7: for every table state and every key the table already holds,
    [Insert] overwrites the key's value in place and splits nothing: global
    depth, bucket count, the directory and every bucket's depth and keys are
    unchanged, whether or not the key's bucket is full; afterwards [Find]
    returns the new value, and the same as before for every other key. *)
Theorem Insert_present_overwrites t key v0 value fuel :
  Find hash t key = Done (Some v0) →
  ∃ t', Insert hash (S fuel) t key value = Done t' ∧
    global_depth_ t' = global_depth_ t ∧
    num_buckets_ t' = num_buckets_ t ∧
    dir_ t' = dir_ t ∧
    length (heap_ t') = length (heap_ t) ∧
    (∀ a b, heap_ t !! a = Some b →
       ∃ b', heap_ t' !! a = Some b' ∧ depth_ b' = depth_ b ∧
             (list_ b').*1 = (list_ b).*1) ∧
    Find hash t' key = Done (Some value) ∧
    (∀ k', k' ≠ key → Find hash t' k' = Find hash t k').
Proof.
  unfold Find.
  destruct (IndexOf hash t key) as [index|] eqn:Hidx; [|done].
  destruct (bucket_at t index) as [[a b]|] eqn:Hat; [|done].
  intros [= Hfind]. unfold Bucket_Find in Hfind.
  destruct (list_update_key_Some (list_ b) key value v0 Hfind)
    as (l' & Hupd & Hkeys & Hlen & Hnew & Hother).
  apply bucket_at_Some in Hat as Hat'. destruct Hat' as [Hdir Hheap].
  set (b' := mkBucket (size_ b) (depth_ b) l').
  exists (set_heap t (<[a := b']> (heap_ t))).
  split.
  { rewrite Insert_S, Hidx, Hat. unfold Bucket_Insert. by rewrite Hupd. }
  split; [done|]. split; [done|]. split; [done|].
  split; [simpl; by rewrite length_insert|].
  split.
  { intros a' b0 Ha'. simpl. destruct (decide (a' = a)) as [->|Hne].
    - exists b'. rewrite list_lookup_insert_eq by (by eapply lookup_lt_Some).
      rewrite Hheap in Ha'. injection Ha' as <-. done.
    - exists b0. by rewrite list_lookup_insert_ne. }
  split.
  { rewrite IndexOf_set_heap, Hidx, (bucket_at_set_heap t a b b') by done.
    rewrite Hat, decide_True by done. unfold Bucket_Find. simpl. by rewrite Hnew. }
  intros k' Hk'. rewrite IndexOf_set_heap.
  destruct (IndexOf hash t k') as [index'|]; [|done].
  rewrite (bucket_at_set_heap t a b b') by done.
  destruct (bucket_at t index') as [[a' bj]|] eqn:Hat'; [|done].
  destruct (decide (a' = a)) as [->|Hne]; [|done].
  apply bucket_at_Some in Hat' as [_ Hbj]. rewrite Hheap in Hbj.
  injection Hbj as <-. unfold Bucket_Find. simpl. by rewrite Hother.
Qed.

(** *** The invariant is preserved *)

Variable ok : K → Prop.
Local Abbreviation inv := (EHT.inv hash ok).
Local Abbreviation bucket_ok := (EHT.bucket_ok hash ok).

Lemma inv_init bucket_size : 0 ≤ bucket_size → inv (init bucket_size : Table).
Proof.
  intros Hbs. constructor; simpl; [lia|done| |].
  - intros i a Hi. apply list_lookup_singleton_Some in Hi as [-> <-].
    eexists. split; [done|]. constructor; simpl; try done; try lia.
    + apply NoDup_nil_2.
    + intros k Hin. inversion Hin.
  - intros i j a b Hi Hj _.
    apply list_lookup_singleton_Some in Hi as [-> _].
    apply list_lookup_singleton_Some in Hj as [-> _]. done.
Qed.

Lemma bucket_ok_same_params t t' i b :
  global_depth_ t' = global_depth_ t → bucket_size_ t' = bucket_size_ t →
  bucket_ok t i b → bucket_ok t' i b.
Proof.
  intros Hgd Hbs [Hd Hs Hl Hn Hk].
  constructor; rewrite ?Hgd, ?Hbs; done.
Qed.

(** Writing back a bucket that keeps its depth and whose keys are old keys
    or keys that belong to slot [i]. *)
Lemma inv_set_bucket t i a b b' :
  inv t → dir_ t !! i = Some a → heap_ t !! a = Some b →
  size_ b' = size_ b → depth_ b' = depth_ b →
  Z.of_nat (length (list_ b')) ≤ bucket_size_ t →
  NoDup (list_ b').*1 →
  (∀ k, k ∈ (list_ b').*1 →
     k ∈ (list_ b).*1 ∨
     (ok k ∧ hash k `mod` 2 ^ depth_ b = Z.of_nat i `mod` 2 ^ depth_ b)) →
  inv (set_heap t (<[a := b']> (heap_ t))).
Proof.
  intros Hinv Hi Ha Hsz Hdp Hlen Hnd Hkeys.
  assert (a < length (heap_ t))%nat as Halt by (by eapply lookup_lt_Some).
  constructor; simpl; [apply Hinv|apply Hinv| |].
  - intros j a' Hj. destruct (decide (a' = a)) as [->|Hne].
    + exists b'. split; [by apply list_lookup_insert_eq|].
      destruct (inv_slots _ _ _ Hinv j a Hj) as (b0 & Hb0 & Hok).
      rewrite Ha in Hb0. injection Hb0 as <-.
      destruct Hok as [Hd Hs Hl Hn Hk].
      constructor; simpl; rewrite ?Hsz, ?Hdp; try done.
      intros k Hk'. destruct (Hkeys k Hk') as [Hold|[Hok Hmod]]; [by apply Hk|].
      split; [done|]. rewrite Hmod.
      by apply (inv_shared _ _ _ Hinv i j a b).
    + destruct (inv_slots _ _ _ Hinv j a' Hj) as (b0 & Hb0 & Hok).
      exists b0. split; [by rewrite list_lookup_insert_ne|].
      by apply (bucket_ok_same_params t).
  - intros i1 j1 a1 b1 Hi1 Hj1 Hb1. destruct (decide (a1 = a)) as [->|Hne].
    + rewrite list_lookup_insert_eq in Hb1 by done. injection Hb1 as <-.
      rewrite Hdp. by apply (inv_shared _ _ _ Hinv i1 j1 a b).
    + rewrite list_lookup_insert_ne in Hb1 by done.
      by apply (inv_shared _ _ _ Hinv i1 j1 a1 b1).
Qed.

(** Every slot of the doubled directory repeats a slot of the old one. *)
Lemma lookup_double (dir : list nat) (gd : Z) (j a : nat) :
  0 ≤ gd → Z.of_nat (length dir) = 2 ^ gd →
  (dir ++ dir) !! j = Some a →
  ∃ j0, dir !! j0 = Some a ∧
        Z.of_nat j0 = Z.of_nat j `mod` 2 ^ gd.
Proof.
  intros Hgd Hlen Hj.
  assert (0 < 2 ^ gd) by (apply Z.pow_pos_nonneg; lia).
  destruct (decide (j < length dir)%nat) as [Hlt|Hge].
  - rewrite lookup_app_l in Hj by done. exists j. split; [done|].
    rewrite Z.mod_small; lia.
  - rewrite lookup_app_r in Hj by lia. exists (j - length dir)%nat.
    split; [done|]. apply lookup_lt_Some in Hj.
    apply (Z.mod_unique_pos _ _ 1); lia.
Qed.

Lemma inv_double t : inv t → inv (double t).
Proof.
  intros Hinv. pose proof (inv_depth _ _ _ Hinv) as Hgd.
  pose proof (inv_dir _ _ _ Hinv) as Hlen.
  constructor; simpl.
  - lia.
  - rewrite length_app, Z.pow_add_r by lia. change (2 ^ 1) with 2. lia.
  - intros j a Hj.
    destruct (lookup_double _ _ _ _ Hgd Hlen Hj) as (j0 & Hj0 & Hmod).
    destruct (inv_slots _ _ _ Hinv j0 a Hj0) as (b & Hb & [Hd Hs Hl Hn Hk]).
    exists b. split; [done|]. constructor; simpl; try done; [lia|].
    intros k Hin. destruct (Hk k Hin) as [Hok Hm]. split; [done|].
    rewrite Hm, Hmod. by rewrite mod_mod_pow2 by lia.
  - intros i j a b Hi Hj Hb.
    destruct (lookup_double _ _ _ _ Hgd Hlen Hi) as (i0 & Hi0 & Hmi).
    destruct (lookup_double _ _ _ _ Hgd Hlen Hj) as (j0 & Hj0 & Hmj).
    destruct (inv_slots _ _ _ Hinv i0 a Hi0) as (b0 & Hb0 & [Hd _ _ _ _]).
    rewrite Hb in Hb0. injection Hb0 as <-.
    pose proof (inv_shared _ _ _ Hinv i0 j0 a b Hi0 Hj0 Hb) as Hsh.
    rewrite Hmi, Hmj in Hsh. by rewrite !mod_mod_pow2 in Hsh by lia.
Qed.

(** The re-insertion loop of a split sorts the items by one hash bit. *)
Lemma redistribute_filter (bs ld : Z) (items : list (K * V)) :
  NoDup items.*1 → Z.of_nat (length items) ≤ bs →
  redistribute hash ld items (mkBucket bs ld []) (mkBucket bs ld []) =
  (mkBucket bs ld (filter (λ p, bit_set (hash p.1) ld = false) items),
   mkBucket bs ld (filter (λ p, bit_set (hash p.1) ld = true) items)).
Proof.
  unfold redistribute.
  induction items as [|[k v] items IH] using rev_ind; intros Hnd Hlen; [done|].
  rewrite fmap_app in Hnd. apply NoDup_app in Hnd as (Hnd & Hfresh & _).
  rewrite length_app in Hlen. simpl in Hlen.
  rewrite foldl_app, IH by (done || lia). simpl.
  assert (∀ P `{!∀ x, Decision (P x)},
            list_update_key (filter P items) k v = None) as Hnone.
  { intros P ?. apply list_update_key_None, list_find_key_None.
    intros Hin. apply list_elem_of_fmap in Hin as ([k' v'] & -> & Hin).
    apply list_elem_of_filter in Hin as [_ Hin].
    apply (Hfresh k'); [by apply (list_elem_of_fmap_2 fst _ (k', v'))|].
    simpl. left. }
  assert (∀ P `{!∀ x, Decision (P x)},
            (Z.of_nat (length (filter P items)) =? bs) = false) as Hnf.
  { intros P ?. pose proof (length_filter P items). apply Z.eqb_neq. lia. }
  rewrite !filter_app, !filter_cons, !filter_nil. simpl.
  unfold Bucket_Insert, IsFull. simpl. rewrite !Hnone, !Hnf.
  destruct (bit_set (hash k) ld) eqn:Hbit; simpl;
    repeat case_decide; try congruence; by rewrite app_nil_r.
Qed.

Lemma split_bucket_eq t a b :
  NoDup (list_ b).*1 → Z.of_nat (length (list_ b)) ≤ bucket_size_ t →
  split_bucket hash t a b =
  mkTable (global_depth_ t) (bucket_size_ t) (num_buckets_ t + 1)
    (repoint (depth_ b + 1) a (length (heap_ t)) (S (length (heap_ t))) (dir_ t))
    (<[a := IncrementDepth b]> (heap_ t) ++
     [mkBucket (bucket_size_ t) (depth_ b + 1) (low_items hash (depth_ b + 1) (list_ b));
      mkBucket (bucket_size_ t) (depth_ b + 1) (high_items hash (depth_ b + 1) (list_ b))]).
Proof.
  intros Hnd Hlen. unfold split_bucket. simpl.
  rewrite redistribute_filter by done. by rewrite length_insert.
Qed.

Lemma repoint_lookup ld a (n0 n1 : nat) (dir : list nat) j x :
  repoint ld a n0 n1 dir !! j = Some x ↔
  ∃ a', dir !! j = Some a' ∧
        x = if decide (a' = a)
            then if bit_set (Z.of_nat j) ld then n1 else n0
            else a'.
Proof.
  unfold repoint. rewrite list_lookup_imap.
  destruct (dir !! j) as [a'|]; simpl; [|naive_solver].
  split; [intros [= <-]; by exists a'|]. by intros (? & [= <-] & ->).
Qed.

(** The two fresh buckets sit right after the old heap. *)
Lemma lookup_fresh_bucket (heap : list Bucket) a (b' nb0 nb1 : Bucket) (c : bool) :
  (<[a := b']> heap ++ [nb0; nb1]) !! (if c then S (length heap) else length heap)
  = Some (if c then nb1 else nb0).
Proof.
  rewrite lookup_app_r; rewrite length_insert; [|destruct c; lia].
  destruct c.
  - by replace (S (length heap) - length heap)%nat with 1%nat by lia.
  - by rewrite Nat.sub_diag.
Qed.

Lemma lookup_old_bucket (heap : list Bucket) a a' (b' nb0 nb1 : Bucket) :
  a' ≠ a → (a' < length heap)%nat →
  (<[a := b']> heap ++ [nb0; nb1]) !! a' = heap !! a'.
Proof.
  intros Hne Hlt. rewrite lookup_app_l by (by rewrite length_insert).
  by rewrite list_lookup_insert_ne.
Qed.

Lemma keys_filter_sub (P : K * V → Prop) `{!∀ x, Decision (P x)} l k :
  k ∈ (filter P l).*1 → ∃ v, (k, v) ∈ l ∧ P (k, v).
Proof.
  intros Hin. apply list_elem_of_fmap in Hin as ([k' v] & -> & Hin).
  apply list_elem_of_filter in Hin as [HP Hin]. by exists v.
Qed.

Lemma NoDup_keys_filter (P : K * V → Prop) `{!∀ x, Decision (P x)} l :
  NoDup l.*1 → NoDup (filter P l).*1.
Proof.
  intros Hnd. eapply sublist_NoDup; [exact Hnd|].
  apply fmap_sublist. by apply sublist_filter.
Qed.

Lemma testbit_mod_succ (x y d : Z) :
  0 ≤ d → x `mod` 2 ^ d = y `mod` 2 ^ d →
  bit_set x (d + 1) = bit_set y (d + 1) →
  x `mod` 2 ^ (d + 1) = y `mod` 2 ^ (d + 1).
Proof.
  intros Hd Hm Hb. rewrite !bit_set_testbit in Hb by lia.
  rewrite Z.add_simpl_r in Hb. by apply mod_pow2_succ.
Qed.

Lemma inv_split_bucket t i a b :
  inv t → dir_ t !! i = Some a → heap_ t !! a = Some b →
  depth_ b < global_depth_ t →
  inv (split_bucket hash t a b).
Proof.
  intros Hinv Hi Ha Hlt.
  destruct (inv_slots _ _ _ Hinv i a Hi) as (b0 & Hb0 & Hbok).
  rewrite Ha in Hb0. injection Hb0 as <-.
  destruct Hbok as [Hd Hs Hl Hn Hk].
  rewrite split_bucket_eq by done.
  set (ld := depth_ b + 1).
  set (nb0 := mkBucket (bucket_size_ t) ld (low_items hash ld (list_ b))).
  set (nb1 := mkBucket (bucket_size_ t) ld (high_items hash ld (list_ b))).
  assert (∀ j a', dir_ t !! j = Some a' → (a' < length (heap_ t))%nat) as Hbound.
  { intros j a' Hj. destruct (inv_slots _ _ _ Hinv j a' Hj) as (? & ? & _).
    by eapply lookup_lt_Some. }
  (* what a slot that pointed to the split bucket points to now *)
  assert (∀ j, dir_ t !! j = Some a →
            bucket_ok (mkTable (global_depth_ t) (bucket_size_ t) (num_buckets_ t + 1)
                               (repoint ld a (length (heap_ t)) (S (length (heap_ t))) (dir_ t))
                               (<[a := IncrementDepth b]> (heap_ t) ++ [nb0; nb1]))
                      j (if bit_set (Z.of_nat j) ld then nb1 else nb0)) as Hnew.
  { intros j Hj.
    destruct (inv_slots _ _ _ Hinv j a Hj) as (b0 & Hb0 & [_ _ _ _ Hkj]).
    rewrite Ha in Hb0. injection Hb0 as <-.
    destruct (bit_set (Z.of_nat j) ld) eqn:Hbit; constructor; simpl;
      try done; try (unfold ld; lia).
    - pose proof (length_filter (λ p, bit_set (hash p.1) ld = true) (list_ b)).
      unfold high_items. lia.
    - by apply NoDup_keys_filter.
    - intros k Hin. apply keys_filter_sub in Hin as (v & Hin & HP). simpl in HP.
      destruct (Hkj k) as [Hok Hm]; [by apply (list_elem_of_fmap_2 fst _ (k, v))|].
      split; [done|]. apply testbit_mod_succ; [lia|done|]. fold ld. congruence.
    - pose proof (length_filter (λ p, bit_set (hash p.1) ld = false) (list_ b)).
      unfold low_items. lia.
    - by apply NoDup_keys_filter.
    - intros k Hin. apply keys_filter_sub in Hin as (v & Hin & HP). simpl in HP.
      destruct (Hkj k) as [Hok Hm]; [by apply (list_elem_of_fmap_2 fst _ (k, v))|].
      split; [done|]. apply testbit_mod_succ; [lia|done|]. fold ld. congruence. }
  constructor; simpl; [apply Hinv| | |].
  - unfold repoint. rewrite length_imap. apply Hinv.
  - intros j x Hj. apply repoint_lookup in Hj as (a' & Hj & ->).
    destruct (decide (a' = a)) as [->|Hne].
    + eexists. split; [apply lookup_fresh_bucket|]. by apply Hnew.
    + destruct (inv_slots _ _ _ Hinv j a' Hj) as (b0 & Hb0 & Hok).
      exists b0. split.
      * rewrite lookup_old_bucket; [done|done|by eapply Hbound].
      * by apply (bucket_ok_same_params t).
  - intros j1 j2 x bx Hj1 Hj2 Hx.
    apply repoint_lookup in Hj1 as (a1 & Hj1 & Hx1).
    apply repoint_lookup in Hj2 as (a2 & Hj2 & Hx2).
    pose proof (Hbound _ _ Hj1) as Hb1. pose proof (Hbound _ _ Hj2) as Hb2.
    destruct (decide (a1 = a)) as [->|Hne1]; destruct (decide (a2 = a)) as [->|Hne2].
    + assert (bit_set (Z.of_nat j1) ld = bit_set (Z.of_nat j2) ld) as Hbits.
      { destruct (bit_set (Z.of_nat j1) ld), (bit_set (Z.of_nat j2) ld); try done; lia. }
      subst x. rewrite lookup_fresh_bucket in Hx. injection Hx as <-.
      assert (depth_ (if bit_set (Z.of_nat j1) ld then nb1 else nb0) = depth_ b + 1)
        as -> by (by destruct (bit_set (Z.of_nat j1) ld)).
      apply testbit_mod_succ; [lia| |done].
      by apply (inv_shared _ _ _ Hinv j1 j2 a b).
    + exfalso. destruct (bit_set (Z.of_nat j1) ld); lia.
    + exfalso. destruct (bit_set (Z.of_nat j2) ld); lia.
    + subst x. rewrite lookup_old_bucket in Hx by done.
      apply (inv_shared _ _ _ Hinv j1 j2 a1 bx); congruence.
Qed.

Lemma inv_split t i a b :
  inv t → dir_ t !! i = Some a → heap_ t !! a = Some b →
  inv (split hash t a b).
Proof.
  intros Hinv Hi Ha. unfold split, GetDepth.
  destruct (inv_slots _ _ _ Hinv i a Hi) as (b0 & Hb0 & Hbok).
  rewrite Ha in Hb0. injection Hb0 as <-.
  pose proof (bo_depth _ _ _ _ _ Hbok) as Hd.
  destruct (Z.eqb_spec (depth_ b) (global_depth_ t)) as [Heq|Hne].
  - apply (inv_split_bucket (double t) i a b); simpl.
    + by apply inv_double.
    + rewrite lookup_app_l; [done|by eapply lookup_lt_Some].
    + done.
    + lia.
  - apply (inv_split_bucket t i a b); try done. lia.
Qed.

Lemma IndexOf_lt t key index :
  inv t → IndexOf hash t key = Some index → (index < length (dir_ t))%nat.
Proof.
  intros Hinv Hidx. apply IndexOf_inv in Hidx as [Hgd ->].
  pose proof (inv_dir _ _ _ Hinv) as Hlen.
  assert (0 < 2 ^ global_depth_ t) by (apply Z.pow_pos_nonneg; lia).
  pose proof (Z.mod_pos_bound (hash key) (2 ^ global_depth_ t)). lia.
Qed.

(** In a state satisfying the invariant every key has its bucket. *)
Lemma bucket_at_IndexOf t key index :
  inv t → IndexOf hash t key = Some index →
  ∃ a b, bucket_at t index = Some (a, b) ∧ bucket_ok t index b.
Proof.
  intros Hinv Hidx. pose proof (IndexOf_lt t key index Hinv Hidx) as Hlt.
  destruct (lookup_lt_is_Some_2 _ _ Hlt) as [a Ha].
  destruct (inv_slots _ _ _ Hinv index a Ha) as (b & Hb & Hok).
  exists a, b. split; [by apply bucket_at_Some|done].
Qed.

Lemma Bucket_Insert_cases b key value :
  (∃ l' v0, list_find_key (list_ b) key = Some v0 ∧
         list_update_key (list_ b) key value = Some l' ∧
         Bucket_Insert b key value = (true, mkBucket (size_ b) (depth_ b) l')) ∨
  ((key ∉ (list_ b).*1) ∧ IsFull b = false ∧
   Bucket_Insert b key value
     = (true, mkBucket (size_ b) (depth_ b) (list_ b ++ [(key, value)]))) ∨
  ((key ∉ (list_ b).*1) ∧ IsFull b = true ∧ Bucket_Insert b key value = (false, b)).
Proof.
  unfold Bucket_Insert.
  destruct (list_find_key (list_ b) key) as [v0|] eqn:Hf.
  - left. destruct (list_update_key_Some _ _ value _ Hf) as (l' & Hu & _).
    exists l', v0. by rewrite Hu.
  - right. apply list_find_key_None in Hf as Hnin.
    apply (list_update_key_None _ _ value) in Hf. rewrite Hf.
    destruct (IsFull b); [by right|by left].
Qed.

Lemma inv_Insert_step t key value index a b b' :
  inv t → ok key → IndexOf hash t key = Some index →
  bucket_at t index = Some (a, b) →
  Bucket_Insert b key value = (true, b') →
  inv (set_heap t (<[a := b']> (heap_ t))).
Proof.
  intros Hinv Hok Hidx Hat Hins.
  apply bucket_at_Some in Hat as [Hdir Hheap].
  destruct (inv_slots _ _ _ Hinv index a Hdir) as (b0 & Hb0 & [Hd Hs Hl Hn Hk]).
  rewrite Hheap in Hb0. injection Hb0 as <-.
  destruct (Bucket_Insert_cases b key value)
    as [(l' & v0 & Hf & Hu & Hbi)|[(Hnin & Hnf & Hbi)|(_ & _ & Hbi)]];
    rewrite Hbi in Hins; [| |done]; injection Hins as <-.
  - destruct (list_update_key_Some _ _ value _ Hf) as (l'' & Hu' & Hkeys & Hlen & _).
    rewrite Hu in Hu'. injection Hu' as <-.
    apply (inv_set_bucket t index a b); simpl; try done.
    + by rewrite Hlen.
    + by rewrite Hkeys.
    + intros k Hin. left. by rewrite <- Hkeys.
  - unfold IsFull in Hnf. apply Z.eqb_neq in Hnf.
    apply (inv_set_bucket t index a b); simpl; try done.
    + rewrite length_app. simpl. lia.
    + rewrite fmap_app. apply NoDup_app. split; [done|]. split.
      * intros k Hin Hin'. simpl in Hin'. apply list_elem_of_singleton in Hin'.
        by subst.
      * simpl. apply NoDup_singleton.
    + intros k Hin. rewrite fmap_app in Hin. apply elem_of_app in Hin as [Hin|Hin];
        [by left|right].
      simpl in Hin. apply list_elem_of_singleton in Hin as ->. split; [done|].
      apply IndexOf_inv in Hidx as [Hgd ->].
      rewrite Z2Nat.id by (apply Z.mod_pos_bound, Z.pow_pos_nonneg; lia).
      by rewrite mod_mod_pow2 by lia.
Qed.

Lemma Insert_inv fuel t key value t' :
  inv t → ok key → Insert hash fuel t key value = Done t' → inv t'.
Proof.
  revert t. induction fuel as [|fuel IH]; intros t Hinv Hok; [done|].
  rewrite Insert_S.
  destruct (IndexOf hash t key) as [index|] eqn:Hidx; [|done].
  destruct (bucket_at t index) as [[a b]|] eqn:Hat; [|done].
  destruct (Bucket_Insert b key value) as [[|] b'] eqn:Hins.
  - intros [= <-]. by apply (inv_Insert_step t key value index a b b').
  - apply IH; [|done]. apply bucket_at_Some in Hat as [Hdir Hheap].
    by apply (inv_split t index a b).
Qed.

Lemma Insert_Done_depth fuel t key value t' :
  Insert hash fuel t key value = Done t' → 0 ≤ global_depth_ t' ≤ 30.
Proof.
  revert t. induction fuel as [|fuel IH]; intros t; [done|].
  rewrite Insert_S.
  destruct (IndexOf hash t key) as [index|] eqn:Hidx; [|done].
  destruct (bucket_at t index) as [[a b]|] eqn:Hat; [|done].
  destruct (Bucket_Insert b key value) as [[|] b'] eqn:Hins.
  - intros [= <-]. simpl. by apply IndexOf_inv in Hidx as [? _].
  - apply IH.
Qed.

Lemma Remove_inv t key res t' :
  inv t → Remove hash t key = Done (res, t') →
  inv t' ∧ 0 ≤ global_depth_ t' ≤ 30.
Proof.
  intros Hinv. unfold Remove.
  destruct (IndexOf hash t key) as [index|] eqn:Hidx; [|done].
  destruct (bucket_at t index) as [[a b]|] eqn:Hat; [|done].
  unfold Bucket_Remove. pose proof (list_erase_key_spec (list_ b) key) as Hspec.
  apply bucket_at_Some in Hat as [Hdir Hheap].
  destruct (inv_slots _ _ _ Hinv index a Hdir) as (b0 & Hb0 & [Hd Hs Hl Hn Hk]).
  rewrite Hheap in Hb0. injection Hb0 as <-.
  destruct (list_erase_key (list_ b) key) as [l'|]; intros [= <- <-].
  - destruct Hspec as (Hlen & Hsub & Hnd & _). split.
    + apply (inv_set_bucket t index a b); simpl; try done; [lia|by apply Hnd|].
      intros k Hin. left. by apply Hsub.
    + simpl. by apply IndexOf_inv in Hidx as [? _].
  - split.
    + apply (inv_set_bucket t index a b); simpl; try done. intros k Hin. by left.
    + simpl. by apply IndexOf_inv in Hidx as [? _].
Qed.

(** [Insert] never faults in a state satisfying the invariant. *)
Lemma Insert_no_Fault fuel t key value :
  inv t → ok key → Insert hash fuel t key value ≠ Fault.
Proof.
  revert t. induction fuel as [|fuel IH]; intros t Hinv Hok; [done|].
  rewrite Insert_S.
  destruct (IndexOf hash t key) as [index|] eqn:Hidx; [|done].
  destruct (bucket_at_IndexOf t key index Hinv Hidx) as (a & b & Hat & _).
  rewrite Hat.
  destruct (Bucket_Insert b key value) as [[|] b'] eqn:Hins; [done|].
  apply IH; [|done]. apply bucket_at_Some in Hat as [Hdir Hheap].
  by apply (inv_split t index a b).
Qed.

End eht_facts.

Section eht_reachable.
Import EHT.
Context {K V : Type} `{EqDecision K}.
Variable hash : K → Z.

Local Abbreviation Table := (EHT.ExtendibleHashTable K V).
Implicit Types (t : Table).

Lemma reachable_inv t :
  reachable hash t →
  EHT.inv hash (λ _, True) t ∧ 0 ≤ global_depth_ t ≤ 30.
Proof.
  induction 1 as [bs Hbs|fuel t key value t' _ [IH _] Hins|t key res t' _ [IH _] Hrem].
  - split; [by apply inv_init|simpl; lia].
  - split; [by apply (Insert_inv hash _ fuel t key value)|].
    by apply (Insert_Done_depth hash fuel t key value).
  - by apply (Remove_inv hash _ t key res).
Qed.


End eht_reachable.

Section eht_roundtrip.
Import EHT.
Context {K V : Type} `{EqDecision K}.
Variable hash : K → Z.
Variable ok : K → Prop.

Local Abbreviation Bucket := (EHT.Bucket K V).
Local Abbreviation Table := (EHT.ExtendibleHashTable K V).
Local Abbreviation inv := (EHT.inv hash ok).
Local Abbreviation bucket_ok := (EHT.bucket_ok hash ok).
Implicit Types (l : list (K * V)) (b : Bucket) (t : Table).

(** *** Lookups are not disturbed by a split *)

Lemma list_find_key_filter (P : K * V → Prop) `{!∀ x, Decision (P x)} l k :
  (∀ v, P (k, v)) → list_find_key (filter P l) k = list_find_key l k.
Proof.
  intros HP. induction l as [|[k' v'] l IH]; [done|].
  rewrite filter_cons. simpl. destruct (decide (k' = k)) as [->|Hne].
  - rewrite decide_True by apply HP. simpl. by rewrite decide_True.
  - case_decide; [|done]. simpl. by rewrite decide_False.
Qed.

Lemma bucket_at_double t h :
  inv t →
  bucket_at (double t) (Z.to_nat (h `mod` 2 ^ (global_depth_ t + 1)))
  = bucket_at t (Z.to_nat (h `mod` 2 ^ global_depth_ t)).
Proof.
  intros Hinv. pose proof (inv_depth _ _ _ Hinv) as Hgd.
  pose proof (inv_dir _ _ _ Hinv) as Hlen.
  assert (0 < 2 ^ global_depth_ t) by (apply Z.pow_pos_nonneg; lia).
  assert (0 < 2 ^ (global_depth_ t + 1)) by (apply Z.pow_pos_nonneg; lia).
  pose proof (Z.mod_pos_bound h (2 ^ global_depth_ t)).
  pose proof (Z.mod_pos_bound h (2 ^ (global_depth_ t + 1))).
  set (s1 := Z.to_nat (h `mod` 2 ^ (global_depth_ t + 1))).
  assert (s1 < length (dir_ t ++ dir_ t))%nat as Hs1.
  { unfold s1. rewrite length_app. rewrite Z.pow_add_r in * by lia.
    change (2 ^ 1) with 2 in *. lia. }
  destruct (lookup_lt_is_Some_2 _ _ Hs1) as [a Ha].
  destruct (lookup_double _ _ _ _ Hgd Hlen Ha) as (j0 & Hj0 & Hmod).
  unfold s1 in Hmod. rewrite Z2Nat.id in Hmod by lia.
  rewrite mod_mod_pow2 in Hmod by lia.
  rewrite <- Hmod, Nat2Z.id. unfold bucket_at. simpl.
  fold s1. by rewrite Ha, Hj0.
Qed.

Lemma Find_double t k :
  inv t → global_depth_ t + 1 ≤ 30 → Find hash (double t) k = Find hash t k.
Proof.
  intros Hinv Hle. pose proof (inv_depth _ _ _ Hinv) as Hgd.
  unfold Find. rewrite !IndexOf_Some by (simpl; lia). simpl.
  by rewrite bucket_at_double.
Qed.

(** The bucket a slot points to after the split of the bucket at [a]. *)
Lemma bucket_at_split_bucket t i a b s :
  inv t → dir_ t !! i = Some a → heap_ t !! a = Some b →
  bucket_at (split_bucket hash t a b) s =
  match bucket_at t s with
  | Some (a', b0) =>
      if decide (a' = a)
      then if bit_set (Z.of_nat s) (depth_ b + 1)
           then Some (S (length (heap_ t)),
                      mkBucket (bucket_size_ t) (depth_ b + 1)
                               (high_items hash (depth_ b + 1) (list_ b)))
           else Some (length (heap_ t),
                      mkBucket (bucket_size_ t) (depth_ b + 1)
                               (low_items hash (depth_ b + 1) (list_ b)))
      else Some (a', b0)
  | None => None
  end.
Proof.
  intros Hinv Hi Ha.
  destruct (inv_slots _ _ _ Hinv i a Hi) as (b0 & Hb0 & [Hd Hs Hl Hn Hk]).
  rewrite Ha in Hb0. injection Hb0 as <-.
  rewrite split_bucket_eq by done. unfold bucket_at at 1. simpl.
  destruct (dir_ t !! s) as [a'|] eqn:Hs'.
  - destruct (inv_slots _ _ _ Hinv s a' Hs') as (b0 & Hb0 & _).
    assert (bucket_at t s = Some (a', b0)) as -> by (by apply bucket_at_Some).
    assert (repoint (depth_ b + 1) a (length (heap_ t)) (S (length (heap_ t)))
                    (dir_ t) !! s
            = Some (if decide (a' = a)
                    then if bit_set (Z.of_nat s) (depth_ b + 1)
                         then S (length (heap_ t)) else length (heap_ t)
                    else a')) as ->.
    { apply repoint_lookup. by exists a'. }
    destruct (decide (a' = a)) as [->|Hne].
    + rewrite lookup_fresh_bucket. by destruct (bit_set (Z.of_nat s) (depth_ b + 1)).
    + rewrite lookup_old_bucket; [by rewrite Hb0|done|by eapply lookup_lt_Some].
  - assert (bucket_at t s = None) as ->.
    { unfold bucket_at. by rewrite Hs'. }
    assert (repoint (depth_ b + 1) a (length (heap_ t)) (S (length (heap_ t)))
                    (dir_ t) !! s = None) as ->; [|done].
    unfold repoint. by rewrite list_lookup_imap, Hs'.
Qed.

Lemma bit_set_slot (h gd ld : Z) :
  1 ≤ ld ≤ gd →
  bit_set (Z.of_nat (Z.to_nat (h `mod` 2 ^ gd))) ld = bit_set h ld.
Proof.
  intros Hld. rewrite Z2Nat.id by (apply Z.mod_pos_bound, Z.pow_pos_nonneg; lia).
  rewrite !bit_set_testbit by lia. apply Z.mod_pow2_bits_low. lia.
Qed.

Lemma Find_split_bucket t i a b k :
  inv t → dir_ t !! i = Some a → heap_ t !! a = Some b →
  depth_ b < global_depth_ t →
  Find hash (split_bucket hash t a b) k = Find hash t k.
Proof.
  intros Hinv Hi Ha Hlt.
  destruct (inv_slots _ _ _ Hinv i a Hi) as (b0 & Hb0 & [Hd Hs Hl Hn Hk]).
  rewrite Ha in Hb0. injection Hb0 as <-.
  unfold Find.
  assert (IndexOf hash (split_bucket hash t a b) k = IndexOf hash t k) as ->.
  { by rewrite split_bucket_eq by done. }
  destruct (IndexOf hash t k) as [s|] eqn:Hidx; [|done].
  rewrite (bucket_at_split_bucket t i a b s) by done.
  destruct (bucket_at t s) as [[a' b0]|] eqn:Hat; [|done].
  destruct (decide (a' = a)) as [->|Hne]; [|done].
  apply bucket_at_Some in Hat as [_ Hb0]. rewrite Ha in Hb0. injection Hb0 as <-.
  apply IndexOf_inv in Hidx as [Hgd ->].
  rewrite bit_set_slot by lia.
  destruct (bit_set (hash k) (depth_ b + 1)) eqn:Hbit; f_equal;
    unfold Bucket_Find, high_items, low_items; simpl;
    by apply list_find_key_filter.
Qed.

Lemma split_params t a b :
  NoDup (list_ b).*1 → Z.of_nat (length (list_ b)) ≤ bucket_size_ t →
  bucket_size_ (split hash t a b) = bucket_size_ t ∧
  global_depth_ (split hash t a b)
    = (if depth_ b =? global_depth_ t then global_depth_ t + 1 else global_depth_ t).
Proof.
  intros Hn Hl. unfold split, GetDepth.
  destruct (depth_ b =? global_depth_ t); by rewrite split_bucket_eq.
Qed.

Lemma Find_split t i a b k :
  inv t → dir_ t !! i = Some a → heap_ t !! a = Some b →
  global_depth_ (split hash t a b) ≤ 30 →
  Find hash (split hash t a b) k = Find hash t k.
Proof.
  intros Hinv Hi Ha.
  destruct (inv_slots _ _ _ Hinv i a Hi) as (b0 & Hb0 & [Hd Hs Hl Hn Hk]).
  rewrite Ha in Hb0. injection Hb0 as <-.
  destruct (split_params t a b Hn Hl) as [_ ->].
  unfold split, GetDepth.
  destruct (Z.eqb_spec (depth_ b) (global_depth_ t)) as [Heq|Hne]; intros Hle.
  - rewrite (Find_split_bucket (double t) i a b); simpl.
    + by apply Find_double.
    + by apply inv_double.
    + rewrite lookup_app_l; [done|by eapply lookup_lt_Some].
    + done.
    + lia.
  - apply (Find_split_bucket t i a b); try done. lia.
Qed.

(** *** What [Find] sees after an [Insert] *)

Lemma Find_set_bucket t key index a b b' value :
  IndexOf hash t key = Some index → bucket_at t index = Some (a, b) →
  list_find_key (list_ b') key = Some value →
  (∀ k', k' ≠ key → list_find_key (list_ b') k' = list_find_key (list_ b) k') →
  Find hash (set_heap t (<[a := b']> (heap_ t))) key = Done (Some value) ∧
  ∀ k', k' ≠ key →
    Find hash (set_heap t (<[a := b']> (heap_ t))) k' = Find hash t k'.
Proof.
  intros Hidx Hat Hnew Hother.
  apply bucket_at_Some in Hat as Hat'. destruct Hat' as [Hdir Hheap].
  unfold Find. split.
  - rewrite IndexOf_set_heap, Hidx, (bucket_at_set_heap t a b b') by done.
    rewrite Hat, decide_True by done. unfold Bucket_Find. by rewrite Hnew.
  - intros k' Hk'. rewrite IndexOf_set_heap.
    destruct (IndexOf hash t k') as [index'|]; [|done].
    rewrite (bucket_at_set_heap t a b b') by done.
    destruct (bucket_at t index') as [[a' bj]|] eqn:Hat'; [|done].
    destruct (decide (a' = a)) as [->|Hne]; [|done].
    apply bucket_at_Some in Hat' as [_ Hbj]. rewrite Hheap in Hbj.
    injection Hbj as <-. unfold Bucket_Find. by rewrite Hother.
Qed.

Lemma Insert_Find fuel t key value t' :
  inv t → ok key → Insert hash fuel t key value = Done t' →
  Find hash t' key = Done (Some value) ∧
  ∀ k', k' ≠ key → Find hash t' k' = Find hash t k'.
Proof.
  revert t. induction fuel as [|fuel IH]; intros t Hinv Hok; [done|].
  rewrite Insert_S.
  destruct (IndexOf hash t key) as [index|] eqn:Hidx; [|done].
  destruct (bucket_at t index) as [[a b]|] eqn:Hat; [|done].
  destruct (Bucket_Insert_cases b key value)
    as [(l' & v0 & Hf & Hu & ->)|[(Hnin & Hnf & ->)|(_ & _ & ->)]].
  - intros [= <-].
    destruct (list_update_key_Some _ _ value _ Hf) as (l'' & Hu' & _ & _ & Hn & Ho).
    rewrite Hu in Hu'. injection Hu' as <-.
    by apply (Find_set_bucket t key index a b).
  - intros [= <-]. apply list_find_key_None in Hnin.
    apply (Find_set_bucket t key index a b); try done; simpl.
    + rewrite list_find_key_app, Hnin. simpl. by rewrite decide_True.
    + intros k' Hk'. rewrite list_find_key_app.
      destruct (list_find_key (list_ b) k'); [done|]. simpl.
      by rewrite decide_False.
  - intros Hins. apply bucket_at_Some in Hat as [Hdir Hheap].
    pose proof (inv_split hash ok t index a b Hinv Hdir Hheap) as Hinv2.
    destruct (IH _ Hinv2 Hok Hins) as [Hk Hother]. split; [done|].
    intros k' Hk'. rewrite Hother by done.
    apply (Find_split t index a b); try done.
    destruct fuel as [|fuel']; [done|]. rewrite Insert_S in Hins.
    destruct (IndexOf hash (split hash t a b) key) as [i2|] eqn:Hi2; [|done].
    apply IndexOf_inv in Hi2 as [? _]. lia.
Qed.

(** *** Termination of the loop of [Insert] *)

(** [B] low bits of the hash tell the admissible keys apart, and a
    directory of depth [B] is within what [IndexOf] can address. *)
Variable B : Z.
Hypothesis B_range : 0 ≤ B ≤ 30.
Hypothesis ok_inj : ∀ k k',
  ok k → ok k' → hash k `mod` 2 ^ B = hash k' `mod` 2 ^ B → k = k'.

(** A full bucket that does not hold the key has depth below [B]. *)
Lemma full_bucket_depth_lt t key index a b :
  inv t → ok key → global_depth_ t ≤ B → 1 ≤ bucket_size_ t →
  IndexOf hash t key = Some index → bucket_at t index = Some (a, b) →
  key ∉ (list_ b).*1 → IsFull b = true → depth_ b < B.
Proof.
  intros Hinv Hok HgdB Hbs Hidx Hat Hnin Hfull.
  apply bucket_at_Some in Hat as [Hdir Hheap].
  destruct (inv_slots _ _ _ Hinv index a Hdir) as (b0 & Hb0 & [Hd Hs Hl Hn Hk]).
  rewrite Hheap in Hb0. injection Hb0 as <-.
  destruct (decide (depth_ b < B)) as [|Hge]; [done|exfalso].
  assert (depth_ b = B) as HdB by lia.
  assert (global_depth_ t = B) as Hgd by lia.
  unfold IsFull in Hfull. apply Z.eqb_eq in Hfull.
  destruct (list_ b) as [|[k v] l] eqn:Hlist; [simpl in *; lia|].
  destruct (Hk k) as [Hokk Hmod]; [simpl; left|].
  apply Hnin. simpl. replace key with k; [left|].
  apply ok_inj; [done|done|].
  apply IndexOf_inv in Hidx as [_ ->]. rewrite HdB in Hmod. rewrite Hmod.
  rewrite Z2Nat.id by (apply Z.mod_pos_bound, Z.pow_pos_nonneg; lia).
  rewrite Hgd. by rewrite mod_mod_pow2 by lia.
Qed.

(** After a split the key's slot points to a bucket one level deeper. *)
Lemma bucket_at_split_target t key index a b index2 a2 b2 :
  inv t → IndexOf hash t key = Some index → bucket_at t index = Some (a, b) →
  IndexOf hash (split hash t a b) key = Some index2 →
  bucket_at (split hash t a b) index2 = Some (a2, b2) →
  depth_ b2 = depth_ b + 1.
Proof.
  intros Hinv Hidx Hat. apply bucket_at_Some in Hat as Hat'.
  destruct Hat' as [Hdir Hheap].
  destruct (inv_slots _ _ _ Hinv index a Hdir) as (b0 & Hb0 & [Hd Hs Hl Hn Hk]).
  rewrite Hheap in Hb0. injection Hb0 as <-.
  apply IndexOf_inv in Hidx as [Hgd ->].
  unfold split, GetDepth.
  destruct (Z.eqb_spec (depth_ b) (global_depth_ t)) as [Heq|Hne].
  - assert (dir_ (double t) !! Z.to_nat (hash key `mod` 2 ^ global_depth_ t) = Some a)
      as Hdir2.
    { simpl. rewrite lookup_app_l; [done|by eapply lookup_lt_Some]. }
    rewrite (split_bucket_eq hash (double t)) by done. intros Hi2.
    apply IndexOf_inv in Hi2 as [_ ->]. simpl global_depth_.
    rewrite <- (split_bucket_eq hash (double t)) by done.
    rewrite (bucket_at_split_bucket (double t) _ a b _ (inv_double hash ok t Hinv) Hdir2 Hheap).
    rewrite bucket_at_double, Hat, decide_True by done.
    destruct (bit_set _ _); by intros [= <- <-].
  - rewrite (split_bucket_eq hash t) by done. intros Hi2.
    apply IndexOf_inv in Hi2 as [_ ->]. simpl global_depth_.
    rewrite <- (split_bucket_eq hash t) by done.
    rewrite (bucket_at_split_bucket t _ a b _ Hinv Hdir Hheap).
    rewrite Hat, decide_True by done.
    destruct (bit_set _ _); by intros [= <- <-].
Qed.

Lemma Insert_terminates n : ∀ t key value,
  inv t → ok key → global_depth_ t ≤ B → 1 ≤ bucket_size_ t →
  (∀ index a b, IndexOf hash t key = Some index →
                bucket_at t index = Some (a, b) → B - depth_ b ≤ Z.of_nat n) →
  ∃ t', Insert hash (S n) t key value = Done t' ∧
        global_depth_ t' ≤ B ∧ bucket_size_ t' = bucket_size_ t.
Proof.
  induction n as [|n IH]; intros t key value Hinv Hok HgdB Hbs Hmeasure.
  all: pose proof (inv_depth _ _ _ Hinv) as Hgd0.
  all: assert (0 ≤ global_depth_ t ≤ 30) as Hgd by lia.
  all: pose proof (IndexOf_Some hash t key Hgd) as Hidx.
  all: destruct (bucket_at_IndexOf hash ok t key _ Hinv Hidx) as (a & b & Hat & Hbok).
  all: specialize (Hmeasure _ _ _ Hidx Hat).
  all: rewrite Insert_S, Hidx, Hat.
  all: destruct (Bucket_Insert_cases b key value)
         as [(l' & v0 & Hf & Hu & ->)|[(Hnin & Hnf & ->)|(Hnin & Hfull & ->)]];
         [by eexists|by eexists|].
  all: pose proof (full_bucket_depth_lt t key _ a b Hinv Hok HgdB Hbs Hidx Hat Hnin Hfull)
         as HdB.
  - lia.
  - apply bucket_at_Some in Hat as Hat'. destruct Hat' as [Hdir Hheap].
    destruct Hbok as [Hd Hs Hl Hnd Hk].
    destruct (split_params t a b Hnd Hl) as [Hbs2 Hgd2].
    destruct (IH (split hash t a b) key value) as (t' & Hins & HgdB' & Hbs').
    + eapply inv_split; [done|exact Hdir|exact Hheap].
    + done.
    + rewrite Hgd2. destruct (Z.eqb_spec (depth_ b) (global_depth_ t)); lia.
    + by rewrite Hbs2.
    + intros index2 a2 b2 Hi2 Hat2.
      rewrite (bucket_at_split_target t key _ a b index2 a2 b2 Hinv Hidx Hat Hi2 Hat2).
      lia.
    + exists t'. split; [done|]. split; [done|]. by rewrite Hbs', Hbs2.
Qed.

Lemma Insert_all_cons fuel t k v (kvs : list (K * V)) t1 :
  Insert hash fuel t k v = Done t1 →
  Insert_all hash fuel t ((k, v) :: kvs) = Insert_all hash fuel t1 kvs.
Proof. intros Hins. simpl. by rewrite Hins. Qed.

Lemma Insert_all_Find fuel : ∀ (kvs : list (K * V)) t,
  inv t → global_depth_ t ≤ B → 1 ≤ bucket_size_ t → (Z.to_nat B < fuel)%nat →
  NoDup kvs.*1 → Forall (λ p, ok p.1) kvs →
  ∃ t', Insert_all hash fuel t kvs = Done t' ∧
        (∀ k v, (k, v) ∈ kvs → Find hash t' k = Done (Some v)) ∧
        (∀ k, k ∉ kvs.*1 → Find hash t' k = Find hash t k).
Proof.
  induction kvs as [|[k v] kvs IH]; intros t Hinv HgdB Hbs Hfuel Hnd Hok.
  - exists t. split; [done|]. split; [|done]. intros ?? Hin. inversion Hin.
  - apply NoDup_cons in Hnd as [Hk Hnd]. apply Forall_cons in Hok as [Hokk Hok].
    simpl in Hokk.
    destruct fuel as [|n]; [lia|].
    destruct (Insert_terminates n t k v Hinv Hokk HgdB Hbs) as (t1 & Hins & HgdB1 & Hbs1).
    { intros index a b Hidx Hat. apply bucket_at_Some in Hat as [Hdir Hheap].
      destruct (inv_slots _ _ _ Hinv index a Hdir) as (b0 & Hb0 & [Hd _ _ _ _]).
      rewrite Hheap in Hb0. injection Hb0 as <-. lia. }
    pose proof (Insert_inv hash ok _ _ _ _ _ Hinv Hokk Hins) as Hinv1.
    destruct (Insert_Find _ _ _ _ _ Hinv Hokk Hins) as [Hfk Hfo].
    destruct (IH t1 Hinv1 HgdB1) as (t' & Hall & Hin & Hout); try done.
    { by rewrite Hbs1. }
    exists t'. rewrite (Insert_all_cons _ _ _ _ _ t1) by done. split; [done|]. split.
    + intros k' v' Hin'. apply elem_of_cons in Hin' as [[= -> ->]|Hin'].
      * by rewrite Hout.
      * by apply Hin.
    + intros k' Hk'. simpl in Hk'. apply not_elem_of_cons in Hk' as [Hne Hk'].
      rewrite Hout by done. by apply Hfo.
Qed.

(** The same of the inserts that complete, whatever the hashes of the keys. *)
Lemma Insert_all_found fuel : ∀ (kvs : list (K * V)) t t',
  inv t → NoDup kvs.*1 → Forall (λ p, ok p.1) kvs →
  Insert_all hash fuel t kvs = Done t' →
  (∀ k v, (k, v) ∈ kvs → Find hash t' k = Done (Some v)) ∧
  (∀ k, k ∉ kvs.*1 → Find hash t' k = Find hash t k).
Proof.
  induction kvs as [|[k v] kvs IH]; intros t t' Hinv Hnd Hok Hall.
  - injection Hall as <-. split; [|done]. intros ?? Hin. inversion Hin.
  - apply NoDup_cons in Hnd as [Hk Hnd]. apply Forall_cons in Hok as [Hokk Hok].
    simpl in Hokk. cbn [Insert_all] in Hall.
    destruct (Insert hash fuel t k v) as [t1| | |] eqn:Hins; try done.
    pose proof (Insert_inv hash ok _ _ _ _ _ Hinv Hokk Hins) as Hinv1.
    destruct (Insert_Find _ _ _ _ _ Hinv Hokk Hins) as [Hfk Hfo].
    destruct (IH t1 t' Hinv1 Hnd Hok Hall) as [Hin Hout].
    split.
    + intros k' v' Hin'. apply elem_of_cons in Hin' as [[= -> ->]|Hin'].
      * by rewrite Hout.
      * by apply Hin.
    + intros k' Hk'. simpl in Hk'. apply not_elem_of_cons in Hk' as [Hne Hk'].
      rewrite Hout by done. by apply Hfo.
Qed.

End eht_roundtrip.

Section eht_claims.
Import EHT.

Lemma reachable_Insert_all {K V : Type} `{EqDecision K} (hash : K → Z) fuel
    (kvs : list (K * V)) : ∀ t t',
  reachable hash t → Insert_all hash fuel t kvs = Done t' → reachable hash t'.
Proof.
  induction kvs as [|[k v] kvs IH]; intros t t' Hr; simpl.
  - by intros [= <-].
  - destruct (Insert hash fuel t k v) as [t1| | |] eqn:Hins; try done.
    apply IH. by apply (reach_Insert hash fuel t k v).
Qed.

Lemma Find_init {K V : Type} `{EqDecision K} (hash : K → Z) bucket_size (k : K) :
  Find hash (init bucket_size : ExtendibleHashTable K V) k = Done None.
Proof.
  unfold Find. rewrite IndexOf_Some by (simpl; lia). simpl.
  change (2 ^ 0) with 1. by rewrite Z.mod_1_r.
Qed.

(** C8, amended: no inserted key is lost across splits.  Starting from
    the empty table, after any sequence of inserts of pairwise distinct
    keys that all complete, [Find] returns the inserted value of every
    inserted key and nothing for any other key, whatever doublings and
    splits took place.  The inserts all complete when the low [B] ≤ 30 hash
    bits tell the keys apart (so that the directory stays addressable) and
    a bucket holds one pair at least.  In scenario D (bucket size 2, keys
    1, 5, 9) the global depth ends at least 1 and the three keys are
    found. *)
Theorem no_key_lost_across_splits :
  (∀ (K V : Type) (EqK : EqDecision K) (hash : K → Z)
     (bucket_size : Z) (fuel : nat) (kvs : list (K * V))
     (t : ExtendibleHashTable K V),
     0 ≤ bucket_size → NoDup kvs.*1 →
     Insert_all hash fuel (init bucket_size) kvs = Done t →
     (∀ k v, (k, v) ∈ kvs → Find hash t k = Done (Some v)) ∧
     (∀ k, k ∉ kvs.*1 → Find hash t k = Done None)) ∧
  (∀ (K V : Type) (EqK : EqDecision K) (hash : K → Z) (ok : K → Prop)
     (B bucket_size : Z) (fuel : nat) (kvs : list (K * V)),
     0 ≤ B ≤ 30 →
     (∀ k k', ok k → ok k' →
              hash k `mod` 2 ^ B = hash k' `mod` 2 ^ B → k = k') →
     1 ≤ bucket_size → (Z.to_nat B < fuel)%nat →
     NoDup kvs.*1 → Forall (λ p, ok p.1) kvs →
     ∃ t, Insert_all hash fuel (init bucket_size) kvs = Done t ∧
          (∀ k v, (k, v) ∈ kvs → Find hash t k = Done (Some v)) ∧
          (∀ k, k ∉ kvs.*1 → Find hash t k = Done None)) ∧
  (∃ t, scenarioD = Done t ∧ 1 ≤ global_depth_ t ∧
        Find wrap_size_t t 1 = Done (Some 1%nat) ∧
        Find wrap_size_t t 5 = Done (Some 2%nat) ∧
        Find wrap_size_t t 9 = Done (Some 3%nat)).
Proof.
  split; [|split].
  - intros K V EqK hash bs fuel kvs t Hbs Hnd Hall.
    destruct (Insert_all_found hash (λ _, True) fuel kvs (init bs) t)
      as [Hin Hout]; try done.
    + by apply inv_init.
    + by apply Forall_forall.
    + split; [done|]. intros k Hk. rewrite Hout by done. apply Find_init.
  - intros K V EqK hash ok B bs fuel kvs HB Hinj Hbs Hfuel Hnd Hok.
    destruct (Insert_all_Find hash ok B HB Hinj fuel kvs (init bs))
      as (t & Hall & Hin & Hout); try done.
    + apply inv_init. lia.
    + simpl. lia.
    + exists t. split; [done|]. split; [done|].
      intros k Hk. rewrite Hout by done. apply Find_init.
  - exists scenarioD_table. by vm_compute.
Qed.

Lemma no_key_lost_across_splits_witness :
  let ok := λ k : Z, 0 ≤ k < 2 ^ 30 in
  let kvs := [(1, 1%nat); (5, 2%nat); (9, 3%nat)] in
  let far := [(0, 1%nat); (2 ^ 30, 2%nat)] in
  let t2 := mkTable 0 2 1 [0%nat] [mkBucket 2 0 far] in
  ((0 ≤ 2 ∧ NoDup far.*1 ∧ Insert_all wrap_size_t 1 (init 2) far = Done t2) ∧
   (∀ k v, (k, v) ∈ far → Find wrap_size_t t2 k = Done (Some v)) ∧
   (∀ k, k ∉ far.*1 → Find wrap_size_t t2 k = Done None)) ∧
  (0 ≤ 30 ≤ 30 ∧
   (∀ k k', ok k → ok k' →
      wrap_size_t k `mod` 2 ^ 30 = wrap_size_t k' `mod` 2 ^ 30 → k = k') ∧
   1 ≤ 2 ∧ (Z.to_nat 30 < 64)%nat ∧ NoDup kvs.*1 ∧ Forall (λ p, ok p.1) kvs) ∧
  ∃ t, Insert_all wrap_size_t 64 (init 2) kvs = Done t ∧
       (∀ k v, (k, v) ∈ kvs → Find wrap_size_t t k = Done (Some v)) ∧
       (∀ k, k ∉ kvs.*1 → Find wrap_size_t t k = Done None).
Proof.
  intros ok kvs far t2.
  assert (NoDup far.*1) as Hfar by (by apply (bool_decide_unpack _)).
  assert (Insert_all wrap_size_t 1 (init 2) far = Done t2) as Hrun
    by (vm_compute; reflexivity).
  split.
  { split; [exact (conj (Z.le_0_2) (conj Hfar Hrun))|].
    assert (0 ≤ 2) as H02 by lia.
    exact (proj1 no_key_lost_across_splits Z nat _ wrap_size_t 2 1%nat far t2
             H02 Hfar Hrun). }
  assert (∀ k k', ok k → ok k' →
            wrap_size_t k `mod` 2 ^ 30 = wrap_size_t k' `mod` 2 ^ 30 → k = k')
    as Hinj.
  { unfold ok, wrap_size_t. intros k k' Hk Hk'.
    rewrite (Z.mod_small k (2 ^ 64)), (Z.mod_small k' (2 ^ 64)) by lia.
    rewrite !Z.mod_small by lia. done. }
  assert (NoDup kvs.*1) as Hnd.
  { unfold kvs. simpl. repeat (apply NoDup_cons; split; [set_solver|]).
    apply NoDup_nil_2. }
  assert (Forall (λ p, ok p.1) kvs) as Hok.
  { unfold kvs, ok. repeat (apply Forall_cons; split; [simpl; lia|]).
    apply Forall_nil_2. }
  split; [split_and!; try done; lia|].
  apply (proj1 (proj2 no_key_lost_across_splits)
           Z nat _ wrap_size_t ok 30 2 64%nat kvs);
    try done; lia.
Defined.

(** The keys 0 and 2^30 agree on their low 30 hash bits.  While the bucket
    of slot 0 holds key 0 alone, is full and has the depth of the
    directory, each pass of the loop of [Insert] for key 2^30 doubles the
    directory and leaves the same situation one level deeper, until
    [1 << global_depth_] leaves the range of [int]: with [n] levels to go
    the call runs out of fuel or ends there. *)
Lemma Insert_shared_low_bits (v w : nat) :
  ∀ (fuel n : nat) (t : ExtendibleHashTable Z nat) (a : nat),
  (n ≤ 31)%nat →
  global_depth_ t = 31 - Z.of_nat n →
  bucket_size_ t = 1 →
  dir_ t !! 0%nat = Some a →
  heap_ t !! a = Some (mkBucket 1 (global_depth_ t) [(0, v)]) →
  Insert wrap_size_t fuel t (2 ^ 30) w
  = if decide (fuel ≤ n)%nat then OutOfFuel else Overflow.
Proof.
  induction fuel as [|fuel IH]; intros n t a Hn Hgd Hbs Hdir Hheap.
  - cbn [Insert]. destruct (decide (0 ≤ n)%nat); [done|lia].
  - destruct n as [|n].
    + destruct (decide (S fuel ≤ 0)%nat); [lia|].
      cbn [Insert]. unfold IndexOf. by rewrite Hgd.
    + cbn [Insert]. rewrite IndexOf_Some by lia.
      assert (wrap_size_t (2 ^ 30) `mod` 2 ^ global_depth_ t = 0) as ->.
      { change (wrap_size_t (2 ^ 30)) with (2 ^ 30).
        replace 30 with ((30 - global_depth_ t) + global_depth_ t) by lia.
        rewrite Z.pow_add_r by lia. apply Z_mod_mult. }
      change (Z.to_nat 0) with 0%nat.
      unfold bucket_at. rewrite Hdir, Hheap.
      assert (Bucket_Insert (mkBucket 1 (global_depth_ t) [(0, v)]) (2 ^ 30) w
              = (false, mkBucket 1 (global_depth_ t) [(0, v)])) as ->.
      { unfold Bucket_Insert. cbn [list_ list_update_key].
        destruct (decide (0 = 2 ^ 30)) as [Heq|_]; [by vm_compute in Heq|].
        done. }
      assert (∀ ld, bit_set (wrap_size_t 0) ld = false) as Hbit.
      { intros ld. unfold bit_set. change (wrap_size_t 0) with 0.
        by rewrite Z.shiftr_0_l. }
      assert (split wrap_size_t t a (mkBucket 1 (global_depth_ t) [(0, v)])
              = mkTable (global_depth_ t + 1) 1 (num_buckets_ t + 1)
                  (repoint (global_depth_ t + 1) a (length (heap_ t))
                           (S (length (heap_ t))) (dir_ t ++ dir_ t))
                  (<[a := mkBucket 1 (global_depth_ t + 1) [(0, v)]]> (heap_ t)
                   ++ [mkBucket 1 (global_depth_ t + 1) [(0, v)];
                       mkBucket 1 (global_depth_ t + 1) []])) as ->.
      { unfold split. cbn [GetDepth depth_]. rewrite Z.eqb_refl.
        unfold split_bucket, double, redistribute, IncrementDepth.
        cbn [GetDepth depth_ list_ size_ heap_ dir_ global_depth_ bucket_size_
             num_buckets_ foldl].
        rewrite Hbit, length_insert, Hbs. done. }
      rewrite (IH n _ (length (heap_ t))).
      * destruct (decide (fuel ≤ n)%nat), (decide (S fuel ≤ S n)%nat);
          [done|lia|lia|done].
      * lia.
      * cbn [global_depth_]. lia.
      * done.
      * cbn [dir_]. unfold repoint. rewrite list_lookup_imap.
        rewrite lookup_app_l by (by apply lookup_lt_Some in Hdir).
        rewrite Hdir. cbn. rewrite decide_True by done.
        unfold bit_set. by rewrite Z.shiftr_0_l.
      * cbn [heap_ global_depth_].
        rewrite lookup_app_r by (rewrite length_insert; lia).
        by rewrite length_insert, Nat.sub_diag.
Qed.

(** C8, as worded, fails for keys that the hash bits of the directory cannot
    tell apart.  With bucket size 1 and the distinct keys 0 and 2^30 the
    first insert completes and the second never does, whatever the fuel:
    after 31 doublings [1 << global_depth_] leaves the range of [int].  No
    table comes after the two inserts in which the keys could be found. *)
Lemma insert_of_keys_sharing_30_bits_never_completes :
  NoDup [0; 2 ^ 30] ∧
  (∃ t, Insert wrap_size_t 1 (init 1) 0 1%nat = Done t) ∧
  ∀ fuel,
    Insert_all wrap_size_t fuel (init 1) [(0, 1%nat); (2 ^ 30, 2%nat)]
    = (if decide (fuel ≤ 31)%nat then OutOfFuel else Overflow) ∧
    ∀ t, Insert_all wrap_size_t fuel (init 1) [(0, 1%nat); (2 ^ 30, 2%nat)]
         ≠ Done t.
Proof.
  split; [by apply (bool_decide_unpack _)|]. split; [by eexists|].
  intros fuel.
  assert (Insert_all wrap_size_t fuel (init 1) [(0, 1%nat); (2 ^ 30, 2%nat)]
          = (if decide (fuel ≤ 31)%nat then OutOfFuel else Overflow)) as Hrun.
  { destruct fuel as [|fuel]; [done|].
    change (Insert_all wrap_size_t (S fuel) (init 1) [(0, 1%nat); (2 ^ 30, 2%nat)])
      with (match Insert wrap_size_t (S fuel)
                    (mkTable 0 1 1 [0%nat] [mkBucket 1 0 [(0, 1%nat)]])
                    (2 ^ 30) 2%nat with
            | Done t' => Done t'
            | o => o
            end).
    rewrite (Insert_shared_low_bits 1 2 (S fuel) 31 _ 0%nat) by done.
    by destruct (decide (S fuel ≤ 31)%nat). }
  split; [exact Hrun|].
  intros t. rewrite Hrun. by destruct (decide (fuel ≤ 31)%nat).
Qed.

Lemma scenarioD_table_reachable : reachable wrap_size_t scenarioD_table.
Proof.
  apply (reachable_Insert_all wrap_size_t 64 [(1, 1%nat); (5, 2%nat); (9, 3%nat)]
           (init 2)).
  - by apply reach_init.
  - by vm_compute.
Qed.


(** In the table of scenario D the bucket of key 1 is full (it holds keys 1
    and 9 and the bucket size is 2). *)
Lemma Insert_present_overwrites_witness :
  let t := scenarioD_table in
  Find wrap_size_t t 1 = Done (Some 1%nat) ∧
  ∃ t', Insert wrap_size_t 1 t 1 7%nat = Done t' ∧
    global_depth_ t' = global_depth_ t ∧
    num_buckets_ t' = num_buckets_ t ∧
    dir_ t' = dir_ t ∧
    length (heap_ t') = length (heap_ t) ∧
    (∀ a b, heap_ t !! a = Some b →
       ∃ b', heap_ t' !! a = Some b' ∧ depth_ b' = depth_ b ∧
             (list_ b').*1 = (list_ b).*1) ∧
    Find wrap_size_t t' 1 = Done (Some 7%nat) ∧
    (∀ k', k' ≠ 1 → Find wrap_size_t t' k' = Find wrap_size_t t k').
Proof.
  split; [by vm_compute|].
  apply (Insert_present_overwrites wrap_size_t scenarioD_table 1 1%nat 7%nat 0).
  by vm_compute.
Defined.

End eht_claims.

(* ===================================================================== *)
(** * Properties of the buffer pool manager *)
(* ===================================================================== *)

Section bpm_facts.
Import BPM.

Lemma hash_page_id_inj k k' :
  page_id_ok k → page_id_ok k' →
  hash_page_id k `mod` 2 ^ 30 = hash_page_id k' `mod` 2 ^ 30 → k = k'.
Proof.
  unfold page_id_ok, hash_page_id, wrap_size_t. intros Hk Hk'.
  rewrite (Z.mod_small k (2 ^ 64)), (Z.mod_small k' (2 ^ 64)) by lia.
  by rewrite !Z.mod_small by lia.
Qed.

Lemma table_ready_Remove pt page_id :
  table_ready pt →
  ∃ res pt', EHT.Remove hash_page_id pt page_id = Done (res, pt') ∧ table_ready pt'.
Proof.
  intros (Hinv & Hgd & Hbs). pose proof (EHT.inv_depth _ _ _ Hinv) as Hgd0.
  assert (0 ≤ EHT.global_depth_ pt ≤ 30) as Hrange by lia.
  pose proof (IndexOf_Some hash_page_id pt page_id Hrange) as Hidx.
  destruct (bucket_at_IndexOf _ _ pt page_id _ Hinv Hidx) as (a & b & Hat & _).
  destruct (EHT.Remove hash_page_id pt page_id) as [[res pt']| | |] eqn:Hrem.
  - exists res, pt'. split; [done|].
    destruct (Remove_inv _ _ _ _ _ _ Hinv Hrem) as [Hinv' Hgd'].
    split; [done|]. split; [lia|].
    unfold EHT.Remove in Hrem. rewrite Hidx, Hat in Hrem.
    destruct (EHT.Bucket_Remove b page_id). by injection Hrem as _ <-.
  - unfold EHT.Remove in Hrem. rewrite Hidx, Hat in Hrem.
    by destruct (EHT.Bucket_Remove b page_id).
  - unfold EHT.Remove in Hrem. rewrite Hidx, Hat in Hrem.
    by destruct (EHT.Bucket_Remove b page_id).
  - unfold EHT.Remove in Hrem. rewrite Hidx, Hat in Hrem.
    by destruct (EHT.Bucket_Remove b page_id).
Qed.

Lemma table_ready_Insert fuel pt page_id frame_id :
  table_ready pt → page_id_ok page_id → (30 < fuel)%nat →
  ∃ pt', EHT.Insert hash_page_id fuel pt page_id frame_id = Done pt'.
Proof.
  intros (Hinv & Hgd & Hbs) Hok Hfuel. destruct fuel as [|n]; [lia|].
  destruct (Insert_terminates hash_page_id page_id_ok 30 ltac:(lia) hash_page_id_inj
              n pt page_id frame_id Hinv Hok Hgd Hbs) as (pt' & Hins & _).
  - intros index a b Hidx Hat. apply bucket_at_Some in Hat as [Hdir Hheap].
    destruct (EHT.inv_slots _ _ _ Hinv index a Hdir) as (b0 & Hb0 & [Hd _ _ _ _]).
    rewrite Hheap in Hb0. injection Hb0 as <-. lia.
  - by exists pt'.
Qed.

(** What the eviction branch of [obtain_frame] leaves behind. *)
Lemma obtain_frame_evicts bpm f r' victim :
  free_list_ bpm = [] →
  LRUK.Evict (replacer_ bpm) = (Some f, r') →
  page_at bpm f = Done victim →
  table_ready (page_table_ bpm) →
  ∃ bpm1, obtain_frame bpm = Done (Some (f, bpm1)) ∧
    trace_ bpm1 = trace_ bpm ++ write_back victim ∧
    disk_ bpm1 = (if is_dirty_ victim
                  then <[page_id_ victim := data_ victim]> (disk_ bpm)
                  else disk_ bpm) ∧
    pages_ bpm1 = pages_ bpm ∧
    next_page_id_ bpm1 = next_page_id_ bpm ∧
    table_ready (page_table_ bpm1).
Proof.
  intros Hfree Hev Hpage Hready. unfold obtain_frame. rewrite Hfree, Hev.
  assert (page_at (set_replacer bpm r') f = Done victim) as -> by done.
  simpl.
  set (bpm0 := if is_dirty_ victim
               then WritePage (set_replacer bpm r') (page_id_ victim) (data_ victim)
               else set_replacer bpm r').
  assert (page_table_ bpm0 = page_table_ bpm) as Hpt.
  { unfold bpm0. by destruct (is_dirty_ victim). }
  destruct (table_ready_Remove (page_table_ bpm) (page_id_ victim) Hready)
    as (res & pt' & Hrem & Hready').
  rewrite Hpt, Hrem. simpl. eexists. split; [done|].
  unfold bpm0, write_back. destruct (is_dirty_ victim); simpl;
    rewrite ?app_nil_r; done.
Qed.

Lemma register_frame_Done fuel bpm page_id frame_id :
  table_ready (page_table_ bpm) → page_id_ok page_id → (30 < fuel)%nat →
  ∃ bpm', register_frame fuel bpm page_id frame_id = Done bpm' ∧
    trace_ bpm' = trace_ bpm ∧ disk_ bpm' = disk_ bpm ∧ pages_ bpm' = pages_ bpm.
Proof.
  intros Hready Hok Hfuel. unfold register_frame.
  destruct (table_ready_Insert fuel _ page_id frame_id Hready Hok Hfuel) as [pt' ->].
  simpl. by eexists.
Qed.

Lemma page_at_set_page bpm f old pg :
  page_at bpm f = Done old → page_at (set_page bpm f pg) f = Done pg.
Proof.
  unfold page_at. destruct (f <? 0); [done|].
  destruct (pages_ bpm !! Z.to_nat f) eqn:Hf; [|done]. intros _. simpl.
  rewrite list_lookup_insert_eq; [done|by eapply lookup_lt_Some].
Qed.

(** C6: whenever [NewPgImp] or [FetchPgImp] gets its frame by eviction,
    the trace of the call shows the write of the victim's page id and bytes
    to the disk manager, when the victim is dirty, before the reset of the
    frame for the new page, and no disk write when the victim is clean.  In
    scenario C (pool size 1, [new_page] gives page 0, bytes written,
    [unpin(0, true)]) the second [new_page] logs the write of page 0 with
    those bytes and then the reset of frame 0 for page 1. *)
Theorem eviction_writes_dirty_victim_before_reuse :
  (∀ fuel bpm f r' victim,
     free_list_ bpm = [] →
     LRUK.Evict (replacer_ bpm) = (Some f, r') →
     page_at bpm f = Done victim →
     table_ready (page_table_ bpm) →
     page_id_ok (next_page_id_ bpm) → (30 < fuel)%nat →
     ∃ bpm', NewPgImp fuel bpm = Done (Some (next_page_id_ bpm, f), bpm') ∧
       trace_ bpm' = trace_ bpm ++ write_back victim ++ [EvResetMemory f] ∧
       page_at bpm' f = Done (mkPage zeroed (next_page_id_ bpm) 1 false)) ∧
  (∀ fuel bpm page_id f r' victim,
     EHT.Find hash_page_id (page_table_ bpm) page_id = Done None →
     free_list_ bpm = [] →
     LRUK.Evict (replacer_ bpm) = (Some f, r') →
     page_at bpm f = Done victim →
     table_ready (page_table_ bpm) →
     page_id_ok page_id → (30 < fuel)%nat →
     ∃ bpm' bytes, FetchPgImp fuel bpm page_id = Done (Some f, bpm') ∧
       trace_ bpm' = trace_ bpm ++ write_back victim
                       ++ [EvResetMemory f; EvReadPage page_id] ∧
       page_at bpm' f = Done (mkPage bytes page_id 1 false)) ∧
  (∃ bpm bpm', scenarioC_before = Done bpm ∧
     trace_ bpm = [EvResetMemory 0] ∧
     NewPgImp 64 bpm = Done (Some (1, 0), bpm') ∧
     trace_ bpm' = trace_ bpm ++ [EvWritePage 0 scenarioC_payload; EvResetMemory 0]).
Proof.
  split_and!.
  - intros fuel bpm f r' victim Hfree Hev Hpage Hready Hok Hfuel.
    destruct (obtain_frame_evicts bpm f r' victim Hfree Hev Hpage Hready)
      as (bpm1 & Hob & Htr & _ & Hpages & Hnext & Hready1).
    unfold NewPgImp. rewrite Hob. simpl. unfold AllocatePage. rewrite Hnext.
    set (bpm2 := set_page _ f _).
    destruct (register_frame_Done fuel bpm2 (next_page_id_ bpm) f)
      as (bpm' & -> & Htr' & _ & Hpages'); [done|done|done|].
    simpl. exists bpm'. split; [done|]. split.
    + rewrite Htr'. simpl. rewrite Htr. by rewrite <- app_assoc.
    + assert (page_at bpm2 f
              = Done (mkPage zeroed (next_page_id_ bpm) 1 false)) as Hp2.
      { unfold bpm2. eapply page_at_set_page.
        unfold page_at in *. simpl. rewrite Hpages. exact Hpage. }
      unfold page_at in *. by rewrite Hpages'.
  - intros fuel bpm page_id f r' victim Hfind Hfree Hev Hpage Hready Hok Hfuel.
    destruct (obtain_frame_evicts bpm f r' victim Hfree Hev Hpage Hready)
      as (bpm1 & Hob & Htr & _ & Hpages & Hnext & Hready1).
    unfold FetchPgImp. rewrite Hfind. simpl. rewrite Hob. simpl.
    set (bytes := default zeroed (disk_ bpm1 !! page_id)).
    set (bpm2 := set_page _ f _).
    destruct (register_frame_Done fuel bpm2 page_id f)
      as (bpm' & -> & Htr' & _ & Hpages'); [done|done|done|].
    simpl. exists bpm', bytes. split; [done|]. split.
    + rewrite Htr'. simpl. rewrite Htr. by rewrite <- !app_assoc.
    + assert (page_at bpm2 f = Done (mkPage bytes page_id 1 false)) as Hp2.
      { unfold bpm2. eapply page_at_set_page.
        unfold page_at in *. simpl. rewrite Hpages. exact Hpage. }
      unfold page_at in *. by rewrite Hpages'.
  - exists scenarioC_state.
    exists (match NewPgImp 64 scenarioC_state with
            | Done (_, b) => b
            | _ => scenarioC_state
            end).
    by vm_compute.
Qed.

Lemma scenarioC_table_ready : table_ready (page_table_ scenarioC_state).
Proof.
  split; [|by vm_compute].
  apply (Insert_inv hash_page_id page_id_ok 64 (EHT.init 4) 0 0).
  - apply inv_init. lia.
  - by vm_compute.
  - by vm_compute.
Qed.

Lemma eviction_writes_dirty_victim_before_reuse_witness :
  let bpm := scenarioC_state in
  let victim := mkPage scenarioC_payload 0 0 true in
  (free_list_ bpm = [] ∧
   LRUK.Evict (replacer_ bpm) = (Some 0, snd (LRUK.Evict (replacer_ bpm))) ∧
   page_at bpm 0 = Done victim ∧
   table_ready (page_table_ bpm) ∧
   page_id_ok (next_page_id_ bpm) ∧ (30 < 64)%nat) ∧
  ∃ bpm', NewPgImp 64 bpm = Done (Some (next_page_id_ bpm, 0), bpm') ∧
    trace_ bpm' = trace_ bpm ++ write_back victim ++ [EvResetMemory 0] ∧
    page_at bpm' 0 = Done (mkPage zeroed (next_page_id_ bpm) 1 false).
Proof.
  intros bpm victim.
  assert (free_list_ bpm = []) as H1 by (by vm_compute).
  assert (LRUK.Evict (replacer_ bpm) = (Some 0, snd (LRUK.Evict (replacer_ bpm))))
    as H2 by (by vm_compute).
  assert (page_at bpm 0 = Done victim) as H3 by (by vm_compute).
  assert (page_id_ok (next_page_id_ bpm)) as H5 by (by vm_compute).
  assert (30 < 64)%nat as H6 by lia.
  split; [split_and!; try done; apply scenarioC_table_ready|].
  apply (proj1 eviction_writes_dirty_victim_before_reuse 64%nat bpm 0
               (snd (LRUK.Evict (replacer_ bpm))) victim H1 H2 H3
               scenarioC_table_ready H5 H6).
Defined.

End bpm_facts.

(* ===================================================================== *)
(** * Properties of the B+tree *)
(* ===================================================================== *)

Section bpt_scenarios.
Import BPT.
#[local] Existing Instance scenario_layout.

(** C2 (the code at the failing input): after the inserts of scenario E
    and the removal of keys 1..8 the root is still the internal page 45,
    the emptied leaves are still there, the only page ever passed to
    [DeletePage] is 37, which its parent 38 still points to, and the
    removal of key 9 then fetches that deleted page. *)
Theorem scenarioF_does_not_collapse :
  ∃ t8, scenarioF 8 = Done (tt, t8) ∧
    root_page_id_ t8 = 45 ∧
    page_type_ <$> node_of t8 45 = Some INTERNAL_PAGE ∧
    array_ <$> node_of t8 1 = Some [] ∧
    deleted_pages t8 = [37] ∧
    node_of t8 37 = None ∧
    array_ <$> node_of t8 38 = Some [(0, 29); (9, 37)] ∧
    array_ <$> node_of t8 29 = Some [(9, 9); (10, 10)] ∧
    size (pool_ t8) = 44%nat ∧
    Remove 64 9 t8 = Fault.
Proof. exists (scenarioF_tree 8). by vm_compute. Qed.

End bpt_scenarios.


Section bpt_monad.
Import BPT.

Lemma bind_run {A B} (m : M A) (f : A → M B) (t : BPlusTree) :
  (m ≫= f) t =
  match m t with
  | Done (a, t') => f a t'
  | OutOfFuel => OutOfFuel
  | Fault => Fault
  | Overflow => Overflow
  end.
Proof. done. Qed.

Lemma bind_Done {A B} (m : M A) (f : A → M B) t b t2 :
  (m ≫= f) t = Done (b, t2) →
  ∃ a t1, m t = Done (a, t1) ∧ f a t1 = Done (b, t2).
Proof.
  rewrite bind_run. destruct (m t) as [[a t1]| | |]; try done.
  intros Hf. by exists a, t1.
Qed.

Lemma ret_run {A} (a : A) (t : BPlusTree) : (mret a : M A) t = Done (a, t).
Proof. done. Qed.

End bpt_monad.

Section bpt_duplicate.
Import BPT.
Context {layout : PageLayout}.

Implicit Types (t : BPlusTree) (base : gmap Z Frame).

Lemma same_fields_refl t : same_fields t t.
Proof. by repeat split. Qed.

Lemma same_fields_trans t1 t2 t3 :
  same_fields t1 t2 → same_fields t2 t3 → same_fields t1 t3.
Proof. unfold same_fields. intros (?&?&?&?&?) (?&?&?&?&?). repeat split; congruence. Qed.

(** [FetchPage] of a page of a pool in which [page] carries one extra pin. *)
Lemma FetchPage_Done page t t' :
  FetchPage page t = Done (tt, t') →
  ∃ fr, pool_ t !! page = Some fr ∧
        pool_ t' = <[page := pin fr]> (pool_ t) ∧
        same_fields t t' ∧ calls_ t' = calls_ t ++ [CallFetchPage page].
Proof.
  unfold FetchPage. simpl. destruct (pool_ t !! page) as [fr|] eqn:Hfr; [|done].
  intros [= <-]. exists fr. by repeat split.
Qed.

Lemma UnpinPage_pinned page base t :
  pins_nonneg base → is_Some (base !! page) →
  pool_ t = alter pin page base →
  ∃ t', UnpinPage page false t = Done (true, t') ∧
        pool_ t' = base ∧ same_fields t t' ∧
        calls_ t' = calls_ t ++ [CallUnpinPage page false].
Proof.
  intros Hnn [fr Hfr] Hpool. unfold UnpinPage. simpl.
  rewrite Hpool, lookup_alter_eq, Hfr. simpl.
  pose proof (Hnn _ _ Hfr).
  destruct (Z.leb_spec (pin_count_ fr + 1) 0); [lia|].
  eexists. split; [done|]. simpl. split; [|by repeat split].
  apply map_eq. intros q. destruct (decide (q = page)) as [->|Hne].
  - rewrite lookup_insert_eq, Hfr. f_equal. destruct fr. simpl. f_equal. lia.
  - by rewrite lookup_insert_ne, lookup_alter_ne.
Qed.

(** The loop of [FindLeafPage] hands the extra pin down from page to page
    and touches nothing else. *)
Lemma descend_pinned fuel base : ∀ page key t leaf t',
  pins_nonneg base → is_Some (base !! page) →
  pool_ t = alter pin page base →
  descend fuel page key t = Done (leaf, t') →
  is_Some (base !! leaf) ∧ pool_ t' = alter pin leaf base ∧
  same_fields t t' ∧
  ∃ l, calls_ t' = calls_ t ++ l ∧ Forall clean_call l.
Proof.
  induction fuel as [|fuel IH]; intros page key t leaf t' Hnn [fr Hfr] Hpool; [done|].
  simpl. intros Hrun.
  apply bind_Done in Hrun as (node & t1 & Hnode & Hrun).
  unfold node_at in Hnode. destruct (pool_ t !! page) as [fr'|] eqn:Hfr'; [|done].
  injection Hnode as <- <-.
  destruct (IsLeafPage (node_ fr')).
  { injection Hrun as <- <-. split; [by eexists|]. split; [done|].
    split; [apply same_fields_refl|]. exists []. by rewrite app_nil_r. }
  apply bind_Done in Hrun as (child & t1 & Hchild & Hrun).
  unfold lift in Hchild.
  destruct (ValueAt (node_ fr') _) as [c| | |]; try done.
  simpl in Hchild. injection Hchild as -> <-.
  apply bind_Done in Hrun as ([] & t1 & Hfetch & Hrun).
  apply FetchPage_Done in Hfetch as (cfr & Hcfr & Hpool1 & Hsame1 & Hcalls1).
  apply bind_Done in Hrun as (b & t2 & Hunpin & Hrun).
  (* the child is a page of the pool *)
  assert (is_Some (base !! child)) as Hchild.
  { rewrite Hpool in Hcfr. destruct (decide (child = page)) as [->|Hne].
    - by eexists.
    - rewrite lookup_alter_ne in Hcfr by done. by eexists. }
  destruct Hchild as [cfr0 Hcfr0].
  (* after the unpin the extra pin sits on the child *)
  assert (pool_ t2 = alter pin child base ∧ same_fields t1 t2 ∧
          calls_ t2 = calls_ t1 ++ [CallUnpinPage page false]) as (Hpool2 & Hsame2 & Hcalls2).
  { unfold UnpinPage in Hunpin. simpl in Hunpin.
    rewrite Hpool1, Hpool in Hunpin. rewrite Hpool in Hcfr.
    pose proof (Hnn _ _ Hfr). pose proof (Hnn _ _ Hcfr0).
    destruct (decide (child = page)) as [->|Hne].
    - rewrite lookup_insert_eq in Hunpin. simpl in Hunpin.
      rewrite lookup_alter_eq, Hfr in Hcfr. simpl in Hcfr. injection Hcfr as <-.
      simpl in Hunpin.
      destruct (Z.leb_spec (pin_count_ fr + 1 + 1) 0); [lia|].
      injection Hunpin as <- <-. simpl. split; [|by repeat split].
      rewrite ?Hpool1, ?Hpool. apply map_eq. intros q.
      destruct (decide (q = page)) as [->|Hq].
      + rewrite lookup_insert_eq, lookup_alter_eq, Hfr. simpl. f_equal.
        unfold pin. simpl. f_equal. lia.
      + by rewrite !lookup_insert_ne, lookup_alter_ne by done.
    - rewrite lookup_insert_ne, lookup_alter_eq, Hfr in Hunpin by done.
      simpl in Hunpin.
      destruct (Z.leb_spec (pin_count_ fr + 1) 0); [lia|].
      injection Hunpin as <- <-. simpl. split; [|by repeat split].
      rewrite lookup_alter_ne in Hcfr by done.
      rewrite ?Hpool1, ?Hpool. apply map_eq. intros q.
      destruct (decide (q = page)) as [->|Hq].
      + rewrite lookup_insert_eq, lookup_alter_ne, Hfr by done. f_equal.
        destruct fr. simpl. f_equal. lia.
      + rewrite lookup_insert_ne by done.
        destruct (decide (q = child)) as [->|Hq'].
        * rewrite lookup_insert_eq, lookup_alter_eq, Hcfr. done.
        * by rewrite lookup_insert_ne, !lookup_alter_ne by done. }
  destruct (IH child key t2 leaf t' Hnn (ltac:(by eexists)) Hpool2 Hrun)
    as (Hleaf & Hpool' & Hsame' & l & Hcalls' & Hclean).
  split; [done|]. split; [done|]. split.
  { eapply same_fields_trans; [exact Hsame1|].
    eapply same_fields_trans; [exact Hsame2|done]. }
  exists ([CallFetchPage child; CallUnpinPage page false] ++ l). split.
  - rewrite Hcalls', Hcalls2, Hcalls1. by rewrite <- !app_assoc.
  - apply Forall_app. split; [|done]. by repeat constructor.
Qed.

Lemma alter_pin_Some base page fr :
  base !! page = Some fr → alter pin page base = <[page := pin fr]> base.
Proof.
  intros Hfr. apply map_eq. intros q. destruct (decide (q = page)) as [->|Hne].
  - by rewrite lookup_alter_eq, lookup_insert_eq, Hfr.
  - by rewrite lookup_alter_ne, lookup_insert_ne.
Qed.

(** What a completed [FindLeafPage] on a non-empty tree has done. *)
Lemma FindLeafPage_pinned fuel key t res t' :
  IsEmpty t = false → pins_nonneg (pool_ t) →
  FindLeafPage fuel key t = Done (res, t') →
  ∃ leaf, res = Some leaf ∧ is_Some (pool_ t !! leaf) ∧
    pool_ t' = alter pin leaf (pool_ t) ∧ same_fields t t' ∧
    ∃ l, calls_ t' = calls_ t ++ l ∧ Forall clean_call l.
Proof.
  intros Hne Hnn. unfold FindLeafPage. rewrite bind_run. simpl. rewrite Hne.
  intros Hrun. apply bind_Done in Hrun as ([] & t1 & Hfetch & Hrun).
  apply FetchPage_Done in Hfetch as (fr & Hfr & Hpool1 & Hsame1 & Hcalls1).
  apply bind_Done in Hrun as (leaf & t2 & Hdesc & Hrun).
  injection Hrun as <- <-.
  destruct Hsame1 as (Hroot1 & Hs1).
  destruct (descend_pinned fuel (pool_ t) (root_page_id_ t) key t1 leaf t2)
    as (Hleaf & Hpool2 & Hsame2 & l & Hcalls2 & Hclean); try done.
  { by rewrite Hpool1, (alter_pin_Some _ _ fr). }
  exists leaf. split; [done|]. split; [done|]. split; [done|]. split.
  { eapply same_fields_trans; [|exact Hsame2]. by split. }
  exists (CallFetchPage (root_page_id_ t) :: l). split.
  - by rewrite Hcalls2, Hcalls1, <- app_assoc.
  - by constructor.
Qed.

(** C9: on a non-empty tree whose pages have no negative pin count, an
    [Insert] of a key that [GetValue] finds returns false and leaves the
    tree as it was: root, sizes, page allocator, header record and the
    whole pool (every node, pin count and dirty flag) are unchanged; the
    calls on the buffer pool are fetches and clean unpins, the last one
    the clean unpin of the leaf holding the key. *)
Theorem Insert_duplicate_key fuel t key value v t1 :
  IsEmpty t = false →
  pins_nonneg (pool_ t) →
  GetValue fuel key t = Done (Some v, t1) →
  ∃ t' leaf n calls,
    Insert fuel key value t = Done (false, t') ∧
    same_fields t t' ∧ pool_ t' = pool_ t ∧
    node_of t leaf = Some n ∧ IsLeafPage n = true ∧
    (∃ i, find_key n key = Some (i, v)) ∧
    calls_ t' = calls_ t ++ calls ++ [CallUnpinPage leaf false] ∧
    Forall clean_call calls.
Proof.
  intros Hne Hnn. unfold GetValue. rewrite bind_run. simpl. rewrite Hne.
  intros Hrun. apply bind_Done in Hrun as (res & t2 & Hfind & Hrun).
  destruct (FindLeafPage_pinned fuel key t res t2 Hne Hnn Hfind)
    as (leaf & -> & [fr Hfr] & Hpool2 & Hsame2 & l & Hcalls2 & Hclean).
  apply bind_Done in Hrun as (n & t3 & Hnode & Hrun).
  unfold node_at in Hnode. rewrite Hpool2, lookup_alter_eq, Hfr in Hnode.
  simpl in Hnode. injection Hnode as <- <-.
  destruct (find_key (node_ fr) key) as [[i v']|] eqn:Hkey.
  2:{ apply bind_Done in Hrun as (b & t3 & _ & Hrun). done. }
  apply bind_Done in Hrun as (b & t3 & Hunpin & Hrun).
  injection Hrun as -> <-.
  destruct (UnpinPage_pinned leaf (pool_ t) t2 Hnn ltac:(by eexists) Hpool2)
    as (t4 & Hunpin' & Hpool4 & Hsame4 & Hcalls4).
  rewrite Hunpin' in Hunpin. injection Hunpin as <- <-.
  exists t4, leaf, (node_ fr), l.
  assert (IsLeafPage (node_ fr) = true) as Hleaf.
  { (* the traversal stops at leaf pages only *)
    clear -Hfind Hne Hfr Hpool2 Hnn.
    unfold FindLeafPage in Hfind. rewrite bind_run in Hfind. simpl in Hfind.
    rewrite Hne in Hfind.
    apply bind_Done in Hfind as ([] & t1 & Hfetch & Hrun).
    apply bind_Done in Hrun as (leaf' & t3 & Hdesc & Hrun).
    injection Hrun as -> <-.
    assert (∀ fuel page t1 t3, descend fuel page key t1 = Done (leaf, t3) →
              ∃ fr', pool_ t3 !! leaf = Some fr' ∧ IsLeafPage (node_ fr') = true)
      as Hstop.
    { clear. induction fuel as [|fuel IH]; intros page t1 t3; [done|].
      simpl. intros Hrun.
      apply bind_Done in Hrun as (node & t & Hnode & Hrun).
      unfold node_at in Hnode.
      destruct (pool_ t1 !! page) as [fr'|] eqn:Hfr'; [|done].
      injection Hnode as <- <-.
      destruct (IsLeafPage (node_ fr')) eqn:Hl.
      { injection Hrun as <- <-. by exists fr'. }
      apply bind_Done in Hrun as (child & t & _ & Hrun).
      apply bind_Done in Hrun as ([] & t' & _ & Hrun).
      apply bind_Done in Hrun as (b & t'' & _ & Hrun).
      by apply IH in Hrun. }
    destruct (Hstop _ _ _ _ Hdesc) as (fr' & Hfr' & Hl).
    rewrite Hpool2, lookup_alter_eq, Hfr in Hfr'. simpl in Hfr'.
    by injection Hfr' as <-. }
  split.
  { unfold Insert. rewrite bind_run. simpl. rewrite Hne.
    unfold InsertIntoLeaf. rewrite bind_run. simpl.
    rewrite bind_run, Hfind, bind_run. unfold node_at.
    rewrite Hpool2, lookup_alter_eq, Hfr. simpl. rewrite Hkey.
    by rewrite bind_run, Hunpin'. }
  split; [by eapply same_fields_trans|]. split; [done|].
  split; [unfold node_of; by rewrite Hfr|]. split; [done|].
  split; [by exists i|]. split; [|done].
  by rewrite Hcalls4, Hcalls2, <- app_assoc.
Qed.

End bpt_duplicate.

Section bpt_dup_witness.
Import BPT.
#[local] Existing Instance scenario_layout.
Lemma pins_nonneg_check (m : gmap Z Frame) :
  forallb (λ pf : Z * Frame, 0 <=? pin_count_ pf.2) (map_to_list m) = true →
  pins_nonneg m.
Proof.
  intros Hall p fr Hp. rewrite forallb_forall in Hall.
  apply Z.leb_le, (Hall (p, fr)).
  by apply list_elem_of_In, elem_of_map_to_list.
Qed.

Lemma scenarioE_pins_nonneg : pins_nonneg (pool_ scenarioE_tree).
Proof. apply pins_nonneg_check. by vm_compute. Qed.

Lemma Insert_duplicate_key_witness :
  let t := scenarioE_tree in
  let t1 := match GetValue 64 5 t with Done (_, t1) => t1 | _ => t end in
  (IsEmpty t = false ∧ pins_nonneg (pool_ t) ∧
   GetValue 64 5 t = Done (Some 5, t1)) ∧
  ∃ t' leaf n calls,
    Insert 64 5 77 t = Done (false, t') ∧
    same_fields t t' ∧ pool_ t' = pool_ t ∧
    node_of t leaf = Some n ∧ IsLeafPage n = true ∧
    (∃ i, find_key n 5 = Some (i, 5)) ∧
    calls_ t' = calls_ t ++ calls ++ [CallUnpinPage leaf false] ∧
    Forall clean_call calls.
Proof.
  intros t t1.
  assert (IsEmpty t = false) as H1 by (by vm_compute).
  assert (GetValue 64 5 t = Done (Some 5, t1)) as H3 by (by vm_compute).
  split; [split_and!; [done|apply scenarioE_pins_nonneg|done]|].
  apply (Insert_duplicate_key 64 t 5 77 5 t1 H1 scenarioE_pins_nonneg H3).
Defined.
End bpt_dup_witness.


Section bpt_runs.
Import BPT.
Context {layout : PageLayout}.

Implicit Types (t : BPlusTree) (v : View) (n : Node).

Lemma runs_ret {A} (a : A) v : runs (mret a) v a v.
Proof. intros t Hv. by exists t. Qed.

Lemma runs_bind {A B} (m : M A) (f : A → M B) v a v1 b v2 :
  runs m v a v1 → runs (f a) v1 b v2 → runs (m ≫= f) v b v2.
Proof.
  intros Hm Hf t Hv. destruct (Hm t Hv) as (t1 & Hrun1 & Hv1).
  destruct (Hf t1 Hv1) as (t2 & Hrun2 & Hv2).
  exists t2. by rewrite bind_run, Hrun1.
Qed.

Lemma runs_get {A} (f : BPlusTree → M A) v a v' :
  (∀ t, view t = v → runs (f t) v a v') → runs (get ≫= f) v a v'.
Proof. intros Hf t Hv. rewrite bind_run. simpl. by apply (Hf t Hv). Qed.

Lemma view_nodes_lookup t p :
  v_nodes (view t) !! p = node_ <$> pool_ t !! p.
Proof. simpl. by rewrite lookup_fmap. Qed.

Lemma runs_FetchPage p v n :
  v_nodes v !! p = Some n → runs (FetchPage p) v tt v.
Proof.
  intros Hn t <-. rewrite view_nodes_lookup in Hn. unfold FetchPage. simpl.
  destruct (pool_ t !! p) as [fr|] eqn:Hfr; [|done].
  eexists. split; [done|]. unfold view. simpl. f_equal.
  rewrite fmap_insert. simpl. apply insert_id. by rewrite lookup_fmap, Hfr.
Qed.

Lemma runs_UnpinPage {A} p d (k : M A) v a v' :
  runs k v a v' → runs (UnpinPage p d ≫= λ _, k) v a v'.
Proof.
  intros Hk t Hv. rewrite bind_run. unfold UnpinPage. simpl.
  destruct (pool_ t !! p) as [fr|] eqn:Hfr.
  - destruct (pin_count_ fr <=? 0).
    + apply Hk. by rewrite <- Hv.
    + apply Hk. rewrite <- Hv. unfold view. simpl. f_equal.
      rewrite fmap_insert. simpl. apply insert_id. by rewrite lookup_fmap, Hfr.
  - apply Hk. by rewrite <- Hv.
Qed.

Lemma runs_NewPage v :
  runs NewPage v (v_next v)
       (mkView (v_root v) (v_leaf_max v) (v_internal_max v)
               (<[v_next v := zero_node]> (v_nodes v)) (v_next v + 1)).
Proof.
  intros t <-. unfold NewPage. eexists. split; [done|].
  unfold view. simpl. by rewrite fmap_insert.
Qed.

Lemma runs_node_at p v n : v_nodes v !! p = Some n → runs (node_at p) v n v.
Proof.
  intros Hn t <-. rewrite view_nodes_lookup in Hn. unfold node_at.
  destruct (pool_ t !! p) as [fr|]; [|done]. injection Hn as <-. by exists t.
Qed.

Lemma runs_set_node p n v :
  is_Some (v_nodes v !! p) →
  runs (set_node p n) v tt (with_nodes v (<[p := n]> (v_nodes v))).
Proof.
  intros [n0 Hn] t <-. rewrite view_nodes_lookup in Hn. unfold set_node.
  destruct (pool_ t !! p) as [fr|]; [|done]. eexists. split; [done|].
  unfold view, with_nodes. simpl. by rewrite fmap_insert.
Qed.

Lemma runs_update_node p f v n :
  v_nodes v !! p = Some n →
  runs (update_node p f) v tt (with_nodes v (<[p := f n]> (v_nodes v))).
Proof.
  intros Hn. unfold update_node. eapply runs_bind; [by apply runs_node_at|].
  apply runs_set_node. by eexists.
Qed.

Lemma runs_store_node p n v :
  is_Some (v_nodes v !! p) → in_page n = true →
  runs (store_node p n) v tt (with_nodes v (<[p := n]> (v_nodes v))).
Proof.
  intros [n0 Hn] Hfit. unfold store_node.
  eapply runs_bind; [by apply runs_node_at|].
  rewrite Hfit, orb_true_r. apply runs_set_node. by eexists.
Qed.

Lemma runs_store_update p f v n :
  v_nodes v !! p = Some n → in_page (f n) = true →
  runs (store_update p f) v tt (with_nodes v (<[p := f n]> (v_nodes v))).
Proof.
  intros Hn Hfit. unfold store_update. eapply runs_bind; [by apply runs_node_at|].
  apply runs_store_node; [by eexists|done].
Qed.

Lemma in_page_leaf n :
  page_type_ n = LEAF_PAGE → Z.of_nat (length (array_ n)) ≤ LEAF_PAGE_SIZE →
  in_page n = true.
Proof.
  intros Hty Hlen. unfold in_page, page_room, IsLeafPage, GetSize. rewrite Hty.
  by apply Z.leb_le.
Qed.

Lemma in_page_internal n :
  page_type_ n = INTERNAL_PAGE → Z.of_nat (length (array_ n)) ≤ INTERNAL_PAGE_SIZE →
  in_page n = true.
Proof.
  intros Hty Hlen. unfold in_page, page_room, IsLeafPage, GetSize. rewrite Hty.
  by apply Z.leb_le.
Qed.

Lemma roomy_insert (nodes : gmap Z Node) p n :
  roomy nodes →
  (page_type_ n = INTERNAL_PAGE → Z.of_nat (length (array_ n)) < INTERNAL_PAGE_SIZE) →
  roomy (<[p := n]> nodes).
Proof.
  intros Hroomy Hn q m Hq. destruct (decide (q = p)) as [->|Hne].
  - rewrite lookup_insert_eq in Hq. by injection Hq as <-.
  - rewrite lookup_insert_ne in Hq by done. by apply (Hroomy q).
Qed.

Lemma runs_set_root r v : runs (set_root r) v tt (with_root v r).
Proof. intros t <-. by eexists. Qed.

Lemma runs_UpdateRootPageId i v : runs (UpdateRootPageId i) v tt v.
Proof. intros t <-. by eexists. Qed.

Lemma runs_lift {A} (o : outcome A) a v : o = Done a → runs (lift o) v a v.
Proof. intros -> t Hv. by exists t. Qed.

End bpt_runs.

Section bpt_lists.
Import BPT.

Implicit Types (a : list (Z * Z)) (key k : Z).

Lemma find_key_from_shift a key i j :
  snd <$> find_key_from a key i = snd <$> find_key_from a key j.
Proof.
  revert i j. induction a as [|[k v] a IH]; intros i j; simpl; [done|].
  destruct (k =? key); [done|]. apply IH.
Qed.

Lemma lookup_key_nil key : lookup_key [] key = None.
Proof. done. Qed.

Lemma lookup_key_cons k v a key :
  lookup_key ((k, v) :: a) key = if k =? key then Some v else lookup_key a key.
Proof.
  unfold lookup_key. simpl. destruct (k =? key); [done|]. apply find_key_from_shift.
Qed.

Lemma lookup_key_app a1 a2 key :
  lookup_key (a1 ++ a2) key =
  match lookup_key a1 key with Some v => Some v | None => lookup_key a2 key end.
Proof.
  induction a1 as [|[k v] a1 IH]; [done|]. simpl.
  rewrite !lookup_key_cons. by destruct (k =? key).
Qed.

Lemma lookup_key_None a key : key ∉ a.*1 → lookup_key a key = None.
Proof.
  induction a as [|[k v] a IH]; [done|]. csimpl. intros Hnot.
  rewrite lookup_key_cons. destruct (Z.eqb_spec k key) as [->|].
  - exfalso. apply Hnot. left.
  - apply IH. intros Hin. apply Hnot. by right.
Qed.

Lemma lookup_key_None_inv a key : lookup_key a key = None → key ∉ a.*1.
Proof.
  induction a as [|[k v] a IH]; csimpl.
  - intros _ Hin. by apply elem_of_nil in Hin.
  - rewrite lookup_key_cons. destruct (Z.eqb_spec k key); [done|].
    intros Hnone Hin. apply elem_of_cons in Hin as [?|Hin]; [congruence|].
    by apply IH.
Qed.

Lemma find_key_lookup_key n key :
  snd <$> find_key n key = lookup_key (array_ n) key.
Proof. done. Qed.

Lemma sorted_lookup (l : list Z) i j x y :
  StronglySorted Z.lt l → l !! i = Some x → l !! j = Some y → (i < j)%nat → x < y.
Proof.
  intros Hs. revert i j. induction Hs as [|z l Hs IH Hall]; intros i j Hi Hj Hlt.
  - done.
  - destruct j as [|j]; [lia|]. destruct i as [|i]; simpl in *.
    + injection Hi as ->. rewrite Forall_forall in Hall.
      apply Hall. by eapply list_elem_of_lookup_2.
    + apply (IH i j); [done..|lia].
Qed.

Lemma bsearch_spec rounds a key left right :
  StronglySorted Z.lt a.*1 → key ∉ a.*1 →
  0 ≤ left → right < Z.of_nat (length a) → left ≤ right + 1 →
  right - left + 1 < Z.of_nat rounds →
  (∀ i k, a.*1 !! i = Some k → Z.of_nat i < left → k < key) →
  (∀ i k, a.*1 !! i = Some k → right < Z.of_nat i → key < k) →
  ∃ r, bsearch rounds a key left right = Z.of_nat r ∧ (r ≤ length a)%nat ∧
    (∀ k, k ∈ (take r a).*1 → k < key) ∧ (∀ k, k ∈ (drop r a).*1 → key < k).
Proof.
  intros Hs Hnot. revert left right.
  induction rounds as [|rounds IH]; intros left right Hl Hr Hlr Hrounds Hlow Hhigh; [lia|].
  simpl. destruct (Z.leb_spec left right) as [Hle|Hgt].
  - set (mid := left + (right - left) / 2).
    assert (left ≤ mid ≤ right) as Hmid.
    { unfold mid. pose proof (Z.div_pos (right - left) 2).
      pose proof (Z.mul_div_le (right - left) 2). lia. }
    destruct (a !! Z.to_nat mid) as [[k v]|] eqn:Hk.
    + assert (a.*1 !! Z.to_nat mid = Some k) as Hk1.
      { by rewrite list_lookup_fmap, Hk. }
      destruct (Z.eqb_spec k key) as [->|Hne].
      { exfalso. apply Hnot. by eapply list_elem_of_lookup_2. }
      destruct (Z.ltb_spec k key) as [Hlt|Hge].
      * apply IH; [lia..| |done].
        intros i k' Hi Hilt.
        destruct (decide (i = Z.to_nat mid)) as [->|]; [congruence|].
        assert (k' < k); [|lia].
        apply (sorted_lookup a.*1 i (Z.to_nat mid)); [done..|lia].
      * apply IH; [lia..|done|].
        intros i k' Hi Hilt.
        destruct (decide (i = Z.to_nat mid)) as [->|]; [simplify_eq; lia|].
        assert (k < k'); [|lia].
        apply (sorted_lookup a.*1 (Z.to_nat mid) i); [done..|lia].
    + apply lookup_ge_None in Hk. lia.
  - exists (Z.to_nat left). split; [lia|]. split; [lia|]. split.
    + intros k Hin. apply list_elem_of_lookup in Hin as [i Hi].
      rewrite fmap_take in Hi. apply lookup_take_Some in Hi as [Hi Hlt].
      apply (Hlow i); [done|lia].
    + intros k Hin. apply list_elem_of_lookup in Hin as [i Hi].
      rewrite fmap_drop, lookup_drop in Hi.
      apply (Hhigh _ _ Hi). lia.
Qed.

End bpt_lists.

Section bpt_pages.
Import BPT.

Implicit Types (a : list (Z * Z)) (key k : Z) (n : Node) (lo hi : bound).

Lemma leaf_Insert_spec n key value :
  StronglySorted Z.lt (array_ n).*1 → key ∉ (array_ n).*1 →
  GetSize n < max_size_ n →
  ∃ a', leaf_Insert n key value = (true, set_array a' n) ∧
    StronglySorted Z.lt a'.*1 ∧ length a' = S (length (array_ n)) ∧
    (∀ k, k ∈ a'.*1 → k = key ∨ k ∈ (array_ n).*1) ∧
    ∀ k, lookup_key a' k = if decide (k = key) then Some value
                           else lookup_key (array_ n) k.
Proof.
  intros Hs Hnot Hsize. unfold leaf_Insert, GetMaxSize, FindKeyIndex, GetSize in *.
  destruct (Z.geb_spec (Z.of_nat (length (array_ n))) (max_size_ n)); [lia|].
  destruct (bsearch_spec (S (length (array_ n))) (array_ n) key 0
              (Z.of_nat (length (array_ n)) - 1)) as (r & -> & Hr & Hlow & Hhigh);
    [done|done|lia..| | |].
  { intros; lia. }
  { intros i k Hi Hlt. apply lookup_lt_Some in Hi. rewrite length_fmap in Hi. lia. }
  destruct (Z.eqb_spec (Z.of_nat r) (-1)); [lia|].
  rewrite Nat2Z.id. eexists. split; [done|].
  pose proof (take_drop r (array_ n)) as Hsplit.
  rewrite <- Hsplit, fmap_app in Hs. apply StronglySorted_app in Hs as (Hcross & Hs1 & Hs2).
  unfold insert_at. split; [|split; [|split]].
  - rewrite fmap_app. csimpl. apply StronglySorted_app. split; [|split; [done|]].
    + intros x1 x2 Hx1 Hx2. apply elem_of_cons in Hx2 as [->|Hx2]; [by apply Hlow|].
      by apply Hcross.
    + constructor; [done|]. apply Forall_forall. intros x Hx. by apply Hhigh.
  - rewrite length_app. simpl. rewrite length_take, length_drop. lia.
  - intros k Hk. rewrite fmap_app, elem_of_app in Hk. csimpl in Hk.
    rewrite elem_of_cons in Hk.
    assert (k ∈ (take r (array_ n)).*1 ∨ k ∈ (drop r (array_ n)).*1 → k ∈ (array_ n).*1)
      as Hback.
    { by rewrite <- elem_of_app, <- fmap_app, Hsplit. }
    tauto.
  - intros k.
    replace (lookup_key (array_ n) k)
      with (lookup_key (take r (array_ n) ++ drop r (array_ n)) k) by (by rewrite Hsplit).
    rewrite !lookup_key_app, lookup_key_cons.
    case_decide as Hk.
    + subst k. rewrite Z.eqb_refl, lookup_key_None; [done|].
      intros Hin. apply Hlow in Hin. lia.
    + destruct (Z.eqb_spec key k); [congruence|done].
Qed.

Lemma leaf_split_spec a st :
  StronglySorted Z.lt a.*1 → (0 < st < length a)%nat →
  ∃ s v, a !! st = Some (s, v) ∧
    StronglySorted Z.lt (take st a).*1 ∧ StronglySorted Z.lt (drop st a).*1 ∧
    (∀ k, k ∈ (take st a).*1 → k < s) ∧ (∀ k, k ∈ (drop st a).*1 → s ≤ k) ∧
    (∀ k, k < s → lookup_key (take st a) k = lookup_key a k) ∧
    (∀ k, s ≤ k → lookup_key (drop st a) k = lookup_key a k).
Proof.
  intros Hs Hst. destruct (lookup_lt_is_Some_2 a st) as [[s v] Hsv]; [lia|].
  exists s, v. split; [done|].
  pose proof (take_drop st a) as Hsplit.
  assert (drop st a = (s, v) :: drop (S st) a) as Hdrop.
  { by apply drop_S. }
  rewrite <- Hsplit, fmap_app in Hs. apply StronglySorted_app in Hs as (Hcross & Hs1 & Hs2).
  split; [done|]. split; [done|].
  assert (∀ k, k ∈ (drop st a).*1 → s ≤ k) as Hge.
  { rewrite Hdrop in Hs2 |- *. csimpl in *. apply StronglySorted_cons in Hs2 as [Hall _].
    rewrite Forall_forall in Hall. intros k Hk.
    apply elem_of_cons in Hk as [->|Hk]; [lia|]. apply Hall in Hk. lia. }
  assert (∀ k, k ∈ (take st a).*1 → k < s) as Hlt.
  { intros k Hk. apply (Hcross k s Hk). rewrite Hdrop. csimpl. left. }
  split; [done|]. split; [done|]. split.
  - intros k Hk.
    replace (lookup_key a k) with (lookup_key (take st a ++ drop st a) k)
      by (by rewrite Hsplit).
    rewrite lookup_key_app.
    destruct (lookup_key (take st a) k); [done|].
    symmetry. apply lookup_key_None. intros Hin. apply Hge in Hin. lia.
  - intros k Hk.
    replace (lookup_key a k) with (lookup_key (take st a ++ drop st a) k)
      by (by rewrite Hsplit).
    rewrite lookup_key_app.
    rewrite (lookup_key_None (take st a)); [done|].
    intros Hin. apply Hlt in Hin. lia.
Qed.

Lemma child_bounds_children lo hi a : (child_bounds lo hi a).*1 = a.*2.
Proof.
  revert lo. induction a as [|[k c] a IH]; intros lo; [done|].
  csimpl. by rewrite IH.
Qed.

Lemma child_bounds_elem lo hi a cb : cb ∈ child_bounds lo hi a → cb.1 ∈ a.*2.
Proof.
  intros Hin. rewrite <- (child_bounds_children lo hi). by apply list_elem_of_fmap_2.
Qed.

Lemma first_key_app a1 a2 hi :
  a1 ≠ [] → first_key (a1 ++ a2) hi = first_key a1 (first_key a2 hi).
Proof. by destruct a1. Qed.

Lemma child_bounds_app lo hi a1 a2 :
  a1 ≠ [] →
  child_bounds lo hi (a1 ++ a2) =
  child_bounds lo (first_key a2 hi) a1 ++ child_bounds (first_key a2 hi) hi a2.
Proof.
  revert lo. induction a1 as [|[k c] a1 IH]; intros lo Hne; [done|].
  destruct a1 as [|e a1].
  - done.
  - change (((k, c) :: e :: a1) ++ a2) with ((k, c) :: ((e :: a1) ++ a2)).
    cbn [child_bounds]. rewrite IH by done. by destruct e.
Qed.

Lemma child_bounds_invalidate lo hi a :
  child_bounds lo hi (invalidate_first_key a) = child_bounds lo hi a.
Proof. by destruct a as [|[k c] a]. Qed.

Lemma child_bounds_insert_after lo hi a1 k old a2 s new :
  ∃ pre lo_old,
    child_bounds lo hi (a1 ++ (k, old) :: a2) =
      pre ++ (old, (lo_old, first_key a2 hi)) :: child_bounds (first_key a2 hi) hi a2 ∧
    child_bounds lo hi (a1 ++ (k, old) :: (s, new) :: a2) =
      pre ++ (old, (lo_old, Some s)) :: (new, (Some s, first_key a2 hi))
          :: child_bounds (first_key a2 hi) hi a2.
Proof.
  revert lo. induction a1 as [|[k1 c1] a1 IH]; intros lo.
  - by exists [], lo.
  - simpl.
    assert (first_key (a1 ++ (k, old) :: (s, new) :: a2) hi
            = first_key (a1 ++ (k, old) :: a2) hi) as ->.
    { by destruct a1. }
    destruct (IH (first_key (a1 ++ (k, old) :: a2) hi)) as (pre & lo_old & -> & ->).
    by exists ((c1, (lo, first_key (a1 ++ (k, old) :: a2) hi)) :: pre), lo_old.
Qed.

Lemma find_value_from_spec a old i :
  old ∈ a.*2 →
  ∃ a1 k a2, a = a1 ++ (k, old) :: a2 ∧ (old ∉ a1.*2) ∧
    find_value_from a old i = i + Z.of_nat (length a1).
Proof.
  revert i. induction a as [|[k c] a IH]; intros i Hin; csimpl in *.
  - by apply elem_of_nil in Hin.
  - destruct (Z.eqb_spec c old) as [->|Hne].
    + exists [], k, a. split; [done|]. split; [apply not_elem_of_nil|simpl; lia].
    + apply elem_of_cons in Hin as [?|Hin]; [congruence|].
      destruct (IH (i + 1) Hin) as (a1 & k' & a2 & -> & Hnot & ->).
      exists ((k, c) :: a1), k', a2. split; [done|]. split.
      * csimpl. intros Hin'. apply elem_of_cons in Hin' as [?|?]; [congruence|done].
      * simpl. lia.
Qed.

Lemma scan_le_ge a key i : i ≤ scan_le a key i.
Proof.
  revert i. induction a as [|[k c] a IH]; intros i; simpl; [lia|].
  destruct (k <=? key); [|lia]. specialize (IH (i + 1)). lia.
Qed.

(** The child [FindLeafPage] descends into covers the key. *)
Lemma scan_le_spec a lo hi e0 key i :
  in_range lo hi key →
  ∃ k c l h, (e0 :: a) !! Z.to_nat (scan_le a key i - i) = Some (k, c) ∧
    (c, (l, h)) ∈ child_bounds lo hi (e0 :: a) ∧ in_range l h key.
Proof.
  revert lo e0 i. induction a as [|[k c] a IH]; intros lo [k0 c0] i [Hlo Hhi].
  - simpl. rewrite Z.sub_diag. exists k0, c0, lo, hi. split; [done|].
    split; [left|done].
  - cbn [scan_le]. destruct (Z.leb_spec k key) as [Hle|Hgt].
    + destruct (IH (Some k) (k, c) (i + 1)) as (k' & c' & l & h & Hlook & Hin & Hr).
      { done. }
      exists k', c', l, h. split; [|split; [|done]].
      * pose proof (scan_le_ge a key (i + 1)).
        replace (Z.to_nat (scan_le a key (i + 1) - i))
          with (S (Z.to_nat (scan_le a key (i + 1) - (i + 1)))) by lia.
        done.
      * cbn [child_bounds first_key] in *. by right.
    + rewrite Z.sub_diag. exists k0, c0, lo, (Some k). split; [done|].
      split; [left|done].
Qed.

Lemma node_ok_agree lm (G G' : gmap Z shape) (nodes nodes' : gmap Z Node) p s n :
  node_ok lm G nodes p s n →
  (∀ c, (0 < s.2)%nat → c ∈ (array_ n).*2 →
     G' !! c = G !! c ∧
     parent_page_id_ <$> nodes' !! c = parent_page_id_ <$> nodes !! c) →
  node_ok lm G' nodes' p s n.
Proof.
  intros [Hid Hok] Hagree. split; [done|].
  destruct s as [[lo hi] [|h]]; [done|].
  specialize (λ c, Hagree c (Nat.lt_0_succ h)).
  destruct Hok as (Hty & Hne & Hnd & Hall). split; [done|]. split; [done|]. split; [done|].
  apply Forall_forall. intros cb Hcb. rewrite Forall_forall in Hall.
  destruct (Hall cb Hcb) as [HG Hpar]. apply child_bounds_elem in Hcb.
  destruct (Hagree _ Hcb) as [HG' Hpar']. split; congruence.
Qed.

End bpt_pages.

Section bpt_lookup.
Import BPT.

Implicit Types (t : BPlusTree) (v : View) (n : Node) (G : gmap Z shape) (M : gmap Z Z).

Lemma runs_get_fields {A} (f : BPlusTree → BPT.M A) v a v' :
  (∀ t, root_page_id_ t = v_root v → leaf_max_size_ t = v_leaf_max v →
        internal_max_size_ t = v_internal_max v → runs (f t) v a v') →
  runs (get ≫= f) v a v'.
Proof. intros Hf. apply runs_get. intros t <-. by apply Hf. Qed.

Lemma runs_ret_eq {A} (a : A) v v' : v = v' → runs (mret a) v a v'.
Proof. intros <-. apply runs_ret. Qed.

Lemma descend_spec lm v G :
  (∀ p s, G !! p = Some s → ∃ n, v_nodes v !! p = Some n ∧ node_ok lm G (v_nodes v) p s n) →
  ∀ h fuel page lo hi key,
    (h < fuel)%nat → G !! page = Some (lo, hi, h) → in_range lo hi key →
    ∃ leaf lo' hi', runs (descend fuel page key) v leaf v ∧
      G !! leaf = Some (lo', hi', O) ∧ in_range lo' hi' key.
Proof.
  intros Hnodes. induction h as [|h IH]; intros fuel page lo hi key Hfuel HG Hr;
    (destruct fuel as [|fuel]; [lia|]); simpl;
    destruct (Hnodes _ _ HG) as (n & Hn & Hid & Hok).
  - destruct Hok as (Hty & _). exists page, lo, hi. split; [|done].
    eapply runs_bind; [by apply runs_node_at|].
    unfold IsLeafPage. rewrite Hty. apply runs_ret.
  - destruct Hok as (Hty & Hne & Hnd & Hall).
    destruct (array_ n) as [|e0 a] eqn:Ha; [done|].
    destruct (scan_le_spec a lo hi e0 key 1 Hr) as (k & c & l & hh & Hlook & Hin & Hr').
    rewrite Forall_forall in Hall. destruct (Hall _ Hin) as [HGc Hpar]. simpl in HGc, Hpar.
    destruct (Hnodes _ _ HGc) as (cn & Hcn & _).
    destruct (IH fuel c l hh key) as (leaf & lo' & hi' & Hrun & Hleaf); [lia|done..|].
    exists leaf, lo', hi'. split; [|done].
    eapply runs_bind; [by apply runs_node_at|].
    unfold IsLeafPage. rewrite Hty, Ha. simpl. rewrite drop_0.
    pose proof (scan_le_ge a key 1).
    eapply runs_bind.
    { apply runs_lift. unfold ValueAt, entry_at. rewrite Ha.
      destruct (Z.ltb_spec (scan_le a key 1 - 1) 0); [lia|]. by rewrite Hlook. }
    simpl. eapply runs_bind; [by eapply runs_FetchPage|].
    by apply runs_UnpinPage.
Qed.

Lemma tree_inv_root v G M H :
  tree_inv v G M H → 1 ≤ v_root v < v_next v.
Proof.
  intros (_ & Hsh & HG & Hpar). apply (sh_ids _ _ _ _ _ _ _ _ _ Hsh).
  destruct (v_nodes v !! v_root v); [by eexists|done].
Qed.

Lemma FindLeafPage_spec v G M H fuel key :
  tree_inv v G M H → (H < fuel)%nat →
  ∃ leaf lo hi, runs (FindLeafPage fuel key) v (Some leaf) v ∧
    G !! leaf = Some (lo, hi, O) ∧ in_range lo hi key.
Proof.
  intros Hinv Hfuel. pose proof (tree_inv_root _ _ _ _ Hinv) as Hroot.
  destruct Hinv as (Hlm & Hsh & HG & Hpar).
  destruct (descend_spec (v_leaf_max v) v G) with (h := H) (fuel := fuel)
    (page := v_root v) (lo := @None Z) (hi := @None Z) (key := key)
    as (leaf & lo & hi & Hrun & Hleaf); [|done..|].
  { intros p s Hp. by apply (sh_nodes _ _ _ _ _ _ _ _ _ Hsh). }
  exists leaf, lo, hi. split; [|done].
  unfold FindLeafPage. apply runs_get_fields. intros t Hr _ _.
  unfold IsEmpty. rewrite Hr. unfold INVALID_PAGE_ID.
  destruct (Z.eqb_spec (v_root v) (-1)); [lia|].
  destruct (v_nodes v !! v_root v) as [rn|] eqn:Hrn; [|done].
  eapply runs_bind; [by eapply runs_FetchPage|].
  eapply runs_bind; [done|]. apply runs_ret.
Qed.

Lemma GetValue_spec v G M H fuel key :
  tree_inv v G M H → (H < fuel)%nat →
  runs (GetValue fuel key) v (M !! key) v.
Proof.
  intros Hinv Hfuel. pose proof (tree_inv_root _ _ _ _ Hinv) as Hroot.
  destruct (FindLeafPage_spec v G M H fuel key Hinv Hfuel)
    as (leaf & lo & hi & Hrun & Hleaf & Hr).
  destruct Hinv as (Hlm & Hsh & HG & Hpar).
  destruct (sh_nodes _ _ _ _ _ _ _ _ _ Hsh _ _ Hleaf) as (n & Hn & _); [done|].
  pose proof (sh_leaves _ _ _ _ _ _ _ _ _ Hsh _ _ _ _ _ Hleaf Hn Hr) as Hcontent.
  unfold GetValue. apply runs_get_fields. intros t Hrt _ _.
  unfold IsEmpty. rewrite Hrt. unfold INVALID_PAGE_ID.
  destruct (Z.eqb_spec (v_root v) (-1)); [lia|].
  eapply runs_bind; [done|]. simpl.
  eapply runs_bind; [by apply runs_node_at|].
  rewrite <- Hcontent, <- find_key_lookup_key.
  destruct (find_key n key) as [[i x]|]; apply runs_UnpinPage, runs_ret.
Qed.

End bpt_lookup.

Section bpt_insert.
Import BPT.
Context {layout : PageLayout}.

Implicit Types (t : BPlusTree) (v : View) (n : Node) (G : gmap Z shape) (M : gmap Z Z).

Lemma StartNewTree_spec v key value :
  v_root v = INVALID_PAGE_ID → 2 ≤ v_leaf_max v → 1 ≤ v_next v →
  (∀ p, is_Some (v_nodes v !! p) → 1 ≤ p < v_next v) →
  sizes_fit v → roomy (v_nodes v) →
  ∃ v' G, runs (StartNewTree key value) v true v' ∧
    tree_inv v' G {[key := value]} 0 ∧
    v_leaf_max v' = v_leaf_max v ∧ v_internal_max v' = v_internal_max v ∧
    roomy (v_nodes v').
Proof.
  intros Hroot Hlm Hnext Hids (Hcl & Hci & Hc3) Hroomy.
  set (N := v_next v).
  set (leaf := mkNode LEAF_PAGE (v_leaf_max v) INVALID_PAGE_ID N INVALID_PAGE_ID [(key, value)]).
  exists (mkView N (v_leaf_max v) (v_internal_max v) (<[N := leaf]> (v_nodes v)) (N + 1)),
    {[N := (None, None, O)]}.
  split; [|split; [|split; [done|split; [done|by apply roomy_insert]]]].
  - unfold StartNewTree. apply runs_get_fields. intros t _ Hl _. rewrite Hl.
    eapply runs_bind; [apply runs_NewPage|]. fold N.
    eapply runs_bind.
    { apply runs_update_node. simpl. apply lookup_insert_eq. }
    eapply runs_bind.
    { apply runs_node_at. simpl. apply lookup_insert_eq. }
    unfold leaf_Insert, leaf_Init, GetSize, GetMaxSize. simpl.
    destruct (Z.geb_spec (Z.of_nat 0) (v_leaf_max v)); [lia|].
    unfold FindKeyIndex, set_array, insert_at. simpl.
    eapply runs_bind.
    { apply runs_store_node; [simpl; rewrite lookup_insert_eq; by eexists|].
      apply in_page_leaf; [done|simpl; lia]. }
    simpl.
    eapply runs_bind; [apply runs_set_root|].
    eapply runs_bind; [apply runs_UpdateRootPageId|].
    apply runs_UnpinPage. apply runs_ret_eq.
    unfold with_root, with_nodes. simpl. by rewrite !insert_insert_eq.
  - split; [done|]. simpl. split.
    + constructor.
      * intros p s Hp _. apply lookup_singleton_Some in Hp as [<- <-].
        exists leaf. split; [apply lookup_insert_eq|].
        split; [done|]. split; [done|]. split; [done|].
        split; [|split; [|simpl; lia]]; repeat constructor.
      * intros p Hp. destruct (decide (p = N)) as [->|Hne]; [lia|].
        rewrite lookup_insert_ne in Hp by done. apply Hids in Hp. lia.
      * intros p lo hi h Hp. apply lookup_singleton_Some in Hp as [<- Hp]. simplify_eq. lia.
      * intros p [s Hp] _. apply lookup_singleton_Some in Hp as [<- _]. by left.
      * intros p lo hi n k Hp Hn _. apply lookup_singleton_Some in Hp as [<- _].
        rewrite lookup_insert_eq in Hn. injection Hn as <-. subst leaf. simpl.
        rewrite lookup_key_cons, lookup_key_nil.
        destruct (Z.eqb_spec key k) as [->|Hne].
        -- by rewrite lookup_singleton_eq.
        -- by rewrite lookup_singleton_ne.
      * intros p q lo hi lo' hi' k Hp Hq _ _.
        apply lookup_singleton_Some in Hp as [<- _].
        by apply lookup_singleton_Some in Hq as [<- _].
    + split; [apply lookup_singleton_eq|]. by rewrite lookup_insert_eq.
Qed.

Lemma keep_node_ok lm G G' (nodes nodes' : gmap Z Node) p s n n' :
  node_ok lm G nodes p s n →
  array_ n' = array_ n → page_id_ n' = page_id_ n →
  page_type_ n' = page_type_ n → max_size_ n' = max_size_ n →
  (∀ c, (0 < s.2)%nat → c ∈ (array_ n).*2 →
     G' !! c = G !! c ∧
     parent_page_id_ <$> nodes' !! c = parent_page_id_ <$> nodes !! c) →
  node_ok lm G' nodes' p s n'.
Proof.
  intros Hok Ha Hid Hty Hmax Hagree.
  apply (node_ok_agree lm G G' nodes nodes'); [|by rewrite Ha].
  destruct Hok as [Hid' Hok]. split; [congruence|].
  destruct s as [[lo hi] [|h]]; by rewrite Ha, Hty, ?Hmax.
Qed.

Lemma node_ok_child lm G (nodes : gmap Z Node) p lo hi h n c :
  node_ok lm G nodes p (lo, hi, S h) n → c ∈ (array_ n).*2 →
  (∃ l hh, G !! c = Some (l, hh, h)) ∧ parent_page_id_ <$> nodes !! c = Some p.
Proof.
  intros (_ & _ & _ & _ & Hall) Hc.
  rewrite <- (child_bounds_children lo hi) in Hc.
  apply list_elem_of_fmap in Hc as ([c' [l hh]] & -> & Hin).
  rewrite Forall_forall in Hall. destruct (Hall _ Hin) as [HG Hpar]. eauto.
Qed.

Lemma InsertIntoParent_root v G M H old s new hi fuel :
  2 ≤ v_leaf_max v →
  G !! old = Some (None, Some s, H) → G !! new = Some (Some s, hi, H) →
  hi = None → old = v_root v →
  (∀ p l r h' n, G !! p = Some (l, r, S h') → v_nodes v !! p = Some n →
     new ∉ (array_ n).*2) →
  parent_page_id_ <$> v_nodes v !! old = Some INVALID_PAGE_ID →
  shape_inv (v_leaf_max v) (v_nodes v) (v_next v) (v_root v) G M H None (Some new) →
  3 ≤ INTERNAL_PAGE_SIZE → roomy (v_nodes v) →
  ∃ v' G', runs (InsertIntoParent (S fuel) old s new) v tt v' ∧
    tree_inv v' G' M (S H) ∧
    v_leaf_max v' = v_leaf_max v ∧ v_internal_max v' = v_internal_max v ∧
    (∀ p, is_Some (v_nodes v !! p) → is_Some (v_nodes v' !! p)) ∧
    roomy (v_nodes v').
Proof.
  intros Hlm Hold Hnew -> Hroot Hfresh Hpar Hsh Hc3 Hroomy.
  destruct (sh_nodes _ _ _ _ _ _ _ _ _ Hsh _ _ Hold) as (on & Hon & Hon_ok); [done|].
  destruct (sh_nodes _ _ _ _ _ _ _ _ _ Hsh _ _ Hnew) as (nn & Hnn & Hnn_ok); [done|].
  assert (old ≠ new) as Hne by (intros ->; congruence).
  set (R := v_next v).
  assert (1 ≤ old < R) as HoldR.
  { apply (sh_ids _ _ _ _ _ _ _ _ _ Hsh). by eexists. }
  assert (1 ≤ new < R) as HnewR.
  { apply (sh_ids _ _ _ _ _ _ _ _ _ Hsh). by eexists. }
  set (rn := mkNode INTERNAL_PAGE (v_internal_max v) INVALID_PAGE_ID R 0 [(0, old); (s, new)]).
  set (nodes' := <[new := SetParentPageId R nn]> (<[old := SetParentPageId R on]>
                   (<[R := rn]> (v_nodes v)))).
  exists (mkView R (v_leaf_max v) (v_internal_max v) nodes' (R + 1)),
    (<[R := (None, None, S H)]> G).
  assert (∀ p, p ≠ R → p ≠ old → p ≠ new → nodes' !! p = v_nodes v !! p) as Hother.
  { intros p ???. unfold nodes'. by rewrite !lookup_insert_ne. }
  assert (nodes' !! R = Some rn) as HR.
  { unfold nodes'. rewrite !lookup_insert_ne by lia. apply lookup_insert_eq. }
  assert (nodes' !! old = Some (SetParentPageId R on)) as Hold'.
  { unfold nodes'. rewrite lookup_insert_ne by done. apply lookup_insert_eq. }
  assert (nodes' !! new = Some (SetParentPageId R nn)) as Hnew'.
  { unfold nodes'. apply lookup_insert_eq. }
  assert (∀ p n, v_nodes v !! p = Some n →
            ∃ n', nodes' !! p = Some n' ∧ array_ n' = array_ n ∧ page_id_ n' = page_id_ n ∧
                  page_type_ n' = page_type_ n ∧ max_size_ n' = max_size_ n ∧
                  (p ≠ old → p ≠ new → parent_page_id_ n' = parent_page_id_ n)) as Hkeep.
  { intros p n Hn. assert (p ≠ R).
    { intros ->. assert (1 ≤ R < R); [|lia]. apply (sh_ids _ _ _ _ _ _ _ _ _ Hsh). by eexists. }
    destruct (decide (p = old)) as [->|]; [|destruct (decide (p = new)) as [->|]].
    - exists (SetParentPageId R on). by simplify_eq.
    - exists (SetParentPageId R nn). by simplify_eq.
    - exists n. by rewrite Hother. }
  split; [|split; [|split; [done|split; [done|]]]].
  - cbn [InsertIntoParent]. apply runs_get_fields. intros t _ _ Him.
    eapply runs_bind; [by apply runs_node_at|].
    eapply runs_bind; [by apply runs_node_at|].
    rewrite Hon in Hpar. injection Hpar as Hpar.
    unfold IsRootPage. rewrite Hpar, Z.eqb_refl.
    destruct Hon_ok as [-> _]. destruct Hnn_ok as [-> _].
    eapply runs_bind; [apply runs_NewPage|]. fold R.
    eapply runs_bind.
    { apply runs_update_node. simpl. apply lookup_insert_eq. }
    eapply runs_bind.
    { apply runs_store_update; [simpl; apply lookup_insert_eq|].
      apply in_page_internal; [done|simpl; lia]. }
    eapply runs_bind.
    { apply runs_update_node. simpl. rewrite !lookup_insert_ne by lia. done. }
    eapply runs_bind.
    { apply runs_update_node. simpl. rewrite !lookup_insert_ne by lia. done. }
    eapply runs_bind; [apply runs_set_root|].
    eapply runs_bind; [apply runs_UpdateRootPageId|].
    apply runs_UnpinPage. apply runs_ret_eq.
    unfold with_root, with_nodes. simpl. rewrite Him. f_equal.
    unfold nodes', rn. by rewrite !insert_insert_eq.
  - split; [done|]. simpl. split; [constructor|].
    + intros p sp Hp _. destruct (decide (p = R)) as [->|HpR].
      * rewrite lookup_insert_eq in Hp. injection Hp as <-.
        exists rn. split; [done|]. split; [done|]. split; [done|]. split; [done|]. split.
        { apply NoDup_cons. split; [set_solver|apply NoDup_singleton]. }
        constructor; [|constructor; [|constructor]]; (split; simpl).
        -- by rewrite lookup_insert_ne by lia.
        -- by rewrite Hold'.
        -- by rewrite lookup_insert_ne by lia.
        -- by rewrite Hnew'.
      * rewrite lookup_insert_ne in Hp by done.
        destruct (sh_nodes _ _ _ _ _ _ _ _ _ Hsh p sp Hp) as (n & Hn & Hok); [done|].
        destruct (Hkeep p n Hn) as (n' & Hn' & Ha & Hid & Hty & Hmax & _).
        exists n'. split; [done|]. eapply keep_node_ok; [exact Hok|done..|].
        intros c Hh Hc. destruct sp as [[lo hi] [|h]]; [simpl in Hh; lia|].
        destruct (node_ok_child _ _ _ _ _ _ _ _ _ Hok Hc) as [(l & hh & HGc) Hparc].
        destruct (sh_nodes _ _ _ _ _ _ _ _ _ Hsh c _ HGc) as (cn & Hcn & _); [done|].
        assert (1 ≤ c < R) by (apply (sh_ids _ _ _ _ _ _ _ _ _ Hsh); by eexists).
        assert (1 ≤ p < R) by (apply (sh_ids _ _ _ _ _ _ _ _ _ Hsh); by eexists).
        assert (c ≠ new) by (intros ->; by eapply Hfresh).
        assert (c ≠ old).
        { intros ->. rewrite Hpar in Hparc. unfold INVALID_PAGE_ID in Hparc.
          injection Hparc as <-. lia. }
        rewrite lookup_insert_ne by lia. by rewrite Hother by lia.
    + intros p Hp. destruct (decide (p = R)) as [->|]; [lia|].
      destruct (decide (p = old)) as [->|]; [lia|].
      destruct (decide (p = new)) as [->|]; [lia|].
      rewrite Hother in Hp by done. apply (sh_ids _ _ _ _ _ _ _ _ _ Hsh) in Hp. lia.
    + intros p lo hi h Hp. destruct (decide (p = R)) as [->|].
      * rewrite lookup_insert_eq in Hp. simplify_eq. lia.
      * rewrite lookup_insert_ne in Hp by done.
        apply (sh_height _ _ _ _ _ _ _ _ _ Hsh) in Hp. lia.
    + intros p [sp Hp] _. destruct (decide (p = R)) as [->|HpR]; [by left|].
      right. rewrite lookup_insert_ne in Hp by done.
      destruct (decide (p = old)) as [->|Hpo]; [|destruct (decide (p = new)) as [->|Hpn]].
      * exists R, None, None, H, rn. rewrite lookup_insert_eq. simpl. set_solver.
      * exists R, None, None, H, rn. rewrite lookup_insert_eq. simpl. set_solver.
      * destruct (sh_attached _ _ _ _ _ _ _ _ _ Hsh p) as [?|(P & lo & hi & h & pn & HP & Hpn' & Hin)];
          [by eexists|congruence|congruence|].
        destruct (Hkeep P pn Hpn') as (n' & Hn' & Ha & _).
        exists P, lo, hi, h, n'. rewrite Ha. split; [|done].
        rewrite lookup_insert_ne; [done|]. intros <-.
        assert (1 ≤ R < R); [|lia]. apply (sh_ids _ _ _ _ _ _ _ _ _ Hsh). by eexists.
    + intros p lo hi n k Hp Hn Hr. destruct (decide (p = R)) as [->|HpR].
      { rewrite lookup_insert_eq in Hp. simplify_eq. }
      rewrite lookup_insert_ne in Hp by done.
      destruct (sh_nodes _ _ _ _ _ _ _ _ _ Hsh p _ Hp) as (n0 & Hn0 & _); [done|].
      destruct (Hkeep p n0 Hn0) as (n' & Hn' & Ha & _).
      assert (n' = n) as -> by congruence. rewrite Ha.
      by apply (sh_leaves _ _ _ _ _ _ _ _ _ Hsh p lo hi).
    + intros p q lo hi lo' hi' k Hp Hq.
      destruct (decide (p = R)) as [->|]; [rewrite lookup_insert_eq in Hp; simplify_eq|].
      destruct (decide (q = R)) as [->|]; [rewrite lookup_insert_eq in Hq; simplify_eq|].
      rewrite lookup_insert_ne in Hp, Hq by done.
      by apply (sh_disjoint _ _ _ _ _ _ _ _ _ Hsh).
    + split; [apply lookup_insert_eq|]. by rewrite HR.
  - split.
    + intros p [n Hn]. destruct (Hkeep p n Hn) as (n' & Hn' & _). by eexists.
    + simpl. unfold nodes'. repeat apply roomy_insert.
      * exact Hroomy.
      * intros _. unfold rn. simpl. lia.
      * intros Hty. exact (Hroomy old on Hon Hty).
      * intros Hty. exact (Hroomy new nn Hnn Hty).
Qed.

Lemma insert_at_after (a1 a2 : list (Z * Z)) x e :
  insert_at (S (length a1)) e (a1 ++ x :: a2) = a1 ++ x :: e :: a2.
Proof.
  unfold insert_at.
  replace (a1 ++ x :: a2) with ((a1 ++ [x]) ++ a2) by (by rewrite <- app_assoc).
  assert (S (length a1) = length (a1 ++ [x])) as -> by (rewrite length_app; simpl; lia).
  by rewrite take_app_length, drop_app_length, <- app_assoc.
Qed.

Lemma InsertNodeAfter_spec pn old s new :
  old ∈ (array_ pn).*2 →
  ∃ a1 k a2, array_ pn = a1 ++ (k, old) :: a2 ∧ (old ∉ a1.*2) ∧
    InsertNodeAfter old s new pn = set_array (a1 ++ (k, old) :: (s, new) :: a2) pn.
Proof.
  intros Hin. destruct (find_value_from_spec _ _ 0 Hin) as (a1 & k & a2 & Ha & Hnot & Hidx).
  exists a1, k, a2. split; [done|]. split; [done|].
  unfold InsertNodeAfter, FindValue. rewrite Hidx.
  destruct (Z.eqb_spec (0 + Z.of_nat (length a1)) (-1)); [lia|].
  replace (Z.to_nat (0 + Z.of_nat (length a1) + 1)) with (S (length a1)) by lia.
  by rewrite Ha, insert_at_after.
Qed.

Lemma attach_inv v G M H old s new lo hi h P plo phi pn nn :
  2 ≤ v_leaf_max v →
  G !! old = Some (lo, Some s, h) → G !! new = Some (Some s, hi, h) →
  (∀ p l r h' n, G !! p = Some (l, r, S h') → v_nodes v !! p = Some n →
     new ∉ (array_ n).*2) →
  parent_page_id_ <$> v_nodes v !! old = Some P →
  G !! P = Some (plo, phi, S h) → v_nodes v !! P = Some pn →
  page_id_ pn = P → page_type_ pn = INTERNAL_PAGE → NoDup (array_ pn).*2 →
  old ∈ (array_ pn).*2 →
  Forall (parent_link G (v_nodes v) old lo hi h P) (child_bounds plo phi (array_ pn)) →
  root_ok (v_nodes v) (v_root v) G H →
  shape_inv (v_leaf_max v) (v_nodes v) (v_next v) (v_root v) G M H (Some P) (Some new) →
  v_nodes v !! new = Some nn →
  tree_inv (with_nodes v (<[new := SetParentPageId P nn]>
                            (<[P := InsertNodeAfter old s new pn]> (v_nodes v)))) G M H ∧
  length (array_ (InsertNodeAfter old s new pn)) = S (length (array_ pn)).
Proof.
  intros Hlm Hold Hnew Hfresh Hpar HP Hpn Hpid Hpty Hnd Hin Hlinks Hroot Hsh Hnn.
  destruct (InsertNodeAfter_spec pn old s new Hin) as (a1 & k & a2 & Ha & Hnot & ->).
  set (pn' := set_array (a1 ++ (k, old) :: (s, new) :: a2) pn).
  set (nodes' := <[new := SetParentPageId P nn]> (<[P := pn']> (v_nodes v))).
  assert (new ≠ P) as HnewP by (intros ->; rewrite HP in Hnew; injection Hnew; lia).
  assert (old ≠ P) as HoldP by (intros ->; rewrite HP in Hold; injection Hold; lia).
  assert (old ≠ new) as Hon by (intros ->; by eapply Hfresh).
  assert (nodes' !! P = Some pn') as HP'.
  { unfold nodes'. rewrite lookup_insert_ne by done. apply lookup_insert_eq. }
  assert (nodes' !! new = Some (SetParentPageId P nn)) as Hnew'.
  { apply lookup_insert_eq. }
  assert (∀ p, p ≠ P → p ≠ new → nodes' !! p = v_nodes v !! p) as Hother.
  { intros p ??. unfold nodes'. by rewrite !lookup_insert_ne. }
  assert (∀ c, c ≠ new →
     parent_page_id_ <$> nodes' !! c = parent_page_id_ <$> v_nodes v !! c) as Hptr.
  { intros c Hc. destruct (decide (c = P)) as [->|]; [by rewrite HP', Hpn|].
    by rewrite Hother. }
  assert (∀ p n, v_nodes v !! p = Some n →
            ∃ n', nodes' !! p = Some n' ∧ (p ≠ P → array_ n' = array_ n) ∧
                  page_id_ n' = page_id_ n ∧ page_type_ n' = page_type_ n ∧
                  max_size_ n' = max_size_ n) as Hkeep.
  { intros p n Hn.
    destruct (decide (p = P)) as [->|]; [|destruct (decide (p = new)) as [->|]].
    - exists pn'. by simplify_eq.
    - exists (SetParentPageId P nn). by simplify_eq.
    - exists n. by rewrite Hother. }
  split; [|simpl; rewrite Ha, !length_app; simpl; lia].
  split; [done|]. simpl. fold nodes'.
  assert (new ∉ (array_ pn).*2) as Hnf by (by eapply Hfresh).
  split; [constructor|].
  - intros p sp Hp _. destruct (decide (p = P)) as [->|HpP].
    + rewrite HP in Hp. injection Hp as <-. exists pn'. split; [done|].
      split; [done|]. split; [done|]. split; [simpl; by destruct a1|]. split.
      * simpl. rewrite Ha, fmap_app in Hnd, Hnf. rewrite fmap_app. csimpl in *.
        apply NoDup_app in Hnd as (Hnd1 & Hdisj & Hnd2).
        apply NoDup_cons in Hnd2 as [Hold2 Hnd2].
        rewrite elem_of_app, elem_of_cons in Hnf.
        apply NoDup_app. split; [done|]. split.
        { intros x Hx Hx'. apply (Hdisj x Hx).
          apply elem_of_cons in Hx' as [->|Hx']; [left|].
          apply elem_of_cons in Hx' as [->|Hx']; [tauto|by right]. }
        apply NoDup_cons. split.
        { intros Hx. apply elem_of_cons in Hx as [?|?]; [done|tauto]. }
        apply NoDup_cons. split; [tauto|done].
      * simpl.
        destruct (child_bounds_insert_after plo phi a1 k old a2 s new)
          as (pre & lo_old & Hcb & ->).
        rewrite <- (child_bounds_children plo phi), Ha, Hcb in Hnd, Hnf.
        rewrite Ha, Hcb in Hlinks. clear Hcb.
        rewrite fmap_app in Hnd, Hnf. csimpl in *.
        apply NoDup_app in Hnd as (Hnd1 & Hdisj & Hnd2).
        apply NoDup_cons in Hnd2 as [Hold2 Hnd2].
        rewrite elem_of_app, elem_of_cons in Hnf.
        apply Forall_app in Hlinks as [Hpre Hrest].
        apply Forall_cons in Hrest as [Hmid Hpost].
        unfold parent_link in Hmid. simpl in Hmid. rewrite decide_True in Hmid by done.
        injection Hmid as -> Hfk. rewrite Hfk in *.
        assert (∀ cb, cb.1 ≠ old → cb.1 ≠ new →
                  parent_link G (v_nodes v) old lo hi h P cb → child_ok G nodes' P h cb)
          as Hlink.
        { intros cb Hcb1 Hcb2 Hl. unfold parent_link in Hl.
          rewrite decide_False in Hl by done. destruct Hl as [HGc Hparc].
          split; [done|]. by rewrite Hptr. }
        apply Forall_app. split; [|constructor; [|constructor]].
        -- apply Forall_forall. intros cb Hcb. rewrite Forall_forall in Hpre.
           assert (cb.1 ∈ pre.*1) by (by apply list_elem_of_fmap_2).
           apply Hlink; [| |by apply Hpre].
           ++ intros Heq. apply (Hdisj (cb.1)); [done|]. rewrite Heq. left.
           ++ intros Heq. rewrite Heq in *. tauto.
        -- split; simpl; [done|]. by rewrite Hptr.
        -- split; simpl; [done|]. by rewrite Hnew'.
        -- apply Forall_forall. intros cb Hcb. rewrite Forall_forall in Hpost.
           assert (cb.1 ∈ (child_bounds hi phi a2).*1) by (by apply list_elem_of_fmap_2).
           apply Hlink; [| |by apply Hpost].
           ++ intros Heq. rewrite Heq in *. done.
           ++ intros Heq. rewrite Heq in *. tauto.
    + destruct (sh_nodes _ _ _ _ _ _ _ _ _ Hsh p sp Hp) as (n & Hn & Hok); [congruence|].
      destruct (Hkeep p n Hn) as (n' & Hn' & Ha' & Hid & Hty & Hmax).
      exists n'. split; [done|].
      eapply keep_node_ok; [exact Hok|by apply Ha'|done..|].
      intros c Hh Hc. split; [done|]. apply Hptr. intros ->.
      destruct sp as [[l r] [|h']]; [simpl in Hh; lia|]. by eapply Hfresh.
  - intros p Hp. apply (sh_ids _ _ _ _ _ _ _ _ _ Hsh).
    destruct (decide (p = P)) as [->|]; [by eexists|].
    destruct (decide (p = new)) as [->|]; [by eexists|]. by rewrite Hother in Hp.
  - apply (sh_height _ _ _ _ _ _ _ _ _ Hsh).
  - intros p Hp _. destruct (decide (p = new)) as [->|Hpn'].
    { right. exists P, plo, phi, h, pn'. split; [done|]. split; [done|].
      simpl. rewrite fmap_app. csimpl. set_solver. }
    destruct (sh_attached _ _ _ _ _ _ _ _ _ Hsh p Hp)
      as [?|(Q & l & r & hq & qn & HQ & Hqn & Hin')]; [congruence|by left|].
    right. destruct (decide (Q = P)) as [->|HQP].
    + exists P, plo, phi, h, pn'. split; [done|]. split; [done|].
      assert (qn = pn) as -> by congruence.
      rewrite Ha, fmap_app in Hin'. simpl. rewrite fmap_app. csimpl in *. set_solver.
    + destruct (Hkeep Q qn Hqn) as (n' & Hn' & Ha' & _).
      exists Q, l, r, hq, n'. by rewrite Ha'.
  - intros p l r n key Hp Hn Hr.
    assert (p ≠ P) by (intros ->; congruence).
    destruct (sh_nodes _ _ _ _ _ _ _ _ _ Hsh p _ Hp) as (n0 & Hn0 & _); [congruence|].
    destruct (Hkeep p n0 Hn0) as (n' & Hn' & Ha' & _).
    assert (n' = n) as -> by congruence. rewrite Ha' by done.
    by apply (sh_leaves _ _ _ _ _ _ _ _ _ Hsh p l r).
  - apply (sh_disjoint _ _ _ _ _ _ _ _ _ Hsh).
  - destruct Hroot as [HGr Hparr]. split; [done|]. rewrite Hptr; [done|].
    intros Heq. rewrite Heq in HGr. congruence.
Qed.

Lemma shape_inv_weaken lm (nodes : gmap Z Node) next root G M H X ex_att :
  shape_inv lm nodes next root G M H None ex_att →
  shape_inv lm nodes next root G M H (Some X) ex_att.
Proof.
  intros Hsh. constructor; try apply Hsh.
  intros p s Hp _. by apply (sh_nodes _ _ _ _ _ _ _ _ _ Hsh).
Qed.

(** What is left of the invariant once a page [X] has given its upper
    part to the fresh page [N]. *)
Lemma split_pending v v' G M H X N s lo hi h xn xn' nn (moved : list Z) :
  2 ≤ v_leaf_max v →
  shape_inv (v_leaf_max v) (v_nodes v) (v_next v) (v_root v) G M H (Some X) None →
  root_ok (v_nodes v) (v_root v) G H →
  G !! X = Some (lo, hi, h) → v_nodes v !! X = Some xn → N = v_next v →
  ((0 < h)%nat → X ∉ (array_ xn).*2) →
  v_root v' = v_root v → v_leaf_max v' = v_leaf_max v → v_next v' = N + 1 →
  v_nodes v' !! X = Some xn' → parent_page_id_ xn' = parent_page_id_ xn →
  v_nodes v' !! N = Some nn →
  (∀ p n, p ≠ X → v_nodes v !! p = Some n →
     ∃ n', v_nodes v' !! p = Some n' ∧ array_ n' = array_ n ∧ page_id_ n' = page_id_ n ∧
       page_type_ n' = page_type_ n ∧ max_size_ n' = max_size_ n ∧
       (p ∉ moved → parent_page_id_ n' = parent_page_id_ n)) →
  (∀ p, is_Some (v_nodes v' !! p) → p = N ∨ is_Some (v_nodes v !! p)) →
  (∀ c, c ∈ moved → parent_page_id_ <$> v_nodes v !! c = Some X) →
  let G' := <[N := (Some s, hi, h)]> (<[X := (lo, Some s, h)]> G) in
  node_ok (v_leaf_max v) G' (v_nodes v') X (lo, Some s, h) xn' →
  node_ok (v_leaf_max v) G' (v_nodes v') N (Some s, hi, h) nn →
  (∀ c, (0 < h)%nat → c ∈ (array_ xn).*2 →
     c ∈ (array_ xn').*2 ∨ c ∈ (array_ nn).*2) →
  (∀ p l r n k, G' !! p = Some (l, r, O) → v_nodes v' !! p = Some n →
     in_range l r k → lookup_key (array_ n) k = M !! k) →
  (∀ p q l r l' r' k, G' !! p = Some (l, r, O) → G' !! q = Some (l', r', O) →
     in_range l r k → in_range l' r' k → p = q) →
  pending v' G' M H X s N lo hi h.
Proof.
  intros Hlm Hsh Hroot HGX Hxn HN Hself Hr' Hlm' Hnext' HX' HparX HN' Hkeep Hdom Hmoved
    G' HokX HokN Hchildren Hleaves Hdisj.
  assert (∀ p, is_Some (v_nodes v !! p) → 1 ≤ p < N) as Hids.
  { intros p Hp. rewrite HN. by apply (sh_ids _ _ _ _ _ _ _ _ _ Hsh). }
  assert (1 ≤ X < N) as HXN by (apply Hids; by eexists).
  assert (∀ p sp, G !! p = Some sp → is_Some (v_nodes v !! p)) as HGdom.
  { intros p sp Hp. destruct (decide (p = X)) as [->|HpX]; [by eexists|].
    destruct (sh_nodes _ _ _ _ _ _ _ _ _ Hsh p sp Hp) as (n & Hn & _); [congruence|].
    by eexists. }
  assert (G' !! X = Some (lo, Some s, h)) as HGX'.
  { unfold G'. rewrite lookup_insert_ne by lia. apply lookup_insert_eq. }
  assert (G' !! N = Some (Some s, hi, h)) as HGN' by apply lookup_insert_eq.
  assert (∀ p, p ≠ X → p ≠ N → G' !! p = G !! p) as HG'.
  { intros p ??. unfold G'. by rewrite !lookup_insert_ne. }
  assert (∀ c, c ≠ X → c ∉ moved → is_Some (v_nodes v !! c) →
     parent_page_id_ <$> v_nodes v' !! c = parent_page_id_ <$> v_nodes v !! c) as Hptr.
  { intros c HcX Hcm [cn Hcn]. destruct (Hkeep c cn HcX Hcn) as (n' & Hn' & _ & _ & _ & _ & Hp).
    rewrite Hn', Hcn. simpl. f_equal. by apply Hp. }
  assert (∀ ex',
    (∀ p l r h' n, G !! p = Some (l, r, S h') → v_nodes v !! p = Some n →
       X ∈ (array_ n).*2 → p ≠ X → Some p = ex') →
    shape_inv (v_leaf_max v') (v_nodes v') (v_next v') (v_root v') G' M H ex' (Some N))
    as Hgen.
  { intros ex' Hex. rewrite Hlm', Hnext', Hr'. constructor.
    - intros p sp Hp Hpex.
      destruct (decide (p = N)) as [->|HpN]; [exists nn; by simplify_eq|].
      destruct (decide (p = X)) as [->|HpX]; [exists xn'; by simplify_eq|].
      rewrite HG' in Hp by done.
      destruct (sh_nodes _ _ _ _ _ _ _ _ _ Hsh p sp Hp) as (n & Hn & Hok); [congruence|].
      destruct (Hkeep p n HpX Hn) as (n' & Hn' & Ha & Hid & Hty & Hmax & _).
      exists n'. split; [done|]. eapply keep_node_ok; [exact Hok|done..|].
      intros c Hh Hc. destruct sp as [[l r] [|h']]; [simpl in Hh; lia|].
      destruct (node_ok_child _ _ _ _ _ _ _ _ _ Hok Hc) as [(cl & cr & HGc) Hparc].
      assert (c ≠ X) as HcX.
      { intros ->. apply Hpex. by eapply Hex. }
      assert (c ≠ N) as HcN.
      { intros ->. pose proof (Hids N (HGdom _ _ HGc)). lia. }
      split; [by apply HG'|]. apply Hptr; [done| |by eapply HGdom].
      intros Hcm. apply Hmoved in Hcm. rewrite Hcm in Hparc. by injection Hparc as ->.
    - intros p Hp. destruct (Hdom p Hp) as [->|Hp']; [lia|]. apply Hids in Hp'. lia.
    - intros p l r h0 Hp.
      destruct (decide (p = N)) as [->|HpN].
      { rewrite HGN' in Hp. injection Hp as <- <- <-.
        by eapply (sh_height _ _ _ _ _ _ _ _ _ Hsh). }
      destruct (decide (p = X)) as [->|HpX].
      { rewrite HGX' in Hp. injection Hp as <- <- <-.
        by eapply (sh_height _ _ _ _ _ _ _ _ _ Hsh). }
      rewrite HG' in Hp by done. by eapply (sh_height _ _ _ _ _ _ _ _ _ Hsh).
    - intros p Hp HpN. assert (p ≠ N) as HpN' by congruence.
      assert (∀ Q l r hq qn, Q ≠ X → G !! Q = Some (l, r, S hq) →
                v_nodes v !! Q = Some qn → p ∈ (array_ qn).*2 →
                attached G' (v_nodes v') (v_root v) p) as Hvia.
      { intros Q l r hq qn HQX HQ Hqn Hin. right.
        destruct (Hkeep Q qn HQX Hqn) as (n' & Hn' & Ha & _).
        exists Q, l, r, hq, n'. rewrite Ha. split; [|done]. rewrite HG'; [done..|].
        intros ->. pose proof (Hids N (HGdom _ _ HQ)). lia. }
      destruct (decide (p = X)) as [->|HpX].
      + destruct (sh_attached _ _ _ _ _ _ _ _ _ Hsh X)
          as [?|(Q & l & r & hq & qn & HQ & Hqn & Hin)]; [by eexists|done|by left|].
        destruct (decide (Q = X)) as [->|HQX]; [|by eapply Hvia].
        exfalso. assert (qn = xn) as -> by congruence. apply Hself; [|done].
        rewrite HGX in HQ. injection HQ. lia.
      + rewrite HG' in Hp by done.
        destruct (sh_attached _ _ _ _ _ _ _ _ _ Hsh p Hp)
          as [?|(Q & l & r & hq & qn & HQ & Hqn & Hin)]; [done|by left|].
        destruct (decide (Q = X)) as [->|HQX]; [|by eapply Hvia].
        assert (qn = xn) as -> by congruence. rewrite HGX in HQ. injection HQ as <- <- ->.
        destruct (Hchildren p) as [Hc|Hc]; [lia|done| |]; right.
        * by exists X, lo, (Some s), hq, xn'.
        * by exists N, (Some s), hi, hq, nn.
    - exact Hleaves.
    - exact Hdisj. }
  constructor; [by rewrite Hlm'|done|done| |].
  - intros p l r h' n Hp Hn Hin.
    destruct (decide (p = N)) as [->|HpN].
    { assert (n = nn) as -> by congruence. rewrite HGN' in Hp. injection Hp as <- <- ->.
      destruct (node_ok_child _ _ _ _ _ _ _ _ _ HokN Hin) as [(cl & cr & HGc) _].
      rewrite HGN' in HGc. injection HGc. lia. }
    destruct (decide (p = X)) as [->|HpX].
    { assert (n = xn') as -> by congruence. rewrite HGX' in Hp. injection Hp as <- <- ->.
      destruct (node_ok_child _ _ _ _ _ _ _ _ _ HokX Hin) as [(cl & cr & HGc) _].
      rewrite HGN' in HGc. injection HGc. lia. }
    rewrite HG' in Hp by done.
    destruct (sh_nodes _ _ _ _ _ _ _ _ _ Hsh p _ Hp) as (n0 & Hn0 & Hok); [congruence|].
    destruct (Hkeep p n0 HpX Hn0) as (n' & Hn' & Ha & _).
    assert (n' = n) as -> by congruence. rewrite Ha in Hin.
    destruct (node_ok_child _ _ _ _ _ _ _ _ _ Hok Hin) as [(cl & cr & HGc) _].
    pose proof (Hids N (HGdom _ _ HGc)). lia.
  - assert (∀ p l r h' n, G !! p = Some (l, r, S h') → v_nodes v !! p = Some n →
              X ∈ (array_ n).*2 → p ≠ X →
              parent_page_id_ <$> v_nodes v !! X = Some p ∧ h' = h ∧ 1 ≤ p < N ∧
              node_ok (v_leaf_max v) G (v_nodes v) p (l, r, S h') n) as Hup.
    { intros p l r h' n Hp Hn Hin HpX.
      destruct (sh_nodes _ _ _ _ _ _ _ _ _ Hsh p _ Hp) as (n0 & Hn0 & Hok); [congruence|].
      assert (n0 = n) as -> by congruence.
      destruct (node_ok_child _ _ _ _ _ _ _ _ _ Hok Hin) as [(cl & cr & HGc) Hparc].
      split; [done|]. split; [|split; [|done]].
      - rewrite HGX in HGc. by injection HGc.
      - apply Hids. by eexists. }
    destruct (sh_attached _ _ _ _ _ _ _ _ _ Hsh X)
      as [HXroot|(GP & gl & gr & gh & gpn & HGP & Hgpn & HinX)]; [by eexists|done| |].
    + left. destruct Hroot as [HGr Hparr]. rewrite <- HXroot in HGr, Hparr.
      rewrite HGX in HGr. injection HGr as -> -> ->.
      split; [by rewrite Hr'|]. split; [done|]. split; [done|]. split; [done|]. split.
      { rewrite HX'. rewrite Hxn in Hparr. simpl in *. congruence. }
      apply Hgen.
      intros p l r h' n Hp Hn Hin HpX. exfalso.
      destruct (Hup p l r h' n Hp Hn Hin HpX) as (Hpar & _ & Hp1 & _).
      rewrite Hpar in Hparr. unfold INVALID_PAGE_ID in Hparr. injection Hparr. lia.
    + assert (GP ≠ X) as HGPX.
      { intros ->. assert (gpn = xn) as -> by congruence. apply Hself; [|done].
        rewrite HGX in HGP. injection HGP. lia. }
      destruct (Hup GP gl gr gh gpn HGP Hgpn HinX HGPX) as (HparGP & -> & HGP1 & HokGP).
      destruct (Hkeep GP gpn HGPX Hgpn) as (gpn' & Hgpn' & Ha & Hid & Hty & _).
      assert (v_root v ≠ X) as HrX.
      { intros Heq. destruct Hroot as [_ Hparr]. rewrite Heq, HparGP in Hparr.
        unfold INVALID_PAGE_ID in Hparr. injection Hparr. lia. }
      right. exists GP, gl, gr, gpn'.
      destruct HokGP as (HidGP & HtyGP & _ & HndGP & HallGP).
      split. { rewrite HX'. rewrite Hxn in HparGP. simpl in *. congruence. }
      split. { rewrite HG'; [done..|lia]. }
      split; [done|]. split; [congruence|]. split; [congruence|].
      split; [by rewrite Ha|]. split; [by rewrite Ha|]. split; [|split].
      * rewrite Ha. eapply Forall_impl; [exact HallGP|].
        intros cb [HGc Hparc]. unfold parent_link. case_decide as Hcb.
        -- rewrite Hcb, HGX in HGc. destruct cb as [c [l r]]. simpl in *. congruence.
        -- assert (cb.1 ≠ N) as HcN.
           { intros Heq. rewrite Heq in HGc. pose proof (Hids N (HGdom _ _ HGc)). lia. }
           split; [by rewrite HG'|]. rewrite Hptr; [done..| |by eapply HGdom].
           intros Hcm. apply Hmoved in Hcm. rewrite Hcm in Hparc. by injection Hparc.
      * rewrite Hr'. destruct Hroot as [HGr Hparr].
        assert (is_Some (v_nodes v !! v_root v)) as Hrdom by (by eapply HGdom).
        pose proof (Hids _ Hrdom). split.
        -- rewrite HG'; [done..|lia].
        -- rewrite Hptr; [done|done| |done].
           intros Hcm. apply Hmoved in Hcm. rewrite Hcm in Hparr.
           unfold INVALID_PAGE_ID in Hparr. injection Hparr. lia.
      * apply Hgen.
        intros p l r h' n Hp Hn Hin HpX.
        destruct (Hup p l r h' n Hp Hn Hin HpX) as (Hpar & _).
        rewrite Hpar in HparGP. by injection HparGP as ->.
Qed.

Lemma Split_leaf_spec v G M H L lo hi ln :
  2 ≤ v_leaf_max v →
  shape_inv (v_leaf_max v) (v_nodes v) (v_next v) (v_root v) G M H (Some L) None →
  root_ok (v_nodes v) (v_root v) G H →
  G !! L = Some (lo, hi, O) → v_nodes v !! L = Some ln →
  page_id_ ln = L → page_type_ ln = LEAF_PAGE → max_size_ ln = v_leaf_max v →
  StronglySorted Z.lt (array_ ln).*1 → Forall (in_range lo hi) (array_ ln).*1 →
  Z.of_nat (length (array_ ln)) = v_leaf_max v →
  v_leaf_max v ≤ LEAF_PAGE_SIZE → roomy (v_nodes v) →
  ∃ v' G' s N, runs (Split L) v (N, s) v' ∧ pending v' G' M H L s N lo hi O ∧
    v_leaf_max v' = v_leaf_max v ∧ v_internal_max v' = v_internal_max v ∧
    (∀ p, is_Some (v_nodes v !! p) → is_Some (v_nodes v' !! p)) ∧
    is_Some (v_nodes v' !! N) ∧ roomy (v_nodes v').
Proof.
  intros Hlm Hsh Hroot HGL Hln Hid Hty Hmax Hsorted Hrange Hsize Hcl Hroomy.
  set (N := v_next v). set (a := array_ ln) in *.
  set (st := Z.to_nat (v_leaf_max v / 2)).
  assert (0 < st < length a)%nat as Hst.
  { unfold st. pose proof (Z.div_le_lower_bound (v_leaf_max v) 2 1).
    pose proof (Z.div_lt (v_leaf_max v) 2). lia. }
  destruct (leaf_split_spec a st Hsorted Hst)
    as (s & val & Hs & Hs1 & Hs2 & Hlt & Hge & Hlook1 & Hlook2).
  assert (in_range lo hi s) as Hsr.
  { rewrite Forall_forall in Hrange. apply Hrange.
    apply list_elem_of_fmap. exists (s, val). split; [done|].
    by eapply list_elem_of_lookup_2. }
  set (ln' := set_array (take st a) (SetNextPageId N ln)).
  set (nl := mkNode LEAF_PAGE (v_leaf_max v) (parent_page_id_ ln) N (next_page_id_ ln)
                    (drop st a)).
  set (nodes' := <[N := nl]> (<[L := ln']> (v_nodes v))).
  assert (1 ≤ L < N) as HLN.
  { apply (sh_ids _ _ _ _ _ _ _ _ _ Hsh). by eexists. }
  exists (mkView (v_root v) (v_leaf_max v) (v_internal_max v) nodes' (N + 1)),
    (<[N := (Some s, hi, O)]> (<[L := (lo, Some s, O)]> G)), s, N.
  assert (nodes' !! L = Some ln') as HL'.
  { unfold nodes'. rewrite lookup_insert_ne by lia. apply lookup_insert_eq. }
  assert (nodes' !! N = Some nl) as HN' by apply lookup_insert_eq.
  assert (∀ p n, p ≠ L → v_nodes v !! p = Some n → nodes' !! p = Some n) as Hother.
  { intros p n HpL Hn. unfold nodes'. rewrite !lookup_insert_ne; [done..|].
    intros <-. assert (1 ≤ N < N); [|lia].
    apply (sh_ids _ _ _ _ _ _ _ _ _ Hsh). by eexists. }
  split; [|split; [|split; [done|split; [done|split; [|split]]]]].
  - unfold Split. apply runs_get_fields. intros t _ Hl _. rewrite Hl.
    eapply runs_bind; [apply runs_NewPage|]. fold N.
    eapply runs_bind.
    { apply runs_node_at. simpl. rewrite lookup_insert_ne by lia. done. }
    unfold IsLeafPage. rewrite Hty.
    eapply runs_bind.
    { apply runs_update_node. simpl. apply lookup_insert_eq. }
    eapply runs_bind.
    { apply runs_update_node. simpl. apply lookup_insert_eq. }
    eapply runs_bind.
    { apply runs_update_node. simpl. rewrite !lookup_insert_ne by lia. done. }
    eapply runs_bind.
    { apply runs_node_at. simpl. apply lookup_insert_eq. }
    eapply runs_bind.
    { apply runs_node_at. simpl. rewrite lookup_insert_ne by lia. apply lookup_insert_eq. }
    eapply runs_bind.
    { apply runs_lift. unfold leaf_MoveHalfTo, KeyAt, entry_at, GetSize. simpl.
      fold a. rewrite Hsize. fold st.
      destruct (Z.ltb_spec (v_leaf_max v / 2) 0) as [Hneg|_].
      { pose proof (Z.div_pos (v_leaf_max v) 2). lia. }
      rewrite Hs. simpl. done. }
    simpl.
    eapply runs_bind.
    { apply runs_set_node. simpl. rewrite lookup_insert_eq. by eexists. }
    eapply runs_bind.
    { apply runs_store_node.
      - simpl. rewrite lookup_insert_ne by lia.
        rewrite lookup_insert_ne by lia. rewrite lookup_insert_eq. by eexists.
      - apply in_page_leaf; [done|]. simpl. fold a. rewrite length_drop. lia. }
    apply runs_ret_eq. unfold with_nodes. simpl. f_equal.
    apply map_eq. intros p. unfold nodes', ln', nl, set_array, SetNextPageId. simpl.
    destruct (decide (p = N)) as [->|]; [by rewrite !lookup_insert_eq|].
    rewrite !(lookup_insert_ne _ N) by done.
    destruct (decide (p = L)) as [->|]; [by rewrite !lookup_insert_eq|].
    by rewrite !lookup_insert_ne by done.
  - assert (∀ k, in_range lo (Some s) k → in_range lo hi k) as Hrl.
    { intros k [Hk1 Hk2]. split; [done|]. destruct Hsr as [_ Hs']. simpl in Hk2.
      destruct hi; simpl in *; [lia|done]. }
    assert (∀ k, in_range (Some s) hi k → in_range lo hi k) as Hrr.
    { intros k [Hk1 Hk2]. split; [|done]. destruct Hsr as [Hs' _]. simpl in Hk1.
      destruct lo; simpl in *; [lia|done]. }
    assert (∀ p, p ≠ L → p ≠ N →
      <[N:=(Some s, hi, 0%nat)]> (<[L:=(lo, Some s, 0%nat)]> G) !! p = G !! p) as HG'.
    { intros p ??. by rewrite !lookup_insert_ne. }
    apply (split_pending v _ G M H L N s lo hi O ln ln' nl []); simpl; try done.
    + lia.
    + intros p n HpL Hn. exists n. by rewrite (Hother p n).
    + intros p Hp. destruct (decide (p = N)) as [->|]; [by left|]. right.
      unfold nodes' in Hp. rewrite lookup_insert_ne in Hp by done.
      destruct (decide (p = L)) as [->|]; [by eexists|].
      by rewrite lookup_insert_ne in Hp.
    + intros c Hc. by apply elem_of_nil in Hc.
    + split; [done|]. split; [done|]. split; [done|]. split; [done|]. split.
      * apply Forall_forall. intros k Hk. rewrite Forall_forall in Hrange. split.
        -- apply Hrange. rewrite <- (take_drop st a), fmap_app. apply elem_of_app. by left.
        -- simpl. by apply Hlt.
      * unfold ln'. simpl. rewrite length_take. lia.
    + split; [done|]. split; [done|]. split; [done|]. split; [done|]. split.
      * apply Forall_forall. intros k Hk. rewrite Forall_forall in Hrange. split.
        -- simpl. by apply Hge.
        -- apply Hrange. rewrite <- (take_drop st a), fmap_app. apply elem_of_app. by right.
      * unfold nl. simpl. rewrite length_drop. lia.
    + lia.
    + intros p l r n k Hp Hn Hr.
      destruct (decide (p = N)) as [->|HpN].
      { rewrite lookup_insert_eq in Hp. injection Hp as <- <-.
        assert (n = nl) as -> by congruence. simpl.
        rewrite Hlook2 by (destruct Hr as [Hr _]; exact Hr).
        by apply (sh_leaves _ _ _ _ _ _ _ _ _ Hsh L lo hi ln); [| |apply Hrr]. }
      rewrite lookup_insert_ne in Hp by done.
      destruct (decide (p = L)) as [->|HpL].
      { rewrite lookup_insert_eq in Hp. injection Hp as <- <-.
        assert (n = ln') as -> by congruence. simpl.
        rewrite Hlook1 by (destruct Hr as [_ Hr]; exact Hr).
        by apply (sh_leaves _ _ _ _ _ _ _ _ _ Hsh L lo hi ln); [| |apply Hrl]. }
      rewrite lookup_insert_ne in Hp by done.
      destruct (sh_nodes _ _ _ _ _ _ _ _ _ Hsh p _ Hp) as (n0 & Hn0 & _); [congruence|].
      rewrite (Hother p n0) in Hn by done. injection Hn as <-.
      by apply (sh_leaves _ _ _ _ _ _ _ _ _ Hsh p l r).
    + assert (∀ p l r k, p ≠ L → p ≠ N → G !! p = Some (l, r, O) → in_range l r k →
                in_range lo hi k → False) as Hno.
      { intros p l r k HpL HpN Hp Hr Hr'. apply HpL.
        by apply (sh_disjoint _ _ _ _ _ _ _ _ _ Hsh p L l r lo hi k). }
      intros p q l r l' r' k Hp Hq Hr Hr'.
      destruct (decide (p = N)) as [->|HpN]; [rewrite lookup_insert_eq in Hp
        |rewrite lookup_insert_ne in Hp by done;
         destruct (decide (p = L)) as [->|HpL]; [rewrite lookup_insert_eq in Hp
        |rewrite lookup_insert_ne in Hp by done]];
      (destruct (decide (q = N)) as [->|HqN]; [rewrite lookup_insert_eq in Hq
        |rewrite lookup_insert_ne in Hq by done;
         destruct (decide (q = L)) as [->|HqL]; [rewrite lookup_insert_eq in Hq
        |rewrite lookup_insert_ne in Hq by done]]); simplify_eq; try done.
      * destruct Hr as [Hr _], Hr' as [_ Hr']. simpl in *. lia.
      * exfalso. eapply (Hno q); eauto.
      * destruct Hr as [_ Hr], Hr' as [Hr' _]. simpl in *. lia.
      * exfalso. eapply (Hno q); eauto.
      * exfalso. eapply (Hno p); eauto.
      * exfalso. eapply (Hno p); eauto.
      * by apply (sh_disjoint _ _ _ _ _ _ _ _ _ Hsh p q l r l' r' k).
  - simpl. intros p [n Hn]. destruct (decide (p = L)) as [->|]; [by eexists|].
    rewrite (Hother p n); [by eexists|done..].
  - by eexists.
  - simpl. unfold nodes'. repeat apply roomy_insert; [exact Hroomy|..].
    + unfold ln'. simpl. congruence.
    + by intros [=].
Qed.

Lemma reparent_map_lookup cs N (m : gmap Z Node) p :
  reparent_map cs N m !! p =
  (if decide (p ∈ cs) then SetParentPageId N else id) <$> m !! p.
Proof.
  revert m. induction cs as [|c cs IH]; intros m.
  - destruct (decide (p ∈ [])) as [Hin|_]; [by apply elem_of_nil in Hin|].
    unfold reparent_map. simpl. by destruct (m !! p).
  - change (reparent_map (c :: cs) N m)
      with (reparent_map cs N (alter (SetParentPageId N) c m)).
    rewrite IH. destruct (decide (p = c)) as [->|Hne].
    + rewrite lookup_alter_eq. rewrite (decide_True (P := c ∈ c :: cs)) by left.
      destruct (m !! c); simpl; [|done]. by case_decide.
    + rewrite lookup_alter_ne by done.
      destruct (decide (p ∈ cs)) as [Hin|Hnin].
      * by rewrite decide_True by (by right).
      * rewrite decide_False; [done|]. intros Hin.
        apply elem_of_cons in Hin as [?|?]; done.
Qed.

Lemma runs_reparent cs N v :
  (∀ c, c ∈ cs → is_Some (v_nodes v !! c)) →
  runs (reparent cs N) v tt (with_nodes v (reparent_map cs N (v_nodes v))).
Proof.
  revert v. induction cs as [|c cs IH]; intros v Hdom.
  - apply runs_ret_eq. by destruct v.
  - destruct (Hdom c) as [cn Hcn]; [left|]. cbn [reparent].
    eapply runs_bind; [by eapply runs_FetchPage|].
    eapply runs_bind; [by apply runs_update_node|].
    apply runs_UnpinPage.
    replace (with_nodes v (reparent_map (c :: cs) N (v_nodes v)))
      with (with_nodes (with_nodes v (<[c:=SetParentPageId N cn]> (v_nodes v)))
              (reparent_map cs N (<[c:=SetParentPageId N cn]> (v_nodes v)))).
    + apply IH. simpl. intros c' Hc'. destruct (decide (c' = c)) as [->|].
      * rewrite lookup_insert_eq. by eexists.
      * rewrite lookup_insert_ne by done. apply Hdom. by right.
    + unfold with_nodes. simpl. f_equal.
      change (reparent_map (c :: cs) N (v_nodes v))
        with (reparent_map cs N (alter (SetParentPageId N) c (v_nodes v))).
      f_equal. apply map_eq. intros p. destruct (decide (p = c)) as [->|].
      * by rewrite lookup_insert_eq, lookup_alter_eq, Hcn.
      * by rewrite lookup_insert_ne, lookup_alter_ne.
Qed.

Lemma Split_internal_spec v G M H P plo phi h pn :
  tree_inv v G M H →
  G !! P = Some (plo, phi, S h) → v_nodes v !! P = Some pn →
  (2 ≤ length (array_ pn))%nat →
  Z.of_nat (length (array_ pn)) ≤ INTERNAL_PAGE_SIZE → roomy (delete P (v_nodes v)) →
  ∃ v' G' s N, runs (Split P) v (N, s) v' ∧ pending v' G' M H P s N plo phi (S h) ∧
    v_leaf_max v' = v_leaf_max v ∧ v_internal_max v' = v_internal_max v ∧
    (∀ p, is_Some (v_nodes v !! p) → is_Some (v_nodes v' !! p)) ∧
    is_Some (v_nodes v' !! N) ∧ roomy (v_nodes v').
Proof.
  intros (Hlm & Hsh & Hroot) HGP Hpn Hlen Hcap Hroomy.
  destruct (sh_nodes _ _ _ _ _ _ _ _ _ Hsh P _ HGP) as (pn0 & Hpn0 & HokP); [done|].
  assert (pn0 = pn) as -> by congruence. clear Hpn0.
  pose proof HokP as (Hid & Hty & Hne & Hnd & Hall).
  set (N := v_next v). set (a := array_ pn) in *.
  set (st := Z.to_nat (Z.max 1 (Z.of_nat (length a) / 2))).
  assert (0 < st < length a)%nat as Hst.
  { unfold st. pose proof (Z.div_lt (Z.of_nat (length a)) 2). lia. }
  destruct (lookup_lt_is_Some_2 a st) as [[s c0] Hs]; [lia|].
  pose proof (drop_S a (s, c0) st Hs) as Hdrop.
  set (rest := drop (S st) a) in *.
  pose proof (take_drop st a) as Hsplit.
  set (pn' := set_array (take st a) pn).
  set (nn := mkNode INTERNAL_PAGE (v_internal_max v) (parent_page_id_ pn) N 0
                    ((0, c0) :: rest)).
  set (moved := (array_ nn).*2).
  assert (moved = (drop st a).*2) as Hmoved_eq by (by rewrite Hdrop).
  set (nodes' := reparent_map moved N (<[N := nn]> (<[P := pn']> (v_nodes v)))).
  assert (∀ p, is_Some (v_nodes v !! p) → 1 ≤ p < N) as Hids.
  { intros p Hp. by apply (sh_ids _ _ _ _ _ _ _ _ _ Hsh). }
  assert (1 ≤ P < N) as HPN by (apply Hids; by eexists).
  assert (∀ c, c ∈ a.*2 →
    (∃ l r, G !! c = Some (l, r, h)) ∧ parent_page_id_ <$> v_nodes v !! c = Some P ∧
    is_Some (v_nodes v !! c) ∧ c ≠ P ∧ c ≠ N) as Hchild.
  { intros c Hc.
    destruct (node_ok_child _ _ _ _ _ _ _ _ _ HokP Hc) as [(l & r & HGc) Hparc].
    destruct (sh_nodes _ _ _ _ _ _ _ _ _ Hsh c _ HGc) as (cn & Hcn & _); [done|].
    assert (is_Some (v_nodes v !! c)) as Hcdom by (by eexists).
    pose proof (Hids c Hcdom).
    split; [eauto|]. split; [done|]. split; [done|]. split; [|lia].
    intros ->. rewrite HGP in HGc. injection HGc. lia. }
  assert (∀ c, c ∈ moved → c ∈ a.*2) as Hmoved_a.
  { intros c Hc. rewrite Hmoved_eq in Hc. rewrite <- Hsplit, fmap_app.
    apply elem_of_app. by right. }
  assert (NoDup ((take st a).*2 ++ (drop st a).*2)) as Hnd'.
  { by rewrite <- fmap_app, Hsplit. }
  apply NoDup_app in Hnd' as (Hnd1 & Hdisj & Hnd2).
  assert (P ∉ moved) as HPm.
  { intros Hin. by destruct (Hchild _ (Hmoved_a _ Hin)) as (_ & _ & _ & ? & ?). }
  assert (N ∉ moved) as HNm.
  { intros Hin. by destruct (Hchild _ (Hmoved_a _ Hin)) as (_ & _ & _ & ? & ?). }
  assert (nodes' !! P = Some pn') as HP'.
  { unfold nodes'. rewrite reparent_map_lookup, decide_False by done.
    rewrite lookup_insert_ne by lia. by rewrite lookup_insert_eq. }
  assert (nodes' !! N = Some nn) as HN'.
  { unfold nodes'. rewrite reparent_map_lookup, decide_False by done.
    by rewrite lookup_insert_eq. }
  assert (∀ p n, p ≠ P → v_nodes v !! p = Some n →
    nodes' !! p = Some (if decide (p ∈ moved) then SetParentPageId N n else n)) as Hother.
  { intros p n HpP Hn. unfold nodes'. rewrite reparent_map_lookup.
    assert (p ≠ N) by (intros ->; pose proof (Hids N ltac:(by eexists)); lia).
    rewrite !lookup_insert_ne, Hn by done. simpl. by case_decide. }
  exists (mkView (v_root v) (v_leaf_max v) (v_internal_max v) nodes' (N + 1)),
    (<[N := (Some s, phi, S h)]> (<[P := (plo, Some s, S h)]> G)), s, N.
  split; [|split; [|split; [done|split; [done|split; [|split]]]]].
  - unfold Split. apply runs_get_fields. intros t _ _ Him. rewrite Him.
    eapply runs_bind; [apply runs_NewPage|]. fold N.
    eapply runs_bind.
    { apply runs_node_at. simpl. rewrite lookup_insert_ne by lia. done. }
    unfold IsLeafPage. rewrite Hty.
    eapply runs_bind.
    { apply runs_update_node. simpl. apply lookup_insert_eq. }
    eapply runs_bind.
    { apply runs_node_at. simpl. apply lookup_insert_eq. }
    eapply runs_bind.
    { apply runs_lift. unfold internal_MoveHalfTo, KeyAt, entry_at, GetSize. simpl.
      fold a. fold st.
      destruct (Z.ltb_spec (Z.max 1 (Z.of_nat (length a) / 2)) 0) as [Hneg|_]; [lia|].
      rewrite Hs. simpl. rewrite Hdrop. simpl. done. }
    cbv beta iota.
    eapply runs_bind.
    { apply runs_set_node. simpl. rewrite !lookup_insert_ne by lia. by eexists. }
    eapply runs_bind.
    { apply runs_store_node.
      - simpl. rewrite lookup_insert_ne by lia. rewrite lookup_insert_eq. by eexists.
      - apply in_page_internal; [done|]. simpl. unfold rest. rewrite length_drop.
        fold a in Hcap. lia. }
    eapply runs_bind.
    { apply runs_reparent. simpl. intros c Hc.
      assert (c ∈ moved) as Hcm by done.
      destruct (Hchild c (Hmoved_a c Hcm)) as (_ & _ & Hcdom & HcP & HcN).
      by rewrite !lookup_insert_ne by done. }
    apply runs_ret_eq. unfold with_nodes. cbn [v_root v_leaf_max v_internal_max v_nodes v_next].
    f_equal. unfold nodes'.
    change (array_ (set_array (invalidate_first_key ((s, c0) :: rest))
              (internal_Init N (parent_page_id_ pn) (v_internal_max v) zero_node))).*2
      with moved.
    f_equal.
    apply map_eq. intros p. unfold pn', nn, set_array, internal_Init. simpl.
    destruct (decide (p = N)) as [->|]; [by rewrite !lookup_insert_eq|].
    rewrite !(lookup_insert_ne _ N) by done.
    destruct (decide (p = P)) as [->|]; [by rewrite !lookup_insert_eq|].
    by rewrite !lookup_insert_ne by done.
  - assert (∀ p, p ≠ P → p ≠ N →
      <[N:=(Some s, phi, S h)]> (<[P:=(plo, Some s, S h)]> G) !! p = G !! p) as HG'.
    { intros p ??. by rewrite !lookup_insert_ne. }
    assert (∀ p l r, <[N:=(Some s, phi, S h)]> (<[P:=(plo, Some s, S h)]> G) !! p
                     = Some (l, r, O) → p ≠ P ∧ p ≠ N ∧ G !! p = Some (l, r, O)) as Hleaf.
    { intros p l r Hp.
      destruct (decide (p = N)) as [->|HpN]; [by rewrite lookup_insert_eq in Hp|].
      rewrite lookup_insert_ne in Hp by done.
      destruct (decide (p = P)) as [->|HpP]; [by rewrite lookup_insert_eq in Hp|].
      by rewrite lookup_insert_ne in Hp. }
    assert (child_bounds plo phi a =
            child_bounds plo (Some s) (take st a) ++ child_bounds (Some s) phi (drop st a))
      as Hcb.
    { rewrite <- Hsplit at 1. rewrite child_bounds_app.
      - by rewrite Hdrop.
      - intros Htake. apply (f_equal length) in Htake. rewrite length_take in Htake.
        simpl in Htake. lia. }
    rewrite Hcb in Hall. apply Forall_app in Hall as [Hall1 Hall2].
    apply (split_pending v _ G M H P N s plo phi (S h) pn pn' nn moved); simpl; try done.
    + by apply shape_inv_weaken.
    + intros _ Hin. by destruct (Hchild P Hin) as (_ & _ & _ & ? & _).
    + intros p n HpP Hn. eexists. split; [by apply Hother|].
      case_decide; [|done]. by repeat split.
    + intros p Hp. destruct (decide (p = N)) as [->|HpN]; [by left|]. right.
      destruct (decide (p = P)) as [->|HpP]; [by eexists|].
      unfold nodes' in Hp. rewrite reparent_map_lookup, !lookup_insert_ne in Hp by done.
      by apply fmap_is_Some in Hp.
    + intros c Hc. by destruct (Hchild c (Hmoved_a c Hc)) as (_ & ? & _).
    + split; [done|]. split; [done|]. unfold pn'. simpl. split.
      { intros Htake. apply (f_equal length) in Htake. rewrite length_take in Htake.
        simpl in Htake. lia. }
      split; [done|].
      apply Forall_forall. intros cb Hcb'. rewrite Forall_forall in Hall1.
      destruct (Hall1 cb Hcb') as [HGc Hparc].
      apply child_bounds_elem in Hcb'.
      assert (cb.1 ∈ a.*2) as Hca.
      { rewrite <- Hsplit, fmap_app. apply elem_of_app. by left. }
      destruct (Hchild _ Hca) as (_ & _ & [cn Hcn] & HcP & HcN).
      split; [by rewrite HG'|].
      rewrite (Hother _ cn HcP Hcn). rewrite Hcn in Hparc.
      rewrite decide_False; [done|]. rewrite Hmoved_eq. by apply Hdisj.
    + split; [done|]. split; [done|]. split; [done|]. split.
      { fold moved. by rewrite Hmoved_eq. }
      unfold nn. cbn [array_].
      change (child_bounds (Some s) phi ((0, c0) :: rest))
        with (child_bounds (Some s) phi ((s, c0) :: rest)).
      rewrite <- Hdrop.
      apply Forall_forall. intros cb Hcb'. rewrite Forall_forall in Hall2.
      destruct (Hall2 cb Hcb') as [HGc Hparc].
      apply child_bounds_elem in Hcb'.
      assert (cb.1 ∈ moved) as Hcm by (by rewrite Hmoved_eq).
      destruct (Hchild _ (Hmoved_a _ Hcm)) as (_ & _ & [cn Hcn] & HcP & HcN).
      split; [by rewrite HG'|].
      rewrite (Hother _ cn HcP Hcn). by rewrite decide_True.
    + intros c _ Hc. fold a in Hc. rewrite <- Hsplit, fmap_app in Hc.
      apply elem_of_app in Hc as [Hc|Hc]; [by left|right].
      rewrite Hdrop in Hc. exact Hc.
    + intros p l r n k Hp Hn Hr. apply Hleaf in Hp as (HpP & HpN & Hp).
      destruct (sh_nodes _ _ _ _ _ _ _ _ _ Hsh p _ Hp) as (n0 & Hn0 & _); [done|].
      rewrite (Hother p n0 HpP Hn0) in Hn. injection Hn as <-.
      assert (array_ (if decide (p ∈ moved) then SetParentPageId N n0 else n0) = array_ n0)
        as -> by (by case_decide).
      by apply (sh_leaves _ _ _ _ _ _ _ _ _ Hsh p l r).
    + intros p q l r l' r' k Hp Hq. apply Hleaf in Hp as (_ & _ & Hp).
      apply Hleaf in Hq as (_ & _ & Hq).
      by apply (sh_disjoint _ _ _ _ _ _ _ _ _ Hsh).
  - simpl. intros p [n Hn]. destruct (decide (p = P)) as [->|HpP]; [by eexists|].
    rewrite (Hother p n); [by eexists|done..].
  - by eexists.
  - simpl. fold a in Hcap. intros q m Hq Htyq.
    destruct (decide (q = N)) as [->|HqN].
    { rewrite HN' in Hq. injection Hq as <-. unfold nn, rest. simpl.
      rewrite length_drop. lia. }
    destruct (decide (q = P)) as [->|HqP].
    { rewrite HP' in Hq. injection Hq as <-. unfold pn'. simpl.
      rewrite length_take. lia. }
    unfold nodes' in Hq. rewrite reparent_map_lookup, !lookup_insert_ne in Hq by done.
    apply fmap_Some in Hq as (m0 & Hm0 & ->).
    assert (page_type_ m0 = INTERNAL_PAGE) as Hty0 by (by case_decide).
    assert (delete P (v_nodes v) !! q = Some m0) as Hdel by (by rewrite lookup_delete_ne).
    pose proof (Hroomy q m0 Hdel Hty0). by case_decide.
Qed.

Lemma InsertIntoParent_spec M H fuel :
  ∀ v G old s new lo hi h,
    pending v G M H old s new lo hi h → (H - h < fuel)%nat →
    sizes_fit v → roomy (v_nodes v) →
    ∃ v' G' H', runs (InsertIntoParent fuel old s new) v tt v' ∧
      tree_inv v' G' M H' ∧ (H' ≤ S H)%nat ∧
      v_leaf_max v' = v_leaf_max v ∧ v_internal_max v' = v_internal_max v ∧
      (∀ p, is_Some (v_nodes v !! p) → is_Some (v_nodes v' !! p)) ∧
      roomy (v_nodes v').
Proof.
  induction fuel as [|fuel IH]; intros v G old s new lo hi h Hpend Hfuel Hfit Hroomy; [lia|].
  pose proof Hfit as (Hcl & Hci & Hc3).
  destruct Hpend as [Hlm Hold Hnew Hfresh Hcase].
  destruct Hcase as [(Hroot & -> & -> & -> & Hpar & Hsh)
                    |(P & plo & phi & pn & Hpar & HP & Hpn & Hpid & Hpty & Hnd & Hin
                      & Hlinks & Hroot & Hsh)].
  - destruct (InsertIntoParent_root v G M H old s new None fuel)
      as (v' & G' & Hrun & Hinv & Hrest); try done.
    exists v', G', (S H). split; [done|]. split; [done|]. split; [lia|done].
  - assert (new ≠ P) as HnewP by (intros ->; rewrite HP in Hnew; injection Hnew; lia).
    assert (old ≠ P) as HoldP by (intros ->; rewrite HP in Hold; injection Hold; lia).
    destruct (sh_nodes _ _ _ _ _ _ _ _ _ Hsh _ _ Hold) as (on & Hon & Hon_ok); [congruence|].
    destruct (sh_nodes _ _ _ _ _ _ _ _ _ Hsh _ _ Hnew) as (nn & Hnn & Hnn_ok); [congruence|].
    destruct (attach_inv v G M H old s new lo hi h P plo phi pn nn) as [Hinv1 Hlen1];
      try done.
    pose proof (Hroomy P pn Hpn Hpty) as HroomP.
    assert (page_type_ (InsertNodeAfter old s new pn) = INTERNAL_PAGE) as Hpty1.
    { unfold InsertNodeAfter. by destruct (FindValue pn old =? -1). }
    set (pn1 := InsertNodeAfter old s new pn) in *.
    set (v1 := with_nodes v (<[new:=SetParentPageId P nn]> (<[P:=pn1]> (v_nodes v)))) in *.
    assert (v_nodes v1 !! P = Some pn1) as HP1.
    { simpl. rewrite lookup_insert_ne by done. apply lookup_insert_eq. }
    assert (∀ p, is_Some (v_nodes v !! p) → is_Some (v_nodes v1 !! p)) as Hmono1.
    { intros p Hp. simpl. destruct (decide (p = new)) as [->|].
      - rewrite lookup_insert_eq. by eexists.
      - rewrite lookup_insert_ne by done. destruct (decide (p = P)) as [->|].
        + rewrite lookup_insert_eq. by eexists.
        + by rewrite lookup_insert_ne. }
    assert (1 ≤ P) as HP1'.
    { apply (sh_ids _ _ _ _ _ _ _ _ _ Hsh P). by eexists. }
    assert (∃ v' G' H', runs
      (if GetSize pn1 >=? v_internal_max v
       then '(new_parent, split_key) ← Split P;
            InsertIntoParent fuel P split_key new_parent;;
            np ← node_at new_parent;
            UnpinPage (page_id_ np) true;;
            mret tt
       else mret tt) v1 tt v' ∧
      tree_inv v' G' M H' ∧ (H' ≤ S H)%nat ∧
      v_leaf_max v' = v_leaf_max v ∧ v_internal_max v' = v_internal_max v ∧
      (∀ p, is_Some (v_nodes v !! p) → is_Some (v_nodes v' !! p)) ∧
      roomy (v_nodes v'))
      as (v' & G' & H' & Hrun' & Hinv' & HH' & Hlm' & Him' & Hmono' & Hroomy').
    { destruct (Z.geb_spec (GetSize pn1) (v_internal_max v)) as [Hfull|Hsmall].
      - destruct (Split_internal_spec v1 G M H P plo phi h pn1 Hinv1 HP HP1)
          as (v2 & G2 & s2 & N2 & Hrun2 & Hpend2 & Hlm2 & Him2 & Hmono2 & HN2 & Hroomy2).
        { assert (array_ pn ≠ []) by (intros Heq; rewrite Heq in Hin; by apply elem_of_nil in Hin).
          destruct (array_ pn); [done|]. simpl in Hlen1. rewrite Hlen1. lia. }
        { rewrite Hlen1. lia. }
        { intros q m Hq Htyq. apply lookup_delete_Some in Hq as [HqP Hq].
          simpl in Hq. destruct (decide (q = new)) as [->|Hqn].
          - rewrite lookup_insert_eq in Hq. injection Hq as <-.
            exact (Hroomy new nn Hnn Htyq).
          - rewrite !lookup_insert_ne in Hq by done. exact (Hroomy q m Hq Htyq). }
        pose proof (sh_height _ _ _ _ _ _ _ _ _ Hsh _ _ _ _ HP) as HhH.
        destruct (IH v2 G2 P s2 N2 plo phi (S h) Hpend2)
          as (v3 & G3 & H3 & Hrun3 & Hinv3 & HH3 & Hlm3 & Him3 & Hmono3 & Hroomy3);
          [lia| |done|].
        { unfold sizes_fit. rewrite Hlm2, Him2. exact Hfit. }
        exists v3, G3, H3.
        split; [|split; [done|split; [done|split; [|split; [|split; [|done]]]]]].
        + eapply runs_bind; [exact Hrun2|]. cbv beta iota.
          eapply runs_bind; [exact Hrun3|].
          destruct (Hmono3 N2 HN2) as [np Hnp].
          eapply runs_bind; [by apply runs_node_at|].
          apply runs_UnpinPage, runs_ret.
        + by rewrite Hlm3, Hlm2.
        + by rewrite Him3, Him2.
        + intros p Hp. by apply Hmono3, Hmono2, Hmono1.
      - exists v1, G, H. split; [apply runs_ret|]. split; [done|]. split; [lia|].
        split; [done|]. split; [done|]. split; [done|].
        simpl. repeat apply roomy_insert; [exact Hroomy| |].
        + intros _. unfold GetSize in Hsmall. lia.
        + intros Htyn. exact (Hroomy new nn Hnn Htyn). }
    exists v', G', H'. split; [|done].
    cbn [InsertIntoParent]. apply runs_get_fields. intros t _ _ Him.
    eapply runs_bind; [by apply runs_node_at|].
    eapply runs_bind; [by apply runs_node_at|].
    rewrite Hon in Hpar. injection Hpar as Hpar.
    unfold IsRootPage. rewrite Hpar. unfold INVALID_PAGE_ID.
    destruct (Z.eqb_spec P (-1)); [lia|].
    destruct Hon_ok as [-> _]. destruct Hnn_ok as [-> _].
    eapply runs_bind; [by eapply runs_FetchPage|].
    eapply runs_bind.
    { apply runs_store_update; [done|]. fold pn1.
      apply in_page_internal; [done|]. rewrite Hlen1. lia. }
    eapply runs_bind.
    { apply runs_update_node. simpl. by rewrite lookup_insert_ne. }
    eapply runs_bind.
    { apply runs_node_at. exact HP1. }
    rewrite Him.
    eapply runs_bind; [exact Hrun'|].
    apply runs_UnpinPage, runs_ret.
Qed.

Lemma shape_inv_restore lm (nodes : gmap Z Node) next root G M H X s n ex_att :
  shape_inv lm nodes next root G M H (Some X) ex_att →
  G !! X = Some s → nodes !! X = Some n → node_ok lm G nodes X s n →
  shape_inv lm nodes next root G M H None ex_att.
Proof.
  intros Hsh HX Hn Hok. constructor; try apply Hsh.
  intros p sp Hp _. destruct (decide (p = X)) as [->|HpX].
  - exists n. by simplify_eq.
  - apply (sh_nodes _ _ _ _ _ _ _ _ _ Hsh); congruence.
Qed.

Lemma InsertIntoLeaf_spec v G M H fuel key value :
  tree_inv v G M H → M !! key = None → (H < fuel)%nat →
  sizes_fit v → roomy (v_nodes v) →
  ∃ v' G' H', runs (InsertIntoLeaf fuel key value) v true v' ∧
    tree_inv v' G' (<[key:=value]> M) H' ∧ (H' ≤ S H)%nat ∧
    v_leaf_max v' = v_leaf_max v ∧ v_internal_max v' = v_internal_max v ∧
    roomy (v_nodes v').
Proof.
  intros Hinv Hfree Hfuel Hfit Hroomy. pose proof Hfit as (Hcl & Hci & Hc3).
  destruct (FindLeafPage_spec v G M H fuel key Hinv Hfuel)
    as (L & lo & hi & Hfind & HGL & Hkr).
  destruct Hinv as (Hlm & Hsh & Hroot).
  destruct (sh_nodes _ _ _ _ _ _ _ _ _ Hsh _ _ HGL) as (ln & Hln & HokL); [done|].
  pose proof HokL as (Hid & Hty & Hmax & Hsorted & Hrange & Hsize).
  pose proof (sh_leaves _ _ _ _ _ _ _ _ _ Hsh _ _ _ _ _ HGL Hln Hkr) as Hcontent.
  rewrite Hfree in Hcontent.
  destruct (leaf_Insert_spec ln key value Hsorted (lookup_key_None_inv _ _ Hcontent))
    as (a' & Hins & Hsorted' & Hlen' & Hkeys' & Hlook'); [unfold GetSize; lia|].
  set (ln1 := set_array a' ln) in *.
  set (nodes1 := <[L := ln1]> (v_nodes v)).
  set (v1 := with_nodes v nodes1).
  set (M' := <[key := value]> M).
  assert (∀ c, parent_page_id_ <$> nodes1 !! c = parent_page_id_ <$> v_nodes v !! c) as Hptr.
  { intros c. unfold nodes1. destruct (decide (c = L)) as [->|].
    - by rewrite lookup_insert_eq, Hln.
    - by rewrite lookup_insert_ne. }
  assert (shape_inv (v_leaf_max v) nodes1 (v_next v) (v_root v) G M' H (Some L) None)
    as Hsh1.
  { constructor.
    - intros p sp Hp HpL. assert (p ≠ L) by congruence.
      destruct (sh_nodes _ _ _ _ _ _ _ _ _ Hsh _ _ Hp) as (n & Hn & Hok); [done|].
      exists n. split; [unfold nodes1; by rewrite lookup_insert_ne|].
      eapply keep_node_ok; [exact Hok|done..|]. intros c _ _. by split.
    - intros p Hp. apply (sh_ids _ _ _ _ _ _ _ _ _ Hsh).
      unfold nodes1 in Hp. destruct (decide (p = L)) as [->|]; [by eexists|].
      by rewrite lookup_insert_ne in Hp.
    - apply (sh_height _ _ _ _ _ _ _ _ _ Hsh).
    - intros p Hp _.
      destruct (sh_attached _ _ _ _ _ _ _ _ _ Hsh p Hp)
        as [?|(Q & l & r & hq & qn & HQ & Hqn & Hin)]; [done|by left|].
      right. exists Q, l, r, hq, qn. split; [done|]. split; [|done].
      unfold nodes1. rewrite lookup_insert_ne; [done|]. intros <-. congruence.
    - intros p l r n k Hp Hn Hr. unfold nodes1 in Hn.
      destruct (decide (p = L)) as [->|HpL].
      + rewrite lookup_insert_eq in Hn. injection Hn as <-. simpl.
        rewrite HGL in Hp. injection Hp as <- <-.
        rewrite Hlook'. unfold M'. case_decide as Hk.
        * subst k. by rewrite lookup_insert_eq.
        * rewrite lookup_insert_ne by done.
          by apply (sh_leaves _ _ _ _ _ _ _ _ _ Hsh L lo hi).
      + rewrite lookup_insert_ne in Hn by done. unfold M'.
        rewrite lookup_insert_ne.
        * by apply (sh_leaves _ _ _ _ _ _ _ _ _ Hsh p l r).
        * intros <-. apply HpL.
          by apply (sh_disjoint _ _ _ _ _ _ _ _ _ Hsh p L l r lo hi key).
    - apply (sh_disjoint _ _ _ _ _ _ _ _ _ Hsh). }
  assert (root_ok nodes1 (v_root v) G H) as Hroot1.
  { destruct Hroot as [HGr Hparr]. split; [done|]. by rewrite Hptr. }
  assert (nodes1 !! L = Some ln1) as HL1 by apply lookup_insert_eq.
  assert (roomy nodes1) as Hroomy1.
  { apply roomy_insert; [done|]. unfold ln1. simpl. congruence. }
  assert (∃ v' G' H', runs
    (if GetSize ln1 >=? v_leaf_max v
     then '(new_leaf, split_key) ← Split L;
          InsertIntoParent fuel L split_key new_leaf;;
          nl ← node_at new_leaf;
          UnpinPage (page_id_ nl) true;;
          mret tt
     else mret tt) v1 tt v' ∧
    tree_inv v' G' M' H' ∧ (H' ≤ S H)%nat ∧
    v_leaf_max v' = v_leaf_max v ∧ v_internal_max v' = v_internal_max v ∧
    is_Some (v_nodes v' !! L) ∧ roomy (v_nodes v'))
    as (v' & G' & H' & Hrun' & Hinv' & HH' & Hlm' & Him' & HL' & Hroomy').
  { assert (∀ k, k ∈ a'.*1 → in_range lo hi k) as Hrange'.
    { intros k Hk. apply Hkeys' in Hk as [->|Hk]; [done|].
      rewrite Forall_forall in Hrange. by apply Hrange. }
    destruct (Z.geb_spec (GetSize ln1) (v_leaf_max v)) as [Hfull|Hroom].
    - unfold GetSize in Hfull. simpl in Hfull.
      destruct (Split_leaf_spec v1 G M' H L lo hi ln1)
        as (v2 & G2 & s2 & N2 & Hrun2 & Hpend2 & Hlm2 & Him2 & Hmono2 & HN2 & Hroomy2);
        try done.
      { by apply Forall_forall. }
      { simpl. lia. }
      destruct (InsertIntoParent_spec M' H fuel v2 G2 L s2 N2 lo hi O Hpend2)
        as (v3 & G3 & H3 & Hrun3 & Hinv3 & HH3 & Hlm3 & Him3 & Hmono3 & Hroomy3);
        [lia| |done|].
      { unfold sizes_fit. rewrite Hlm2, Him2. exact Hfit. }
      exists v3, G3, H3.
      split; [|split; [done|split; [done|split; [|split; [|split; [|done]]]]]].
      + eapply runs_bind; [exact Hrun2|]. cbv beta iota.
        eapply runs_bind; [exact Hrun3|].
        destruct (Hmono3 N2 HN2) as [np Hnp].
        eapply runs_bind; [by apply runs_node_at|].
        apply runs_UnpinPage, runs_ret.
      + by rewrite Hlm3, Hlm2.
      + by rewrite Him3, Him2.
      + apply Hmono3, Hmono2. by eexists.
    - exists v1, G, H. split; [apply runs_ret|]. split; [|split; [lia|]].
      + split; [done|]. split; [|done].
        eapply shape_inv_restore; [exact Hsh1|exact HGL|exact HL1|].
        split; [done|]. split; [done|]. split; [done|]. split; [done|].
        split; [by apply Forall_forall|]. unfold GetSize in Hroom. exact Hroom.
      + split; [done|]. split; [done|]. split; [by eexists|done]. }
  exists v', G', H'. split; [|done].
  unfold InsertIntoLeaf. apply runs_get_fields. intros t _ Hl _.
  eapply runs_bind; [exact Hfind|]. cbv beta iota.
  eapply runs_bind; [by apply runs_node_at|].
  assert (find_key ln key = None) as ->.
  { rewrite <- find_key_lookup_key in Hcontent. by destruct (find_key ln key). }
  rewrite Hins.
  eapply runs_bind.
  { apply runs_store_node; [by eexists|].
    apply in_page_leaf; [done|]. simpl. rewrite Hlen'. lia. }
  cbn [negb]. rewrite Hl.
  eapply runs_bind; [exact Hrun'|].
  apply runs_UnpinPage, runs_ret.
Qed.

Lemma Insert_spec v M fuel key value :
  tree_state v M → M !! key = None → (size M ≤ fuel)%nat →
  ∃ v', runs (Insert fuel key value) v true v' ∧ tree_state v' (<[key:=value]> M).
Proof.
  intros (Hfit & Hroomy & [(-> & Hroot & Hlm & Hnext & Hids)|(G & H & Hinv & HH)])
    Hfree Hfuel.
  - destruct (StartNewTree_spec v key value Hroot Hlm Hnext Hids Hfit Hroomy)
      as (v' & G & Hrun & Hinv & Hlm' & Him' & Hroomy').
    exists v'. split.
    + unfold Insert. apply runs_get_fields. intros t Hr _ _.
      unfold IsEmpty. by rewrite Hr, Hroot.
    + split; [unfold sizes_fit; rewrite Hlm', Him'; exact Hfit|]. split; [done|].
      right. exists G, O. rewrite insert_empty. split; [done|].
      rewrite map_size_singleton. lia.
  - destruct (InsertIntoLeaf_spec v G M H fuel key value Hinv Hfree)
      as (v' & G' & H' & Hrun & Hinv' & HH' & Hlm' & Him' & Hroomy'); [lia|done..|].
    exists v'. split.
    + unfold Insert. apply runs_get_fields. intros t Hr _ _.
      pose proof (tree_inv_root _ _ _ _ Hinv).
      unfold IsEmpty. rewrite Hr. unfold INVALID_PAGE_ID.
      by destruct (Z.eqb_spec (v_root v) (-1)); [lia|].
    + split; [unfold sizes_fit; rewrite Hlm', Him'; exact Hfit|]. split; [done|].
      right. exists G', H'. split; [done|]. rewrite map_size_insert_None by done. lia.
Qed.

Lemma GetValue_state v M fuel key :
  tree_state v M → (size M ≤ fuel)%nat → runs (GetValue fuel key) v (M !! key) v.
Proof.
  intros (_ & _ & [(-> & Hroot & _)|(G & H & Hinv & HH)]) Hfuel.
  - unfold GetValue. apply runs_get_fields. intros t Hr _ _.
    unfold IsEmpty. rewrite Hr, Hroot. simpl. rewrite lookup_empty. apply runs_ret.
  - apply (GetValue_spec v G M H); [done|lia].
Qed.

Lemma tree_state_init lm im :
  2 ≤ lm → lm ≤ LEAF_PAGE_SIZE → im ≤ INTERNAL_PAGE_SIZE → 3 ≤ INTERNAL_PAGE_SIZE →
  tree_state (view (init lm im)) ∅.
Proof.
  intros Hlm Hcl Hci Hc3. split; [done|]. split.
  - intros p n Hp. cbn in Hp. by rewrite fmap_empty, lookup_empty in Hp.
  - left. split; [done|]. split; [done|]. split; [done|]. split; [done|].
    intros p [n Hp]. cbn in Hp. by rewrite fmap_empty, lookup_empty in Hp.
Qed.

Lemma insert_keys_spec fuel kvs :
  ∀ v M, tree_state v M → NoDup kvs.*1 → (∀ k, k ∈ kvs.*1 → M !! k = None) →
    (size M + length kvs ≤ fuel)%nat →
    ∃ v', runs (insert_keys fuel kvs) v tt v' ∧
      tree_state v' (list_to_map kvs ∪ M) ∧
      size (list_to_map kvs ∪ M : gmap Z Z) = (size M + length kvs)%nat.
Proof.
  induction kvs as [|[k x] kvs IH]; intros v M Hstate Hnd Hfree Hfuel.
  - exists v. simpl. rewrite (left_id_L ∅ (∪)). split; [apply runs_ret|]. split; [done|lia].
  - csimpl in *. apply NoDup_cons in Hnd as [Hk Hnd].
    destruct (Insert_spec v M fuel k x Hstate) as (v1 & Hrun1 & Hstate1).
    { apply Hfree. left. }
    { lia. }
    assert (M !! k = None) as HMk by (apply Hfree; left).
    destruct (IH v1 (<[k:=x]> M) Hstate1 Hnd) as (v' & Hrun' & Hstate' & Hsize').
    { intros k' Hk'. rewrite lookup_insert_ne by (intros ->; done).
      apply Hfree. by right. }
    { rewrite map_size_insert_None by done. lia. }
    assert (<[k:=x]> (list_to_map kvs) ∪ M = list_to_map kvs ∪ <[k:=x]> M
            :> gmap Z Z) as Heq.
    { rewrite <- insert_union_l. rewrite insert_union_r; [done|].
      by apply not_elem_of_list_to_map_1. }
    exists v'. rewrite Heq. split; [|split; [done|]].
    + eapply runs_bind; [exact Hrun1|]. exact Hrun'.
    + rewrite Hsize', map_size_insert_None by done. lia.
Qed.

End bpt_insert.

Section bpt_round_trip.
Import BPT.
Context {layout : PageLayout}.


End bpt_round_trip.

Section bpt_round_trip_witness.
Import BPT.
#[local] Existing Instance scenario_layout.



(** A tree configured with a [leaf_max_size] of 6 on pages with room for
    four pairs: the root leaf takes the keys 1..4, and the fifth is stored
    behind the page. *)
Lemma insert_overflows_small_page :
  fst <$> insert_keys (layout := small_layout) 64 ((λ k, (k, k)) <$> seqZ 1 4) (init 6 3)
  = Done tt ∧
  insert_keys (layout := small_layout) 64 ((λ k, (k, k)) <$> seqZ 1 5) (init 6 3)
  = Fault.
Proof. split; vm_compute; reflexivity. Qed.

End bpt_round_trip_witness.

(* ===================================================================== *)
(** * Further properties of the LRU-K replacer *)
(* ===================================================================== *)

Section lruk_more.
Import LRUK.

(** X1: in every reachable state [Size] is the number of frames whose
    record is marked evictable, and it never exceeds the number of frame
    ids [RecordAccess] accepts. *)
Theorem Size_counts_evictable_frames r :
  reachable r →
  Size r = Z.of_nat (size (evictable_frames r)) ∧
  0 ≤ Size r ≤ replacer_size_ r + 1.
Proof.
  intros Hr. pose proof (reachable_wf r Hr) as Hwf.
  unfold Size. rewrite (wf_curr_size r Hwf). split; [done|].
  pose proof (evictable_frames_size_le r).
  pose proof (gmap_Z_size_bounded (frame_table_ r) (replacer_size_ r)) as Hb.
  pose proof (wf_size_bound r Hwf).
  assert (Z.of_nat (size (frame_table_ r)) ≤ replacer_size_ r + 1); [|lia].
  apply Hb; [lia|]. intros k [x Hx]. by apply (wf_frames r Hwf) in Hx as [? _].
Qed.

Lemma Size_counts_evictable_frames_witness :
  let r := scenarioA [1;2;3] in
  reachable r ∧ Size r = Z.of_nat (size (evictable_frames r)) ∧
  0 ≤ Size r ≤ replacer_size_ r + 1.
Proof.
  split; [apply scenarioA_reachable|].
  apply (Size_counts_evictable_frames (scenarioA [1;2;3])), scenarioA_reachable.
Defined.

(** The histories of a reachable replacer: at most K timestamps each,
    oldest first. *)
Lemma reachable_history r :
  reachable r →
  ∀ f fi, frame_table_ r !! f = Some fi →
    Z.of_nat (length (history_ fi)) ≤ k_ r ∧ StronglySorted Z.lt (history_ fi).
Proof.
  induction 1 as [n k Hn Hk|r f Hr IH Hf Hts|r f b Hr IH|r f Hr IH|r Hr IH];
    intros g gi Hg.
  - simpl in Hg. by rewrite lookup_empty in Hg.
  - pose proof (reachable_wf r Hr) as Hwf. unfold RecordAccess in Hg |- *.
    destruct (wrap_size_t f >? replacer_size_ r); [by apply (IH g)|].
    simpl in *. destruct (decide (g = f)) as [->|Hne].
    + rewrite lookup_insert_eq in Hg. injection Hg as <-. simpl.
      assert (Z.of_nat (length (history_ (default FrameInfo_default (frame_table_ r !! f))))
                ≤ k_ r ∧
              StronglySorted Z.lt (history_ (default FrameInfo_default (frame_table_ r !! f)))
              ∧ Forall (λ t, t ≤ current_timestamp_ r)
                  (history_ (default FrameInfo_default (frame_table_ r !! f))))
        as (Hlen & Hs & Hle).
      { destruct (frame_table_ r !! f) as [fi|] eqn:Hfi; simpl.
        - destruct (IH f fi Hfi) as [? ?]. split; [done|]. split; [done|].
          destruct (wf_frames r Hwf f fi Hfi) as (_ & _ & Hall).
          eapply Forall_impl; [exact Hall|]. simpl. lia.
        - pose proof (wf_k r Hwf). split; [lia|]. split; constructor. }
      set (h := history_ (default FrameInfo_default (frame_table_ r !! f))) in *.
      pose proof (wf_ts r Hwf) as Hct. unfold SIZE_MAX in *.
      assert (StronglySorted Z.lt (h ++ [wrap_size_t (current_timestamp_ r + 1)])) as Hs'.
      { apply StronglySorted_app. split; [|split; [done|repeat constructor]].
        intros x1 x2 Hx1 Hx2. apply list_elem_of_singleton in Hx2 as ->.
        rewrite Forall_forall in Hle. apply Hle in Hx1.
        rewrite wrap_size_t_small by lia. lia. }
      destruct (Z.gtb_spec (Z.of_nat (length (h ++ [wrap_size_t (current_timestamp_ r + 1)])))
                  (k_ r)) as [Hgt|Hle'].
      * rewrite length_app in Hgt. simpl in Hgt.
        destruct h as [|x h]; simpl in *; [split; [lia|constructor]|].
        rewrite length_app. simpl. split; [lia|].
        by apply StronglySorted_cons in Hs' as [_ ?].
      * done.
    + rewrite lookup_insert_ne in Hg by done. by apply (IH g).
  - unfold SetEvictable in Hg |- *. destruct (frame_table_ r !! f) as [fi|] eqn:Hfi;
      [|by apply (IH g)].
    simpl in *. destruct (decide (g = f)) as [->|Hne].
    + rewrite lookup_insert_eq in Hg. injection Hg as <-. simpl. by apply (IH f).
    + rewrite lookup_insert_ne in Hg by done. by apply (IH g).
  - unfold Remove in Hg |- *. destruct (frame_table_ r !! f) as [fi|] eqn:Hfi;
      [|by apply (IH g)].
    destruct (is_evictable_ fi); simpl in *; [|by apply (IH g)].
    apply lookup_delete_Some in Hg as [_ Hg]. by apply (IH g).
  - pose proof (reachable_wf r Hr) as Hwf.
    destruct (Evict_cases r Hwf) as [[Heq _]|(c & fi & Heq & _)];
      rewrite Heq in Hg |- *; simpl in Hg |- *; [by apply (IH g)|].
    apply lookup_delete_Some in Hg as [_ Hg]. by apply (IH g).
Qed.

(** X2: [RecordAccess] keeps the K most recent timestamps of a frame.  In
    every reachable state the record of a frame holds between one and K
    timestamps, oldest first and strictly increasing, none later than the
    current timestamp.  An accepted [RecordAccess] puts the new time behind
    the history of the frame (the empty one if the frame has no record) and
    retains the last K entries of the result, all of them if there are
    fewer: the oldest timestamp is dropped exactly when the record held K
    already.  The records of the other frames stay as they were. *)
Theorem history_keeps_at_most_K r :
  reachable r →
  (∀ f fi, frame_table_ r !! f = Some fi →
     1 ≤ Z.of_nat (length (history_ fi)) ≤ k_ r ∧
     StronglySorted Z.lt (history_ fi) ∧
     Forall (λ t, 1 ≤ t ≤ current_timestamp_ r) (history_ fi)) ∧
  (∀ f, is_int32 f → 0 ≤ f ≤ replacer_size_ r →
     current_timestamp_ r + 1 < SIZE_MAX →
     let h := from_option history_ [] (frame_table_ r !! f)
              ++ [current_timestamp_ r + 1] in
     history_ <$> frame_table_ (RecordAccess r f) !! f
       = Some (drop (length h - Z.to_nat (k_ r)) h) ∧
     (Z.of_nat (length h) ≤ k_ r ∨
      tl h = drop (length h - Z.to_nat (k_ r)) h ∧
      Z.of_nat (length h) = k_ r + 1) ∧
     ∀ g, g ≠ f →
       frame_table_ (RecordAccess r f) !! g = frame_table_ r !! g).
Proof.
  intros Hr. pose proof (reachable_wf r Hr) as Hwf. split.
  - intros f fi Hf.
    destruct (reachable_history r Hr f fi Hf) as [Hlen Hs].
    destruct (wf_frames r Hwf f fi Hf) as (_ & Hne & Hall).
    split; [|done]. split; [|done]. destruct (history_ fi); [done|simpl; lia].
  - intros f Hf Hin Hts h.
    assert (history_ (default FrameInfo_default (frame_table_ r !! f))
            = from_option history_ [] (frame_table_ r !! f)) as Hh
      by (by destruct (frame_table_ r !! f)).
    assert (Z.of_nat (length h) ≤ k_ r + 1) as Hlen.
    { unfold h. rewrite length_app. simpl.
      destruct (frame_table_ r !! f) as [fi|] eqn:Hfi; simpl.
      - destruct (reachable_history r Hr f fi Hfi) as [? _]. lia.
      - pose proof (wf_k r Hwf). lia. }
    pose proof (wf_k r Hwf) as Hk. pose proof (wf_ts r Hwf) as Hct.
    unfold SIZE_MAX in *.
    unfold RecordAccess.
    destruct (Z.gtb_spec (wrap_size_t f) (replacer_size_ r)) as [Hgt|_].
    { rewrite wrap_size_t_small in Hgt by (unfold is_int32 in Hf; lia). lia. }
    rewrite wrap_size_t_small by lia. cbn [frame_table_].
    rewrite lookup_insert_eq. cbn [fmap option_fmap option_map history_].
    rewrite Hh. fold h.
    destruct (Z.gtb_spec (Z.of_nat (length h)) (k_ r)) as [Hgt|Hle].
    + replace (length h - Z.to_nat (k_ r))%nat with 1%nat by lia.
      split; [by destruct h|]. split; [right; split; [by destruct h|lia]|].
      intros g Hg. by rewrite lookup_insert_ne.
    + replace (length h - Z.to_nat (k_ r))%nat with 0%nat by lia.
      split; [done|]. split; [by left|].
      intros g Hg. by rewrite lookup_insert_ne.
Qed.

(** In scenario A (K = 2) frame 1 was accessed at times 1 and 7; the access
    at time 13 drops time 1. *)
Lemma history_keeps_at_most_K_witness :
  let r := scenarioA [1;2;3] in
  reachable r ∧
  (∀ f fi, frame_table_ r !! f = Some fi →
     1 ≤ Z.of_nat (length (history_ fi)) ≤ k_ r ∧
     StronglySorted Z.lt (history_ fi) ∧
     Forall (λ t, 1 ≤ t ≤ current_timestamp_ r) (history_ fi)) ∧
  history_ <$> frame_table_ r !! 1 = Some [1; 7] ∧
  history_ <$> frame_table_ (RecordAccess r 1) !! 1 = Some [7; 13].
Proof.
  intros r.
  destruct (history_keeps_at_most_K r (scenarioA_reachable [1;2;3]))
    as [Hall Hstep].
  split; [apply scenarioA_reachable|]. split; [exact Hall|].
  split; [vm_compute; reflexivity|].
  destruct (Hstep 1) as [Hrec _]; [by vm_compute|by vm_compute|by vm_compute|].
  exact Hrec.
Defined.

(** X3: [RecordAccess] ignores exactly the frame ids that are negative or
    greater than the replacer size (the size itself is accepted); an
    accepted access advances the clock by one, makes the new time the last
    entry of the frame's history, and changes neither the evictable flag of
    the frame (false for a new record) nor [Size]. *)
Theorem RecordAccess_accepts_iff r f :
  reachable r → is_int32 f → current_timestamp_ r + 1 < SIZE_MAX →
  (RecordAccess r f = r ↔ f < 0 ∨ replacer_size_ r < f) ∧
  (0 ≤ f ≤ replacer_size_ r →
   current_timestamp_ (RecordAccess r f) = current_timestamp_ r + 1 ∧
   Size (RecordAccess r f) = Size r ∧
   ∃ fi', frame_table_ (RecordAccess r f) !! f = Some fi' ∧
     last (history_ fi') = Some (current_timestamp_ r + 1) ∧
     is_evictable_ fi' = from_option is_evictable_ false (frame_table_ r !! f)).
Proof.
  intros Hr Hf Hts. pose proof (reachable_wf r Hr) as Hwf.
  pose proof (wf_size_bound r Hwf) as Hsz. pose proof (wf_ts r Hwf) as Hct.
  unfold is_int32, SIZE_MAX in *.
  assert ((f < 0 ∧ wrap_size_t f = f + 2 ^ 64) ∨ (0 ≤ f ∧ wrap_size_t f = f)) as Hw.
  { unfold wrap_size_t. destruct (decide (f < 0)); [left|right]; (split; [lia|]).
    - symmetry. apply (Z.mod_unique_pos _ _ (-1)); lia.
    - apply Z.mod_small. lia. }
  unfold RecordAccess.
  destruct (Z.gtb_spec (wrap_size_t f) (replacer_size_ r)) as [Hgt|Hle].
  - split; [|intros ?; lia].
    split; [|done]. intros _. lia.
  - rewrite wrap_size_t_small by lia. split.
    + split; [|intros ?; lia].
      intros Heq. apply (f_equal current_timestamp_) in Heq. simpl in Heq. lia.
    + intros _. simpl. split; [done|]. split; [done|].
      rewrite lookup_insert_eq. eexists. split; [done|]. simpl.
      set (h := history_ (default FrameInfo_default (frame_table_ r !! f))).
      split; [|by destruct (frame_table_ r !! f)].
      destruct (Z.gtb_spec (Z.of_nat (length (h ++ [current_timestamp_ r + 1]))) (k_ r))
        as [Hk|Hk].
      * destruct h as [|x h]; simpl.
        -- pose proof (wf_k r Hwf). simpl in Hk. lia.
        -- apply last_snoc.
      * apply last_snoc.
Qed.

Lemma RecordAccess_accepts_iff_witness :
  let r := scenarioA [1;2;3] in
  reachable r ∧ is_int32 7 ∧ current_timestamp_ r + 1 < SIZE_MAX ∧
  (RecordAccess r 7 = r ↔ 7 < 0 ∨ replacer_size_ r < 7) ∧
  (0 ≤ 7 ≤ replacer_size_ r →
   current_timestamp_ (RecordAccess r 7) = current_timestamp_ r + 1 ∧
   Size (RecordAccess r 7) = Size r ∧
   ∃ fi', frame_table_ (RecordAccess r 7) !! 7 = Some fi' ∧
     last (history_ fi') = Some (current_timestamp_ r + 1) ∧
     is_evictable_ fi' = from_option is_evictable_ false (frame_table_ r !! 7)).
Proof.
  split; [apply scenarioA_reachable|]. split; [by vm_compute|]. split; [by vm_compute|].
  apply (RecordAccess_accepts_iff (scenarioA [1;2;3]) 7);
    [apply scenarioA_reachable|by vm_compute|by vm_compute].
Defined.

(** X4: eviction and removal forget the frame: the record is erased, and
    the next access to the frame starts a history of one timestamp with the
    frame not evictable. *)
Theorem drop_forgets_history r f :
  reachable r → current_timestamp_ r + 1 < SIZE_MAX →
  (∀ r', Evict r = (Some f, r') →
     frame_table_ r' !! f = None ∧
     frame_table_ (RecordAccess r' f) !! f
       = Some (mkFrameInfo [current_timestamp_ r + 1] false)) ∧
  (evictable r f →
     frame_table_ (Remove r f) !! f = None ∧
     Size (Remove r f) = Size r - 1 ∧
     frame_table_ (RecordAccess (Remove r f) f) !! f
       = Some (mkFrameInfo [current_timestamp_ r + 1] false)) ∧
  (¬ evictable r f → Remove r f = r).
Proof.
  intros Hr Hts. pose proof (reachable_wf r Hr) as Hwf.
  pose proof (wf_size_bound r Hwf) as Hsz. pose proof (wf_ts r Hwf) as Hct.
  pose proof (wf_k r Hwf) as Hk. unfold SIZE_MAX in *.
  assert (∀ fi cs, frame_table_ r !! f = Some fi →
    let r' := mkReplacer (delete f (frame_table_ r)) (replacer_size_ r) (k_ r) cs
                         (current_timestamp_ r) in
    frame_table_ r' !! f = None ∧
    frame_table_ (RecordAccess r' f) !! f
      = Some (mkFrameInfo [current_timestamp_ r + 1] false)) as Hdrop.
  { intros fi cs Hfi r'. split; [apply lookup_delete_eq|].
    destruct (wf_frames r Hwf f fi Hfi) as (Hfr & _).
    unfold RecordAccess. simpl. rewrite wrap_size_t_small by lia.
    destruct (Z.gtb_spec f (replacer_size_ r)); [lia|]. simpl.
    rewrite lookup_insert_eq, lookup_delete_eq. simpl.
    rewrite wrap_size_t_small by lia.
    by destruct (Z.gtb_spec (Z.of_nat 1) (k_ r)); [lia|]. }
  split; [|split].
  - intros r' Hev.
    destruct (Evict_cases r Hwf) as [[Heq _]|(c & fi & Heq & Hc & _)];
      rewrite Heq in Hev; [done|].
    injection Hev as <- <-. by apply (Hdrop fi).
  - intros (fi & Hfi & Hev). unfold Remove, Size. rewrite Hfi, Hev. simpl.
    destruct (Hdrop fi (wrap_size_t (curr_size_ r - 1)) Hfi) as [H1 H2].
    split; [done|]. split; [|done].
    rewrite (wf_curr_size r Hwf). pose proof (wf_evictable_size r Hwf).
    assert (evictable_frames r !! f = Some fi) as Hin.
    { by apply map_lookup_filter_Some. }
    assert (size (evictable_frames r) ≠ 0%nat); [|rewrite wrap_size_t_small; lia].
    rewrite map_size_non_empty_iff. intros Heq. rewrite Heq in Hin.
    by rewrite lookup_empty in Hin.
  - intros Hnot. unfold Remove. destruct (frame_table_ r !! f) as [fi|] eqn:Hfi; [|done].
    destruct (is_evictable_ fi) eqn:Hev; [|done]. exfalso. apply Hnot. by exists fi.
Qed.

Lemma drop_forgets_history_witness :
  let r := scenarioA [1;2;3] in
  reachable r ∧ current_timestamp_ r + 1 < SIZE_MAX ∧
  (∀ r', Evict r = (Some 1, r') →
     frame_table_ r' !! 1 = None ∧
     frame_table_ (RecordAccess r' 1) !! 1
       = Some (mkFrameInfo [current_timestamp_ r + 1] false)) ∧
  (evictable r 1 →
     frame_table_ (Remove r 1) !! 1 = None ∧
     Size (Remove r 1) = Size r - 1 ∧
     frame_table_ (RecordAccess (Remove r 1) 1) !! 1
       = Some (mkFrameInfo [current_timestamp_ r + 1] false)) ∧
  (¬ evictable r 1 → Remove r 1 = r).
Proof.
  split; [apply scenarioA_reachable|]. split; [by vm_compute|].
  apply (drop_forgets_history (scenarioA [1;2;3]) 1);
    [apply scenarioA_reachable|by vm_compute].
Defined.

(** X5: [SetEvictable] on a frame without a record does nothing; setting
    the same flag twice is setting it once; and setting a flag and then the
    frame's former flag again restores the replacer, [Size] included (what a
    pin followed by an unpin of a page amounts to). *)
Theorem SetEvictable_round_trip r f b :
  reachable r →
  (frame_table_ r !! f = None → SetEvictable r f b = r) ∧
  SetEvictable (SetEvictable r f b) f b = SetEvictable r f b ∧
  (∀ fi, frame_table_ r !! f = Some fi →
     SetEvictable (SetEvictable r f b) f (is_evictable_ fi) = r).
Proof.
  intros Hr. pose proof (reachable_wf r Hr) as Hwf.
  pose proof (wf_evictable_size r Hwf) as Hbound.
  pose proof (wf_curr_size r Hwf) as Hcs.
  split; [|split].
  - intros Hf. unfold SetEvictable. by rewrite Hf.
  - unfold SetEvictable. destruct (frame_table_ r !! f) as [fi|] eqn:Hfi.
    + simpl. rewrite lookup_insert_eq. simpl. rewrite insert_insert_eq.
      by destruct b; simpl; rewrite ?andb_false_r.
    + by rewrite Hfi.
  - intros fi Hfi. unfold SetEvictable. rewrite Hfi. simpl.
    rewrite lookup_insert_eq. simpl. rewrite insert_insert_eq.
    assert (is_evictable_ fi = true → 1 ≤ curr_size_ r) as Hpos.
    { intros Hev. assert (evictable_frames r !! f = Some fi) as Hin.
      { by apply map_lookup_filter_Some. }
      assert (size (evictable_frames r) ≠ 0%nat); [|lia].
      rewrite map_size_non_empty_iff. intros Heq. rewrite Heq in Hin.
      by rewrite lookup_empty in Hin. }
    destruct r as [tbl sz k cs ts]. simpl in *.
    destruct fi as [h e]. simpl in *.
    rewrite (insert_id tbl f) by done.
    f_equal. destruct e, b; simpl; try done.
    + specialize (Hpos eq_refl).
      rewrite (wrap_size_t_small (cs - 1)) by lia. rewrite wrap_size_t_small; lia.
    + rewrite (wrap_size_t_small (cs + 1)) by lia. rewrite wrap_size_t_small; lia.
Qed.

Lemma SetEvictable_round_trip_witness :
  let r := scenarioA [1;2;3] in
  reachable r ∧
  (frame_table_ r !! 2 = None → SetEvictable r 2 false = r) ∧
  SetEvictable (SetEvictable r 2 false) 2 false = SetEvictable r 2 false ∧
  (∀ fi, frame_table_ r !! 2 = Some fi →
     SetEvictable (SetEvictable r 2 false) 2 (is_evictable_ fi) = r).
Proof.
  split; [apply scenarioA_reachable|].
  apply (SetEvictable_round_trip (scenarioA [1;2;3]) 2 false), scenarioA_reachable.
Defined.

End lruk_more.

(* ===================================================================== *)
(** * Further properties of the extendible hash table *)
(* ===================================================================== *)

Section eht_more.
Import EHT.
Context {K V : Type} `{EqDecision K}.
Variable hash : K → Z.

Local Abbreviation Table := (EHT.ExtendibleHashTable K V).
Implicit Types (l : list (K * V)) (t : Table).

Lemma list_erase_key_find l key :
  NoDup l.*1 →
  match list_erase_key l key with
  | None => list_find_key l key = None
  | Some l' =>
      is_Some (list_find_key l key) ∧ list_find_key l' key = None ∧
      ∀ k', k' ≠ key → list_find_key l' k' = list_find_key l k'
  end.
Proof.
  induction l as [|[k v] l IH]; csimpl; [done|].
  intros Hnd. apply NoDup_cons in Hnd as [Hk Hnd].
  destruct (decide (k = key)) as [->|Hne].
  - split; [by eexists|]. split.
    + by apply list_find_key_None.
    + intros k' Hk'. by rewrite decide_False by done.
  - specialize (IH Hnd). destruct (list_erase_key l key) as [l'|]; simpl.
    + destruct IH as (Hsome & Hnone & Hother). split; [done|].
      rewrite decide_False by done. split; [done|].
      intros k' Hk'. destruct (decide (k = k')); [done|]. by apply Hother.
    + done.
Qed.

(** What [Remove] does to a table that satisfies the invariant. *)
Lemma Remove_spec (ok : K → Prop) t key :
  inv hash ok t → 0 ≤ global_depth_ t ≤ 30 →
  ∃ res t', Remove hash t key = Done (res, t') ∧
    (res = true ↔ ∃ v, Find hash t key = Done (Some v)) ∧
    Find hash t' key = Done None ∧
    (∀ k', k' ≠ key → Find hash t' k' = Find hash t k') ∧
    global_depth_ t' = global_depth_ t ∧ num_buckets_ t' = num_buckets_ t ∧
    dir_ t' = dir_ t.
Proof.
  intros Hinv Hgd.
  pose proof (IndexOf_Some hash t key Hgd) as Hidx.
  destruct (bucket_at_IndexOf hash _ t key _ Hinv Hidx) as (a & b & Hat & Hok).
  apply bucket_at_Some in Hat as Hat'. destruct Hat' as [Hdir Hheap].
  pose proof (list_erase_key_find (list_ b) key (bo_nodup _ _ _ _ _ Hok)) as Herase.
  assert (Find hash t key = Done (list_find_key (list_ b) key)) as HFind.
  { unfold Find. by rewrite Hidx, Hat. }
  rewrite HFind.
  unfold Remove. rewrite Hidx, Hat. unfold Bucket_Remove.
  destruct (list_erase_key (list_ b) key) as [l'|].
  - destruct Herase as ([v Hv] & Hnone & Hother).
    eexists _, _. split; [done|].
    split; [split; [intros _; exists v; by rewrite Hv|done]|].
    assert (∀ k', Find hash (set_heap t (<[a:=mkBucket (size_ b) (depth_ b) l']> (heap_ t))) k'
                  = if decide (k' = key) then Done None else Find hash t k') as Hfind.
    { intros k'. unfold Find. rewrite IndexOf_set_heap.
      destruct (IndexOf hash t k') as [index'|] eqn:Hidx'.
      - rewrite (bucket_at_set_heap t a b) by done.
        destruct (bucket_at t index') as [[a' bj]|] eqn:Hat'.
        + destruct (decide (a' = a)) as [->|Hne].
          * apply bucket_at_Some in Hat' as [_ Hbj]. rewrite Hheap in Hbj.
            injection Hbj as <-. unfold Bucket_Find. simpl. 
            case_decide as Hk; [subst k'; by rewrite Hnone|by rewrite Hother].
          * case_decide as Hk; [|done]. subst k'.
            rewrite Hidx in Hidx'. injection Hidx' as <-. rewrite Hat in Hat'.
            by injection Hat' as -> ->.
        + case_decide as Hk; [|done]. subst k'.
          rewrite Hidx in Hidx'. injection Hidx' as <-. by rewrite Hat in Hat'.
      - case_decide as Hk; [|done]. subst k'. by rewrite Hidx in Hidx'. }
    split; [by rewrite Hfind, decide_True|]. split; [|done].
    intros k' Hk'. by rewrite Hfind, decide_False.
  - eexists _, _. split; [done|]. rewrite Herase.
    split; [split; [done|by intros [v [=]]]|].
    assert (set_heap t (<[a:=b]> (heap_ t)) = t) as ->.
    { destruct t as [gd bs nb dir heap]. unfold set_heap. simpl in *.
      by rewrite list_insert_id. }
    by rewrite HFind, Herase.
Qed.

(** X6: in every reachable table [Remove] completes; it returns true
    exactly when the key was there; afterwards the key is not found, every
    other key is found as before, and depth, bucket count and directory are
    as they were (buckets are never merged). *)
Theorem Remove_then_Find t key :
  reachable hash t →
  ∃ res t', Remove hash t key = Done (res, t') ∧
    (res = true ↔ ∃ v, Find hash t key = Done (Some v)) ∧
    Find hash t' key = Done None ∧
    (∀ k', k' ≠ key → Find hash t' k' = Find hash t k') ∧
    global_depth_ t' = global_depth_ t ∧ num_buckets_ t' = num_buckets_ t ∧
    dir_ t' = dir_ t.
Proof.
  intros Hr. destruct (reachable_inv hash t Hr) as [Hinv Hgd].
  by apply (Remove_spec (λ _, True)).
Qed.

(** X7: in every reachable table the local depth of every slot lies
    between 0 and the global depth, [GetLocalDepth] is 0 for an index
    outside the directory, and the bucket of a slot holds at most
    [bucket_size] pairs, with distinct keys whose hashes agree with the slot
    index on the low local-depth bits. *)
Theorem local_depth_and_bucket_bounds t :
  reachable hash t →
  (∀ i, 0 ≤ GetLocalDepth t i ≤ GetGlobalDepth t) ∧
  (∀ i, i < 0 ∨ 2 ^ GetGlobalDepth t ≤ i → GetLocalDepth t i = 0) ∧
  (∀ i a b, bucket_at t i = Some (a, b) →
     GetLocalDepth t (Z.of_nat i) = depth_ b ∧
     Z.of_nat (length (list_ b)) ≤ bucket_size_ t ∧ NoDup (list_ b).*1 ∧
     ∀ k, k ∈ (list_ b).*1 →
       hash k `mod` 2 ^ depth_ b = Z.of_nat i `mod` 2 ^ depth_ b).
Proof.
  intros Hr. destruct (reachable_inv hash t Hr) as [Hinv Hgd].
  pose proof (inv_dir _ _ _ Hinv) as Hlen. unfold GetGlobalDepth.
  assert (2 ^ global_depth_ t ≤ 2 ^ 30) as Hpow by (apply Z.pow_le_mono_r; lia).
  assert ((Z.of_nat (length (dir_ t)) + 2 ^ 31) `mod` 2 ^ 32 - 2 ^ 31
          = 2 ^ global_depth_ t) as Hcast.
  { rewrite Hlen. rewrite Z.mod_small; lia. }
  assert (∀ i a b, bucket_at t i = Some (a, b) →
            bucket_ok hash (λ _, True) t i b) as Hok.
  { intros i a b Hat. apply bucket_at_Some in Hat as [Hdir Hheap].
    destruct (inv_slots _ _ _ Hinv i a Hdir) as (b0 & Hb0 & Hbok). congruence. }
  unfold GetLocalDepth. rewrite Hcast. split_and!.
  - intros i. destruct ((i <? 0) || (i >=? 2 ^ global_depth_ t)); [lia|].
    destruct (bucket_at t (Z.to_nat i)) as [[a b]|] eqn:Hat; [|lia].
    unfold GetDepth. apply (bo_depth _ _ _ _ _ (Hok _ _ _ Hat)).
  - intros i Hi.
    destruct (Z.ltb_spec i 0); [done|].
    destruct (Z.geb_spec i (2 ^ global_depth_ t)); [done|lia].
  - intros i a b Hat. pose proof (Hok _ _ _ Hat) as [Hd Hs Hl Hn Hk].
    apply bucket_at_Some in Hat as Hat'. destruct Hat' as [Hdir _].
    apply lookup_lt_Some in Hdir.
    destruct (Z.ltb_spec (Z.of_nat i) 0); [lia|].
    destruct (Z.geb_spec (Z.of_nat i) (2 ^ global_depth_ t)); [lia|]. simpl.
    rewrite Nat2Z.id, Hat. split; [done|]. split; [done|]. split; [done|].
    intros k Hin. by apply Hk.
Qed.

End eht_more.

Section eht_count.
Import EHT.
Context {K V : Type} `{EqDecision K}.
Variable hash : K → Z.
Variable ok : K → Prop.

Local Abbreviation Table := (EHT.ExtendibleHashTable K V).
Local Abbreviation Bucket := (EHT.Bucket K V).
Implicit Types (t : Table) (b : Bucket).

(** The invariant together with what the bucket counter needs. *)
Local Abbreviation counted t :=
  (inv hash ok t ∧ dir_complete t ∧
   num_buckets_ t = Z.of_nat (size (buckets_in_use t))).

Lemma lookup_double_mod (dir : list nat) (gd : Z) (j : nat) :
  0 ≤ gd → Z.of_nat (length dir) = 2 ^ gd → (j < length (dir ++ dir))%nat →
  (dir ++ dir) !! j = dir !! Z.to_nat (Z.of_nat j `mod` 2 ^ gd).
Proof.
  intros Hgd Hlen Hj. rewrite length_app in Hj.
  destruct (decide (j < length dir)%nat) as [Hlt|Hge].
  - rewrite lookup_app_l by done. rewrite Z.mod_small by lia. by rewrite Nat2Z.id.
  - rewrite lookup_app_r by lia. f_equal.
    assert (Z.of_nat j `mod` 2 ^ gd = Z.of_nat j - 2 ^ gd) as ->; [|lia].
    symmetry. apply (Z.mod_unique_pos _ _ 1); lia.
Qed.

Lemma counted_init bucket_size : 0 ≤ bucket_size → counted (init bucket_size : Table).
Proof.
  intros Hbs. split; [by apply inv_init|]. split.
  - intros i a b j Hi _ Hj _. simpl in *.
    destruct j as [|j]; [|simpl in Hj; lia]. by destruct i.
  - unfold buckets_in_use, init. cbn [dir_ num_buckets_].
    by rewrite list_to_set_singleton, size_singleton.
Qed.

Lemma counted_set_bucket t a b b' :
  counted t → heap_ t !! a = Some b → depth_ b' = depth_ b →
  inv hash ok (set_heap t (<[a := b']> (heap_ t))) →
  counted (set_heap t (<[a := b']> (heap_ t))).
Proof.
  intros (Hinv & Hc & Hn) Ha Hd Hinv'. split; [done|]. split; [|done].
  intros i x bx j Hi Hx Hj Hm. simpl in *.
  destruct (decide (x = a)) as [->|Hne].
  - rewrite list_lookup_insert_eq in Hx by (by eapply lookup_lt_Some).
    injection Hx as <-. rewrite Hd in Hm. by apply (Hc i a b j).
  - rewrite list_lookup_insert_ne in Hx by done. by apply (Hc i x bx j).
Qed.

Lemma counted_double t : counted t → counted (double t).
Proof.
  intros (Hinv & Hc & Hn). pose proof (inv_depth _ _ _ Hinv) as Hgd.
  pose proof (inv_dir _ _ _ Hinv) as Hlen.
  assert (0 < 2 ^ global_depth_ t) by (apply Z.pow_pos_nonneg; lia).
  split; [by apply inv_double|]. split.
  - intros i a b j Hi Hb Hj Hm. simpl in *.
    destruct (lookup_double _ _ _ _ Hgd Hlen Hi) as (i0 & Hi0 & Hmi).
    destruct (inv_slots _ _ _ Hinv i0 a Hi0) as (b0 & Hb0 & [Hd _ _ _ _]).
    assert (b0 = b) as -> by congruence.
    rewrite (lookup_double_mod _ (global_depth_ t)) by done.
    pose proof (Z.mod_pos_bound (Z.of_nat j) (2 ^ global_depth_ t)).
    apply (Hc i0 a b); [done|done|lia|].
    rewrite Z2Nat.id by lia. rewrite Hmi.
    by rewrite !mod_mod_pow2 by lia.
  - unfold buckets_in_use in *. simpl.
    by rewrite list_to_set_app_L, (idemp_L (∪)).
Qed.

Lemma testbit_low (x d : Z) : 0 ≤ d → Z.testbit (x `mod` 2 ^ d) d = false.
Proof. intros Hd. apply Z.mod_pow2_bits_high. lia. Qed.

Lemma testbit_high (x d : Z) :
  0 ≤ d → 0 ≤ x < 2 ^ d → Z.testbit (x + 2 ^ d) d = true.
Proof.
  intros Hd Hx. apply Z.testbit_true; [done|].
  assert ((x + 2 ^ d) / 2 ^ d = 1) as ->; [|done].
  symmetry. apply (Z.div_unique_pos _ _ _ x); lia.
Qed.

Lemma counted_split_bucket t i a b :
  counted t → dir_ t !! i = Some a → heap_ t !! a = Some b →
  depth_ b < global_depth_ t →
  counted (split_bucket hash t a b).
Proof.
  intros (Hinv & Hc & Hn) Hi Ha Hlt.
  split; [by apply (inv_split_bucket hash ok t i a b)|].
  destruct (inv_slots _ _ _ Hinv i a Hi) as (b0 & Hb0 & Hbok).
  assert (b0 = b) as -> by congruence.
  destruct Hbok as [Hd Hs Hl Hnd Hk].
  pose proof (inv_dir _ _ _ Hinv) as Hlen.
  rewrite split_bucket_eq by done.
  set (ld := depth_ b + 1).
  set (nb0 := mkBucket (bucket_size_ t) ld (low_items hash ld (list_ b))).
  set (nb1 := mkBucket (bucket_size_ t) ld (high_items hash ld (list_ b))).
  assert (∀ j a', dir_ t !! j = Some a' → (a' < length (heap_ t))%nat) as Hbound.
  { intros j a' Hj. destruct (inv_slots _ _ _ Hinv j a' Hj) as (? & ? & _).
    by eapply lookup_lt_Some. }
  assert (∀ x, bit_set x ld = Z.testbit x (depth_ b)) as Hbit.
  { intros x. unfold ld. rewrite bit_set_testbit by lia. f_equal. lia. }
  split.
  - intros j1 x bx j2 Hj1 Hx Hj2 Hm. simpl in *.
    unfold repoint in Hj2. rewrite length_imap in Hj2.
    apply repoint_lookup in Hj1 as (a1 & Hj1 & Hx1).
    apply repoint_lookup.
    destruct (decide (a1 = a)) as [->|Hne].
    + exists a. subst x. rewrite lookup_fresh_bucket in Hx. injection Hx as <-.
      assert (depth_ (if bit_set (Z.of_nat j1) ld then nb1 else nb0) = depth_ b + 1)
        as Hdep by (by destruct (bit_set (Z.of_nat j1) ld)).
      rewrite Hdep in Hm. apply mod_pow2_succ in Hm as [Hm Hb]; [|lia].
      split.
      * by apply (Hc j1 a b j2).
      * rewrite decide_True by done. by rewrite !Hbit, Hb.
    + exists a1. subst x. rewrite lookup_old_bucket in Hx by eauto.
      split; [by apply (Hc j1 a1 bx j2)|]. by rewrite decide_False.
  - simpl. unfold buckets_in_use in *. simpl. rewrite Hn.
    assert (0 < 2 ^ depth_ b) by (apply Z.pow_pos_nonneg; lia).
    assert (2 ^ (depth_ b + 1) ≤ 2 ^ global_depth_ t) as Hpow.
    { apply Z.pow_le_mono_r; lia. }
    rewrite Z.pow_add_r in Hpow by lia. change (2 ^ 1) with 2 in Hpow.
    set (i0 := Z.of_nat i `mod` 2 ^ depth_ b).
    pose proof (Z.mod_pos_bound (Z.of_nat i) (2 ^ depth_ b)) as Hi0. fold i0 in Hi0.
    assert (dir_ t !! Z.to_nat i0 = Some a) as Hslot0.
    { apply (Hc i a b); [done|done|lia|].
      rewrite Z2Nat.id by lia. unfold i0. by rewrite Z.mod_mod by lia. }
    assert (dir_ t !! Z.to_nat (i0 + 2 ^ depth_ b) = Some a) as Hslot1.
    { apply (Hc i a b); [done|done|lia|].
      rewrite Z2Nat.id by lia.
      rewrite <- (Z.mul_1_l (2 ^ depth_ b)) at 1. rewrite Z.mod_add by lia.
      unfold i0. by rewrite Z.mod_mod by lia. }
    assert (list_to_set (repoint ld a (length (heap_ t)) (S (length (heap_ t))) (dir_ t))
            = (list_to_set (dir_ t) ∖ {[a]}) ∪ {[(length (heap_ t)); (S (length (heap_ t)))]} :> gset nat) as ->.
    { apply set_eq. intros x.
      rewrite elem_of_union, elem_of_difference, !elem_of_list_to_set.
      rewrite !list_elem_of_lookup. split.
      - intros [j Hj]. apply repoint_lookup in Hj as (a' & Hj & ->).
        destruct (decide (a' = a)) as [->|Hne].
        + right. destruct (bit_set (Z.of_nat j) ld); set_solver.
        + left. split; [by exists j|set_solver].
      - intros [[[j Hj] Hne]|Hnew].
        + exists j. apply repoint_lookup. exists x. split; [done|].
          rewrite decide_False; [done|set_solver].
        + apply elem_of_union in Hnew as [Hx|Hx]; apply elem_of_singleton in Hx as ->.
          * exists (Z.to_nat i0). apply repoint_lookup. exists a. split; [done|].
            rewrite decide_True by done. rewrite Hbit, Z2Nat.id by lia.
            unfold i0. by rewrite testbit_low by lia.
          * exists (Z.to_nat (i0 + 2 ^ depth_ b)). apply repoint_lookup. exists a.
            split; [done|]. rewrite decide_True by done.
            rewrite Hbit, Z2Nat.id by lia. by rewrite testbit_high by lia. }
    assert (a ∈ (list_to_set (dir_ t) : gset nat)) as Hain.
    { apply elem_of_list_to_set, list_elem_of_lookup. by exists i. }
    assert (∀ x, x ∈ (list_to_set (dir_ t) : gset nat) → (x < (length (heap_ t)))%nat) as Hold.
    { intros x Hx. apply elem_of_list_to_set, list_elem_of_lookup in Hx as [j Hj].
      by eapply Hbound. }
    rewrite size_union.
    + rewrite size_difference by set_solver.
      rewrite size_singleton, size_union, !size_singleton by (set_solver by lia).
      assert (size (list_to_set (dir_ t) : gset nat) ≠ 0%nat); [|lia].
      apply size_non_empty_iff. set_solver.
    + intros x Hx1 Hx2. apply elem_of_difference in Hx1 as [Hx1 _].
      apply Hold in Hx1.       apply elem_of_union in Hx2 as [Hx2|Hx2]; apply elem_of_singleton in Hx2; lia.
Qed.

Lemma counted_split t i a b :
  counted t → dir_ t !! i = Some a → heap_ t !! a = Some b →
  counted (split hash t a b).
Proof.
  intros Hcnt Hi Ha. pose proof Hcnt as (Hinv & _). unfold split, GetDepth.
  destruct (inv_slots _ _ _ Hinv i a Hi) as (b0 & Hb0 & Hbok).
  assert (b0 = b) as -> by congruence.
  pose proof (bo_depth _ _ _ _ _ Hbok) as Hd.
  destruct (Z.eqb_spec (depth_ b) (global_depth_ t)) as [Heq|Hne].
  - apply (counted_split_bucket (double t) i a b); simpl.
    + by apply counted_double.
    + rewrite lookup_app_l; [done|by eapply lookup_lt_Some].
    + done.
    + lia.
  - apply (counted_split_bucket t i a b); try done. lia.
Qed.

Lemma counted_Insert fuel t key value t' :
  counted t → ok key → Insert hash fuel t key value = Done t' → counted t'.
Proof.
  revert t. induction fuel as [|fuel IH]; intros t Hcnt Hok; [done|].
  pose proof Hcnt as (Hinv & _).
  rewrite Insert_S.
  destruct (IndexOf hash t key) as [index|] eqn:Hidx; [|done].
  destruct (bucket_at t index) as [[a b]|] eqn:Hat; [|done].
  apply bucket_at_Some in Hat as Hat'. destruct Hat' as [Hdir Hheap].
  destruct (Bucket_Insert b key value) as [[|] b'] eqn:Hins.
  - intros [= <-]. apply (counted_set_bucket t a b b'); [done|done| |].
    + destruct (Bucket_Insert_cases b key value)
        as [(l' & v0 & _ & _ & Heq)|[(_ & _ & Heq)|(_ & _ & Heq)]];
        rewrite Heq in Hins; [by injection Hins as <-..|done].
    + by apply (inv_Insert_step hash ok t key value index a b b').
  - apply IH; [|done]. by apply (counted_split t index a b).
Qed.

Lemma counted_Remove t key res t' :
  counted t → Remove hash t key = Done (res, t') → counted t'.
Proof.
  intros Hcnt Hrem. pose proof Hcnt as (Hinv & _).
  destruct (Remove_inv hash ok t key res t' Hinv Hrem) as [Hinv' _].
  unfold Remove in Hrem.
  destruct (IndexOf hash t key) as [index|] eqn:Hidx; [|done].
  destruct (bucket_at t index) as [[a b]|] eqn:Hat; [|done].
  apply bucket_at_Some in Hat as [Hdir Hheap].
  destruct (Bucket_Remove b key) as [r b'] eqn:Hbr. injection Hrem as <- <-.
  apply (counted_set_bucket t a b b'); [done|done| |done].
  unfold Bucket_Remove in Hbr.
  destruct (list_erase_key (list_ b) key); by injection Hbr as <- <-.
Qed.

End eht_count.

Section eht_count_claims.
Import EHT.
Context {K V : Type} `{EqDecision K}.
Variable hash : K → Z.

(** X8: in every reachable table [GetNumBuckets] is the number of distinct
    buckets the directory points to, and it is at most the number of
    directory slots, 2^global_depth. *)
Theorem num_buckets_counts_buckets (t : EHT.ExtendibleHashTable K V) :
  reachable hash t →
  GetNumBuckets t = Z.of_nat (size (buckets_in_use t)) ∧
  1 ≤ GetNumBuckets t ≤ 2 ^ GetGlobalDepth t.
Proof.
  intros Hr.
  assert (inv hash (λ _, True) t ∧ dir_complete t ∧
          num_buckets_ t = Z.of_nat (size (buckets_in_use t))) as (Hinv & _ & Hn).
  { induction Hr as [bs Hbs|fuel t key value t' _ IH Hins|t key res t' _ IH Hrem].
    - by apply counted_init.
    - by apply (counted_Insert hash (λ _, True) fuel t key value).
    - by apply (counted_Remove hash (λ _, True) t key res). }
  unfold GetNumBuckets, GetGlobalDepth. split; [done|]. rewrite Hn.
  pose proof (inv_dir _ _ _ Hinv) as Hlen. rewrite <- Hlen.
  unfold buckets_in_use.
  assert (size (list_to_set (dir_ t) : gset nat) ≤ length (dir_ t))%nat as Hle.
  { generalize (dir_ t). intros l. induction l as [|x l IH].
    - rewrite list_to_set_nil, size_empty. simpl. lia.
    - rewrite list_to_set_cons.
      pose proof (size_union_alt ({[x]} : gset nat) (list_to_set l)) as Hu.
      rewrite size_singleton in Hu.
      assert (size (list_to_set l ∖ {[x]} : gset nat) ≤ size (list_to_set l : gset nat))%nat
        by (apply subseteq_size; set_solver).
      simpl length. lia. }
  assert (size (list_to_set (dir_ t) : gset nat) ≠ 0%nat) as Hne.
  { apply size_non_empty_iff. intros Heq.
    pose proof (inv_depth _ _ _ Hinv).
    assert (0 < 2 ^ global_depth_ t) by (apply Z.pow_pos_nonneg; lia).
    destruct (dir_ t) as [|x l] eqn:Hd; [simpl in Hlen; lia|].
    rewrite list_to_set_cons in Heq. set_solver. }
  lia.
Qed.

End eht_count_claims.

Section eht_more_witness.
Import EHT.

Lemma Remove_then_Find_witness :
  let t := scenarioD_table in
  reachable wrap_size_t t ∧
  ∃ res t', Remove wrap_size_t t 5 = Done (res, t') ∧
    (res = true ↔ ∃ v, Find wrap_size_t t 5 = Done (Some v)) ∧
    Find wrap_size_t t' 5 = Done None ∧
    (∀ k', k' ≠ 5 → Find wrap_size_t t' k' = Find wrap_size_t t k') ∧
    global_depth_ t' = global_depth_ t ∧ num_buckets_ t' = num_buckets_ t ∧
    dir_ t' = dir_ t.
Proof.
  split; [apply scenarioD_table_reachable|].
  apply (Remove_then_Find wrap_size_t scenarioD_table 5).
  apply scenarioD_table_reachable.
Defined.

Lemma local_depth_and_bucket_bounds_witness :
  let t := scenarioD_table in
  reachable wrap_size_t t ∧
  (∀ i, 0 ≤ GetLocalDepth t i ≤ GetGlobalDepth t) ∧
  (∀ i, i < 0 ∨ 2 ^ GetGlobalDepth t ≤ i → GetLocalDepth t i = 0) ∧
  (∀ i a b, bucket_at t i = Some (a, b) →
     GetLocalDepth t (Z.of_nat i) = depth_ b ∧
     Z.of_nat (length (list_ b)) ≤ bucket_size_ t ∧ NoDup (list_ b).*1 ∧
     ∀ k, k ∈ (list_ b).*1 →
       wrap_size_t k `mod` 2 ^ depth_ b = Z.of_nat i `mod` 2 ^ depth_ b).
Proof.
  split; [apply scenarioD_table_reachable|].
  apply (local_depth_and_bucket_bounds wrap_size_t scenarioD_table).
  apply scenarioD_table_reachable.
Defined.

Lemma num_buckets_counts_buckets_witness :
  let t := scenarioD_table in
  reachable wrap_size_t t ∧
  GetNumBuckets t = Z.of_nat (size (buckets_in_use t)) ∧
  1 ≤ GetNumBuckets t ≤ 2 ^ GetGlobalDepth t.
Proof.
  split; [apply scenarioD_table_reachable|].
  apply (num_buckets_counts_buckets wrap_size_t scenarioD_table).
  apply scenarioD_table_reachable.
Defined.

End eht_more_witness.

(* ===================================================================== *)
(** * Further properties of the buffer pool manager *)
(* ===================================================================== *)

Section bpm_pool.
Import BPM.

Implicit Types (bpm : BufferPoolManagerInstance) (pg : Page) (f g : Z).

(** ** Frames *)

Lemma page_at_Done bpm f pg :
  page_at bpm f = Done pg ↔ 0 ≤ f ∧ pages_ bpm !! Z.to_nat f = Some pg.
Proof.
  unfold page_at. destruct (Z.ltb_spec f 0).
  - split; [done|lia].
  - destruct (pages_ bpm !! Z.to_nat f) as [pg'|]; split;
      try done; try naive_solver.
Qed.

Lemma page_at_range bpm f :
  (∃ pg, page_at bpm f = Done pg) ↔ 0 ≤ f < Z.of_nat (length (pages_ bpm)).
Proof.
  split.
  - intros [pg Hpg]. apply page_at_Done in Hpg as [Hf Hpg].
    apply lookup_lt_Some in Hpg. lia.
  - intros Hf. destruct (lookup_lt_is_Some_2 (pages_ bpm) (Z.to_nat f)) as [pg Hpg];
      [lia|]. exists pg. apply page_at_Done. split; [lia|done].
Qed.

Lemma page_at_pages bpm bpm' f :
  pages_ bpm' = pages_ bpm → page_at bpm' f = page_at bpm f.
Proof. unfold page_at. by intros ->. Qed.

Lemma page_at_insert_ne bpm bpm' f g pg :
  pages_ bpm' = <[Z.to_nat f := pg]> (pages_ bpm) → 0 ≤ f → g ≠ f →
  page_at bpm' g = page_at bpm g.
Proof.
  intros Hp Hf Hne. unfold page_at. rewrite Hp.
  destruct (Z.ltb_spec g 0); [done|].
  rewrite list_lookup_insert_ne; [done|lia].
Qed.

Lemma page_at_insert_eq bpm bpm' f old pg :
  pages_ bpm' = <[Z.to_nat f := pg]> (pages_ bpm) →
  page_at bpm f = Done old → page_at bpm' f = Done pg.
Proof.
  intros Hp Hold. apply page_at_Done in Hold as [Hf Hold].
  apply page_at_Done. split; [done|]. rewrite Hp.
  rewrite list_lookup_insert_eq; [done|by eapply lookup_lt_Some].
Qed.

(** ** The replacer, as the pool uses it *)

(** [RecordAccess] followed by [SetEvictable(false)]: the frame is tracked
    and not evictable; no other frame is touched. *)
Lemma track_frame r f :
  LRUK.wf r → 0 ≤ f ≤ LRUK.replacer_size_ r → f < 2 ^ 31 →
  LRUK.current_timestamp_ r + 1 < SIZE_MAX →
  let r' := LRUK.SetEvictable (LRUK.RecordAccess r f) f false in
  LRUK.wf r' ∧ LRUK.replacer_size_ r' = LRUK.replacer_size_ r ∧
  (∃ fi, LRUK.frame_table_ r' !! f = Some fi ∧ LRUK.is_evictable_ fi = false) ∧
  (∀ g, g ≠ f → LRUK.frame_table_ r' !! g = LRUK.frame_table_ r !! g).
Proof.
  intros Hwf Hf Hf31 Hts r'.
  pose proof (LRUK.wf_size_bound r Hwf) as Hsz.
  assert (LRUK.wf r') as Hwf'.
  { apply wf_SetEvictable, wf_RecordAccess; [done| |done].
    unfold LRUK.is_int32. lia. }
  split; [done|]. unfold r', LRUK.RecordAccess.
  rewrite wrap_size_t_small by lia.
  destruct (Z.gtb_spec f (LRUK.replacer_size_ r)); [lia|].
  unfold LRUK.SetEvictable. cbn [LRUK.frame_table_].
  rewrite lookup_insert_eq. cbn.
  split; [done|]. split.
  - eexists. by rewrite lookup_insert_eq.
  - intros g Hg. by rewrite !lookup_insert_ne.
Qed.

(** [SetEvictable] on a tracked frame. *)
Lemma SetEvictable_tracked r f fi b :
  LRUK.wf r → LRUK.frame_table_ r !! f = Some fi →
  let r' := LRUK.SetEvictable r f b in
  LRUK.wf r' ∧ LRUK.replacer_size_ r' = LRUK.replacer_size_ r ∧
  LRUK.current_timestamp_ r' = LRUK.current_timestamp_ r ∧
  LRUK.frame_table_ r' !! f = Some (LRUK.mkFrameInfo (LRUK.history_ fi) b) ∧
  (∀ g, g ≠ f → LRUK.frame_table_ r' !! g = LRUK.frame_table_ r !! g).
Proof.
  intros Hwf Hfi r'. split; [by apply wf_SetEvictable|].
  unfold r', LRUK.SetEvictable. rewrite Hfi. cbn.
  split; [done|]. split; [done|]. split.
  - by rewrite lookup_insert_eq.
  - intros g Hg. by rewrite lookup_insert_ne.
Qed.

(** [Remove] on a tracked, evictable frame. *)
Lemma Remove_tracked r f fi :
  LRUK.wf r → LRUK.frame_table_ r !! f = Some fi → LRUK.is_evictable_ fi = true →
  let r' := LRUK.Remove r f in
  LRUK.wf r' ∧ LRUK.replacer_size_ r' = LRUK.replacer_size_ r ∧
  LRUK.current_timestamp_ r' = LRUK.current_timestamp_ r ∧
  LRUK.frame_table_ r' = delete f (LRUK.frame_table_ r).
Proof.
  intros Hwf Hfi Hev r'. split; [by apply wf_Remove|].
  unfold r', LRUK.Remove. rewrite Hfi, Hev. by cbn.
Qed.

(** ** The page table, as the pool uses it *)

Lemma Find_Done (pt : EHT.ExtendibleHashTable Z Z) page_id :
  EHT.reachable hash_page_id pt → ∃ r, EHT.Find hash_page_id pt page_id = Done r.
Proof.
  intros Hr. destruct (reachable_inv hash_page_id pt Hr) as [Hinv Hgd].
  pose proof (IndexOf_Some hash_page_id pt page_id Hgd) as Hidx.
  destruct (bucket_at_IndexOf hash_page_id _ pt page_id _ Hinv Hidx) as (a & b & Hat & _).
  unfold EHT.Find. rewrite Hidx, Hat. by eexists.
Qed.

Lemma pool_inv_init pool_size replacer_k bucket_size :
  0 ≤ pool_size < 2 ^ 31 → 1 ≤ replacer_k → 0 ≤ bucket_size →
  pool_inv None (init pool_size replacer_k bucket_size).
Proof.
  intros Hps Hk Hbs.
  assert (∀ f pg, page_at (init pool_size replacer_k bucket_size) f = Done pg →
            0 ≤ f < pool_size ∧ pg = Page_default) as Hpage.
  { intros f pg Hpg. apply page_at_Done in Hpg as [Hf Hpg]. cbn in Hpg.
    apply lookup_replicate in Hpg as [-> Hlt]. split; [lia|done]. }
  constructor; cbn [init pool_size_ pages_ page_table_ replacer_ free_list_ next_page_id_].
  - done.
  - rewrite length_replicate. lia.
  - by apply EHT.reach_init.
  - apply wf_init; lia.
  - done.
  - lia.
  - apply NoDup_seqZ.
  - intros f pg Hpg. apply Hpage in Hpg as [Hf ->]. rewrite decide_False by done.
    left. constructor; cbn; [apply elem_of_seqZ; lia|done|done].
  - intros page_id f Hres. unfold resident in Hres. cbn [page_table_ init] in Hres.
    by rewrite Find_init in Hres.
  - intros f Hf. apply elem_of_seqZ in Hf. apply page_at_range. cbn.
    rewrite length_replicate. lia.
  - intros f fi Hfi. cbn in Hfi. by rewrite lookup_empty in Hfi.
Qed.

(** ** Keeping the invariant *)

Lemma frame_free_ext bpm bpm' g pg :
  frame_free bpm g pg →
  (g ∈ free_list_ bpm → g ∈ free_list_ bpm') →
  LRUK.frame_table_ (replacer_ bpm') !! g = LRUK.frame_table_ (replacer_ bpm) !! g →
  frame_free bpm' g pg.
Proof.
  intros [Hl Hp Hu] Hfl Hft. constructor; [by apply Hfl|done|by rewrite Hft].
Qed.

Lemma frame_used_ext bpm bpm' g pg :
  frame_used bpm g pg →
  (g ∈ free_list_ bpm' → g ∈ free_list_ bpm) →
  LRUK.frame_table_ (replacer_ bpm') !! g = LRUK.frame_table_ (replacer_ bpm) !! g →
  next_page_id_ bpm ≤ next_page_id_ bpm' →
  resident bpm' (page_id_ pg) g →
  frame_used bpm' g pg.
Proof.
  intros [Hl Hid Hr Hp Ht] Hfl Hft Hn Hres.
  constructor; [naive_solver|lia|done|done|by rewrite Hft].
Qed.

(** A resident page sits in a used frame. *)
Lemma resident_used d bpm page_id f :
  pool_inv d bpm → resident bpm page_id f →
  ∃ pg, page_at bpm f = Done pg ∧ page_id_ pg = page_id ∧ frame_used bpm f pg.
Proof.
  intros Hinv Hres.
  destruct (pi_resident _ _ Hinv _ _ Hres) as (Hpid & pg & Hpg & Hid).
  exists pg. split; [done|]. split; [done|].
  pose proof (pi_frames _ _ Hinv _ _ Hpg) as Hst.
  destruct (decide (d = Some f)) as [->|Hd].
  - by destruct (fd_unmapped _ _ Hst page_id).
  - destruct Hst as [[_ -> _]|Hu]; [|done]. cbn in Hid. unfold INVALID_PAGE_ID in Hid. lia.
Qed.

(** A tracked frame is a used frame. *)
Lemma tracked_used d bpm f fi :
  pool_inv d bpm → LRUK.frame_table_ (replacer_ bpm) !! f = Some fi →
  ∃ pg, page_at bpm f = Done pg ∧ frame_used bpm f pg.
Proof.
  intros Hinv Hfi. destruct (pi_tracked _ _ Hinv _ _ Hfi) as [pg Hpg].
  exists pg. split; [done|].
  pose proof (pi_frames _ _ Hinv _ _ Hpg) as Hst.
  destruct (decide (d = Some f)) as [->|Hd].
  - destruct Hst as [_ Hu _]. congruence.
  - destruct Hst as [[_ _ Hu]|Hu]; [congruence|done].
Qed.

(** Two pages resident in one frame are one page. *)
Lemma resident_frame_inj d bpm p q f :
  pool_inv d bpm → resident bpm p f → resident bpm q f → p = q.
Proof.
  intros Hinv Hp Hq.
  destruct (pi_resident _ _ Hinv _ _ Hp) as (_ & pg & Hpg & <-).
  destruct (pi_resident _ _ Hinv _ _ Hq) as (_ & pg' & Hpg' & <-).
  congruence.
Qed.

(** The page of a used frame changes, its page id does not. *)
Lemma update_used_frame bpm bpm' f pg pg' :
  pool_inv None bpm → page_at bpm f = Done pg → frame_used bpm f pg →
  page_id_ pg' = page_id_ pg → 0 ≤ pin_count_ pg' →
  pool_size_ bpm' = pool_size_ bpm →
  pages_ bpm' = <[Z.to_nat f := pg']> (pages_ bpm) →
  page_table_ bpm' = page_table_ bpm →
  free_list_ bpm' = free_list_ bpm →
  next_page_id_ bpm' = next_page_id_ bpm →
  LRUK.wf (replacer_ bpm') →
  LRUK.replacer_size_ (replacer_ bpm') = LRUK.replacer_size_ (replacer_ bpm) →
  (∃ fi, LRUK.frame_table_ (replacer_ bpm') !! f = Some fi ∧
         (LRUK.is_evictable_ fi = true ↔ pin_count_ pg' = 0)) →
  (∀ g, g ≠ f → LRUK.frame_table_ (replacer_ bpm') !! g
                = LRUK.frame_table_ (replacer_ bpm) !! g) →
  pool_inv None bpm'.
Proof.
  intros Hinv Hpg Hused Hid Hpin Hps Hpages Hpt Hfl Hnext Hwf Hrs Hf Hother.
  pose proof (proj1 (page_at_Done _ _ _) Hpg) as [Hf0 _].
  assert (∀ p g, resident bpm' p g ↔ resident bpm p g) as Hres.
  { intros p g. unfold resident. by rewrite Hpt. }
  constructor.
  - rewrite Hps. apply Hinv.
  - rewrite Hpages, length_insert, Hps. apply Hinv.
  - rewrite Hpt. apply Hinv.
  - done.
  - rewrite Hrs, Hps. apply Hinv.
  - rewrite Hnext. apply Hinv.
  - rewrite Hfl. apply Hinv.
  - intros g pg0 Hg. rewrite decide_False by done.
    destruct (decide (g = f)) as [->|Hne].
    + rewrite (page_at_insert_eq bpm bpm' f pg pg') in Hg by done.
      injection Hg as <-. right. destruct Hused as [Hl Hi Hr Hp Ht].
      constructor; [by rewrite Hfl|by rewrite Hid, Hnext| |done|done].
      apply Hres. by rewrite Hid.
    + rewrite (page_at_insert_ne bpm bpm' f g pg') in Hg by done.
      pose proof (pi_frames _ _ Hinv _ _ Hg) as Hst. rewrite decide_False in Hst by done.
      destruct Hst as [Hfr|Hu]; [left|right].
      * apply (frame_free_ext bpm); [done|by rewrite Hfl|by apply Hother].
      * apply (frame_used_ext bpm); [done|by rewrite Hfl|by apply Hother|lia|].
        apply Hres. apply Hu.
  - intros p g Hp. apply Hres in Hp.
    destruct (pi_resident _ _ Hinv _ _ Hp) as (Hp0 & pg0 & Hg & Hgid).
    split; [done|]. destruct (decide (g = f)) as [->|Hne].
    + exists pg'. split; [by apply (page_at_insert_eq bpm bpm' f pg pg')|]. congruence.
    + exists pg0. by rewrite (page_at_insert_ne bpm bpm' f g pg').
  - intros g Hg. rewrite Hfl in Hg. apply (pi_listed _ _ Hinv) in Hg.
    apply page_at_range. apply page_at_range in Hg.
    by rewrite Hpages, length_insert.
  - intros g fi Hg. apply page_at_range. rewrite Hpages, length_insert.
    apply page_at_range. destruct (decide (g = f)) as [->|Hne]; [by eexists|].
    rewrite Hother in Hg by done. by apply (pi_tracked _ _ Hinv) in Hg.
Qed.

(** A used frame whose page is not pinned is taken out of the page table
    and of the replacer. *)
Lemma detach_used bpm bpm' f pg res :
  pool_inv None bpm → page_at bpm f = Done pg → frame_used bpm f pg →
  pool_size_ bpm' = pool_size_ bpm →
  pages_ bpm' = pages_ bpm →
  EHT.Remove hash_page_id (page_table_ bpm) (page_id_ pg)
    = Done (res, page_table_ bpm') →
  free_list_ bpm' = free_list_ bpm →
  next_page_id_ bpm' = next_page_id_ bpm →
  LRUK.wf (replacer_ bpm') →
  LRUK.replacer_size_ (replacer_ bpm') = LRUK.replacer_size_ (replacer_ bpm) →
  LRUK.frame_table_ (replacer_ bpm') = delete f (LRUK.frame_table_ (replacer_ bpm)) →
  pool_inv (Some f) bpm'.
Proof.
  intros Hinv Hpg Hused Hps Hpages Hrem Hfl Hnext Hwf Hrs Hft.
  pose proof (pi_table _ _ Hinv) as Hreach.
  destruct (reachable_inv _ _ Hreach) as [Htinv Hgd].
  destruct (Remove_spec hash_page_id (λ _, True) (page_table_ bpm) (page_id_ pg)
              Htinv Hgd) as (res' & pt' & Hrem' & _ & Hgone & Hkeep & _).
  rewrite Hrem in Hrem'. injection Hrem' as <- <-.
  assert (∀ p g, resident bpm' p g ↔ resident bpm p g ∧ g ≠ f) as Hres.
  { intros p g. unfold resident. destruct (decide (p = page_id_ pg)) as [->|Hne].
    - rewrite Hgone. split; [done|]. intros [Hp Hg].
      destruct Hg. pose proof (fu_resident _ _ _ Hused) as Hr.
      unfold resident in Hr. congruence.
    - rewrite Hkeep by done. split; [|naive_solver]. intros Hp. split; [done|].
      intros ->. destruct Hne.
      apply (resident_frame_inj None bpm _ _ f Hinv); [done|apply Hused]. }
  constructor.
  - rewrite Hps. apply Hinv.
  - rewrite Hpages, Hps. apply Hinv.
  - by apply (EHT.reach_Remove _ _ _ _ _ Hreach Hrem).
  - done.
  - rewrite Hrs, Hps. apply Hinv.
  - rewrite Hnext. apply Hinv.
  - rewrite Hfl. apply Hinv.
  - intros g pg0 Hg. rewrite (page_at_pages bpm bpm') in Hg by done.
    destruct (decide (Some f = Some g)) as [[= <-]|Hne].
    + constructor.
      * rewrite Hfl. apply Hused.
      * rewrite Hft. apply lookup_delete_eq.
      * intros p Hp. apply Hres in Hp. naive_solver.
    + assert (g ≠ f) as Hgf by congruence.
      pose proof (pi_frames _ _ Hinv _ _ Hg) as Hst. rewrite decide_False in Hst by done.
      assert (LRUK.frame_table_ (replacer_ bpm') !! g
              = LRUK.frame_table_ (replacer_ bpm) !! g) as Hgt.
      { rewrite Hft. by apply lookup_delete_ne. }
      destruct Hst as [Hfr|Hu]; [left|right].
      * apply (frame_free_ext bpm); [done|by rewrite Hfl|done].
      * apply (frame_used_ext bpm); [done|by rewrite Hfl|done|lia|].
        apply Hres. split; [apply Hu|done].
  - intros p g Hp. apply Hres in Hp as [Hp _].
    destruct (pi_resident _ _ Hinv _ _ Hp) as (Hp0 & pg0 & Hg & Hgid).
    split; [done|]. exists pg0. by rewrite (page_at_pages bpm bpm').
  - intros g Hg. rewrite Hfl in Hg. apply (pi_listed _ _ Hinv) in Hg.
    by rewrite (page_at_pages bpm bpm').
  - intros g fi Hg. rewrite (page_at_pages bpm bpm') by done.
    rewrite Hft in Hg. apply lookup_delete_Some in Hg as [_ Hg].
    by apply (pi_tracked _ _ Hinv) in Hg.
Qed.

(** The first frame of the free list is taken off it. *)
Lemma detach_free bpm bpm' f rest :
  pool_inv None bpm → free_list_ bpm = f :: rest →
  pool_size_ bpm' = pool_size_ bpm →
  pages_ bpm' = pages_ bpm →
  page_table_ bpm' = page_table_ bpm →
  free_list_ bpm' = rest →
  next_page_id_ bpm' = next_page_id_ bpm →
  replacer_ bpm' = replacer_ bpm →
  pool_inv (Some f) bpm'.
Proof.
  intros Hinv Hfree Hps Hpages Hpt Hfl Hnext Hrep.
  pose proof (pi_free _ _ Hinv) as Hnd. rewrite Hfree in Hnd.
  apply NoDup_cons in Hnd as [Hnin Hnd].
  assert (f ∈ free_list_ bpm) as Hin by (rewrite Hfree; set_solver).
  destruct (pi_listed _ _ Hinv _ Hin) as [pg Hpg].
  pose proof (pi_frames _ _ Hinv _ _ Hpg) as Hst. rewrite decide_False in Hst by done.
  destruct Hst as [[_ -> Hunt]|[Hnl _ _ _ _]]; [|done].
  assert (∀ p g, resident bpm' p g ↔ resident bpm p g) as Hres.
  { intros p g. unfold resident. by rewrite Hpt. }
  constructor.
  - rewrite Hps. apply Hinv.
  - rewrite Hpages, Hps. apply Hinv.
  - rewrite Hpt. apply Hinv.
  - rewrite Hrep. apply Hinv.
  - rewrite Hrep, Hps. apply Hinv.
  - rewrite Hnext. apply Hinv.
  - by rewrite Hfl.
  - intros g pg0 Hg. rewrite (page_at_pages bpm bpm') in Hg by done.
    destruct (decide (Some f = Some g)) as [[= <-]|Hne].
    + constructor.
      * by rewrite Hfl.
      * by rewrite Hrep.
      * intros p Hp. apply Hres in Hp.
        destruct (pi_resident _ _ Hinv _ _ Hp) as (Hp0 & pg0' & Hg' & Hgid).
        rewrite Hpg in Hg'. injection Hg' as <-. cbn in Hgid.
        unfold INVALID_PAGE_ID in Hgid. lia.
    + assert (g ≠ f) as Hgf by congruence.
      pose proof (pi_frames _ _ Hinv _ _ Hg) as Hst. rewrite decide_False in Hst by done.
      destruct Hst as [Hfr|Hu]; [left|right].
      * apply (frame_free_ext bpm); [done| |by rewrite Hrep].
        rewrite Hfl, Hfree. set_solver.
      * apply (frame_used_ext bpm); [done| |by rewrite Hrep|lia|].
        -- rewrite Hfl, Hfree. set_solver.
        -- apply Hres. apply Hu.
  - intros p g Hp. apply Hres in Hp.
    destruct (pi_resident _ _ Hinv _ _ Hp) as (Hp0 & pg0 & Hg & Hgid).
    split; [done|]. exists pg0. by rewrite (page_at_pages bpm bpm').
  - intros g Hg. rewrite (page_at_pages bpm bpm') by done.
    apply (pi_listed _ _ Hinv). rewrite Hfree. rewrite Hfl in Hg. set_solver.
  - intros g fi Hg. rewrite (page_at_pages bpm bpm') by done.
    rewrite Hrep in Hg. by apply (pi_tracked _ _ Hinv) in Hg.
Qed.

(** The detached frame receives a page that was not resident. *)
Lemma attach_frame fuel bpm bpm' f old pg' :
  pool_inv (Some f) bpm → page_at bpm f = Done old →
  0 ≤ page_id_ pg' < next_page_id_ bpm' → 0 < pin_count_ pg' →
  (∀ g, ¬ resident bpm (page_id_ pg') g) →
  pool_size_ bpm' = pool_size_ bpm →
  pages_ bpm' = <[Z.to_nat f := pg']> (pages_ bpm) →
  EHT.Insert hash_page_id fuel (page_table_ bpm) (page_id_ pg') f
    = Done (page_table_ bpm') →
  free_list_ bpm' = free_list_ bpm →
  next_page_id_ bpm ≤ next_page_id_ bpm' < 2 ^ 31 →
  LRUK.wf (replacer_ bpm') →
  LRUK.replacer_size_ (replacer_ bpm') = LRUK.replacer_size_ (replacer_ bpm) →
  (∃ fi, LRUK.frame_table_ (replacer_ bpm') !! f = Some fi ∧
         LRUK.is_evictable_ fi = false) →
  (∀ g, g ≠ f → LRUK.frame_table_ (replacer_ bpm') !! g
                = LRUK.frame_table_ (replacer_ bpm) !! g) →
  pool_inv None bpm'.
Proof.
  intros Hinv Hold Hid Hpin Hnew Hps Hpages Hins Hfl Hnext Hwf Hrs Hf Hother.
  pose proof (proj1 (page_at_Done _ _ _) Hold) as [Hf0 _].
  pose proof (pi_table _ _ Hinv) as Hreach.
  destruct (reachable_inv _ _ Hreach) as [Htinv Hgd].
  destruct (Insert_Find hash_page_id (λ _, True) fuel _ _ _ _ Htinv I Hins)
    as [Hfound Hkeep].
  pose proof (pi_frames _ _ Hinv _ _ Hold) as Hdet. rewrite decide_True in Hdet by done.
  assert (∀ p g, resident bpm' p g ↔
                 (p = page_id_ pg' ∧ g = f) ∨ resident bpm p g) as Hres.
  { intros p g. unfold resident. destruct (decide (p = page_id_ pg')) as [->|Hne].
    - rewrite Hfound. split; [intros [= <-]; by left|].
      intros [[_ ->]|Hp]; [done|]. by destruct (Hnew g).
    - rewrite Hkeep by done. naive_solver. }
  constructor.
  - rewrite Hps. apply Hinv.
  - rewrite Hpages, length_insert, Hps. apply Hinv.
  - by apply (EHT.reach_Insert _ _ _ _ _ _ Hreach Hins).
  - done.
  - rewrite Hrs, Hps. apply Hinv.
  - pose proof (pi_next _ _ Hinv). lia.
  - rewrite Hfl. apply Hinv.
  - intros g pg0 Hg. rewrite decide_False by done.
    destruct (decide (g = f)) as [->|Hne].
    + rewrite (page_at_insert_eq bpm bpm' f old pg') in Hg by done.
      injection Hg as <-. right. destruct Hf as (fi & Hfi & Hev).
      constructor.
      * rewrite Hfl. apply Hdet.
      * done.
      * apply Hres. by left.
      * lia.
      * exists fi. split; [done|]. rewrite Hev. split; [done|lia].
    + rewrite (page_at_insert_ne bpm bpm' f g pg') in Hg by done.
      pose proof (pi_frames _ _ Hinv _ _ Hg) as Hst.
      rewrite decide_False in Hst by congruence.
      destruct Hst as [Hfr|Hu]; [left|right].
      * apply (frame_free_ext bpm); [done|by rewrite Hfl|by apply Hother].
      * apply (frame_used_ext bpm); [done|by rewrite Hfl|by apply Hother|lia|].
        apply Hres. right. apply Hu.
  - intros p g Hp. apply Hres in Hp as [[-> ->]|Hp].
    + split; [lia|]. exists pg'. split; [|done].
      by apply (page_at_insert_eq bpm bpm' f old pg').
    + destruct (pi_resident _ _ Hinv _ _ Hp) as (Hp0 & pg0 & Hg & Hgid).
      split; [done|]. exists pg0. split; [|done].
      rewrite (page_at_insert_ne bpm bpm' f g pg'); [done..|].
      intros ->. by destruct (fd_unmapped _ _ Hdet p).
  - intros g Hg. rewrite Hfl in Hg. apply (pi_listed _ _ Hinv) in Hg.
    apply page_at_range. apply page_at_range in Hg.
    by rewrite Hpages, length_insert.
  - intros g fi Hg. apply page_at_range. rewrite Hpages, length_insert.
    apply page_at_range. destruct (decide (g = f)) as [->|Hne]; [by eexists|].
    rewrite Hother in Hg by done. by apply (pi_tracked _ _ Hinv) in Hg.
Qed.

(** The detached frame goes to the end of the free list. *)
Lemma release_frame bpm bpm' f old :
  pool_inv (Some f) bpm → page_at bpm f = Done old →
  pool_size_ bpm' = pool_size_ bpm →
  pages_ bpm' = <[Z.to_nat f := Page_default]> (pages_ bpm) →
  page_table_ bpm' = page_table_ bpm →
  free_list_ bpm' = free_list_ bpm ++ [f] →
  next_page_id_ bpm' = next_page_id_ bpm →
  replacer_ bpm' = replacer_ bpm →
  pool_inv None bpm'.
Proof.
  intros Hinv Hold Hps Hpages Hpt Hfl Hnext Hrep.
  pose proof (proj1 (page_at_Done _ _ _) Hold) as [Hf0 _].
  pose proof (pi_frames _ _ Hinv _ _ Hold) as Hdet. rewrite decide_True in Hdet by done.
  assert (∀ p g, resident bpm' p g ↔ resident bpm p g) as Hres.
  { intros p g. unfold resident. by rewrite Hpt. }
  constructor.
  - rewrite Hps. apply Hinv.
  - rewrite Hpages, length_insert, Hps. apply Hinv.
  - rewrite Hpt. apply Hinv.
  - rewrite Hrep. apply Hinv.
  - rewrite Hrep, Hps. apply Hinv.
  - rewrite Hnext. apply Hinv.
  - rewrite Hfl. apply NoDup_app. split; [apply Hinv|]. split.
    + intros x Hx Hx'. apply list_elem_of_singleton in Hx' as ->.
      by destruct (fd_unlisted _ _ Hdet).
    + apply NoDup_singleton.
  - intros g pg0 Hg. rewrite decide_False by done.
    destruct (decide (g = f)) as [->|Hne].
    + rewrite (page_at_insert_eq bpm bpm' f old Page_default) in Hg by done.
      injection Hg as <-. left. constructor.
      * rewrite Hfl. set_solver.
      * done.
      * rewrite Hrep. apply Hdet.
    + rewrite (page_at_insert_ne bpm bpm' f g Page_default) in Hg by done.
      pose proof (pi_frames _ _ Hinv _ _ Hg) as Hst.
      rewrite decide_False in Hst by congruence.
      destruct Hst as [Hfr|Hu]; [left|right].
      * apply (frame_free_ext bpm); [done| |by rewrite Hrep].
        rewrite Hfl. set_solver.
      * apply (frame_used_ext bpm); [done| |by rewrite Hrep|lia|].
        -- rewrite Hfl. set_solver.
        -- apply Hres. apply Hu.
  - intros p g Hp. apply Hres in Hp.
    destruct (pi_resident _ _ Hinv _ _ Hp) as (Hp0 & pg0 & Hg & Hgid).
    split; [done|]. exists pg0. split; [|done].
    rewrite (page_at_insert_ne bpm bpm' f g Page_default); [done..|].
    intros ->. by destruct (fd_unmapped _ _ Hdet p).
  - intros g Hg. apply page_at_range. rewrite Hpages, length_insert.
    apply page_at_range. rewrite Hfl in Hg. apply elem_of_app in Hg as [Hg|Hg].
    + by apply (pi_listed _ _ Hinv).
    + apply list_elem_of_singleton in Hg as ->. by eexists.
  - intros g fi Hg. apply page_at_range. rewrite Hpages, length_insert.
    apply page_at_range. rewrite Hrep in Hg. by apply (pi_tracked _ _ Hinv) in Hg.
Qed.

(** ** The operations *)

(** What [obtain_frame] does in a state that satisfies the invariant: it
    fails when no frame is free and none is evictable, and else detaches a
    frame that was free or held an unpinned page. *)
Lemma obtain_frame_spec bpm :
  pool_inv None bpm →
  (obtain_frame bpm = Done None ∧ free_list_ bpm = [] ∧
   ∀ g gi, LRUK.frame_table_ (replacer_ bpm) !! g = Some gi →
           LRUK.is_evictable_ gi = false) ∨
  (∃ f bpm1 old,
     obtain_frame bpm = Done (Some (f, bpm1)) ∧
     pool_inv (Some f) bpm1 ∧
     page_at bpm f = Done old ∧
     (frame_free bpm f old ∨ (frame_used bpm f old ∧ pin_count_ old = 0)) ∧
     (free_list_ bpm = [] → ∃ r', LRUK.Evict (replacer_ bpm) = (Some f, r')) ∧
     pool_size_ bpm1 = pool_size_ bpm ∧
     pages_ bpm1 = pages_ bpm ∧
     next_page_id_ bpm1 = next_page_id_ bpm ∧
     LRUK.current_timestamp_ (replacer_ bpm1)
       = LRUK.current_timestamp_ (replacer_ bpm) ∧
     (∀ p g, resident bpm1 p g ↔ resident bpm p g ∧ g ≠ f) ∧
     disk_ bpm1 = (if is_dirty_ old
                   then <[page_id_ old := data_ old]> (disk_ bpm)
                   else disk_ bpm) ∧
     trace_ bpm1 = trace_ bpm ++ write_back old).
Proof.
  intros Hinv. unfold obtain_frame.
  destruct (free_list_ bpm) as [|f rest] eqn:Hfree.
  - pose proof (pi_replacer _ _ Hinv) as Hwf.
    destruct (Evict_cases _ Hwf) as [[-> Hnone]|(c & fi & -> & Hc & Hev & _)];
      [by left|right].
    destruct (tracked_used None bpm c fi Hinv Hc) as (old & Hold & Hused).
    assert (pin_count_ old = 0) as Hpin.
    { destruct (fu_tracked _ _ _ Hused) as (fi' & Hfi' & Hiff).
      rewrite Hc in Hfi'. injection Hfi' as <-. by apply Hiff. }
    set (r' := LRUK.mkReplacer _ _ _ _ _).
    rewrite (page_at_pages bpm (set_replacer bpm r')) by done. rewrite Hold.
    cbn [mbind outcome_bind].
    set (bpm0 := if is_dirty_ old
                 then WritePage (set_replacer bpm r') (page_id_ old) (data_ old)
                 else set_replacer bpm r').
    assert (page_table_ bpm0 = page_table_ bpm) as Hpt0.
    { unfold bpm0. by destruct (is_dirty_ old). }
    pose proof (pi_table _ _ Hinv) as Hreach.
    destruct (reachable_inv _ _ Hreach) as [Htinv Hgd].
    destruct (Remove_spec hash_page_id (λ _, True) (page_table_ bpm) (page_id_ old)
                Htinv Hgd) as (res & pt' & Hrem & _ & Hgone & Hkeep & _).
    rewrite Hpt0, Hrem. cbn [mbind outcome_bind].
    exists c, (set_page_table bpm0 pt'), old.
    assert (pool_inv (Some c) (set_page_table bpm0 pt')) as Hinv1.
    { apply (detach_used bpm _ c old res); try done;
        unfold bpm0; destruct (is_dirty_ old); try done.
      - by apply (wf_drop _ c fi).
      - by apply (wf_drop _ c fi). }
    split; [done|]. split; [done|]. split; [done|]. split; [by right|].
    split; [intros _; by eexists|].
    split; [unfold bpm0; by destruct (is_dirty_ old)|].
    split; [unfold bpm0; by destruct (is_dirty_ old)|].
    split; [unfold bpm0; by destruct (is_dirty_ old)|].
    split; [unfold bpm0; by destruct (is_dirty_ old)|].
    split.
    + intros p g. unfold resident. cbn [set_page_table page_table_].
      destruct (decide (p = page_id_ old)) as [->|Hne].
      * rewrite Hgone. split; [done|]. intros [Hp Hg]. destruct Hg.
        pose proof (fu_resident _ _ _ Hused) as Hr. unfold resident in Hr. congruence.
      * rewrite Hkeep by done. split; [|naive_solver]. intros Hp. split; [done|].
        intros ->. destruct Hne.
        apply (resident_frame_inj None bpm _ _ c Hinv); [done|apply Hused].
    + unfold bpm0, write_back. destruct (is_dirty_ old); cbn; by rewrite ?app_nil_r.
  - right.
    assert (f ∈ free_list_ bpm) as Hin by (rewrite Hfree; set_solver).
    destruct (pi_listed _ _ Hinv _ Hin) as [old Hold].
    pose proof (pi_frames _ _ Hinv _ _ Hold) as Hst. rewrite decide_False in Hst by done.
    destruct Hst as [Hfr|[Hnl _ _ _ _]]; [|done].
    exists f, (set_free_list bpm rest), old.
    split; [done|]. split; [by apply (detach_free bpm _ f rest)|].
    split; [done|]. split; [by left|]. split; [done|].
    do 4 (split; [done|]). split.
    + intros p g. unfold resident. cbn [set_free_list page_table_].
      split; [|naive_solver]. intros Hp. split; [done|]. intros ->.
      destruct (resident_used None bpm p f Hinv Hp) as (pg & Hpg & _ & [Hnl _ _ _ _]).
      done.
    + destruct Hfr as [_ -> _]. cbn. by rewrite app_nil_r.
Qed.

(** The page [pg'] is put into the detached frame and registered. *)
Lemma place_page fuel bpm1 bpm2 bpm' f old pg' :
  pool_inv (Some f) bpm1 → page_at bpm1 f = Done old → can_record bpm1 →
  0 ≤ page_id_ pg' < next_page_id_ bpm2 → pin_count_ pg' = 1 →
  (∀ g, ¬ resident bpm1 (page_id_ pg') g) →
  pool_size_ bpm2 = pool_size_ bpm1 →
  pages_ bpm2 = <[Z.to_nat f := pg']> (pages_ bpm1) →
  page_table_ bpm2 = page_table_ bpm1 →
  replacer_ bpm2 = replacer_ bpm1 →
  free_list_ bpm2 = free_list_ bpm1 →
  next_page_id_ bpm1 ≤ next_page_id_ bpm2 < 2 ^ 31 →
  register_frame fuel bpm2 (page_id_ pg') f = Done bpm' →
  pool_inv None bpm' ∧
  page_at bpm' f = Done pg' ∧
  (∀ g, g ≠ f → page_at bpm' g = page_at bpm1 g) ∧
  (∀ p g, resident bpm' p g ↔ (p = page_id_ pg' ∧ g = f) ∨ resident bpm1 p g) ∧
  pool_size_ bpm' = pool_size_ bpm2 ∧ free_list_ bpm' = free_list_ bpm2 ∧
  next_page_id_ bpm' = next_page_id_ bpm2 ∧
  disk_ bpm' = disk_ bpm2 ∧ trace_ bpm' = trace_ bpm2.
Proof.
  intros Hinv Hold Hts Hid Hpin Hnew Hps Hpages Hpt Hrep Hfl Hnext Hreg.
  unfold register_frame in Hreg.
  destruct (EHT.Insert hash_page_id fuel (page_table_ bpm2) (page_id_ pg') f)
    as [pt'| | |] eqn:Hins; try done.
  cbn [mbind outcome_bind] in Hreg. injection Hreg as <-.
  cbn [set_replacer set_page_table replacer_ pool_size_ pages_ page_table_
       free_list_ next_page_id_ disk_ trace_].
  pose proof (proj1 (page_at_range bpm1 f) (ex_intro _ old Hold)) as Hf.
  pose proof (pi_pages _ _ Hinv) as Hlen. pose proof (pi_size _ _ Hinv) as Hsz.
  pose proof (pi_replacer_size _ _ Hinv) as Hrs.
  destruct (track_frame (replacer_ bpm1) f (pi_replacer _ _ Hinv))
    as (Hwf' & Hrs' & Hfi & Hother); [lia|lia|done|].
  pose proof (proj1 (page_at_Done _ _ _) Hold) as [Hf0 _].
  pose proof (pi_table _ _ Hinv) as Hreach.
  destruct (reachable_inv _ _ Hreach) as [Htinv Hgd].
  rewrite Hpt in Hins.
  destruct (Insert_Find hash_page_id (λ _, True) fuel _ _ _ _ Htinv I Hins)
    as [Hfound Hkeep].
  rewrite Hrep. split_and!; try done.
  - apply (attach_frame fuel bpm1 _ f old pg'); try done; cbn; try lia.
  - apply page_at_Done. split; [done|]. cbn. rewrite Hpages.
    apply list_lookup_insert_eq. lia.
  - intros g Hg. by apply (page_at_insert_ne bpm1 _ f g pg').
  - intros p g. unfold resident. cbn.
    destruct (decide (p = page_id_ pg')) as [->|Hne].
    + rewrite Hfound. split; [intros [= <-]; by left|].
      intros [[_ ->]|Hp]; [done|]. by destruct (Hnew g).
    + rewrite Hkeep by done. naive_solver.
Qed.

(** What [NewPgImp] does in a state that satisfies the invariant. *)
Lemma NewPgImp_spec fuel bpm r bpm' :
  pool_inv None bpm → can_record bpm → next_page_id_ bpm + 1 < 2 ^ 31 →
  NewPgImp fuel bpm = Done (r, bpm') →
  pool_inv None bpm' ∧
  match r with
  | None =>
      bpm' = bpm ∧ free_list_ bpm = [] ∧
      ∀ g gi, LRUK.frame_table_ (replacer_ bpm) !! g = Some gi →
              LRUK.is_evictable_ gi = false
  | Some (page_id, f) =>
      page_id = next_page_id_ bpm ∧ next_page_id_ bpm' = page_id + 1 ∧
      page_at bpm' f = Done (mkPage zeroed page_id 1 false) ∧
      (∀ g, g ≠ f → page_at bpm' g = page_at bpm g) ∧
      (∀ p g, resident bpm' p g ↔ (p = page_id ∧ g = f) ∨ (resident bpm p g ∧ g ≠ f)) ∧
      ∃ old, page_at bpm f = Done old ∧
        (frame_free bpm f old ∨ (frame_used bpm f old ∧ pin_count_ old = 0)) ∧
        (free_list_ bpm = [] → ∃ r', LRUK.Evict (replacer_ bpm) = (Some f, r')) ∧
        disk_ bpm' = (if is_dirty_ old
                      then <[page_id_ old := data_ old]> (disk_ bpm)
                      else disk_ bpm) ∧
        trace_ bpm' = trace_ bpm ++ write_back old ++ [EvResetMemory f]
  end.
Proof.
  intros Hinv Hts Hnext. unfold NewPgImp.
  destruct (obtain_frame_spec bpm Hinv)
    as [(-> & Hfree & Hnone)|
        (f & bpm1 & old & -> & Hinv1 & Hold & Hst & Hev & Hps1 & Hpages1 & Hnext1 & Hts1
           & Hres1 & Hdisk1 & Htrace1)];
    cbn [mbind outcome_bind].
  - by intros [= <- <-].
  - unfold AllocatePage.
    set (pg' := mkPage zeroed (next_page_id_ bpm1) 1 false).
    set (bpm2 := set_page _ f pg').
    destruct (register_frame fuel bpm2 (next_page_id_ bpm1) f) as [bpm3| | |] eqn:Hreg;
      try done.
    cbn [mbind outcome_bind]. intros [= <- <-].
    pose proof (pi_next _ _ Hinv) as Hn.
    assert (wrap_int32 (next_page_id_ bpm1 + 1) = next_page_id_ bpm + 1) as Hwrap.
    { unfold wrap_int32. rewrite Hnext1. rewrite Z.mod_small; lia. }
    destruct (place_page fuel bpm1 bpm2 bpm3 f old pg')
      as (Hinv3 & Hpg3 & Hother3 & Hres3 & Hps3 & Hfl3 & Hnext3 & Hdisk3 & Htrace3);
      try done.
    + by rewrite (page_at_pages bpm bpm1) by done.
    + unfold can_record. by rewrite Hts1.
    + cbn. lia.
    + intros g Hg. apply Hres1 in Hg as [Hg _].
      destruct (resident_used None bpm _ g Hinv Hg) as (pg & _ & Hid & Hu).
      pose proof (fu_id _ _ _ Hu). cbn in Hid. lia.
    + cbn. lia.
    + split; [done|]. unfold pg' in Hpg3. rewrite Hnext1 in Hpg3 |- *.
      split; [done|].
      split; [by rewrite Hnext3; cbn|]. split; [done|]. split.
      { intros g Hg. rewrite Hother3 by done. by apply page_at_pages. }
      split.
      { intros p g. rewrite Hres3, Hres1. cbn. by rewrite Hnext1. }
      exists old. split; [done|]. split; [done|]. split; [done|].
      split; [by rewrite Hdisk3; cbn|].
      rewrite Htrace3. cbn. rewrite Htrace1. by rewrite <- app_assoc.
Qed.

(** Whether a page is resident is always known. *)
Lemma resident_cases d bpm page_id :
  pool_inv d bpm →
  (EHT.Find hash_page_id (page_table_ bpm) page_id = Done None ∧
   ∀ g, ¬ resident bpm page_id g) ∨
  (∃ f pg, EHT.Find hash_page_id (page_table_ bpm) page_id = Done (Some f) ∧
     page_at bpm f = Done pg ∧ page_id_ pg = page_id ∧ frame_used bpm f pg).
Proof.
  intros Hinv. destruct (Find_Done (page_table_ bpm) page_id (pi_table _ _ Hinv))
    as [[f|] Hfind].
  - right. destruct (resident_used d bpm page_id f Hinv Hfind) as (pg & Hpg & Hid & Hu).
    by exists f, pg.
  - left. split; [done|]. intros g Hg. unfold resident in Hg. congruence.
Qed.

(** What [FetchPgImp] does in a state that satisfies the invariant. *)
Lemma FetchPgImp_spec fuel bpm page_id r bpm' :
  pool_inv None bpm → can_record bpm → 0 ≤ page_id < next_page_id_ bpm →
  FetchPgImp fuel bpm page_id = Done (r, bpm') →
  pool_inv None bpm' ∧
  ((∃ f pg, resident bpm page_id f ∧ page_at bpm f = Done pg ∧ r = Some f ∧
      page_at bpm' f
        = Done (mkPage (data_ pg) page_id (pin_count_ pg + 1) (is_dirty_ pg)) ∧
      (∀ g, g ≠ f → page_at bpm' g = page_at bpm g) ∧
      (∀ p g, resident bpm' p g ↔ resident bpm p g) ∧
      free_list_ bpm' = free_list_ bpm ∧ next_page_id_ bpm' = next_page_id_ bpm ∧
      disk_ bpm' = disk_ bpm ∧ trace_ bpm' = trace_ bpm) ∨
   ((∀ g, ¬ resident bpm page_id g) ∧
    match r with
    | None =>
        bpm' = bpm ∧ free_list_ bpm = [] ∧
        ∀ g gi, LRUK.frame_table_ (replacer_ bpm) !! g = Some gi →
                LRUK.is_evictable_ gi = false
    | Some f =>
        page_at bpm' f
          = Done (mkPage (default zeroed (disk_ bpm !! page_id)) page_id 1 false) ∧
        (∀ g, g ≠ f → page_at bpm' g = page_at bpm g) ∧
        (∀ p g, resident bpm' p g ↔
                (p = page_id ∧ g = f) ∨ (resident bpm p g ∧ g ≠ f)) ∧
        next_page_id_ bpm' = next_page_id_ bpm ∧
        ∃ old, page_at bpm f = Done old ∧
          (frame_free bpm f old ∨ (frame_used bpm f old ∧ pin_count_ old = 0)) ∧
          (free_list_ bpm = [] → ∃ r', LRUK.Evict (replacer_ bpm) = (Some f, r')) ∧
          disk_ bpm' = (if is_dirty_ old
                        then <[page_id_ old := data_ old]> (disk_ bpm)
                        else disk_ bpm) ∧
          trace_ bpm' = trace_ bpm ++ write_back old
                          ++ [EvResetMemory f; EvReadPage page_id]
    end)).
Proof.
  intros Hinv Hts Hpid. unfold FetchPgImp.
  destruct (resident_cases None bpm page_id Hinv)
    as [[Hfind Hnot]|(f & pg & Hfind & Hpg & Hid & Hused)];
    rewrite Hfind; cbn [mbind outcome_bind].
  - destruct (obtain_frame_spec bpm Hinv)
      as [(-> & Hfree & Hnone)|
          (f & bpm1 & old & -> & Hinv1 & Hold & Hst & Hev & Hps1 & Hpages1 & Hnext1
             & Hts1 & Hres1 & Hdisk1 & Htrace1)];
      cbn [mbind outcome_bind].
    + intros [= <- <-]. split; [done|]. by right.
    + unfold ReadPage. cbv beta iota zeta.
      change (disk_ (log bpm1 (EvResetMemory f))) with (disk_ bpm1).
      set (pg' := mkPage (default zeroed (disk_ bpm1 !! page_id)) page_id 1 false).
      set (bpm2 := set_page _ f pg').
      destruct (register_frame fuel bpm2 page_id f) as [bpm3| | |] eqn:Hreg; try done.
      cbn [mbind outcome_bind]. intros [= <- <-].
      pose proof (pi_next _ _ Hinv) as Hn.
      destruct (place_page fuel bpm1 bpm2 bpm3 f old pg')
        as (Hinv3 & Hpg3 & Hother3 & Hres3 & Hps3 & Hfl3 & Hnext3 & Hdisk3 & Htrace3);
        try done.
      * by rewrite (page_at_pages bpm bpm1) by done.
      * unfold can_record. by rewrite Hts1.
      * cbn. lia.
      * intros g Hg. apply Hres1 in Hg as [Hg _]. by destruct (Hnot g).
      * cbn. lia.
      * split; [done|]. right. split; [done|].
        assert (disk_ bpm1 !! page_id = disk_ bpm !! page_id) as Hsame.
        { rewrite Hdisk1. destruct (is_dirty_ old) eqn:Hd; [|done].
          apply lookup_insert_ne. intros Heq.
          destruct Hst as [[_ -> _]|[Hu _]]; [done|].
          destruct (Hnot f). rewrite <- Heq. apply Hu. }
        unfold pg' in Hpg3. rewrite Hsame in Hpg3.
        split; [done|]. split.
        { intros g Hg. rewrite Hother3 by done. by apply page_at_pages. }
        split; [intros p g; by rewrite Hres3, Hres1|].
        split; [by rewrite Hnext3; cbn|].
        exists old. split; [done|]. split; [done|]. split; [done|].
        split; [by rewrite Hdisk3; cbn|].
        rewrite Htrace3. cbn. rewrite Htrace1. by rewrite <- !app_assoc.
  - rewrite Hpg. cbn [mbind outcome_bind]. intros [= <- <-].
    pose proof (proj1 (page_at_range bpm f) (ex_intro _ pg Hpg)) as Hf.
    pose proof (pi_pages _ _ Hinv) as Hlen. pose proof (pi_size _ _ Hinv) as Hsz.
    pose proof (pi_replacer_size _ _ Hinv) as Hrs.
    destruct (track_frame (replacer_ bpm) f (pi_replacer _ _ Hinv))
      as (Hwf' & Hrs' & (fi & Hfi & Hev) & Hother); [lia|lia|done|].
    pose proof (fu_pin _ _ _ Hused) as Hpin.
    set (pg' := mkPage (data_ pg) (page_id_ pg) (pin_count_ pg + 1) (is_dirty_ pg)).
    split.
    + apply (update_used_frame bpm _ f pg pg'); try done; cbn; try lia.
      exists fi. split; [done|]. rewrite Hev. split; [done|lia].
    + left. exists f, pg. split; [done|]. split; [done|]. split; [done|]. split.
      { rewrite <- Hid. apply (page_at_insert_eq bpm _ f pg pg'); [by cbn|done]. }
      split; [|done]. intros g Hg. apply (page_at_insert_ne bpm _ f g pg'); [by cbn|lia|done].
Qed.

(** What [UnpinPgImp] does in a state that satisfies the invariant. *)
Lemma UnpinPgImp_spec bpm page_id is_dirty :
  pool_inv None bpm →
  ∃ r bpm', UnpinPgImp bpm page_id is_dirty = Done (r, bpm') ∧
    pool_inv None bpm' ∧
    (((∀ g, ¬ resident bpm page_id g) ∧ r = false ∧ bpm' = bpm) ∨
     (∃ f pg, resident bpm page_id f ∧ page_at bpm f = Done pg ∧
        if decide (pin_count_ pg = 0) then r = false ∧ bpm' = bpm
        else
          r = true ∧
          page_at bpm' f
            = Done (mkPage (data_ pg) page_id (pin_count_ pg - 1)
                           (if is_dirty then true else is_dirty_ pg)) ∧
          (∀ g, g ≠ f → page_at bpm' g = page_at bpm g) ∧
          (∀ p g, resident bpm' p g ↔ resident bpm p g) ∧
          free_list_ bpm' = free_list_ bpm ∧
          next_page_id_ bpm' = next_page_id_ bpm ∧
          disk_ bpm' = disk_ bpm ∧ trace_ bpm' = trace_ bpm ∧
          LRUK.current_timestamp_ (replacer_ bpm')
            = LRUK.current_timestamp_ (replacer_ bpm))).
Proof.
  intros Hinv. unfold UnpinPgImp.
  destruct (resident_cases None bpm page_id Hinv)
    as [[Hfind Hnot]|(f & pg & Hfind & Hpg & Hid & Hused)];
    rewrite Hfind; cbn [mbind outcome_bind].
  - eexists _, _. split; [done|]. split; [done|]. by left.
  - rewrite Hpg. cbn [mbind outcome_bind].
    pose proof (fu_pin _ _ _ Hused) as Hpin.
    destruct (fu_tracked _ _ _ Hused) as (fi & Hfi & Hev).
    destruct (Z.leb_spec (pin_count_ pg) 0) as [Hle|Hgt].
    { eexists _, _. split; [done|]. split; [done|]. right. exists f, pg.
      split; [done|]. split; [done|]. by rewrite decide_True by lia. }
    set (pg' := mkPage (data_ pg) (page_id_ pg) (pin_count_ pg - 1)
                       (if is_dirty then true else is_dirty_ pg)).
    cbn [pin_count_].
    destruct (SetEvictable_tracked (replacer_ bpm) f fi true (pi_replacer _ _ Hinv) Hfi)
      as (Hwf' & Hrs' & Hts' & Hfi' & Hother').
    pose proof (proj1 (page_at_Done _ _ _) Hpg) as [Hf0 _].
    eexists _, _. split; [done|].
    split.
    + apply (update_used_frame bpm _ f pg pg'); try done.
      * cbn. lia.
      * by destruct (pin_count_ pg' =? 0).
      * by destruct (pin_count_ pg' =? 0).
      * by destruct (pin_count_ pg' =? 0).
      * by destruct (pin_count_ pg' =? 0).
      * by destruct (pin_count_ pg' =? 0).
      * destruct (pin_count_ pg' =? 0); [done|apply Hinv].
      * destruct (pin_count_ pg' =? 0); [by cbn|done].
      * destruct (Z.eqb_spec (pin_count_ pg') 0) as [Heq|Hne].
        -- eexists. split; [exact Hfi'|]. by cbn.
        -- exists fi. split; [done|]. rewrite Hev. cbn in Hne |- *. split; lia.
      * intros g Hg. destruct (pin_count_ pg' =? 0); [by apply Hother'|done].
    + right. exists f, pg. split; [done|]. split; [done|].
      rewrite decide_False by lia. split; [done|]. rewrite <- Hid.
      split.
      { apply (page_at_insert_eq bpm _ f pg pg'); [|done].
        by destruct (pin_count_ pg' =? 0). }
      split.
      { intros g Hg. apply (page_at_insert_ne bpm _ f g pg'); [|lia|done].
        by destruct (pin_count_ pg' =? 0). }
      destruct (pin_count_ pg' =? 0); split_and!; done.
Qed.

(** What [write_data] does to the page of a frame. *)
Lemma write_data_spec bpm f pg bytes :
  pool_inv None bpm → page_at bpm f = Done pg → 0 < pin_count_ pg →
  ∃ bpm', write_data bpm f bytes = Done bpm' ∧ pool_inv None bpm' ∧
    page_at bpm' f = Done (mkPage bytes (page_id_ pg) (pin_count_ pg) (is_dirty_ pg)) ∧
    (∀ g, g ≠ f → page_at bpm' g = page_at bpm g) ∧
    (∀ p g, resident bpm' p g ↔ resident bpm p g) ∧
    free_list_ bpm' = free_list_ bpm ∧ next_page_id_ bpm' = next_page_id_ bpm ∧
    replacer_ bpm' = replacer_ bpm ∧
    disk_ bpm' = disk_ bpm ∧ trace_ bpm' = trace_ bpm.
Proof.
  intros Hinv Hpg Hpin. unfold write_data. rewrite Hpg. cbn [mbind outcome_bind].
  set (pg' := mkPage bytes (page_id_ pg) (pin_count_ pg) (is_dirty_ pg)).
  pose proof (proj1 (page_at_Done _ _ _) Hpg) as [Hf0 _].
  pose proof (pi_frames _ _ Hinv _ _ Hpg) as Hst. rewrite decide_False in Hst by done.
  destruct Hst as [[_ -> _]|Hused]; [cbn in Hpin; lia|].
  eexists. split; [done|]. split.
  - apply (update_used_frame bpm _ f pg pg'); try done; cbn; try lia.
    + apply Hinv.
    + apply Hused.
  - split; [by apply (page_at_insert_eq bpm _ f pg pg')|].
    split; [|done]. intros g Hg. by apply (page_at_insert_ne bpm _ f g pg').
Qed.

(** What [FlushPgImp] does in a state that satisfies the invariant. *)
Lemma FlushPgImp_spec bpm page_id :
  pool_inv None bpm →
  ∃ r bpm', FlushPgImp bpm page_id = Done (r, bpm') ∧
    pool_inv None bpm' ∧
    (((∀ g, ¬ resident bpm page_id g) ∧ r = false ∧ bpm' = bpm) ∨
     (∃ f pg, resident bpm page_id f ∧ page_at bpm f = Done pg ∧ r = true ∧
        page_at bpm' f = Done (mkPage (data_ pg) page_id (pin_count_ pg) false) ∧
        (∀ g, g ≠ f → page_at bpm' g = page_at bpm g) ∧
        (∀ p g, resident bpm' p g ↔ resident bpm p g) ∧
        free_list_ bpm' = free_list_ bpm ∧
        next_page_id_ bpm' = next_page_id_ bpm ∧
        replacer_ bpm' = replacer_ bpm ∧
        disk_ bpm' = <[page_id := data_ pg]> (disk_ bpm) ∧
        trace_ bpm' = trace_ bpm ++ [EvWritePage page_id (data_ pg)])).
Proof.
  intros Hinv. unfold FlushPgImp.
  destruct (resident_cases None bpm page_id Hinv)
    as [[Hfind Hnot]|(f & pg & Hfind & Hpg & Hid & Hused)];
    rewrite Hfind; cbn [mbind outcome_bind].
  - eexists _, _. split; [done|]. split; [done|]. by left.
  - rewrite Hpg. cbn [mbind outcome_bind].
    set (pg' := mkPage (data_ pg) (page_id_ pg) (pin_count_ pg) false).
    pose proof (proj1 (page_at_Done _ _ _) Hpg) as [Hf0 _].
    eexists _, _. split; [done|]. split.
    + apply (update_used_frame bpm _ f pg pg'); try done; cbn.
      * apply Hused.
      * apply Hinv.
      * apply Hused.
    + right. exists f, pg. split; [done|]. split; [done|]. split; [done|].
      rewrite <- Hid.
      split; [by apply (page_at_insert_eq bpm _ f pg pg')|].
      split; [|done]. intros g Hg. by apply (page_at_insert_ne bpm _ f g pg').
Qed.

(** What [DeletePgImp] does in a state that satisfies the invariant. *)
Lemma DeletePgImp_spec bpm page_id :
  pool_inv None bpm →
  ∃ r bpm', DeletePgImp bpm page_id = Done (r, bpm') ∧
    pool_inv None bpm' ∧
    (((∀ g, ¬ resident bpm page_id g) ∧ r = true ∧ bpm' = bpm) ∨
     (∃ f pg, resident bpm page_id f ∧ page_at bpm f = Done pg ∧
        if decide (pin_count_ pg = 0)
        then
          r = true ∧
          page_at bpm' f = Done Page_default ∧
          (∀ g, g ≠ f → page_at bpm' g = page_at bpm g) ∧
          (∀ p g, resident bpm' p g ↔ resident bpm p g ∧ p ≠ page_id) ∧
          free_list_ bpm' = free_list_ bpm ++ [f] ∧
          next_page_id_ bpm' = next_page_id_ bpm ∧
          LRUK.frame_table_ (replacer_ bpm')
            = delete f (LRUK.frame_table_ (replacer_ bpm)) ∧
          LRUK.Size (replacer_ bpm') = LRUK.Size (replacer_ bpm) - 1 ∧
          disk_ bpm' = disk_ bpm ∧ trace_ bpm' = trace_ bpm ++ [EvResetMemory f]
        else r = false ∧ bpm' = bpm)).
Proof.
  intros Hinv. unfold DeletePgImp.
  destruct (resident_cases None bpm page_id Hinv)
    as [[Hfind Hnot]|(f & pg & Hfind & Hpg & Hid & Hused)];
    rewrite Hfind; cbn [mbind outcome_bind].
  - eexists _, _. split; [done|]. split; [done|]. by left.
  - rewrite Hpg. cbn [mbind outcome_bind].
    pose proof (fu_pin _ _ _ Hused) as Hpin.
    destruct (fu_tracked _ _ _ Hused) as (fi & Hfi & Hev).
    destruct (Z.gtb_spec (pin_count_ pg) 0) as [Hgt|Hle].
    { eexists _, _. split; [done|]. split; [done|]. right. exists f, pg.
      split; [done|]. split; [done|]. by rewrite decide_False by lia. }
    assert (pin_count_ pg = 0) as Hpin0 by lia.
    assert (LRUK.is_evictable_ fi = true) as Hevt by (by apply Hev).
    pose proof (pi_table _ _ Hinv) as Hreach.
    destruct (reachable_inv _ _ Hreach) as [Htinv Hgd].
    destruct (Remove_spec hash_page_id (λ _, True) (page_table_ bpm) page_id
                Htinv Hgd) as (res & pt' & Hrem & _ & Hgone & Hkeep & _).
    rewrite Hrem. cbn [mbind outcome_bind].
    pose proof (pi_replacer _ _ Hinv) as Hwf.
    destruct (Remove_tracked (replacer_ bpm) f fi Hwf Hfi Hevt)
      as (Hwf' & Hrs' & Hts' & Hft').
    set (bpm1 := set_replacer (set_page_table bpm pt') (LRUK.Remove (replacer_ bpm) f)).
    assert (pool_inv (Some f) bpm1) as Hinv1.
    { apply (detach_used bpm bpm1 f pg res); try done. by rewrite Hid. }
    pose proof (proj1 (page_at_Done _ _ _) Hpg) as [Hf0 _].
    eexists _, _. split; [done|]. split.
    + by apply (release_frame bpm1 _ f pg).
    + right. exists f, pg. split; [done|]. split; [done|].
      rewrite decide_True by done. split; [done|].
      split; [by apply (page_at_insert_eq bpm _ f pg Page_default)|].
      split.
      { intros g Hg. by apply (page_at_insert_ne bpm _ f g Page_default). }
      split.
      { intros p g. unfold resident. cbn.
        destruct (decide (p = page_id)) as [->|Hne].
        - rewrite Hgone. naive_solver.
        - rewrite Hkeep by done. naive_solver. }
      split; [done|]. split; [done|]. split; [done|]. split; [|done].
      unfold LRUK.Size, LRUK.Remove. cbn. rewrite Hfi, Hevt. cbn.
      rewrite (LRUK.wf_curr_size _ Hwf).
      pose proof (wf_evictable_size _ Hwf) as Hb.
      assert (size (LRUK.evictable_frames (replacer_ bpm)) ≠ 0%nat) as Hne.
      { apply map_size_non_empty_iff. intros Hem.
        assert (LRUK.evictable_frames (replacer_ bpm) !! f = Some fi) as Hin.
        { apply map_lookup_filter_Some. by split. }
        rewrite Hem in Hin. by rewrite lookup_empty in Hin. }
      rewrite wrap_size_t_small; lia.
Qed.

(** The body of the loop of [FlushAllPgsImp]. *)
Lemma flush_frame_spec bpm i pg :
  pool_inv None bpm → page_at bpm i = Done pg →
  ∃ bpm', flush_frame bpm i = Done bpm' ∧ pool_inv None bpm' ∧
    page_at bpm' i = Done (mkPage (data_ pg) (page_id_ pg) (pin_count_ pg) false) ∧
    (∀ g, g ≠ i → page_at bpm' g = page_at bpm g) ∧
    (∀ p g, resident bpm' p g ↔ resident bpm p g) ∧
    free_list_ bpm' = free_list_ bpm ∧ next_page_id_ bpm' = next_page_id_ bpm ∧
    replacer_ bpm' = replacer_ bpm ∧ pool_size_ bpm' = pool_size_ bpm ∧
    disk_ bpm' = (if is_dirty_ pg
                  then <[page_id_ pg := data_ pg]> (disk_ bpm)
                  else disk_ bpm) ∧
    trace_ bpm' = trace_ bpm ++ write_back pg.
Proof.
  intros Hinv Hpg. unfold flush_frame. rewrite Hpg. cbn [mbind outcome_bind].
  pose proof (proj1 (page_at_Done _ _ _) Hpg) as [Hf0 Hlook].
  pose proof (pi_frames _ _ Hinv _ _ Hpg) as Hst. rewrite decide_False in Hst by done.
  unfold write_back.
  destruct Hst as [[_ -> _]|Hused].
  - cbn. eexists. split; [done|]. split; [done|]. rewrite app_nil_r. by split_and!.
  - pose proof (fu_id _ _ _ Hused) as Hid.
    destruct (Z.eqb_spec (page_id_ pg) INVALID_PAGE_ID) as [Heq|_];
      [unfold INVALID_PAGE_ID in Heq; lia|].
    cbn [negb andb].
    destruct (is_dirty_ pg) eqn:Hd.
    + set (pg' := mkPage (data_ pg) (page_id_ pg) (pin_count_ pg) false).
      eexists. split; [done|]. split.
      * apply (update_used_frame bpm _ i pg pg'); try done; cbn.
        -- apply Hused.
        -- apply Hinv.
        -- apply Hused.
      * split; [by apply (page_at_insert_eq bpm _ i pg pg')|].
        split; [|done]. intros g Hg. by apply (page_at_insert_ne bpm _ i g pg').
    + eexists. split; [done|]. split; [done|]. rewrite app_nil_r.
      split; [|done]. rewrite Hpg. f_equal. destruct pg. cbn in *. by rewrite Hd.
Qed.

(** A dirty page is a resident page. *)
Lemma dirty_used bpm f pg :
  pool_inv None bpm → page_at bpm f = Done pg → is_dirty_ pg = true →
  frame_used bpm f pg.
Proof.
  intros Hinv Hpg Hd. pose proof (pi_frames _ _ Hinv _ _ Hpg) as Hst.
  rewrite decide_False in Hst by done. by destruct Hst as [[_ -> _]|Hused].
Qed.

(** The write-back of frame [i] leaves the disk image of every page that is
    not the page of frame [i] as it was. *)
Lemma write_back_other bpm i pg p :
  pool_inv None bpm → page_at bpm i = Done pg → ¬ resident bpm p i →
  (if is_dirty_ pg then <[page_id_ pg := data_ pg]> (disk_ bpm) else disk_ bpm) !! p
  = disk_ bpm !! p.
Proof.
  intros Hinv Hpg Hnot. destruct (is_dirty_ pg) eqn:Hd; [|done].
  apply lookup_insert_ne. intros <-. destruct Hnot.
  apply (dirty_used bpm i pg Hinv Hpg Hd).
Qed.

Lemma Forall2_elem_of {A B} (P : A → B → Prop) (l : list A) (k : list B) :
  Forall2 P l k → Forall2 (λ x y, x ∈ l ∧ P x y) l k.
Proof.
  induction 1 as [|x y l k Hxy _ IH]; constructor.
  - split; [set_solver|done].
  - eapply Forall2_impl; [exact IH|]. cbn. intros ?? [??]. split; [set_solver|done].
Qed.

(** The loop of [FlushAllPgsImp], over any list of distinct frames. *)
Lemma flush_frames_spec l : ∀ bpm,
  pool_inv None bpm → NoDup l →
  (∀ i, i ∈ l → ∃ pg, page_at bpm i = Done pg) →
  ∃ bpm' pgs, flush_frames l bpm = Done bpm' ∧ pool_inv None bpm' ∧
    Forall2 (λ i pg, page_at bpm i = Done pg) l pgs ∧
    (∀ f pg, page_at bpm f = Done pg →
       page_at bpm' f
       = Done (if decide (f ∈ l)
               then mkPage (data_ pg) (page_id_ pg) (pin_count_ pg) false
               else pg)) ∧
    (∀ p g, resident bpm' p g ↔ resident bpm p g) ∧
    free_list_ bpm' = free_list_ bpm ∧ next_page_id_ bpm' = next_page_id_ bpm ∧
    replacer_ bpm' = replacer_ bpm ∧ pool_size_ bpm' = pool_size_ bpm ∧
    (∀ p f pg, resident bpm p f → page_at bpm f = Done pg →
       disk_ bpm' !! p = if decide (f ∈ l ∧ is_dirty_ pg = true)
                         then Some (data_ pg) else disk_ bpm !! p) ∧
    (∀ p, (∀ g, ¬ resident bpm p g) → disk_ bpm' !! p = disk_ bpm !! p) ∧
    trace_ bpm' = trace_ bpm ++ concat (write_back <$> pgs).
Proof.
  induction l as [|i l IH]; intros bpm Hinv Hnd Hrange.
  - exists bpm, []. cbn. split; [done|]. split; [done|]. split; [done|].
    split. { intros f pg Hpg. rewrite decide_False; [done|set_solver]. }
    do 5 (split; [done|]). split.
    { intros p f pg _ _. rewrite decide_False; [done|set_solver]. }
    split; [done|]. by rewrite app_nil_r.
  - apply NoDup_cons in Hnd as [Hi Hnd].
    destruct (Hrange i) as [pgi Hpgi]; [set_solver|].
    destruct (flush_frame_spec bpm i pgi Hinv Hpgi)
      as (bpm1 & Hstep & Hinv1 & Hpgi1 & Hother1 & Hres1 & Hfl1 & Hnext1 & Hrep1
            & Hps1 & Hdisk1 & Htrace1).
    destruct (IH bpm1 Hinv1 Hnd)
      as (bpm' & pgs & Hrun & Hinv' & Hpgs & Hpages' & Hres' & Hfl' & Hnext' & Hrep'
            & Hps' & Hdisk' & Hdisk0' & Htrace').
    { intros j Hj. rewrite Hother1 by set_solver. apply Hrange. set_solver. }
    exists bpm', (pgi :: pgs). cbn [flush_frames]. rewrite Hstep.
    cbn [mbind outcome_bind]. split; [done|]. split; [done|]. split.
    { constructor; [done|]. apply Forall2_elem_of in Hpgs.
      eapply Forall2_impl; [exact Hpgs|].
      intros j pg [Hjl Hj]. cbn in Hj. rewrite <- Hother1; [done|]. by intros ->. }
    split.
    { intros f pg Hpg. destruct (decide (f = i)) as [->|Hne].
      - rewrite Hpgi in Hpg. injection Hpg as <-.
        rewrite (Hpages' i _ Hpgi1). rewrite decide_False by done.
        rewrite decide_True by set_solver. done.
      - rewrite <- Hother1 in Hpg by done. rewrite (Hpages' f pg Hpg).
        destruct (decide (f ∈ l)).
        + rewrite decide_True by set_solver. done.
        + rewrite decide_False by set_solver. done. }
    split; [intros p g; by rewrite Hres', Hres1|].
    split; [congruence|]. split; [congruence|]. split; [congruence|].
    split; [congruence|]. split.
    { intros p f pg Hp Hpg. destruct (decide (f = i)) as [->|Hne].
      - rewrite Hpgi in Hpg. injection Hpg as <-.
        destruct (resident_used None bpm p i Hinv Hp) as (pg0 & Hpg0 & Hid & _).
        rewrite Hpgi in Hpg0. injection Hpg0 as <-.
        rewrite (Hdisk' p i _ (proj2 (Hres1 p i) Hp) Hpgi1).
        rewrite decide_False by (cbn; naive_solver).
        rewrite Hdisk1. destruct (is_dirty_ pgi) eqn:Hd.
        + rewrite decide_True by (split; [set_solver|done]).
          rewrite Hid. by rewrite lookup_insert_eq.
        + rewrite decide_False by naive_solver. done.
      - rewrite <- Hother1 in Hpg by done.
        rewrite (Hdisk' p f pg (proj2 (Hres1 p f) Hp) Hpg).
        assert (disk_ bpm1 !! p = disk_ bpm !! p) as Hsame.
        { rewrite Hdisk1. apply (write_back_other bpm i pgi p Hinv Hpgi).
          intros Hpi. apply Hne. unfold resident in *. congruence. }
        rewrite Hsame.
        destruct (decide (f ∈ l ∧ is_dirty_ pg = true)) as [[Hfl Hd]|Hn].
        + rewrite decide_True by (split; [set_solver|done]). done.
        + rewrite decide_False; [done|]. intros [Hfl Hd]. apply Hn.
          split; [set_solver|done]. }
    split.
    { intros p Hnot. rewrite Hdisk0'.
      - rewrite Hdisk1. apply (write_back_other bpm i pgi p Hinv Hpgi). apply Hnot.
      - intros g Hg. apply Hres1 in Hg. by destruct (Hnot g). }
    rewrite Htrace', Htrace1. cbn. by rewrite <- app_assoc.
Qed.

(** What [FlushAllPgsImp] does in a state that satisfies the invariant. *)
Lemma FlushAllPgsImp_spec bpm :
  pool_inv None bpm →
  ∃ bpm', FlushAllPgsImp bpm = Done bpm' ∧ pool_inv None bpm' ∧
    (∀ f pg, page_at bpm f = Done pg →
       page_at bpm' f
       = Done (mkPage (data_ pg) (page_id_ pg) (pin_count_ pg) false)) ∧
    (∀ p g, resident bpm' p g ↔ resident bpm p g) ∧
    free_list_ bpm' = free_list_ bpm ∧ next_page_id_ bpm' = next_page_id_ bpm ∧
    replacer_ bpm' = replacer_ bpm ∧
    (∀ p f pg, resident bpm p f → page_at bpm f = Done pg →
       disk_ bpm' !! p = if is_dirty_ pg then Some (data_ pg) else disk_ bpm !! p) ∧
    (∀ p, (∀ g, ¬ resident bpm p g) → disk_ bpm' !! p = disk_ bpm !! p) ∧
    trace_ bpm' = trace_ bpm ++ concat (write_back <$> pages_ bpm).
Proof.
  intros Hinv. unfold FlushAllPgsImp.
  pose proof (pi_pages _ _ Hinv) as Hlen. pose proof (pi_size _ _ Hinv) as Hsz.
  assert (∀ i, i ∈ seqZ 0 (pool_size_ bpm) ↔ ∃ pg, page_at bpm i = Done pg) as Hin.
  { intros i. rewrite elem_of_seqZ, page_at_range. lia. }
  destruct (flush_frames_spec (seqZ 0 (pool_size_ bpm)) bpm Hinv (NoDup_seqZ _ _))
    as (bpm' & pgs & Hrun & Hinv' & Hpgs & Hpages' & Hres' & Hfl' & Hnext' & Hrep'
          & Hps' & Hdisk' & Hdisk0' & Htrace').
  { intros i Hi. by apply Hin. }
  exists bpm'. split; [done|]. split; [done|]. split.
  { intros f pg Hpg. rewrite (Hpages' f pg Hpg).
    rewrite decide_True; [done|]. apply Hin. by eexists. }
  do 4 (split; [done|]). split.
  { intros p f pg Hp Hpg. rewrite (Hdisk' p f pg Hp Hpg).
    destruct (is_dirty_ pg).
    - rewrite decide_True; [done|]. split; [|done]. apply Hin. by eexists.
    - rewrite decide_False; [done|]. naive_solver. }
  split; [done|].
  assert (pgs = pages_ bpm) as <-; [|done].
  apply list_eq. intros k.
  destruct (decide (k < length (pages_ bpm))%nat) as [Hk|Hk].
  - destruct (lookup_lt_is_Some_2 (pages_ bpm) k Hk) as [pg Hpg]. rewrite Hpg.
    assert (seqZ 0 (pool_size_ bpm) !! k = Some (Z.of_nat k)) as Hseq.
    { rewrite lookup_seqZ. split; lia. }
    destruct (Forall2_lookup_l _ _ _ _ _ Hpgs Hseq) as (pg' & Hpg' & Hat).
    apply page_at_Done in Hat as [_ Hat]. rewrite Nat2Z.id in Hat. congruence.
  - rewrite (lookup_ge_None_2 (pages_ bpm)) by lia.
    apply lookup_ge_None_2. apply Forall2_length in Hpgs.
    rewrite length_seqZ in Hpgs. lia.
Qed.

(** ** Reachable states satisfy the invariant *)

Lemma reachable_pool_inv bpm : reachable bpm → pool_inv None bpm.
Proof.
  induction 1 as [ps k bs Hps Hk Hbs
                 |fuel bpm r bpm' _ IH Hts Hnext Hrun
                 |fuel bpm page_id r bpm' _ IH Hts Hpid Hrun
                 |bpm page_id is_dirty r bpm' _ IH Hrun
                 |bpm page_id r bpm' _ IH Hrun
                 |bpm bpm' _ IH Hrun
                 |bpm page_id r bpm' _ IH Hrun
                 |bpm f pg bytes bpm' _ IH Hpg Hpin Hrun].
  - by apply pool_inv_init.
  - by destruct (NewPgImp_spec fuel bpm r bpm' IH Hts Hnext Hrun).
  - by destruct (FetchPgImp_spec fuel bpm page_id r bpm' IH Hts Hpid Hrun).
  - destruct (UnpinPgImp_spec bpm page_id is_dirty IH) as (r0 & bpm0 & Hrun0 & Hinv0 & _).
    congruence.
  - destruct (FlushPgImp_spec bpm page_id IH) as (r0 & bpm0 & Hrun0 & Hinv0 & _).
    congruence.
  - destruct (FlushAllPgsImp_spec bpm IH) as (bpm0 & Hrun0 & Hinv0 & _). congruence.
  - destruct (DeletePgImp_spec bpm page_id IH) as (r0 & bpm0 & Hrun0 & Hinv0 & _).
    congruence.
  - destruct (write_data_spec bpm f pg bytes IH Hpg Hpin) as (bpm0 & Hrun0 & Hinv0 & _).
    congruence.
Qed.

End bpm_pool.

Section bpm_more.
Import BPM.

Implicit Types (bpm : BufferPoolManagerInstance) (pg : Page) (f g : Z).

(** X9: in every reachable state of the pool the page table, the frames,
    the free list and the replacer agree.  A resident page sits in the frame
    the page table names, which is a frame of the pool and not on the free
    list; its pin count is not negative and the replacer holds the frame as
    evictable exactly when the pin count is 0.  No two pages share a frame.
    The free list has no frame twice, and a frame on it holds no page and is
    unknown to the replacer.  Every frame is either on the free list or holds
    a resident page. *)
Theorem pool_consistent bpm :
  reachable bpm →
  (∀ page_id f, resident bpm page_id f →
     0 ≤ f < pool_size_ bpm ∧ (f ∉ free_list_ bpm) ∧
     ∃ pg, page_at bpm f = Done pg ∧ page_id_ pg = page_id ∧
       0 ≤ page_id < next_page_id_ bpm ∧ 0 ≤ pin_count_ pg ∧
       (LRUK.evictable (replacer_ bpm) f ↔ pin_count_ pg = 0)) ∧
  (∀ p q f, resident bpm p f → resident bpm q f → p = q) ∧
  NoDup (free_list_ bpm) ∧
  (∀ f, f ∈ free_list_ bpm →
     page_at bpm f = Done Page_default ∧
     LRUK.frame_table_ (replacer_ bpm) !! f = None) ∧
  (∀ f, 0 ≤ f < pool_size_ bpm →
     ∃ pg, page_at bpm f = Done pg ∧
       (f ∈ free_list_ bpm ∨ resident bpm (page_id_ pg) f)).
Proof.
  intros Hr. pose proof (reachable_pool_inv bpm Hr) as Hinv.
  pose proof (pi_pages _ _ Hinv) as Hlen. split_and!.
  - intros p f Hres.
    destruct (resident_used None bpm p f Hinv Hres) as (pg & Hpg & Hid & Hu).
    pose proof (proj1 (page_at_range bpm f) (ex_intro _ pg Hpg)) as Hf.
    split; [lia|]. split; [apply Hu|]. exists pg. split; [done|]. split; [done|].
    destruct Hu as [_ Hpid _ Hpin (fi & Hfi & Hev)].
    split; [lia|]. split; [done|]. unfold LRUK.evictable. rewrite <- Hev.
    split; [|by exists fi]. intros (fi' & Hfi' & Hev'). congruence.
  - intros p q f. apply (resident_frame_inj None bpm p q f Hinv).
  - apply Hinv.
  - intros f Hf. destruct (pi_listed _ _ Hinv f Hf) as [pg Hpg].
    pose proof (pi_frames _ _ Hinv _ _ Hpg) as Hst.
    rewrite decide_False in Hst by done.
    destruct Hst as [[_ -> Hunt]|[Hnl _ _ _ _]]; done.
  - intros f Hf. destruct (proj2 (page_at_range bpm f)) as [pg Hpg]; [lia|].
    exists pg. split; [done|].
    pose proof (pi_frames _ _ Hinv _ _ Hpg) as Hst.
    rewrite decide_False in Hst by done.
    destruct Hst as [[Hl _ _]|[_ _ Hres _ _]]; [by left|by right].
Qed.

(** No frame can be had exactly when the free list is empty and every
    frame is pinned. *)
Lemma obtain_frame_None bpm :
  pool_inv None bpm →
  (obtain_frame bpm = Done None ↔
   free_list_ bpm = [] ∧ ∀ f pg, page_at bpm f = Done pg → 0 < pin_count_ pg).
Proof.
  intros Hinv.
  destruct (obtain_frame_spec bpm Hinv)
    as [(Hob & Hfree & Hnone)|(f & bpm1 & old & Hob & _ & Hold & Hst & _)].
  - split; [intros _|done]. split; [done|]. intros f pg Hpg.
    pose proof (pi_frames _ _ Hinv _ _ Hpg) as Hfr.
    rewrite decide_False in Hfr by done.
    destruct Hfr as [[Hl _ _]|[_ _ _ Hpin (fi & Hfi & Hev)]].
    + rewrite Hfree in Hl. by apply elem_of_nil in Hl.
    + specialize (Hnone f fi Hfi). rewrite Hnone in Hev.
      destruct (decide (pin_count_ pg = 0)) as [Hz|]; [|lia].
      apply Hev in Hz. done.
  - rewrite Hob. split; [done|]. intros [Hfree Hall]. exfalso.
    destruct Hst as [[Hl _ _]|[_ Hpin]].
    + rewrite Hfree in Hl. by apply elem_of_nil in Hl.
    + specialize (Hall f old Hold). lia.
Qed.

(** X10: in a reachable state [NewPgImp] returns [nullptr] exactly when the
    free list is empty and every frame holds a pinned page, and [FetchPgImp]
    exactly when moreover the page is not resident; the pool is then left
    as it was. *)
Theorem no_frame_iff_all_pinned bpm :
  reachable bpm →
  (∀ fuel bpm',
     NewPgImp fuel bpm = Done (None, bpm') ↔
     bpm' = bpm ∧ free_list_ bpm = [] ∧
     ∀ f pg, page_at bpm f = Done pg → 0 < pin_count_ pg) ∧
  (∀ fuel page_id bpm',
     FetchPgImp fuel bpm page_id = Done (None, bpm') ↔
     bpm' = bpm ∧ (∀ f, ¬ resident bpm page_id f) ∧ free_list_ bpm = [] ∧
     ∀ f pg, page_at bpm f = Done pg → 0 < pin_count_ pg).
Proof.
  intros Hr. pose proof (reachable_pool_inv bpm Hr) as Hinv.
  pose proof (obtain_frame_None bpm Hinv) as Hnone. split.
  - intros fuel bpm'. unfold NewPgImp.
    destruct (obtain_frame_spec bpm Hinv)
      as [(Hob & _)|(f & bpm1 & old & Hob & _)]; rewrite Hob in Hnone |- *;
      cbn [mbind outcome_bind].
    + split; [intros [= <-]|intros [-> _]; done]. split; [done|]. by apply Hnone.
    + unfold AllocatePage. split.
      * destruct (register_frame _ _ _ _); cbn [mbind outcome_bind]; done.
      * intros (_ & Hall). by apply Hnone in Hall.
  - intros fuel page_id bpm'. unfold FetchPgImp.
    destruct (resident_cases None bpm page_id Hinv)
      as [[Hfind Hnot]|(f & pg & Hfind & Hpg & _)];
      rewrite Hfind; cbn [mbind outcome_bind].
    + destruct (obtain_frame_spec bpm Hinv)
        as [(Hob & _)|(f & bpm1 & old & Hob & _)]; rewrite Hob in Hnone |- *;
        cbn [mbind outcome_bind].
      * split; [intros [= <-]|intros [-> _]; done]. split; [done|]. split; [done|].
        by apply Hnone.
      * unfold ReadPage. cbv beta iota zeta. split.
        -- destruct (register_frame _ _ _ _); cbn [mbind outcome_bind]; done.
        -- intros (_ & _ & Hall). by apply Hnone in Hall.
    + rewrite Hpg. cbn [mbind outcome_bind]. split; [done|].
      intros (_ & Hnot & _). by destruct (Hnot f).
Qed.

(** X11: a pinned page is neither evicted nor deleted.  If a page is
    resident with a positive pin count, then after [NewPgImp], after
    [FetchPgImp] of another page and after [DeletePgImp] of any page it is
    resident in the same frame, and the frame holds what it held. *)
Theorem pinned_page_stays bpm page_id f pg :
  reachable bpm → can_record bpm → next_page_id_ bpm + 1 < 2 ^ 31 →
  resident bpm page_id f → page_at bpm f = Done pg → 0 < pin_count_ pg →
  (∀ fuel r bpm', NewPgImp fuel bpm = Done (r, bpm') →
     resident bpm' page_id f ∧ page_at bpm' f = Done pg) ∧
  (∀ fuel q r bpm', q ≠ page_id → 0 ≤ q < next_page_id_ bpm →
     FetchPgImp fuel bpm q = Done (r, bpm') →
     resident bpm' page_id f ∧ page_at bpm' f = Done pg) ∧
  (∀ q r bpm', DeletePgImp bpm q = Done (r, bpm') →
     resident bpm' page_id f ∧ page_at bpm' f = Done pg).
Proof.
  intros Hr Hts Hnext Hres Hpg Hpin. pose proof (reachable_pool_inv bpm Hr) as Hinv.
  assert (∀ g old, page_at bpm g = Done old →
            frame_free bpm g old ∨ frame_used bpm g old ∧ pin_count_ old = 0 →
            g ≠ f) as Hother.
  { intros g old Hold Hst ->. rewrite Hpg in Hold. injection Hold as <-.
    destruct Hst as [[Hl _ _]|[_ Hz]]; [|lia].
    by destruct (resident_used None bpm page_id f Hinv Hres)
      as (pg0 & _ & _ & [Hnl _ _ _ _]). }
  split_and!.
  - intros fuel r bpm' Hrun.
    destruct (NewPgImp_spec fuel bpm r bpm' Hinv Hts Hnext Hrun) as [_ Hspec].
    destruct r as [[q g]|]; [|by destruct Hspec as [-> _]].
    destruct Hspec as (_ & _ & _ & Hpages & Hres' & old & Hold & Hst & _).
    pose proof (Hother g old Hold Hst) as Hne.
    split; [apply Hres'; by right|]. by rewrite Hpages.
  - intros fuel q r bpm' Hq Hqr Hrun.
    destruct (FetchPgImp_spec fuel bpm q r bpm' Hinv Hts Hqr Hrun)
      as [_ [(g & pg0 & Hqg & Hpg0 & _ & _ & Hpages & Hres' & _)|[Hnot Hspec]]].
    + assert (g ≠ f) as Hne.
      { intros ->. by destruct Hq; apply (resident_frame_inj None bpm _ _ f Hinv). }
      split; [by apply Hres'|]. by rewrite Hpages.
    + destruct r as [g|]; [|by destruct Hspec as [-> _]].
      destruct Hspec as (_ & Hpages & Hres' & _ & old & Hold & Hst & _).
      pose proof (Hother g old Hold Hst) as Hne.
      split; [apply Hres'; by right|]. by rewrite Hpages.
  - intros q r bpm' Hrun.
    destruct (DeletePgImp_spec bpm q Hinv)
      as (r0 & bpm0 & Hrun0 & _ & [(_ & _ & ->)|(g & pg0 & Hqg & Hpg0 & Hspec)]);
      rewrite Hrun in Hrun0; injection Hrun0 as <- <-; [done|].
    destruct (decide (pin_count_ pg0 = 0)) as [Hz|Hnz];
      [|by destruct Hspec as [_ ->]].
    destruct Hspec as (_ & _ & Hpages & Hres' & _).
    assert (g ≠ f) as Hne.
    { intros ->. rewrite Hpg in Hpg0. injection Hpg0 as <-. lia. }
    assert (page_id ≠ q) as Hpq.
    { intros ->. apply Hne. unfold resident in *. congruence. }
    split; [by apply Hres'|]. by rewrite Hpages.
Qed.

(** X12: in a reachable state [FlushAllPgsImp] completes and leaves no
    page dirty.  It issues one disk write per dirty page, in frame order,
    and none for a clean page: afterwards the disk holds the bytes of every
    page that was dirty and is unchanged for every other page id.  Bytes,
    page ids and pin counts of the frames, the page table, the free list
    and the replacer are as before. *)
Theorem FlushAllPgsImp_cleans bpm :
  reachable bpm →
  ∃ bpm', FlushAllPgsImp bpm = Done bpm' ∧
    (∀ f pg, page_at bpm f = Done pg →
       page_at bpm' f
       = Done (mkPage (data_ pg) (page_id_ pg) (pin_count_ pg) false)) ∧
    (∀ p f pg, resident bpm p f → page_at bpm f = Done pg →
       resident bpm' p f ∧
       disk_ bpm' !! p = if is_dirty_ pg then Some (data_ pg) else disk_ bpm !! p) ∧
    (∀ p, (∀ f, ¬ resident bpm p f) →
       (∀ f, ¬ resident bpm' p f) ∧ disk_ bpm' !! p = disk_ bpm !! p) ∧
    trace_ bpm' = trace_ bpm ++ concat (write_back <$> pages_ bpm) ∧
    free_list_ bpm' = free_list_ bpm ∧ replacer_ bpm' = replacer_ bpm ∧
    next_page_id_ bpm' = next_page_id_ bpm.
Proof.
  intros Hr. pose proof (reachable_pool_inv bpm Hr) as Hinv.
  destruct (FlushAllPgsImp_spec bpm Hinv)
    as (bpm' & Hrun & _ & Hpages & Hres & Hfl & Hnext & Hrep & Hdisk & Hdisk0 & Htrace).
  exists bpm'. split; [done|]. split; [done|]. split.
  { intros p f pg Hp Hpg. split; [by apply Hres|by apply (Hdisk p f pg)]. }
  split; [|done]. intros p Hnot. split; [|by apply Hdisk0].
  intros f Hf. apply Hres in Hf. by destruct (Hnot f).
Qed.

(** X13: in a reachable state [DeletePgImp] completes.  For a page that is
    not resident it returns true and for a pinned page false, and changes
    nothing.  For an unpinned resident page it returns true: the page is no
    longer resident, its frame is zeroed, carries no page id and is the last
    of the free list, the replacer has one evictable frame less, and nothing
    is written to disk, though the page be dirty.  The other pages stay
    where they are. *)
Theorem DeletePgImp_cases bpm page_id :
  reachable bpm →
  ∃ r bpm', DeletePgImp bpm page_id = Done (r, bpm') ∧
    (((∀ f, ¬ resident bpm page_id f) ∧ r = true ∧ bpm' = bpm) ∨
     (∃ f pg, resident bpm page_id f ∧ page_at bpm f = Done pg ∧
        0 < pin_count_ pg ∧ r = false ∧ bpm' = bpm) ∨
     (∃ f pg, resident bpm page_id f ∧ page_at bpm f = Done pg ∧
        pin_count_ pg = 0 ∧ r = true ∧
        (∀ g, ¬ resident bpm' page_id g) ∧
        page_at bpm' f = Done (mkPage zeroed INVALID_PAGE_ID 0 false) ∧
        free_list_ bpm' = free_list_ bpm ++ [f] ∧
        LRUK.Size (replacer_ bpm') = LRUK.Size (replacer_ bpm) - 1 ∧
        LRUK.frame_table_ (replacer_ bpm') !! f = None ∧
        disk_ bpm' = disk_ bpm ∧
        trace_ bpm' = trace_ bpm ++ [EvResetMemory f] ∧
        (∀ q g, q ≠ page_id → (resident bpm' q g ↔ resident bpm q g)) ∧
        (∀ g, g ≠ f → page_at bpm' g = page_at bpm g))).
Proof.
  intros Hr. pose proof (reachable_pool_inv bpm Hr) as Hinv.
  destruct (DeletePgImp_spec bpm page_id Hinv)
    as (r & bpm' & Hrun & _ & [Hnot|(f & pg & Hres & Hpg & Hspec)]).
  { exists r, bpm'. split; [done|]. by left. }
  exists r, bpm'. split; [done|]. right.
  destruct (resident_used None bpm page_id f Hinv Hres) as (pg0 & Hpg0 & _ & Hu).
  rewrite Hpg in Hpg0. injection Hpg0 as <-. pose proof (fu_pin _ _ _ Hu) as Hpin.
  destruct (decide (pin_count_ pg = 0)) as [Hz|Hnz].
  - right. exists f, pg.
    destruct Hspec as (-> & Hpage & Hpages & Hres' & Hfl & Hnext & Hft & Hsize
                         & Hdisk & Htrace).
    split_and!; try done.
    + intros g Hg. apply Hres' in Hg. naive_solver.
    + rewrite Hft. apply lookup_delete_eq.
    + intros q g Hq. rewrite Hres'. naive_solver.
  - left. exists f, pg. destruct Hspec as [-> ->]. split_and!; try done. lia.
Qed.

(** X14: in a reachable state [FlushPgImp] completes; it returns false and
    changes nothing when the page is not resident, and else writes the bytes
    of the page to disk, dirty or not, and clears the dirty flag.  Flushing a
    pinned page and unpinning it with [is_dirty = false] leaves the page
    clean with the disk holding its bytes. *)
Theorem FlushPgImp_writes_page bpm page_id :
  reachable bpm →
  ∃ r bpm', FlushPgImp bpm page_id = Done (r, bpm') ∧
    (((∀ f, ¬ resident bpm page_id f) ∧ r = false ∧ bpm' = bpm) ∨
     (∃ f pg, resident bpm page_id f ∧ page_at bpm f = Done pg ∧ r = true ∧
        resident bpm' page_id f ∧
        page_at bpm' f = Done (mkPage (data_ pg) page_id (pin_count_ pg) false) ∧
        disk_ bpm' = <[page_id := data_ pg]> (disk_ bpm) ∧
        trace_ bpm' = trace_ bpm ++ [EvWritePage page_id (data_ pg)] ∧
        (∀ g, g ≠ f → page_at bpm' g = page_at bpm g) ∧
        (0 < pin_count_ pg →
         ∃ bpm'', UnpinPgImp bpm' page_id false = Done (true, bpm'') ∧
           page_at bpm'' f
             = Done (mkPage (data_ pg) page_id (pin_count_ pg - 1) false) ∧
           disk_ bpm'' !! page_id = Some (data_ pg)))).
Proof.
  intros Hr. pose proof (reachable_pool_inv bpm Hr) as Hinv.
  destruct (FlushPgImp_spec bpm page_id Hinv)
    as (r & bpm' & Hrun & Hinv' & [Hnot|(f & pg & Hres & Hpg & -> & Hpage & Hpages
          & Hres' & Hfl & Hnext & Hrep & Hdisk & Htrace)]).
  { exists r, bpm'. split; [done|]. by left. }
  exists true, bpm'. split; [done|]. right. exists f, pg.
  split_and!; try done; [by apply Hres'|].
  intros Hpin.
  destruct (UnpinPgImp_spec bpm' page_id false Hinv')
    as (r2 & bpm2 & Hrun2 & _ & [(Hnot & _)|(f2 & pg2 & Hres2 & Hpg2 & Hspec)]).
  { destruct (Hnot f). by apply Hres'. }
  assert (f2 = f) as ->.
  { apply Hres' in Hres2. unfold resident in *. congruence. }
  rewrite Hpage in Hpg2. injection Hpg2 as <-. cbn in Hspec.
  rewrite decide_False in Hspec by lia.
  destruct Hspec as (-> & Hpage2 & _ & _ & _ & _ & Hdisk2 & _).
  exists bpm2. split; [done|]. split; [done|].
  rewrite Hdisk2, Hdisk. apply lookup_insert_eq.
Qed.

(** X15: in a reachable state no operation of the pool reads or writes
    outside the frame array or the directory of the page table:
    [UnpinPgImp], [FlushPgImp], [FlushAllPgsImp] and [DeletePgImp] complete,
    and [NewPgImp] and [FetchPgImp] do not fault, whatever the fuel for the
    page table's insert loop. *)
Theorem pool_operations_safe bpm :
  reachable bpm →
  (∀ fuel, NewPgImp fuel bpm ≠ Fault) ∧
  (∀ fuel page_id, FetchPgImp fuel bpm page_id ≠ Fault) ∧
  (∀ page_id is_dirty, ∃ r, UnpinPgImp bpm page_id is_dirty = Done r) ∧
  (∀ page_id, ∃ r, FlushPgImp bpm page_id = Done r) ∧
  (∃ bpm', FlushAllPgsImp bpm = Done bpm') ∧
  (∀ page_id, ∃ r, DeletePgImp bpm page_id = Done r).
Proof.
  intros Hr. pose proof (reachable_pool_inv bpm Hr) as Hinv.
  assert (∀ fuel bpm1 f p A (k : BufferPoolManagerInstance → outcome A),
            EHT.reachable hash_page_id (page_table_ bpm1) →
            (∀ b, k b ≠ Fault) →
            register_frame fuel bpm1 p f ≫= k ≠ Fault) as Hreg.
  { intros fuel bpm1 f p A k Hreach Hk. unfold register_frame.
    destruct (reachable_inv _ _ Hreach) as [Htinv _].
    pose proof (Insert_no_Fault hash_page_id (λ _, True) fuel (page_table_ bpm1) p f
                  Htinv I) as Hnf.
    destruct (EHT.Insert hash_page_id fuel (page_table_ bpm1) p f);
      cbn [mbind outcome_bind]; [apply Hk|done|done|done]. }
  split_and!.
  - intros fuel. unfold NewPgImp.
    destruct (obtain_frame_spec bpm Hinv)
      as [(-> & _)|(f & bpm1 & old & -> & Hinv1 & _)]; cbn [mbind outcome_bind];
      [done|].
    unfold AllocatePage. apply Hreg; [|done]. apply Hinv1.
  - intros fuel page_id. unfold FetchPgImp.
    destruct (resident_cases None bpm page_id Hinv)
      as [[Hfind Hnot]|(f & pg & Hfind & Hpg & _)];
      rewrite Hfind; cbn [mbind outcome_bind].
    + destruct (obtain_frame_spec bpm Hinv)
        as [(-> & _)|(f & bpm1 & old & -> & Hinv1 & _)]; cbn [mbind outcome_bind];
        [done|].
      unfold ReadPage. cbv beta iota zeta. apply Hreg; [|done]. apply Hinv1.
    + by rewrite Hpg.
  - intros page_id is_dirty.
    destruct (UnpinPgImp_spec bpm page_id is_dirty Hinv) as (r & bpm' & -> & _).
    by eexists.
  - intros page_id.
    destruct (FlushPgImp_spec bpm page_id Hinv) as (r & bpm' & -> & _). by eexists.
  - destruct (FlushAllPgsImp_spec bpm Hinv) as (bpm' & -> & _). by eexists.
  - intros page_id.
    destruct (DeletePgImp_spec bpm page_id Hinv) as (r & bpm' & -> & _). by eexists.
Qed.

(** A call that takes the frame [f0] for another page keeps the bytes of
    page [p]. *)
Lemma evict_keeps_bytes bpm bpm' f0 old p bytes :
  pool_inv None bpm → page_at bpm f0 = Done old →
  frame_free bpm f0 old ∨ frame_used bpm f0 old ∧ pin_count_ old = 0 →
  (∀ g, g ≠ f0 → page_at bpm' g = page_at bpm g) →
  (∀ g, resident bpm' p g ↔ resident bpm p g ∧ g ≠ f0) →
  disk_ bpm' = (if is_dirty_ old
                then <[page_id_ old := data_ old]> (disk_ bpm)
                else disk_ bpm) →
  page_bytes bpm p bytes → clean_copy_on_disk bpm p →
  page_bytes bpm' p bytes ∧ clean_copy_on_disk bpm' p.
Proof.
  intros Hinv Hold Hst Hpages Hres Hdisk Hbytes Hsync.
  assert (resident bpm p f0 ∨ ¬ resident bpm p f0) as [Hp0|Hp0].
  { destruct (resident_cases None bpm p Hinv) as [[_ Hnot]|(f & pg & Hf & _)].
    - right. apply Hnot.
    - destruct (decide (f = f0)) as [->|Hne]; [by left|right].
      intros Hf0. unfold resident in Hf0. congruence. }
  - (* the frame of [p] itself is taken *)
    assert (∀ g, ¬ resident bpm' p g) as Hnot.
    { intros g Hg. apply Hres in Hg as [Hg Hne]. apply Hne.
      unfold resident in *. congruence. }
    destruct (resident_used None bpm p f0 Hinv Hp0) as (pg & Hpg & Hid & _).
    rewrite Hold in Hpg. injection Hpg as <-.
    split; [|intros g pg Hg; by destruct (Hnot g)].
    right. split; [done|].
    destruct Hbytes as [(f & pg & Hf & Hpg & <-)|[Hnone _]]; [|by destruct (Hnone f0)].
    assert (f = f0) as -> by (unfold resident in *; congruence).
    rewrite Hold in Hpg. injection Hpg as <-.
    rewrite Hdisk. destruct (is_dirty_ old) eqn:Hd.
    + by rewrite Hid, lookup_insert_eq.
    + symmetry. by apply (Hsync f0 old).
  - assert (disk_ bpm' !! p = disk_ bpm !! p) as Hsame.
    { rewrite Hdisk. by apply (write_back_other bpm f0 old p Hinv Hold). }
    assert (∀ g, resident bpm' p g ↔ resident bpm p g) as Hres'.
    { intros g. rewrite Hres. split; [naive_solver|]. intros Hg. split; [done|].
      by intros ->. }
    split.
    + destruct Hbytes as [(f & pg & Hf & Hpg & <-)|[Hnone <-]].
      * left. exists f, pg. split; [by apply Hres'|]. split; [|done].
        rewrite Hpages; [done|]. by intros ->.
      * right. split; [|by rewrite Hsame]. intros g Hg. apply Hres' in Hg.
        by destruct (Hnone g).
    + intros g pg Hg Hpg Hd. apply Hres' in Hg. rewrite Hsame.
      apply (Hsync g pg); [done| |done]. rewrite <- Hpages; [done|]. by intros ->.
Qed.

(** A call that moves no page and keeps the bytes of [p], in its frame or
    on disk, keeps the bytes of [p]. *)
Lemma same_keeps_bytes bpm bpm' p bytes :
  (∀ g pg, resident bpm p g → page_at bpm g = Done pg →
     ∃ pg', page_at bpm' g = Done pg' ∧ data_ pg' = data_ pg ∧
            (is_dirty_ pg' = false →
             (is_dirty_ pg = false ∧ disk_ bpm' !! p = disk_ bpm !! p) ∨
             disk_ bpm' !! p = Some (data_ pg))) →
  (∀ g, resident bpm' p g ↔ resident bpm p g) →
  ((∀ g, ¬ resident bpm p g) → disk_ bpm' !! p = disk_ bpm !! p) →
  (∀ g, resident bpm p g → ∃ pg, page_at bpm g = Done pg) →
  page_bytes bpm p bytes → clean_copy_on_disk bpm p →
  page_bytes bpm' p bytes ∧ clean_copy_on_disk bpm' p.
Proof.
  intros Hpages Hres Hdisk Hex Hbytes Hsync. split.
  - destruct Hbytes as [(f & pg & Hf & Hpg & <-)|[Hnone <-]].
    + left. destruct (Hpages f pg Hf Hpg) as (pg' & Hpg' & Hdata & _).
      exists f, pg'. split; [by apply Hres|]. by split.
    + right. split; [|by rewrite Hdisk]. intros g Hg. apply Hres in Hg.
      by destruct (Hnone g).
  - intros g pg' Hg Hpg' Hd. apply Hres in Hg.
    destruct (Hex g Hg) as [pg Hpg].
    destruct (Hpages g pg Hg Hpg) as (pg0 & Hpg0 & Hdata & Hflag).
    rewrite Hpg' in Hpg0. injection Hpg0 as <-.
    destruct (Hflag Hd) as [[Hd0 Hsame]|Hwritten].
    + rewrite Hdata, Hsame. by apply (Hsync g pg).
    + by rewrite Hwritten, Hdata.
Qed.

(** X16: the pool does not lose the bytes of a page.  Let the bytes of a
    page be those of its frame when it is resident and else those on disk,
    and let its resident copy, when not dirty, equal the disk copy.  Then
    [NewPgImp], [FetchPgImp], [UnpinPgImp], [FlushPgImp], [FlushAllPgsImp]
    and [DeletePgImp] of another page leave the bytes of the page what they
    were, whether the page is evicted, written back, or read in again, and
    the clean copy still equals the disk copy. *)
Theorem page_bytes_survive bpm p bytes :
  reachable bpm → can_record bpm → next_page_id_ bpm + 1 < 2 ^ 31 →
  0 ≤ p < next_page_id_ bpm →
  page_bytes bpm p bytes → clean_copy_on_disk bpm p →
  (∀ fuel r bpm', NewPgImp fuel bpm = Done (r, bpm') →
     page_bytes bpm' p bytes ∧ clean_copy_on_disk bpm' p) ∧
  (∀ fuel q r bpm', 0 ≤ q < next_page_id_ bpm →
     FetchPgImp fuel bpm q = Done (r, bpm') →
     page_bytes bpm' p bytes ∧ clean_copy_on_disk bpm' p) ∧
  (∀ q is_dirty r bpm', UnpinPgImp bpm q is_dirty = Done (r, bpm') →
     page_bytes bpm' p bytes ∧ clean_copy_on_disk bpm' p) ∧
  (∀ q r bpm', FlushPgImp bpm q = Done (r, bpm') →
     page_bytes bpm' p bytes ∧ clean_copy_on_disk bpm' p) ∧
  (∀ bpm', FlushAllPgsImp bpm = Done bpm' →
     page_bytes bpm' p bytes ∧ clean_copy_on_disk bpm' p) ∧
  (∀ q r bpm', q ≠ p → DeletePgImp bpm q = Done (r, bpm') →
     page_bytes bpm' p bytes ∧ clean_copy_on_disk bpm' p).
Proof.
  intros Hr Hts Hnext Hp Hbytes Hsync. pose proof (reachable_pool_inv bpm Hr) as Hinv.
  assert (∀ g, resident bpm p g → ∃ pg, page_at bpm g = Done pg) as Hex.
  { intros g Hg. destruct (resident_used None bpm p g Hinv Hg) as (pg & Hpg & _).
    by exists pg. }
  assert (∀ g h, resident bpm p g → resident bpm p h → g = h) as Hfun.
  { intros g h Hg Hh. unfold resident in *. congruence. }
  split_and!.
  - intros fuel r bpm' Hrun.
    destruct (NewPgImp_spec fuel bpm r bpm' Hinv Hts Hnext Hrun) as [_ Hspec].
    destruct r as [[q f0]|]; [|by destruct Hspec as [-> _]].
    destruct Hspec as (-> & _ & _ & Hpages & Hres' & old & Hold & Hst & _ & Hdisk & _).
    apply (evict_keeps_bytes bpm bpm' f0 old p bytes); try done.
    intros g. rewrite Hres'. split; [|naive_solver]. intros [[Heq _]|Hg]; [lia|done].
  - intros fuel q r bpm' Hq Hrun.
    destruct (FetchPgImp_spec fuel bpm q r bpm' Hinv Hts Hq Hrun)
      as [_ [(f & pg & Hqf & Hpg & _ & Hpage & Hpages & Hres' & _ & _ & Hdisk & _)
            |[Hnot Hspec]]].
    + apply (same_keeps_bytes bpm bpm' p bytes); try done.
      * intros g pg0 Hg Hpg0. destruct (decide (g = f)) as [->|Hne].
        -- rewrite Hpg in Hpg0. injection Hpg0 as <-. eexists. split; [exact Hpage|].
           split; [done|]. cbn. intros Hd. left. by rewrite Hdisk.
        -- exists pg0. rewrite Hpages by done. split; [done|]. split; [done|].
           intros Hd. left. by rewrite Hdisk.
      * intros _. by rewrite Hdisk.
    + destruct r as [f0|]; [|by destruct Hspec as [-> _]].
      destruct Hspec as (Hpage & Hpages & Hres' & _ & old & Hold & Hst & _ & Hdisk & _).
      destruct (decide (q = p)) as [->|Hqp].
      * destruct Hbytes as [(f & pg & Hf & _)|[_ <-]]; [by destruct (Hnot f)|].
        assert (∀ g, resident bpm' p g ↔ g = f0) as Hres0.
        { intros g. rewrite Hres'. split; [|naive_solver].
          intros [[_ ->]|[Hg _]]; [done|by destruct (Hnot g)]. }
        split.
        -- left. eexists f0, _. split; [by apply Hres0|]. split; [exact Hpage|done].
        -- intros g pg Hg Hpg Hd. apply Hres0 in Hg as ->.
           rewrite Hpage in Hpg. injection Hpg as <-. cbn. f_equal.
           rewrite Hdisk. symmetry.
           apply (write_back_other bpm f0 old p Hinv Hold). apply Hnot.
      * apply (evict_keeps_bytes bpm bpm' f0 old p bytes); try done.
        intros g. rewrite Hres'. split; [|naive_solver].
        intros [[Heq _]|Hg]; [congruence|done].
  - intros q is_dirty r bpm' Hrun.
    destruct (UnpinPgImp_spec bpm q is_dirty Hinv)
      as (r0 & bpm0 & Hrun0 & _ & [(_ & _ & ->)|(f & pg & Hqf & Hpg & Hspec)]);
      rewrite Hrun in Hrun0; injection Hrun0 as <- <-; [done|].
    destruct (decide (pin_count_ pg = 0)); [by destruct Hspec as [_ ->]|].
    destruct Hspec as (_ & Hpage & Hpages & Hres' & _ & _ & Hdisk & _).
    apply (same_keeps_bytes bpm bpm' p bytes); try done.
    + intros g pg0 Hg Hpg0. destruct (decide (g = f)) as [->|Hne].
      * rewrite Hpg in Hpg0. injection Hpg0 as <-. eexists. split; [exact Hpage|].
        split; [done|]. cbn. intros Hd. left. rewrite Hdisk.
        by destruct is_dirty.
      * exists pg0. rewrite Hpages by done. split; [done|]. split; [done|].
        intros Hd. left. by rewrite Hdisk.
    + intros _. by rewrite Hdisk.
  - intros q r bpm' Hrun.
    destruct (FlushPgImp_spec bpm q Hinv)
      as (r0 & bpm0 & Hrun0 & _ & [(_ & _ & ->)|(f & pg & Hqf & Hpg & _ & Hpage
            & Hpages & Hres' & _ & _ & _ & Hdisk & _)]);
      rewrite Hrun in Hrun0; injection Hrun0 as <- <-; [done|].
    apply (same_keeps_bytes bpm bpm' p bytes); try done.
    + intros g pg0 Hg Hpg0. destruct (decide (g = f)) as [->|Hne].
      * rewrite Hpg in Hpg0. injection Hpg0 as <-.
        assert (q = p) as -> by (by apply (resident_frame_inj None bpm _ _ f Hinv)).
        eexists. split; [exact Hpage|]. split; [done|]. intros _. right.
        rewrite Hdisk. apply lookup_insert_eq.
      * exists pg0. rewrite Hpages by done. split; [done|]. split; [done|].
        intros Hd. left. split; [done|]. rewrite Hdisk. apply lookup_insert_ne.
        intros ->. apply Hne. unfold resident in *. congruence.
    + intros Hnot. rewrite Hdisk. apply lookup_insert_ne. intros ->.
      by destruct (Hnot f).
  - intros bpm' Hrun.
    destruct (FlushAllPgsImp_spec bpm Hinv)
      as (bpm0 & Hrun0 & _ & Hpages & Hres' & _ & _ & _ & Hdisk & Hdisk0 & _).
    rewrite Hrun in Hrun0. injection Hrun0 as <-.
    apply (same_keeps_bytes bpm bpm' p bytes); try done.
    + intros g pg Hg Hpg. eexists. split; [by apply Hpages|]. split; [done|].
      intros _. rewrite (Hdisk p g pg Hg Hpg).
      destruct (is_dirty_ pg); [by right|by left].
    + apply Hdisk0.
  - intros q r bpm' Hqp Hrun.
    destruct (DeletePgImp_spec bpm q Hinv)
      as (r0 & bpm0 & Hrun0 & _ & [(_ & _ & ->)|(f & pg & Hqf & Hpg & Hspec)]);
      rewrite Hrun in Hrun0; injection Hrun0 as <- <-; [done|].
    destruct (decide (pin_count_ pg = 0)); [|by destruct Hspec as [_ ->]].
    destruct Hspec as (_ & _ & Hpages & Hres' & _ & _ & _ & _ & Hdisk & _).
    apply (same_keeps_bytes bpm bpm' p bytes); try done.
    + intros g pg0 Hg Hpg0. exists pg0.
      rewrite Hpages; [|intros ->; apply Hqp;
                         by apply (resident_frame_inj None bpm _ _ f Hinv)].
      split; [done|]. split; [done|]. intros Hd. left. by rewrite Hdisk.
    + intros g. rewrite Hres'. naive_solver.
    + intros _. by rewrite Hdisk.
Qed.

Lemma poolP_reachable : reachable poolP.
Proof.
  apply (reach_UnpinPg poolP3 1 true true poolP); [|by vm_compute].
  apply (reach_write poolP2 1 (mkPage zeroed 1 1 false) scenarioC_payload poolP3);
    [|by vm_compute|by vm_compute|by vm_compute].
  apply (reach_NewPg 64 poolP1 (Some (1, 1)) poolP2);
    [|by vm_compute|by vm_compute|by vm_compute].
  apply (reach_NewPg 64 (init 2 2 4) (Some (0, 0)) poolP1);
    [|by vm_compute|by vm_compute|by vm_compute].
  apply reach_init; lia.
Qed.

Lemma pool_consistent_witness :
  let bpm := poolP in
  reachable bpm ∧
  ((∀ page_id f, resident bpm page_id f →
     0 ≤ f < pool_size_ bpm ∧ (f ∉ free_list_ bpm) ∧
     ∃ pg, page_at bpm f = Done pg ∧ page_id_ pg = page_id ∧
       0 ≤ page_id < next_page_id_ bpm ∧ 0 ≤ pin_count_ pg ∧
       (LRUK.evictable (replacer_ bpm) f ↔ pin_count_ pg = 0)) ∧
  (∀ p q f, resident bpm p f → resident bpm q f → p = q) ∧
  NoDup (free_list_ bpm) ∧
  (∀ f, f ∈ free_list_ bpm →
     page_at bpm f = Done Page_default ∧
     LRUK.frame_table_ (replacer_ bpm) !! f = None) ∧
  (∀ f, 0 ≤ f < pool_size_ bpm →
     ∃ pg, page_at bpm f = Done pg ∧
       (f ∈ free_list_ bpm ∨ resident bpm (page_id_ pg) f))).
Proof.
  intros bpm. split; [apply poolP_reachable|].
  apply (pool_consistent bpm poolP_reachable).
Defined.

Lemma no_frame_iff_all_pinned_witness :
  let bpm := poolP in
  reachable bpm ∧
  ((∀ fuel bpm',
     NewPgImp fuel bpm = Done (None, bpm') ↔
     bpm' = bpm ∧ free_list_ bpm = [] ∧
     ∀ f pg, page_at bpm f = Done pg → 0 < pin_count_ pg) ∧
  (∀ fuel page_id bpm',
     FetchPgImp fuel bpm page_id = Done (None, bpm') ↔
     bpm' = bpm ∧ (∀ f, ¬ resident bpm page_id f) ∧ free_list_ bpm = [] ∧
     ∀ f pg, page_at bpm f = Done pg → 0 < pin_count_ pg)).
Proof.
  intros bpm. split; [apply poolP_reachable|].
  apply (no_frame_iff_all_pinned bpm poolP_reachable).
Defined.

Lemma pinned_page_stays_witness :
  let bpm := poolP in
  let page_id := 0 in
  let f := 0 in
  let pg := mkPage zeroed 0 1 false in
  (reachable bpm ∧ can_record bpm ∧ next_page_id_ bpm + 1 < 2 ^ 31 ∧
   resident bpm page_id f ∧ page_at bpm f = Done pg ∧ 0 < pin_count_ pg) ∧
  ((∀ fuel r bpm', NewPgImp fuel bpm = Done (r, bpm') →
     resident bpm' page_id f ∧ page_at bpm' f = Done pg) ∧
  (∀ fuel q r bpm', q ≠ page_id → 0 ≤ q < next_page_id_ bpm →
     FetchPgImp fuel bpm q = Done (r, bpm') →
     resident bpm' page_id f ∧ page_at bpm' f = Done pg) ∧
  (∀ q r bpm', DeletePgImp bpm q = Done (r, bpm') →
     resident bpm' page_id f ∧ page_at bpm' f = Done pg)).
Proof.
  intros bpm page_id f pg.
  assert (can_record bpm) as H1 by (by vm_compute).
  assert (next_page_id_ bpm + 1 < 2 ^ 31) as H2 by (by vm_compute).
  assert (resident bpm page_id f) as H3 by (by vm_compute).
  assert (page_at bpm f = Done pg) as H4 by (by vm_compute).
  assert (0 < pin_count_ pg) as H5 by (by vm_compute).
  split; [split_and!; try done; apply poolP_reachable|].
  apply (pinned_page_stays bpm page_id f pg poolP_reachable H1 H2 H3 H4 H5).
Defined.

Lemma FlushAllPgsImp_cleans_witness :
  let bpm := poolP in
  reachable bpm ∧
  (∃ bpm', FlushAllPgsImp bpm = Done bpm' ∧
    (∀ f pg, page_at bpm f = Done pg →
       page_at bpm' f
       = Done (mkPage (data_ pg) (page_id_ pg) (pin_count_ pg) false)) ∧
    (∀ p f pg, resident bpm p f → page_at bpm f = Done pg →
       resident bpm' p f ∧
       disk_ bpm' !! p = if is_dirty_ pg then Some (data_ pg) else disk_ bpm !! p) ∧
    (∀ p, (∀ f, ¬ resident bpm p f) →
       (∀ f, ¬ resident bpm' p f) ∧ disk_ bpm' !! p = disk_ bpm !! p) ∧
    trace_ bpm' = trace_ bpm ++ concat (write_back <$> pages_ bpm) ∧
    free_list_ bpm' = free_list_ bpm ∧ replacer_ bpm' = replacer_ bpm ∧
    next_page_id_ bpm' = next_page_id_ bpm).
Proof.
  intros bpm. split; [apply poolP_reachable|].
  apply (FlushAllPgsImp_cleans bpm poolP_reachable).
Defined.

Lemma DeletePgImp_cases_witness :
  let bpm := poolP in
  let page_id := 1 in
  reachable bpm ∧
  (∃ r bpm', DeletePgImp bpm page_id = Done (r, bpm') ∧
    (((∀ f, ¬ resident bpm page_id f) ∧ r = true ∧ bpm' = bpm) ∨
     (∃ f pg, resident bpm page_id f ∧ page_at bpm f = Done pg ∧
        0 < pin_count_ pg ∧ r = false ∧ bpm' = bpm) ∨
     (∃ f pg, resident bpm page_id f ∧ page_at bpm f = Done pg ∧
        pin_count_ pg = 0 ∧ r = true ∧
        (∀ g, ¬ resident bpm' page_id g) ∧
        page_at bpm' f = Done (mkPage zeroed INVALID_PAGE_ID 0 false) ∧
        free_list_ bpm' = free_list_ bpm ++ [f] ∧
        LRUK.Size (replacer_ bpm') = LRUK.Size (replacer_ bpm) - 1 ∧
        LRUK.frame_table_ (replacer_ bpm') !! f = None ∧
        disk_ bpm' = disk_ bpm ∧
        trace_ bpm' = trace_ bpm ++ [EvResetMemory f] ∧
        (∀ q g, q ≠ page_id → (resident bpm' q g ↔ resident bpm q g)) ∧
        (∀ g, g ≠ f → page_at bpm' g = page_at bpm g)))).
Proof.
  intros bpm page_id. split; [apply poolP_reachable|].
  apply (DeletePgImp_cases bpm page_id poolP_reachable).
Defined.

Lemma FlushPgImp_writes_page_witness :
  let bpm := poolP in
  let page_id := 0 in
  reachable bpm ∧
  (∃ r bpm', FlushPgImp bpm page_id = Done (r, bpm') ∧
    (((∀ f, ¬ resident bpm page_id f) ∧ r = false ∧ bpm' = bpm) ∨
     (∃ f pg, resident bpm page_id f ∧ page_at bpm f = Done pg ∧ r = true ∧
        resident bpm' page_id f ∧
        page_at bpm' f = Done (mkPage (data_ pg) page_id (pin_count_ pg) false) ∧
        disk_ bpm' = <[page_id := data_ pg]> (disk_ bpm) ∧
        trace_ bpm' = trace_ bpm ++ [EvWritePage page_id (data_ pg)] ∧
        (∀ g, g ≠ f → page_at bpm' g = page_at bpm g) ∧
        (0 < pin_count_ pg →
         ∃ bpm'', UnpinPgImp bpm' page_id false = Done (true, bpm'') ∧
           page_at bpm'' f
             = Done (mkPage (data_ pg) page_id (pin_count_ pg - 1) false) ∧
           disk_ bpm'' !! page_id = Some (data_ pg))))).
Proof.
  intros bpm page_id. split; [apply poolP_reachable|].
  apply (FlushPgImp_writes_page bpm page_id poolP_reachable).
Defined.

Lemma pool_operations_safe_witness :
  let bpm := poolP in
  reachable bpm ∧
  ((∀ fuel, NewPgImp fuel bpm ≠ Fault) ∧
  (∀ fuel page_id, FetchPgImp fuel bpm page_id ≠ Fault) ∧
  (∀ page_id is_dirty, ∃ r, UnpinPgImp bpm page_id is_dirty = Done r) ∧
  (∀ page_id, ∃ r, FlushPgImp bpm page_id = Done r) ∧
  (∃ bpm', FlushAllPgsImp bpm = Done bpm') ∧
  (∀ page_id, ∃ r, DeletePgImp bpm page_id = Done r)).
Proof.
  intros bpm. split; [apply poolP_reachable|].
  apply (pool_operations_safe bpm poolP_reachable).
Defined.

Lemma page_bytes_survive_witness :
  let bpm := poolP in
  let p := 1 in
  let bytes := scenarioC_payload in
  (reachable bpm ∧ can_record bpm ∧ next_page_id_ bpm + 1 < 2 ^ 31 ∧
   0 ≤ p < next_page_id_ bpm ∧
   page_bytes bpm p bytes ∧ clean_copy_on_disk bpm p) ∧
  ((∀ fuel r bpm', NewPgImp fuel bpm = Done (r, bpm') →
     page_bytes bpm' p bytes ∧ clean_copy_on_disk bpm' p) ∧
  (∀ fuel q r bpm', 0 ≤ q < next_page_id_ bpm →
     FetchPgImp fuel bpm q = Done (r, bpm') →
     page_bytes bpm' p bytes ∧ clean_copy_on_disk bpm' p) ∧
  (∀ q is_dirty r bpm', UnpinPgImp bpm q is_dirty = Done (r, bpm') →
     page_bytes bpm' p bytes ∧ clean_copy_on_disk bpm' p) ∧
  (∀ q r bpm', FlushPgImp bpm q = Done (r, bpm') →
     page_bytes bpm' p bytes ∧ clean_copy_on_disk bpm' p) ∧
  (∀ bpm', FlushAllPgsImp bpm = Done bpm' →
     page_bytes bpm' p bytes ∧ clean_copy_on_disk bpm' p) ∧
  (∀ q r bpm', q ≠ p → DeletePgImp bpm q = Done (r, bpm') →
     page_bytes bpm' p bytes ∧ clean_copy_on_disk bpm' p)).
Proof.
  intros bpm p bytes.
  assert (can_record bpm) as H1 by (by vm_compute).
  assert (next_page_id_ bpm + 1 < 2 ^ 31) as H2 by (by vm_compute).
  assert (0 ≤ p < next_page_id_ bpm) as H3 by (by vm_compute).
  assert (page_bytes bpm p bytes) as H4.
  { left. exists 1, (mkPage scenarioC_payload 1 0 true). by vm_compute. }
  assert (clean_copy_on_disk bpm p) as H5.
  { intros f pg Hres Hpg Hd. unfold resident in Hres. vm_compute in Hres.
    injection Hres as <-. vm_compute in Hpg. injection Hpg as <-. done. }
  split; [split_and!; try done; apply poolP_reachable|].
  apply (page_bytes_survive bpm p bytes poolP_reachable H1 H2 H3 H4 H5).
Defined.

End bpm_more.



(* ===================================================================== *)
(** * Further properties of the B+tree pages *)
(* ===================================================================== *)

Section bpt_leaf_page.
Import BPT.

Implicit Types (n : Node) (a : list (Z * Z)).

(** The binary search finds a key that is there. *)
Lemma bsearch_found rounds a key i : ∀ left right,
  StronglySorted Z.lt a.*1 → a.*1 !! i = Some key →
  0 ≤ left ≤ Z.of_nat i → Z.of_nat i ≤ right < Z.of_nat (length a) →
  right - left + 1 < Z.of_nat rounds →
  bsearch rounds a key left right = -1.
Proof.
  induction rounds as [|rounds IH]; intros left right Hs Hi Hl Hr Hrounds; [lia|].
  simpl. destruct (Z.leb_spec left right) as [_|Hgt]; [|lia].
  set (mid := left + (right - left) / 2).
  assert (left ≤ mid ≤ right) as Hmid.
  { unfold mid. pose proof (Z.div_pos (right - left) 2).
    pose proof (Z.mul_div_le (right - left) 2). lia. }
  destruct (a !! Z.to_nat mid) as [[k v]|] eqn:Hk.
  - assert (a.*1 !! Z.to_nat mid = Some k) as Hk1 by (by rewrite list_lookup_fmap, Hk).
    destruct (Z.eqb_spec k key) as [_|Hne]; [done|].
    assert (i ≠ Z.to_nat mid) as Him by (intros ->; congruence).
    destruct (Z.ltb_spec k key) as [Hlt|Hge].
    + apply IH; [done|done| |lia|lia].
      destruct (decide (i < Z.to_nat mid)%nat) as [Hlow|]; [|lia].
      pose proof (sorted_lookup a.*1 i (Z.to_nat mid) key k Hs Hi Hk1 Hlow). lia.
    + apply IH; [done|done|lia| |lia].
      destruct (decide (Z.to_nat mid < i)%nat) as [Hhigh|]; [|lia].
      pose proof (sorted_lookup a.*1 (Z.to_nat mid) i k key Hs Hk1 Hi Hhigh). lia.
  - apply lookup_ge_None in Hk. lia.
Qed.

Lemma FindKeyIndex_found n key :
  StronglySorted Z.lt (array_ n).*1 → key ∈ (array_ n).*1 → FindKeyIndex n key = -1.
Proof.
  intros Hs Hin. apply list_elem_of_lookup in Hin as [i Hi].
  pose proof (lookup_lt_Some _ _ _ Hi) as Hlt. rewrite length_fmap in Hlt.
  unfold FindKeyIndex, GetSize. apply (bsearch_found _ _ _ i); [done|done|lia|lia|lia].
Qed.

Lemma FindKeyIndex_new n key :
  StronglySorted Z.lt (array_ n).*1 → key ∉ (array_ n).*1 →
  ∃ r : nat, FindKeyIndex n key = Z.of_nat r ∧ (r ≤ length (array_ n))%nat ∧
    (∀ k, k ∈ (take r (array_ n)).*1 → k < key) ∧
    (∀ k, k ∈ (drop r (array_ n)).*1 → key < k).
Proof.
  intros Hs Hnot. unfold FindKeyIndex, GetSize.
  apply bsearch_spec; try done; try lia.
  intros i k Hi Hlt. apply lookup_lt_Some in Hi. rewrite length_fmap in Hi. lia.
Qed.



End bpt_leaf_page.

(* ===================================================================== *)
(** * Further properties of the B+tree *)
(* ===================================================================== *)

Section bpt_read_only.
Import BPT.
Context {layout : PageLayout}.

Implicit Types (t : BPlusTree).

(** X18: a lookup leaves the pool as it found it.  On a tree whose pages
    have no negative pin count, [GetValue] that completes leaves root,
    sizes, page allocator, header record and the whole pool (every node,
    pin count and dirty flag) unchanged, and its calls on the buffer pool
    are fetches and clean unpins only; and [Remove] of a key that
    [GetValue] does not find completes and changes nothing either. *)
Theorem GetValue_read_only fuel t key r t1 :
  pins_nonneg (pool_ t) →
  GetValue fuel key t = Done (r, t1) →
  (same_fields t t1 ∧ pool_ t1 = pool_ t ∧
   ∃ calls, calls_ t1 = calls_ t ++ calls ∧ Forall clean_call calls) ∧
  (r = None →
   ∃ t', Remove fuel key t = Done (tt, t') ∧
     same_fields t t' ∧ pool_ t' = pool_ t ∧
     ∃ calls, calls_ t' = calls_ t ++ calls ∧ Forall clean_call calls).
Proof.
  intros Hnn. unfold GetValue, Remove. rewrite !bind_run. cbn [get].
  destruct (IsEmpty t) eqn:Hne.
  { intros [= <- <-]. split.
    - split; [apply same_fields_refl|]. split; [done|]. exists [].
      by rewrite app_nil_r.
    - intros _. exists t. split; [done|]. split; [apply same_fields_refl|].
      split; [done|]. exists []. by rewrite app_nil_r. }
  intros Hrun. apply bind_Done in Hrun as (res & t2 & Hfind & Hrun).
  destruct (FindLeafPage_pinned fuel key t res t2 Hne Hnn Hfind)
    as (leaf & -> & [fr Hfr] & Hpool2 & Hsame2 & l & Hcalls2 & Hclean).
  apply bind_Done in Hrun as (n & t3 & Hnode & Hrun).
  unfold node_at in Hnode. rewrite Hpool2, lookup_alter_eq, Hfr in Hnode.
  cbn in Hnode. injection Hnode as <- <-.
  destruct (UnpinPage_pinned leaf (pool_ t) t2 Hnn ltac:(by eexists) Hpool2)
    as (t4 & Hunpin & Hpool4 & Hsame4 & Hcalls4).
  assert (same_fields t t4 ∧ pool_ t4 = pool_ t ∧
          ∃ calls, calls_ t4 = calls_ t ++ calls ∧ Forall clean_call calls) as Hback.
  { split; [by eapply same_fields_trans|]. split; [done|].
    exists (l ++ [CallUnpinPage leaf false]). split.
    - by rewrite Hcalls4, Hcalls2, <- app_assoc.
    - apply Forall_app. split; [done|]. by repeat constructor. }
  destruct (find_key (node_ fr) key) as [[i v]|] eqn:Hkey.
  - apply bind_Done in Hrun as (b & t5 & Hunpin' & Hrun).
    rewrite Hunpin in Hunpin'. injection Hunpin' as <- <-.
    injection Hrun as <- <-. split; [done|]. intros [=].
  - apply bind_Done in Hrun as (b & t5 & Hunpin' & Hrun).
    rewrite Hunpin in Hunpin'. injection Hunpin' as <- <-.
    injection Hrun as <- <-. split; [done|]. intros _.
    exists t4. split; [|done].
    rewrite bind_run, Hfind, bind_run. unfold node_at.
    rewrite Hpool2, lookup_alter_eq, Hfr. cbn. rewrite Hkey.
    by rewrite bind_run, Hunpin.
Qed.

End bpt_read_only.

Section bpt_read_only_witness.
Import BPT.
#[local] Existing Instance scenario_layout.

Lemma GetValue_read_only_witness :
  let t := scenarioE_tree in
  let t1 := match GetValue 64 11 t with Done (_, t1) => t1 | _ => t end in
  (pins_nonneg (pool_ t) ∧ GetValue 64 11 t = Done (None, t1)) ∧
  (same_fields t t1 ∧ pool_ t1 = pool_ t ∧
   ∃ calls, calls_ t1 = calls_ t ++ calls ∧ Forall clean_call calls) ∧
  ((None : option Z) = None →
   ∃ t', Remove 64 11 t = Done (tt, t') ∧
     same_fields t t' ∧ pool_ t' = pool_ t ∧
     ∃ calls, calls_ t' = calls_ t ++ calls ∧ Forall clean_call calls).
Proof.
  intros t t1.
  assert (GetValue 64 11 t = Done (None, t1)) as H2 by (by vm_compute).
  split; [split; [apply scenarioE_pins_nonneg|done]|].
  apply (GetValue_read_only 64 t 11 None t1 scenarioE_pins_nonneg H2).
Defined.

End bpt_read_only_witness.

Section bpt_balance.
Import BPT.
Context {layout : PageLayout}.

Implicit Types (t : BPlusTree) (v : View).

(** [m] runs out of fuel from every tree that looks like [v]. *)
Local Abbreviation starves m v := (∀ t, view t = v → m t = OutOfFuel).

Lemma starves_bind {A B} (m : M A) (f : A → M B) v a v1 :
  runs m v a v1 → starves (f a) v1 → starves (m ≫= f) v.
Proof.
  intros Hm Hf t Hv. destruct (Hm t Hv) as (t1 & Hrun1 & Hv1).
  rewrite bind_run, Hrun1. by apply Hf.
Qed.

Lemma starves_UnpinPage {A} p d (k : M A) v :
  starves k v → starves (UnpinPage p d ≫= λ _, k) v.
Proof.
  intros Hk t Hv. rewrite bind_run. unfold UnpinPage. cbn.
  destruct (pool_ t !! p) as [fr|] eqn:Hfr.
  - destruct (pin_count_ fr <=? 0).
    + apply Hk. by rewrite <- Hv.
    + apply Hk. rewrite <- Hv. unfold view. cbn. f_equal.
      rewrite fmap_insert. cbn. apply insert_id. by rewrite lookup_fmap, Hfr.
  - apply Hk. by rewrite <- Hv.
Qed.

(** No leaf is nearer to a page than the height of the page says. *)
Lemma descend_short lm v G :
  (∀ p s, G !! p = Some s → ∃ n, v_nodes v !! p = Some n ∧ node_ok lm G (v_nodes v) p s n) →
  ∀ fuel h page lo hi key,
    (fuel ≤ h)%nat → G !! page = Some (lo, hi, h) → in_range lo hi key →
    starves (descend fuel page key) v.
Proof.
  intros Hnodes. induction fuel as [|fuel IH]; intros h page lo hi key Hfuel HG Hr;
    [done|].
  destruct h as [|h]; [lia|]. cbn [descend].
  destruct (Hnodes _ _ HG) as (n & Hn & Hid & Hok).
  destruct Hok as (Hty & Hne & Hnd & Hall).
  destruct (array_ n) as [|e0 a] eqn:Ha; [done|].
  destruct (scan_le_spec a lo hi e0 key 1 Hr) as (k & c & l & hh & Hlook & Hin & Hr').
  rewrite Forall_forall in Hall. destruct (Hall _ Hin) as [HGc Hpar]. cbn in HGc, Hpar.
  destruct (Hnodes _ _ HGc) as (cn & Hcn & _).
  eapply starves_bind; [by apply runs_node_at|].
  unfold IsLeafPage. rewrite Hty, Ha. cbn [drop]. rewrite drop_0.
  pose proof (scan_le_ge a key 1).
  eapply starves_bind.
  { apply runs_lift. unfold ValueAt, entry_at. rewrite Ha.
    destruct (Z.ltb_spec (scan_le a key 1 - 1) 0); [lia|]. by rewrite Hlook. }
  cbn [snd]. eapply starves_bind; [by eapply runs_FetchPage|].
  apply starves_UnpinPage. apply (IH h c l hh key); [lia|done|done].
Qed.

Lemma FindLeafPage_short v G M H fuel key :
  tree_inv v G M H → (fuel ≤ H)%nat → starves (FindLeafPage fuel key) v.
Proof.
  intros Hinv Hfuel. pose proof (tree_inv_root _ _ _ _ Hinv) as Hroot.
  destruct Hinv as (Hlm & Hsh & HG & Hpar).
  intros t Hv. unfold FindLeafPage. rewrite bind_run. cbn [get].
  assert (root_page_id_ t = v_root v) as Hr by (by rewrite <- Hv).
  unfold IsEmpty. rewrite Hr. unfold INVALID_PAGE_ID.
  destruct (Z.eqb_spec (v_root v) (-1)); [lia|].
  destruct (sh_nodes _ _ _ _ _ _ _ _ _ Hsh _ _ HG) as (rn & Hrn & _); [done|].
  apply (starves_bind (FetchPage (v_root v)) _ v tt v); [by eapply runs_FetchPage| |done].
  clear t Hv Hr. intros t Hv. rewrite bind_run.
  rewrite (descend_short (v_leaf_max v) v G) with (h := H) (lo := @None Z) (hi := @None Z);
    try done.
  intros p s Hp. by apply (sh_nodes _ _ _ _ _ _ _ _ _ Hsh).
Qed.

Lemma lookup_key_elem (a : list (Z * Z)) k x :
  StronglySorted Z.lt a.*1 → (k, x) ∈ a → lookup_key a k = Some x.
Proof.
  induction a as [|[k0 x0] a IH]; intros Hs Hin; [by apply elem_of_nil in Hin|].
  csimpl in Hs. apply StronglySorted_inv in Hs as [Hs Hall].
  rewrite lookup_key_cons. apply elem_of_cons in Hin as [[= -> ->]|Hin].
  - by rewrite Z.eqb_refl.
  - rewrite Forall_forall in Hall.
    assert (k0 < k) as Hlt.
    { apply Hall. apply list_elem_of_fmap. by exists (k, x). }
    destruct (Z.eqb_spec k0 k); [lia|]. by apply IH.
Qed.

(** [Insert] and a run of inserts, with the page sizes of the tree. *)
Lemma Insert_sizes v M fuel key value :
  tree_state v M → M !! key = None → (size M ≤ fuel)%nat →
  ∃ v', runs (Insert fuel key value) v true v' ∧ tree_state v' (<[key:=value]> M) ∧
    v_leaf_max v' = v_leaf_max v ∧ v_internal_max v' = v_internal_max v.
Proof.
  intros (Hfit & Hroomy & [(-> & Hroot & Hlm & Hnext & Hids)|(G & H & Hinv & HH)])
    Hfree Hfuel.
  - destruct (StartNewTree_spec v key value Hroot Hlm Hnext Hids Hfit Hroomy)
      as (v' & G & Hrun & Hinv & Hlm' & Him' & Hroomy').
    exists v'. split; [|split; [|done]].
    + unfold Insert. apply runs_get_fields. intros t Hr _ _.
      unfold IsEmpty. by rewrite Hr, Hroot.
    + split; [unfold sizes_fit; rewrite Hlm', Him'; exact Hfit|]. split; [done|].
      right. exists G, O. rewrite insert_empty. split; [done|].
      rewrite map_size_singleton. lia.
  - destruct (InsertIntoLeaf_spec v G M H fuel key value Hinv Hfree)
      as (v' & G' & H' & Hrun & Hinv' & HH' & Hlm' & Him' & Hroomy'); [lia|done..|].
    exists v'. split; [|split; [|done]].
    + unfold Insert. apply runs_get_fields. intros t Hr _ _.
      pose proof (tree_inv_root _ _ _ _ Hinv).
      unfold IsEmpty. rewrite Hr. unfold INVALID_PAGE_ID.
      by destruct (Z.eqb_spec (v_root v) (-1)); [lia|].
    + split; [unfold sizes_fit; rewrite Hlm', Him'; exact Hfit|]. split; [done|].
      right. exists G', H'. split; [done|]. rewrite map_size_insert_None by done. lia.
Qed.

Lemma insert_keys_sizes fuel kvs :
  ∀ v M, tree_state v M → NoDup kvs.*1 → (∀ k, k ∈ kvs.*1 → M !! k = None) →
    (size M + length kvs ≤ fuel)%nat →
    ∃ v', runs (insert_keys fuel kvs) v tt v' ∧
      tree_state v' (list_to_map kvs ∪ M) ∧
      size (list_to_map kvs ∪ M : gmap Z Z) = (size M + length kvs)%nat ∧
      v_leaf_max v' = v_leaf_max v ∧ v_internal_max v' = v_internal_max v.
Proof.
  induction kvs as [|[k x] kvs IH]; intros v M Hstate Hnd Hfree Hfuel.
  - exists v. cbn. rewrite (left_id_L ∅ (∪)). split; [apply runs_ret|].
    split; [done|]. split; [lia|done].
  - csimpl in *. apply NoDup_cons in Hnd as [Hk Hnd].
    destruct (Insert_sizes v M fuel k x Hstate) as (v1 & Hrun1 & Hstate1 & Hlm1 & Him1).
    { apply Hfree. left. }
    { lia. }
    assert (M !! k = None) as HMk by (apply Hfree; left).
    destruct (IH v1 (<[k:=x]> M) Hstate1 Hnd)
      as (v' & Hrun' & Hstate' & Hsize' & Hlm' & Him').
    { intros k' Hk'. rewrite lookup_insert_ne by (intros ->; done).
      apply Hfree. by right. }
    { rewrite map_size_insert_None by done. lia. }
    assert (<[k:=x]> (list_to_map kvs) ∪ M = list_to_map kvs ∪ <[k:=x]> M
            :> gmap Z Z) as Heq.
    { rewrite <- insert_union_l. rewrite insert_union_r; [done|].
      by apply not_elem_of_list_to_map_1. }
    exists v'. rewrite Heq. split; [|split; [done|split; [|split; congruence]]].
    + eapply runs_bind; [exact Hrun1|]. exact Hrun'.
    + rewrite Hsize', map_size_insert_None by done. lia.
Qed.


End bpt_balance.

Section bpt_balance_witness.
Import BPT.
#[local] Existing Instance scenario_layout.


End bpt_balance_witness.

Section bpt_root_leaf.
Import BPT.
Context {layout : PageLayout}.

Implicit Types (t : BPlusTree).

Lemma find_key_from_Some (a : list (Z * Z)) key : ∀ j i x,
  find_key_from a key j = Some (i, x) →
  j ≤ i ∧ a !! Z.to_nat (i - j) = Some (key, x).
Proof.
  induction a as [|[k v] a IH]; intros j i x; cbn; [done|].
  destruct (Z.eqb_spec k key) as [->|Hne].
  - intros [= <- <-]. split; [lia|]. by rewrite Z.sub_diag.
  - intros Hf. apply IH in Hf as [Hle Hlook]. split; [lia|].
    replace (Z.to_nat (i - j)) with (S (Z.to_nat (i - (j + 1)))) by lia. done.
Qed.

Lemma node_at_run t p fr :
  pool_ t !! p = Some fr → node_at p t = Done (node_ fr, t).
Proof. intros Hp. unfold node_at. by rewrite Hp. Qed.

Lemma update_node_run t p fr f :
  pool_ t !! p = Some fr →
  update_node p f t
  = Done (tt, set_pool t (<[p := mkFrame (f (node_ fr)) (pin_count_ fr) (is_dirty_ fr)]>
                            (pool_ t))).
Proof.
  intros Hp. unfold update_node. rewrite bind_run, (node_at_run t p fr Hp).
  unfold set_node. by rewrite Hp.
Qed.

Lemma UnpinPage_run t p fr d :
  pool_ t !! p = Some fr → 0 < pin_count_ fr →
  UnpinPage p d t
  = Done (true, set_pool (log_call (CallUnpinPage p d) t)
                  (<[p := mkFrame (node_ fr) (pin_count_ fr - 1)
                                  (if d then true else is_dirty_ fr)]> (pool_ t))).
Proof.
  intros Hp Hpin. unfold UnpinPage. cbn [log_call pool_]. rewrite Hp.
  by destruct (Z.leb_spec (pin_count_ fr) 0); [lia|].
Qed.

Lemma DeletePage_pinned t p fr :
  pool_ t !! p = Some fr → 0 < pin_count_ fr →
  DeletePage p t = Done (false, log_call (CallDeletePage p) t).
Proof.
  intros Hp Hpin. unfold DeletePage. cbn [log_call pool_]. rewrite Hp.
  by destruct (Z.gtb_spec (pin_count_ fr) 0); [|lia].
Qed.

(** X20: [Remove] on a tree whose root is a leaf.  The entry of the key is
    deleted from the root page.  If the page then has at least
    [GetMinSize] entries it is unpinned and marked dirty.  If it has fewer,
    the page keeps the pin that [FindLeafPage] took and its dirty flag is
    not set; and if it is empty the tree is made empty ([root_page_id_] is
    [INVALID_PAGE_ID]) and [DeletePage] is called on the page while it is
    pinned, so that the page stays in the pool. *)
Theorem Remove_from_root_leaf fuel t key fr i x :
  let r := root_page_id_ t in
  let n := node_ fr in
  let n' := RemoveAt i n in
  r ≠ INVALID_PAGE_ID → pool_ t !! r = Some fr →
  IsLeafPage n = true → IsRootPage n = true → page_id_ n = r →
  0 ≤ pin_count_ fr → find_key n key = Some (i, x) → (0 < fuel)%nat →
  ∃ t', Remove fuel key t = Done (tt, t') ∧
    array_ n' = delete (Z.to_nat i) (array_ n) ∧
    array_ n !! Z.to_nat i = Some (key, x) ∧
    if GetSize n' <? GetMinSize n'
    then
      pool_ t' = <[r := mkFrame n' (pin_count_ fr + 1) (is_dirty_ fr)]> (pool_ t) ∧
      root_page_id_ t' = (if GetSize n' =? 0 then INVALID_PAGE_ID else r) ∧
      deleted_pages t' = deleted_pages t ++ (if GetSize n' =? 0 then [r] else [])
    else
      pool_ t' = <[r := mkFrame n' (pin_count_ fr) true]> (pool_ t) ∧
      root_page_id_ t' = r ∧ deleted_pages t' = deleted_pages t.
Proof.
  intros r n n' Hr Hfr Hleaf Hroot Hid Hpin Hkey Hfuel.
  destruct fuel as [|fuel]; [lia|].
  assert (IsEmpty t = false) as Hne.
  { unfold IsEmpty. fold r. by destruct (Z.eqb_spec r INVALID_PAGE_ID). }
  (* the search stops at the root *)
  set (t1 := set_pool (log_call (CallFetchPage r) t) (<[r := pin fr]> (pool_ t))).
  assert (FindLeafPage (S fuel) key t = Done (Some r, t1)) as Hfind.
  { unfold FindLeafPage. rewrite bind_run. cbn [get]. rewrite Hne.
    rewrite bind_run. unfold FetchPage. cbn [log_call pool_]. fold r. rewrite Hfr.
    fold t1. cbn [descend]. rewrite !bind_run. unfold node_at at 1.
    cbn [t1 set_pool pool_]. rewrite lookup_insert_eq. cbn [pin node_].
    fold n. rewrite Hleaf. done. }
  apply find_key_from_Some in Hkey as Hi. destruct Hi as [Hi0 Hlook].
  rewrite Z.sub_0_r in Hlook.
  assert (array_ n' = delete (Z.to_nat i) (array_ n)) as Hn'.
  { unfold n', RemoveAt, GetSize. apply lookup_lt_Some in Hlook.
    destruct (Z.ltb_spec i 0); [lia|].
    by destruct (Z.geb_spec i (Z.of_nat (length (array_ n)))); [lia|]. }
  assert (pool_ t1 !! r = Some (pin fr)) as Hfr1.
  { unfold t1. cbn. apply lookup_insert_eq. }
  set (fr2 := mkFrame n' (pin_count_ fr + 1) (is_dirty_ fr)).
  set (t2 := set_pool t1 (<[r := fr2]> (pool_ t1))).
  assert (update_node r (RemoveAt i) t1 = Done (tt, t2)) as Hupd.
  { by rewrite (update_node_run t1 r (pin fr) _ Hfr1). }
  assert (pool_ t2 !! r = Some fr2) as Hfr2.
  { unfold t2. cbn. apply lookup_insert_eq. }
  assert (pool_ t2 = <[r := fr2]> (pool_ t)) as Hpool2.
  { unfold t2, t1. cbn. apply insert_insert_eq. }
  assert (Remove (S fuel) key t
          = (if GetSize n' <? GetMinSize n'
             then CoalesceOrRedistribute (S fuel) r
             else UnpinPage r true ≫= λ _, mret tt) t2) as ->.
  { unfold Remove. rewrite bind_run. cbn [get]. rewrite Hne, bind_run, Hfind.
    rewrite bind_run, (node_at_run t1 r (pin fr) Hfr1). cbn [pin node_]. fold n.
    rewrite Hkey, bind_run, Hupd, bind_run, (node_at_run t2 r fr2 Hfr2). done. }
  assert (IsLeafPage n' = true ∧ IsRootPage n' = true ∧ page_id_ n' = r) as (Hleaf' & Hroot' & Hid').
  { unfold n', RemoveAt. by destruct ((i <? 0) || (i >=? GetSize n)). }
  destruct (GetSize n' <? GetMinSize n') eqn:Hunder.
  - (* underflow: [AdjustRoot] *)
    cbn [CoalesceOrRedistribute]. rewrite bind_run. cbn [get].
    rewrite bind_run, (node_at_run t2 r fr2 Hfr2). cbn [fr2 node_]. rewrite Hroot'.
    unfold AdjustRoot. rewrite bind_run, (node_at_run t2 r fr2 Hfr2). cbn [fr2 node_].
    rewrite Hleaf'. cbn [andb negb].
    destruct (GetSize n' =? 0) eqn:Hempty.
    + rewrite bind_run. cbn [set_root]. rewrite bind_run. cbn [UpdateRootPageId].
      rewrite bind_run, Hid'.
      erewrite DeletePage_pinned; [|cbn; rewrite lookup_insert_eq; done|cbn; lia].
      eexists. split; [done|]. split; [done|]. split; [done|].
      cbn. split; [apply insert_insert_eq|]. split; [done|].
      unfold deleted_pages. cbn. rewrite <- !app_assoc, omap_app. done.
    + eexists. split; [done|]. split; [done|]. split; [done|].
      split; [done|]. split; [done|].
      unfold deleted_pages. cbn. rewrite omap_app. cbn. by rewrite app_nil_r.
  - rewrite bind_run, (UnpinPage_run t2 r fr2 true Hfr2) by (cbn; lia).
    eexists. split; [done|]. split; [done|]. split; [done|].
    cbn. split.
    + rewrite !insert_insert_eq.
      by replace (pin_count_ fr + 1 - 1) with (pin_count_ fr) by lia.
    + split; [done|]. unfold deleted_pages. cbn.
      rewrite <- !app_assoc, omap_app. cbn. by rewrite app_nil_r.
Qed.

End bpt_root_leaf.

Section bpt_root_leaf_witness.
Import BPT.
#[local] Existing Instance scenario_layout.

Lemma Remove_from_root_leaf_witness :
  let t := match Insert 64 7 70 (init 4 4) with Done (_, t) => t | _ => init 4 4 end in
  let fr := mkFrame (mkNode LEAF_PAGE 4 INVALID_PAGE_ID 1 INVALID_PAGE_ID [(7, 70)])
                    0 true in
  let r := root_page_id_ t in
  let n := node_ fr in
  let n' := RemoveAt 0 n in
  (r ≠ INVALID_PAGE_ID ∧ pool_ t !! r = Some fr ∧
   IsLeafPage n = true ∧ IsRootPage n = true ∧ page_id_ n = r ∧
   0 ≤ pin_count_ fr ∧ find_key n 7 = Some (0, 70) ∧ (0 < 64)%nat) ∧
  ∃ t', Remove 64 7 t = Done (tt, t') ∧
    array_ n' = delete (Z.to_nat 0) (array_ n) ∧
    array_ n !! Z.to_nat 0 = Some (7, 70) ∧
    if GetSize n' <? GetMinSize n'
    then
      pool_ t' = <[r := mkFrame n' (pin_count_ fr + 1) (is_dirty_ fr)]> (pool_ t) ∧
      root_page_id_ t' = (if GetSize n' =? 0 then INVALID_PAGE_ID else r) ∧
      deleted_pages t' = deleted_pages t ++ (if GetSize n' =? 0 then [r] else [])
    else
      pool_ t' = <[r := mkFrame n' (pin_count_ fr) true]> (pool_ t) ∧
      root_page_id_ t' = r ∧ deleted_pages t' = deleted_pages t.
Proof.
  intros t fr r n n'.
  assert (r ≠ INVALID_PAGE_ID) as H1 by (by vm_compute).
  assert (pool_ t !! r = Some fr) as H2 by (by vm_compute).
  assert (IsLeafPage n = true) as H3 by (by vm_compute).
  assert (IsRootPage n = true) as H4 by (by vm_compute).
  assert (page_id_ n = r) as H5 by (by vm_compute).
  assert (0 ≤ pin_count_ fr) as H6 by (by vm_compute).
  assert (find_key n 7 = Some (0, 70)) as H7 by (by vm_compute).
  assert (0 < 64)%nat as H8 by lia.
  split; [by split_and!|].
  apply (Remove_from_root_leaf 64 t 7 fr 0 70 H1 H2 H3 H4 H5 H6 H7 H8).
Defined.


End bpt_root_leaf_witness.

(* ===================================================================== *)
(** * Properties of the index iterator *)
(* ===================================================================== *)

Section bpt_iterator.
Import BPT.

Implicit Types (t : BPlusTree) (base : gmap Z Frame) (n : Node).

Lemma FetchPage_base p base t fr :
  pool_ t = base → base !! p = Some fr →
  ∃ t', FetchPage p t = Done (tt, t') ∧ pool_ t' = alter pin p base ∧
        same_fields t t' ∧ calls_ t' = calls_ t ++ [CallFetchPage p].
Proof.
  intros Hpool Hfr. unfold FetchPage. cbn [log_call pool_]. rewrite Hpool, Hfr.
  eexists. split; [done|]. cbn. split; [|by repeat split].
  symmetry. by apply alter_pin_Some.
Qed.

Lemma node_at_pinned p base t n :
  pool_ t = alter pin p base → node_ <$> base !! p = Some n →
  node_at p t = Done (n, t).
Proof.
  intros Hpool Hn. unfold node_at. rewrite Hpool, lookup_alter_eq.
  destruct (base !! p) as [fr|]; [|done]. cbn in *. by injection Hn as ->.
Qed.

(** The scan from entry [i] of the leaf [p], which is pinned. *)
Lemma scan_chain fuel base : ∀ p n rest i t,
  pins_nonneg base → leaf_chain base p (n :: rest) →
  Forall (λ n, array_ n ≠ []) rest → 0 ≤ i < GetSize n →
  pool_ t = alter pin p base →
  (length (drop (Z.to_nat i) (array_ n) ++ concat (array_ <$> rest)) < fuel)%nat →
  ∃ t', scan fuel (mkIter (Some p) i p) t
        = Done (Some (drop (Z.to_nat i) (array_ n) ++ concat (array_ <$> rest)), t') ∧
    pool_ t' = base ∧ same_fields t t' ∧
    ∃ l, calls_ t' = calls_ t ++ l ∧ Forall clean_call l.
Proof.
  induction fuel as [|fuel IH]; intros p n rest i t Hnn Hchain Hne Hi Hpool Hfuel; [lia|].
  destruct Hchain as (Hp & Hn & Hrest). unfold GetSize in Hi.
  destruct (lookup_lt_is_Some_2 (array_ n) (Z.to_nat i)) as [e He]; [lia|].
  assert (is_Some (base !! p)) as Hsome.
  { destruct (base !! p); [by eexists|done]. }
  cbn [scan iter_eq leaf_ End]. rewrite bind_run.
  unfold deref. cbn [leaf_ index_]. rewrite bind_run, (node_at_pinned p base t n Hpool Hn).
  unfold GetSize. destruct (Z.geb_spec i (Z.of_nat (length (array_ n)))) as [|_]; [lia|].
  rewrite bind_run. unfold lift, entry_at.
  destruct (Z.ltb_spec i 0) as [|_]; [lia|]. rewrite He. cbn [fmap outcome_fmap].
  cbn [mret M_ret]. rewrite bind_run. unfold advance. cbn [leaf_ index_ iter_page_id_].
  rewrite bind_run, (node_at_pinned p base t n Hpool Hn). unfold GetSize.
  rewrite (drop_S _ _ _ He) in Hfuel |- *. cbn [app length] in Hfuel.
  destruct (Z.geb_spec (i + 1) (Z.of_nat (length (array_ n)))) as [Hlast|Hmore].
  - (* the last entry of the leaf *)
    rewrite (drop_ge (array_ n) (S (Z.to_nat i))) in Hfuel |- * by lia.
    cbn [app] in Hfuel |- *.
    destruct (UnpinPage_pinned p base t Hnn Hsome Hpool)
      as (t1 & Hunpin & Hpool1 & Hsame1 & Hcalls1).
    rewrite bind_run, Hunpin.
    destruct rest as [|n2 rest].
    + cbn in Hrest. rewrite Hrest. cbn [Z.eqb INVALID_PAGE_ID].
      destruct fuel as [|fuel]; [cbn in Hfuel; lia|].
      cbn. exists t1. split; [done|]. split; [done|]. split; [done|].
      exists [CallUnpinPage p false]. split; [done|]. by repeat constructor.
    + destruct Hrest as (Hp2 & Hn2 & Hrest2).
      destruct (Z.eqb_spec (next_page_id_ n) INVALID_PAGE_ID) as [|_]; [done|].
      destruct (base !! next_page_id_ n) as [fr2|] eqn:Hfr2; [|done].
      destruct (FetchPage_base (next_page_id_ n) base t1 fr2 Hpool1 Hfr2)
        as (t2 & Hfetch & Hpool2 & Hsame2 & Hcalls2).
      rewrite bind_run, Hfetch. cbn [mret M_ret]. rewrite bind_run.
      apply Forall_cons in Hne as [Hne2 Hne].
      destruct (IH (next_page_id_ n) n2 rest 0 t2 Hnn) as (t' & Hscan & Hpool' & Hsame' & l & Hcalls' & Hclean).
      { split; [done|]. split; [by rewrite Hfr2|done]. }
      { done. }
      { unfold GetSize. destruct (array_ n2); [done|]. cbn. lia. }
      { done. }
      { rewrite fmap_cons in Hfuel. simpl in Hfuel.
        change (Z.to_nat 0) with 0%nat. rewrite drop_0. lia. }
      change (Z.to_nat 0) with 0%nat in Hscan. rewrite drop_0 in Hscan.
      rewrite Hscan. cbn. exists t'. split; [done|]. split; [done|]. split.
      { eapply same_fields_trans; [exact Hsame1|].
        eapply same_fields_trans; [exact Hsame2|done]. }
      exists ([CallUnpinPage p false; CallFetchPage (next_page_id_ n)] ++ l). split.
      * rewrite Hcalls', Hcalls2, Hcalls1. by rewrite <- !app_assoc.
      * apply Forall_app. split; [|done]. by repeat constructor.
  - cbn [mret M_ret]. rewrite bind_run.
    destruct (IH p n rest (i + 1) t Hnn) as (t' & Hscan & Hpool' & Hsame' & l & Hcalls' & Hclean).
    { done. }
    { done. }
    { unfold GetSize. lia. }
    { done. }
    { replace (Z.to_nat (i + 1)) with (S (Z.to_nat i)) by lia. lia. }
    replace (Z.to_nat (i + 1)) with (S (Z.to_nat i)) in Hscan by lia.
    rewrite Hscan. cbn. exists t'. split; [done|]. split; [done|]. split; [done|].
    by exists l.
Qed.

(** The loop of [Begin()] hands the extra pin down the leftmost path. *)
Lemma leftmost_pinned fuel base : ∀ page t leaf t',
  pins_nonneg base → is_Some (base !! page) →
  pool_ t = alter pin page base →
  leftmost fuel page t = Done (leaf, t') →
  (∃ n, node_ <$> base !! leaf = Some n ∧ IsLeafPage n = true) ∧
  pool_ t' = alter pin leaf base ∧ same_fields t t' ∧
  ∃ l, calls_ t' = calls_ t ++ l ∧ Forall clean_call l.
Proof.
  induction fuel as [|fuel IH]; intros page t leaf t' Hnn [fr Hfr] Hpool; [done|].
  cbn [leftmost].
  rewrite bind_run, (node_at_pinned page base t (node_ fr) Hpool) by (by rewrite Hfr).
  destruct (IsLeafPage (node_ fr)) eqn:Hleaf.
  { intros [= <- <-]. split; [exists (node_ fr); by rewrite Hfr|]. split; [done|].
    split; [apply same_fields_refl|]. exists []. by rewrite app_nil_r. }
  rewrite bind_run. unfold lift.
  destruct (ValueAt (node_ fr) 0) as [c| | |]; try done.
  cbn [fmap outcome_fmap].
  destruct (UnpinPage_pinned page base t Hnn (ltac:(by eexists)) Hpool)
    as (t1 & Hunpin & Hpool1 & Hsame1 & Hcalls1).
  rewrite bind_run, Hunpin, bind_run.
  destruct (FetchPage c t1) as [[[] t2]| | |] eqn:Hfetch; try done.
  apply FetchPage_Done in Hfetch as (cfr & Hcfr & Hpool2 & Hsame2 & Hcalls2).
  rewrite Hpool1 in Hcfr. rewrite Hpool1, <- (alter_pin_Some _ _ _ Hcfr) in Hpool2.
  intros Hrun.
  destruct (IH c t2 leaf t' Hnn (ltac:(by eexists)) Hpool2 Hrun)
    as (Hleaf' & Hpool' & Hsame' & l & Hcalls' & Hclean).
  split; [done|]. split; [done|]. split.
  { eapply same_fields_trans; [exact Hsame1|].
    eapply same_fields_trans; [exact Hsame2|done]. }
  exists ([CallUnpinPage page false; CallFetchPage c] ++ l). split.
  - rewrite Hcalls', Hcalls2, Hcalls1. by rewrite <- !app_assoc.
  - apply Forall_app. split; [|done]. by repeat constructor.
Qed.

(** What a completed [Begin()] on a non-empty tree has done. *)
Lemma Begin_pinned fuel t it t1 :
  IsEmpty t = false → pins_nonneg (pool_ t) →
  Begin fuel t = Done (it, t1) →
  ∃ leaf n, it = mkIter (Some leaf) 0 (page_id_ n) ∧
    node_ <$> pool_ t !! leaf = Some n ∧ IsLeafPage n = true ∧
    pool_ t1 = alter pin leaf (pool_ t) ∧ same_fields t t1 ∧
    ∃ l, calls_ t1 = calls_ t ++ l ∧ Forall clean_call l.
Proof.
  intros Hne Hnn. unfold Begin. rewrite bind_run. simpl. rewrite Hne.
  intros Hrun. apply bind_Done in Hrun as ([] & t0 & Hfetch & Hrun).
  apply FetchPage_Done in Hfetch as (fr & Hfr & Hpool0 & Hsame0 & Hcalls0).
  apply bind_Done in Hrun as (leaf & t2 & Hleft & Hrun).
  destruct (leftmost_pinned fuel (pool_ t) (root_page_id_ t) t0 leaf t2)
    as ((n & Hn & Hleaf) & Hpool2 & Hsame2 & l & Hcalls2 & Hclean); try done.
  { by rewrite Hpool0, (alter_pin_Some _ _ fr). }
  unfold make_iterator in Hrun.
  rewrite bind_run, (node_at_pinned leaf (pool_ t) t2 n Hpool2 Hn) in Hrun.
  injection Hrun as <- <-. exists leaf, n.
  split; [done|]. split; [done|]. split; [done|]. split; [done|]. split.
  { eapply same_fields_trans; [exact Hsame0|done]. }
  exists (CallFetchPage (root_page_id_ t) :: l). split.
  - by rewrite Hcalls2, Hcalls0, <- app_assoc.
  - by constructor.
Qed.

(** Where the loop of [Begin(key)] stops in a leaf. *)
Lemma scan_lt_stop a key : ∀ i, ∃ k,
  scan_lt a key i = i + Z.of_nat k ∧ (k ≤ length a)%nat ∧
  Forall (λ e, e.1 < key) (take k a) ∧
  (∀ e, a !! k = Some e → key ≤ e.1).
Proof.
  induction a as [|[k0 v0] a IH]; intros i.
  { exists 0%nat. cbn. split; [lia|]. split; [lia|]. by split. }
  cbn [scan_lt]. destruct (Z.ltb_spec k0 key) as [Hlt|Hge].
  - destruct (IH (i + 1)) as (k & -> & Hk & Hbelow & Hat).
    exists (S k). split; [lia|]. split; [cbn; lia|]. split; [by constructor|done].
  - exists 0%nat. split; [lia|]. split; [lia|]. split; [done|].
    by intros e [= <-].
Qed.

Lemma filter_all {A} (P : A → Prop) `{∀ x, Decision (P x)} (l : list A) :
  Forall P l → filter P l = l.
Proof.
  induction 1 as [|x l Hx _ IH]; [done|]. by rewrite filter_cons_True, IH.
Qed.

Lemma scan_lt_filter a key : StronglySorted Z.lt a.*1 → ∀ i, ∃ k,
  scan_lt a key i = i + Z.of_nat k ∧ (k ≤ length a)%nat ∧
  drop k a = filter (λ e, key ≤ e.1) a.
Proof.
  induction a as [|[k0 v0] a IH]; intros Hs i.
  { exists 0%nat. cbn. split; [lia|]. by split. }
  rewrite fmap_cons in Hs. apply StronglySorted_inv in Hs as [Hs Hall].
  cbn [scan_lt]. destruct (Z.ltb_spec k0 key) as [Hlt|Hge].
  - destruct (IH Hs (i + 1)) as (k & -> & Hk & Hdrop).
    exists (S k). split; [lia|]. split; [cbn; lia|].
    rewrite filter_cons_False by (cbn; lia). done.
  - exists 0%nat. split; [lia|]. split; [lia|]. rewrite drop_0.
    rewrite filter_cons_True by done. f_equal. symmetry.
    apply filter_all. apply Forall_forall. intros [k v] Hin.
    rewrite Forall_forall in Hall.
    assert (k0 < k) by (apply Hall, list_elem_of_fmap; by exists (k, v)).
    cbn. lia.
Qed.

Lemma FindLeafPage_nonempty fuel key t leaf t1 :
  FindLeafPage fuel key t = Done (Some leaf, t1) → IsEmpty t = false.
Proof.
  unfold FindLeafPage. rewrite bind_run. simpl. by destruct (IsEmpty t).
Qed.

(** What [Begin(key)] returns once [FindLeafPage] has found the leaf. *)
Lemma Begin_at_run fuel key t leaf t1 :
  pins_nonneg (pool_ t) →
  FindLeafPage fuel key t = Done (Some leaf, t1) →
  ∃ n, node_ <$> pool_ t !! leaf = Some n ∧
    pool_ t1 = alter pin leaf (pool_ t) ∧ same_fields t t1 ∧
    (∃ l, calls_ t1 = calls_ t ++ l ∧ Forall clean_call l) ∧
    Begin_at fuel key t
    = Done (mkIter (Some leaf) (scan_lt (array_ n) key 0) (page_id_ n), t1).
Proof.
  intros Hnn Hfind. pose proof (FindLeafPage_nonempty _ _ _ _ _ Hfind) as Hne.
  destruct (FindLeafPage_pinned fuel key t (Some leaf) t1 Hne Hnn Hfind)
    as (leaf' & [= <-] & [fr Hfr] & Hpool & Hsame & Hcalls).
  exists (node_ fr). split; [by rewrite Hfr|]. split; [done|]. split; [done|].
  split; [done|].
  unfold Begin_at. rewrite bind_run. simpl. rewrite Hne, bind_run, Hfind.
  assert (node_at leaf t1 = Done (node_ fr, t1)) as Hnode.
  { apply (node_at_pinned leaf (pool_ t)); [done|by rewrite Hfr]. }
  rewrite bind_run, Hnode. unfold make_iterator. by rewrite bind_run, Hnode.
Qed.

(** X21: The loop [for (it = Begin(); it != End(); ++it)] over a tree in
    which [Begin()] stops at a leaf that records its own page id, and whose
    leaves from this one on along the next pointers are [n :: rest], none
    of them empty, reads the entries of these leaves in this order; it ends
    with every pin count as before [Begin()], after fetches and clean
    unpins only. *)
Theorem Begin_scan_follows_leaf_chain fuel fuel' t it t1 p n rest :
  pins_nonneg (pool_ t) →
  Begin fuel t = Done (it, t1) →
  leaf_ it = Some p → iter_page_id_ it = p →
  leaf_chain (pool_ t) p (n :: rest) →
  Forall (λ n, array_ n ≠ []) (n :: rest) →
  (length (concat (array_ <$> n :: rest)) < fuel')%nat →
  ∃ t2, scan fuel' it t1 = Done (Some (concat (array_ <$> n :: rest)), t2) ∧
    pool_ t2 = pool_ t ∧ same_fields t t2 ∧
    ∃ l, calls_ t2 = calls_ t ++ l ∧ Forall clean_call l.
Proof.
  intros Hnn Hbegin Hleaf Hself Hchain Hne Hfuel.
  assert (IsEmpty t = false) as Hempty.
  { destruct (IsEmpty t) eqn:Hempty; [|done].
    unfold Begin in Hbegin. rewrite bind_run in Hbegin. simpl in Hbegin.
    rewrite Hempty in Hbegin. by injection Hbegin as <- <-. }
  destruct (Begin_pinned fuel t it t1 Hempty Hnn Hbegin)
    as (leaf & n0 & -> & Hn & _ & Hpool1 & Hsame1 & l1 & Hcalls1 & Hclean1).
  cbn [iter_page_id_ leaf_] in Hself, Hleaf. injection Hleaf as ->. rewrite Hself.
  apply Forall_cons in Hne as [Hne0 Hne].
  rewrite fmap_cons in Hfuel |- *. cbn [concat] in Hfuel |- *.
  destruct (scan_chain fuel' (pool_ t) p n rest 0 t1 Hnn Hchain Hne)
    as (t2 & Hscan & Hpool2 & Hsame2 & l2 & Hcalls2 & Hclean2).
  { unfold GetSize. destruct (array_ n); [done|]. cbn. lia. }
  { done. }
  { change (Z.to_nat 0) with 0%nat. by rewrite drop_0. }
  change (Z.to_nat 0) with 0%nat in Hscan. rewrite drop_0 in Hscan.
  exists t2. split; [done|]. split; [done|]. split.
  { eapply same_fields_trans; [exact Hsame1|done]. }
  exists (l1 ++ l2). split.
  - by rewrite Hcalls2, Hcalls1, <- app_assoc.
  - by apply Forall_app.
Qed.

Lemma Begin_scan_follows_leaf_chain_witness :
  let t := scenarioE_tree in
  let it := mkIter (Some 1) 0 1 in
  let t1 := match Begin 64 t with Done (_, t1) => t1 | _ => t end in
  let leaf parent page next a := mkNode LEAF_PAGE 3 parent page next a in
  let n := leaf 3 1 2 [(1, 1)] in
  let rest := [leaf 5 2 4 [(2, 2)]; leaf 8 4 7 [(3, 3)]; leaf 12 7 11 [(4, 4)];
               leaf 17 11 16 [(5, 5)]; leaf 23 16 22 [(6, 6)];
               leaf 30 22 29 [(7, 7)]; leaf 38 29 37 [(8, 8)];
               leaf 38 37 INVALID_PAGE_ID [(9, 9); (10, 10)]] in
  (pins_nonneg (pool_ t) ∧ Begin 64 t = Done (it, t1) ∧
   leaf_ it = Some 1 ∧ iter_page_id_ it = 1 ∧
   leaf_chain (pool_ t) 1 (n :: rest) ∧
   Forall (λ n, array_ n ≠ []) (n :: rest) ∧
   (length (concat (array_ <$> n :: rest)) < 64)%nat) ∧
  ∃ t2, scan 64 it t1
        = Done (Some ((λ k, (k, k)) <$> seqZ 1 10), t2) ∧
    pool_ t2 = pool_ t ∧ same_fields t t2 ∧
    ∃ l, calls_ t2 = calls_ t ++ l ∧ Forall clean_call l.
Proof.
  intros t it t1 leaf n rest.
  assert (Begin 64 t = Done (it, t1)) as H2 by (vm_compute; reflexivity).
  assert (leaf_ it = Some 1) as H3 by reflexivity.
  assert (iter_page_id_ it = 1) as H4 by reflexivity.
  assert (leaf_chain (pool_ t) 1 (n :: rest)) as H5.
  { unfold rest. cbn [leaf_chain]. split_and!;
      lazymatch goal with
      | |- _ ≠ _ => by intros [=]
      | |- _ => vm_compute; reflexivity
      end. }
  assert (Forall (λ n, array_ n ≠ []) (n :: rest)) as H6.
  { unfold rest. repeat (apply Forall_cons; split; [by intros [=]|]).
    apply Forall_nil_2. }
  assert (length (concat (array_ <$> n :: rest)) < 64)%nat as H7.
  { vm_compute. lia. }
  split.
  { exact (conj scenarioE_pins_nonneg
             (conj H2 (conj H3 (conj H4 (conj H5 (conj H6 H7)))))). }
  destruct (Begin_scan_follows_leaf_chain 64 64 t it t1 1 n rest
              scenarioE_pins_nonneg H2 H3 H4 H5 H6 H7) as (t2 & Hscan & Hrest).
  exists t2. split; [|exact Hrest].
  etransitivity; [exact Hscan|]. reflexivity.
Defined.

(** X22: Once [FindLeafPage] has found the leaf of a key, [Begin(key)]
    returns an iterator on this leaf, which stays pinned once more than
    before, at the first entry whose key is not below the key.  The
    iterator never equals [End()]; where the leaf has no such entry, it
    cannot be dereferenced ([operator*] throws), and [IsEnd] holds just
    when the leaf has no next leaf.  The destructor of the iterator gives
    the pin back when the leaf records its own page id. *)
Theorem Begin_at_first_entry_not_below fuel key t leaf t1 :
  pins_nonneg (pool_ t) →
  FindLeafPage fuel key t = Done (Some leaf, t1) →
  ∃ n i, node_ <$> pool_ t !! leaf = Some n ∧
    Begin_at fuel key t = Done (mkIter (Some leaf) i (page_id_ n), t1) ∧
    pool_ t1 = alter pin leaf (pool_ t) ∧
    0 ≤ i ≤ GetSize n ∧
    Forall (λ e, e.1 < key) (take (Z.to_nat i) (array_ n)) ∧
    (∀ e, array_ n !! Z.to_nat i = Some e →
       key ≤ e.1 ∧ deref (mkIter (Some leaf) i (page_id_ n)) t1 = Done (Some e, t1)) ∧
    iter_eq (mkIter (Some leaf) i (page_id_ n)) End = false ∧
    (i = GetSize n →
       deref (mkIter (Some leaf) i (page_id_ n)) t1 = Done (None, t1) ∧
       IsEnd (mkIter (Some leaf) i (page_id_ n)) t1
       = Done (next_page_id_ n =? INVALID_PAGE_ID, t1)) ∧
    (page_id_ n = leaf →
       ∃ t2, destroy (mkIter (Some leaf) i (page_id_ n)) t1 = Done (tt, t2) ∧
             pool_ t2 = pool_ t).
Proof.
  intros Hnn Hfind.
  destruct (Begin_at_run fuel key t leaf t1 Hnn Hfind)
    as (n & Hn & Hpool & Hsame & Hcalls & Hrun).
  destruct (scan_lt_stop (array_ n) key 0) as (k & Hk & Hlen & Hbelow & Hat).
  exists n, (Z.of_nat k). rewrite Hk in Hrun. rewrite Z.add_0_l in Hrun.
  rewrite Nat2Z.id.
  assert (node_at leaf t1 = Done (n, t1)) as Hnode.
  { by apply (node_at_pinned leaf (pool_ t)). }
  split; [done|]. split; [done|]. split; [done|].
  split; [unfold GetSize; lia|]. split; [done|]. split; [|split; [done|split]].
  - intros e He. split; [by apply Hat|].
    unfold deref. cbn [leaf_ index_]. rewrite bind_run, Hnode. unfold GetSize.
    apply lookup_lt_Some in He as Hlt.
    destruct (Z.geb_spec (Z.of_nat k) (Z.of_nat (length (array_ n)))); [lia|].
    rewrite bind_run. unfold lift, entry_at.
    destruct (Z.ltb_spec (Z.of_nat k) 0); [lia|]. by rewrite Nat2Z.id, He.
  - intros Hend. unfold deref, IsEnd. cbn [leaf_ index_].
    rewrite !bind_run, Hnode. rewrite Hend.
    destruct (Z.geb_spec (GetSize n) (GetSize n)); [done|lia].
  - intros Hid. unfold destroy. cbn [leaf_ iter_page_id_]. rewrite Hid.
    assert (is_Some (pool_ t !! leaf)) as Hsome.
    { destruct (pool_ t !! leaf); [by eexists|done]. }
    destruct (UnpinPage_pinned leaf (pool_ t) t1 Hnn Hsome Hpool)
      as (t2 & Hunpin & Hpool2 & _).
    exists t2. by rewrite bind_run, Hunpin.
Qed.

Lemma Begin_at_first_entry_not_below_witness :
  let t := scenarioE_tree in
  let t1 := match FindLeafPage 64 11 t with Done (_, t1) => t1 | _ => t end in
  (pins_nonneg (pool_ t) ∧ FindLeafPage 64 11 t = Done (Some 37, t1)) ∧
  ∃ n i, node_ <$> pool_ t !! 37 = Some n ∧
    Begin_at 64 11 t = Done (mkIter (Some 37) i (page_id_ n), t1) ∧
    pool_ t1 = alter pin 37 (pool_ t) ∧
    0 ≤ i ≤ GetSize n ∧
    Forall (λ e, e.1 < 11) (take (Z.to_nat i) (array_ n)) ∧
    (∀ e, array_ n !! Z.to_nat i = Some e →
       11 ≤ e.1 ∧ deref (mkIter (Some 37) i (page_id_ n)) t1 = Done (Some e, t1)) ∧
    iter_eq (mkIter (Some 37) i (page_id_ n)) End = false ∧
    (i = GetSize n →
       deref (mkIter (Some 37) i (page_id_ n)) t1 = Done (None, t1) ∧
       IsEnd (mkIter (Some 37) i (page_id_ n)) t1
       = Done (next_page_id_ n =? INVALID_PAGE_ID, t1)) ∧
    (page_id_ n = 37 →
       ∃ t2, destroy (mkIter (Some 37) i (page_id_ n)) t1 = Done (tt, t2) ∧
             pool_ t2 = pool_ t).
Proof.
  intros t t1.
  assert (FindLeafPage 64 11 t = Done (Some 37, t1)) as H2
    by (vm_compute; reflexivity).
  split; [split; [apply scenarioE_pins_nonneg|exact H2]|].
  apply (Begin_at_first_entry_not_below 64 11 t 37 t1 scenarioE_pins_nonneg H2).
Defined.

(** X23: The loop [for (it = Begin(key); it != End(); ++it)], where the
    leaf of the key is sorted and records its own page id and its next
    leaves are not empty, reads the entries of this leaf whose key is not
    below the key and then the entries of the next leaves, and ends with
    every pin count as before.  Where the leaf has no such entry the first
    [operator*] throws, whatever the next leaves hold. *)
Theorem Begin_at_scan_from_key fuel fuel' key t leaf t1 n rest :
  pins_nonneg (pool_ t) →
  FindLeafPage fuel key t = Done (Some leaf, t1) →
  leaf_chain (pool_ t) leaf (n :: rest) → page_id_ n = leaf →
  StronglySorted Z.lt (array_ n).*1 →
  Forall (λ n, array_ n ≠ []) rest →
  (length (array_ n ++ concat (array_ <$> rest)) < fuel')%nat →
  ∃ it, Begin_at fuel key t = Done (it, t1) ∧
    match filter (λ e, key ≤ e.1) (array_ n) with
    | [] => scan fuel' it t1 = Done (None, t1)
    | e :: found =>
        ∃ t2, scan fuel' it t1
              = Done (Some (e :: found ++ concat (array_ <$> rest)), t2) ∧
          pool_ t2 = pool_ t ∧ same_fields t t2 ∧
          ∃ l, calls_ t2 = calls_ t ++ l ∧ Forall clean_call l
    end.
Proof.
  intros Hnn Hfind Hchain Hid Hsorted Hne Hfuel.
  destruct (Begin_at_run fuel key t leaf t1 Hnn Hfind)
    as (n0 & Hn0 & Hpool & Hsame & (l1 & Hcalls1 & Hclean1) & Hrun).
  assert (n0 = n) as ->.
  { destruct Hchain as (_ & Hn & _). rewrite Hn in Hn0. by injection Hn0. }
  destruct (scan_lt_filter (array_ n) key Hsorted 0) as (k & Hk & Hlen & Hdrop).
  rewrite Hk, Z.add_0_l, Hid in Hrun. eexists. split; [exact Hrun|].
  assert (node_at leaf t1 = Done (n, t1)) as Hnode.
  { by apply (node_at_pinned leaf (pool_ t)). }
  rewrite <- Hdrop.
  destruct (decide (k = length (array_ n))) as [->|Hlt].
  - rewrite drop_all. destruct fuel' as [|fuel']; [lia|].
    cbn [scan iter_eq leaf_ End]. rewrite bind_run.
    unfold deref. cbn [leaf_ index_]. rewrite bind_run, Hnode. unfold GetSize.
    by destruct (Z.geb_spec (Z.of_nat (length (array_ n)))
                            (Z.of_nat (length (array_ n)))); [|lia].
  - destruct (scan_chain fuel' (pool_ t) leaf n rest (Z.of_nat k) t1 Hnn Hchain Hne)
      as (t2 & Hscan & Hpool2 & Hsame2 & l2 & Hcalls2 & Hclean2).
    { unfold GetSize. lia. }
    { done. }
    { rewrite Nat2Z.id, length_app, length_drop. rewrite length_app in Hfuel. lia. }
    rewrite Nat2Z.id in Hscan.
    destruct (drop k (array_ n)) as [|e found] eqn:Hd.
    { apply (f_equal length) in Hd. rewrite length_drop in Hd. cbn in Hd. lia. }
    exists t2. split; [done|]. split; [done|]. split.
    { eapply same_fields_trans; [exact Hsame|done]. }
    exists (l1 ++ l2). split.
    + by rewrite Hcalls2, Hcalls1, <- app_assoc.
    + by apply Forall_app.
Qed.

Lemma Begin_at_scan_from_key_witness :
  let t := scenarioE_tree in
  let t1 := match FindLeafPage 64 10 t with Done (_, t1) => t1 | _ => t end in
  let n := mkNode LEAF_PAGE 3 38 37 INVALID_PAGE_ID [(9, 9); (10, 10)] in
  (pins_nonneg (pool_ t) ∧ FindLeafPage 64 10 t = Done (Some 37, t1) ∧
   leaf_chain (pool_ t) 37 [n] ∧ page_id_ n = 37 ∧
   StronglySorted Z.lt (array_ n).*1 ∧
   Forall (λ n, array_ n ≠ []) [] ∧
   (length (array_ n ++ concat (array_ <$> [])) < 64)%nat) ∧
  ∃ it, Begin_at 64 10 t = Done (it, t1) ∧
    ∃ t2, scan 64 it t1 = Done (Some [(10, 10)], t2) ∧
      pool_ t2 = pool_ t ∧ same_fields t t2 ∧
      ∃ l, calls_ t2 = calls_ t ++ l ∧ Forall clean_call l.
Proof.
  intros t t1 n.
  assert (FindLeafPage 64 10 t = Done (Some 37, t1)) as H2
    by (vm_compute; reflexivity).
  assert (leaf_chain (pool_ t) 37 [n]) as H3.
  { cbn [leaf_chain]. split_and!;
      lazymatch goal with
      | |- _ ≠ _ => by intros [=]
      | |- _ => vm_compute; reflexivity
      end. }
  assert (page_id_ n = 37) as H4 by reflexivity.
  assert (StronglySorted Z.lt (array_ n).*1) as H5.
  { repeat constructor. }
  assert (Forall (λ n : Node, array_ n ≠ []) []) as H6 by constructor.
  assert (length (array_ n ++ concat (array_ <$> [])) < 64)%nat as H7.
  { vm_compute. lia. }
  split.
  { exact (conj scenarioE_pins_nonneg
             (conj H2 (conj H3 (conj H4 (conj H5 (conj H6 H7)))))). }
  destruct (Begin_at_scan_from_key 64 64 10 t 37 t1 n [] scenarioE_pins_nonneg
              H2 H3 H4 H5 H6 H7) as (it & Hbegin & Hscan).
  assert (filter (λ e, 10 ≤ e.1) (array_ n) = [(10, 10)]) as Hfound
    by (vm_compute; reflexivity).
  rewrite Hfound in Hscan.
  exists it. split; [exact Hbegin|]. exact Hscan.
Defined.

End bpt_iterator.

(* ===================================================================== *)
(** * [Remove] from a leaf that keeps enough entries *)
(* ===================================================================== *)

Section bpt_remove.
Import BPT.
Context {layout : PageLayout}.

Implicit Types (t : BPlusTree) (v : View) (n : Node) (G : gmap Z shape) (M : gmap Z Z).
Implicit Types (a : list (Z * Z)) (key k : Z).

(** The entries of a leaf without those of [key]. *)
Local Abbreviation without key a := (filter (λ e : Z * Z, e.1 ≠ key) a).

Lemma without_absent a key : key ∉ a.*1 → without key a = a.
Proof.
  intros Hnot. apply filter_all, Forall_forall. intros [k x] Hin Heq.
  cbn in Heq. subst k. apply Hnot, list_elem_of_fmap. by exists (key, x).
Qed.

Lemma without_delete a key : ∀ j i x,
  NoDup a.*1 → find_key_from a key j = Some (i, x) →
  delete (Z.to_nat (i - j)) a = without key a.
Proof.
  induction a as [|[k v] a IH]; intros j i x Hnd; cbn [find_key_from]; [done|].
  rewrite fmap_cons in Hnd. apply NoDup_cons in Hnd as [Hk Hnd].
  destruct (Z.eqb_spec k key) as [->|Hne].
  - intros [= <- <-]. rewrite Z.sub_diag. cbn [Z.to_nat delete list_delete].
    rewrite filter_cons_False by (cbn; tauto). by rewrite without_absent.
  - intros Hf. pose proof (find_key_from_Some _ _ _ _ _ Hf) as [Hle _].
    replace (Z.to_nat (i - j)) with (S (Z.to_nat (i - (j + 1)))) by lia.
    cbn [delete list_delete]. rewrite filter_cons_True by done.
    f_equal. by apply (IH (j + 1) i x).
Qed.

Lemma lookup_key_without a key k :
  lookup_key (without key a) k = if decide (k = key) then None else lookup_key a k.
Proof.
  induction a as [|[k0 x0] a IH].
  { by destruct (decide (k = key)). }
  destruct (decide (k0 = key)) as [->|Hne].
  - rewrite filter_cons_False by (cbn; tauto). rewrite IH, lookup_key_cons.
    destruct (decide (k = key)) as [->|]; [done|].
    by destruct (Z.eqb_spec key k); [congruence|].
  - rewrite filter_cons_True by done. rewrite !lookup_key_cons, IH.
    destruct (Z.eqb_spec k0 k) as [->|]; [|done].
    by destruct (decide (k = key)).
Qed.

Lemma without_keys a key k : k ∈ (without key a).*1 → k ∈ a.*1.
Proof.
  intros Hin. apply list_elem_of_fmap in Hin as (e & -> & Hin).
  apply list_elem_of_filter in Hin as [_ Hin].
  apply list_elem_of_fmap. by exists e.
Qed.

Lemma without_sorted a key :
  StronglySorted Z.lt a.*1 → StronglySorted Z.lt (without key a).*1.
Proof.
  induction a as [|[k0 x0] a IH]; [done|]. rewrite fmap_cons. intros Hs.
  apply StronglySorted_inv in Hs as [Hs Hall].
  destruct (decide (k0 = key)) as [->|Hne].
  - rewrite filter_cons_False by (cbn; tauto). by apply IH.
  - rewrite filter_cons_True by done. rewrite fmap_cons. constructor; [by apply IH|].
    apply Forall_forall. intros k Hin. rewrite Forall_forall in Hall.
    by apply Hall, (without_keys a key).
Qed.

Lemma without_length a key : (length (without key a) ≤ length a)%nat.
Proof. apply length_filter. Qed.

Lemma sorted_NoDup (l : list Z) : StronglySorted Z.lt l → NoDup l.
Proof.
  induction 1 as [|x l _ IH Hall]; constructor; [|done].
  intros Hin. rewrite Forall_forall in Hall. specialize (Hall x Hin). lia.
Qed.

(** [Remove] in terms of the ghost description: the leaf of the key loses
    the entry of the key, and the tree holds the map without the key. *)
Lemma Remove_leaf_spec v G M H fuel key :
  tree_inv v G M H → (H < fuel)%nat →
  ∃ leaf n, runs (FindLeafPage fuel key) v (Some leaf) v ∧
    v_nodes v !! leaf = Some n ∧
    (GetMinSize n < GetSize n →
     ∃ v', v' = with_nodes v (<[leaf := set_array (without key (array_ n)) n]> (v_nodes v)) ∧
       runs (Remove fuel key) v tt v' ∧ tree_inv v' G (delete key M) H).
Proof.
  intros Hinv Hfuel. pose proof (tree_inv_root _ _ _ _ Hinv) as Hrootid.
  destruct (FindLeafPage_spec v G M H fuel key Hinv Hfuel)
    as (L & lo & hi & Hfind & HGL & Hkr).
  destruct Hinv as (Hlm & Hsh & Hroot).
  destruct (sh_nodes _ _ _ _ _ _ _ _ _ Hsh _ _ HGL) as (ln & Hln & HokL); [done|].
  pose proof HokL as (Hid & Hty & Hmax & Hsorted & Hrange & Hsize).
  exists L, ln. split; [done|]. split; [done|]. intros Hmin.
  set (ln1 := set_array (without key (array_ ln)) ln).
  set (nodes1 := <[L := ln1]> (v_nodes v)).
  eexists. split; [done|]. fold nodes1. split.
  - (* the run *)
    unfold Remove. apply runs_get_fields. intros t Hrt _ _.
    unfold IsEmpty. rewrite Hrt. unfold INVALID_PAGE_ID.
    destruct (Z.eqb_spec (v_root v) (-1)); [lia|].
    eapply runs_bind; [exact Hfind|]. cbn beta iota.
    eapply runs_bind; [by apply runs_node_at|].
    destruct (find_key ln key) as [[i x]|] eqn:Hkey.
    + pose proof (find_key_from_Some _ _ _ _ _ Hkey) as [Hi Hlook].
      rewrite Z.sub_0_r in Hlook. apply lookup_lt_Some in Hlook as Hlt.
      assert (RemoveAt i ln = ln1) as Hrem.
      { unfold RemoveAt, GetSize, ln1.
        destruct (Z.ltb_spec i 0); [lia|].
        destruct (Z.geb_spec i (Z.of_nat (length (array_ ln)))); [lia|].
        cbn [orb]. f_equal.
        rewrite <- (without_delete (array_ ln) key 0 i x); [by rewrite Z.sub_0_r| |done].
        by apply sorted_NoDup. }
      eapply runs_bind; [by apply (runs_update_node L (RemoveAt i) v ln)|].
      rewrite Hrem. fold nodes1.
      eapply runs_bind; [apply runs_node_at; cbn; apply lookup_insert_eq|].
      assert ((GetSize ln1 <? GetMinSize ln1) = false) as ->.
      { apply Z.ltb_ge. unfold GetSize, GetMinSize, IsLeafPage in *.
        replace (array_ ln1) with (delete (Z.to_nat i) (array_ ln)).
        - rewrite length_delete by (by eexists). cbn [ln1 set_array page_type_ max_size_].
          lia.
        - unfold ln1. cbn. rewrite <- (without_delete (array_ ln) key 0 i x);
            [by rewrite Z.sub_0_r|by apply sorted_NoDup|done]. }
      apply runs_UnpinPage, runs_ret.
    + apply runs_UnpinPage, runs_ret_eq.
      assert (ln1 = ln) as Hsame.
      { unfold ln1. rewrite without_absent; [by destruct ln|].
        apply lookup_key_None_inv. by rewrite <- find_key_lookup_key, Hkey. }
      unfold nodes1. rewrite Hsame, insert_id by done. by destruct v.
  - (* the invariant *)
    unfold tree_inv. cbn [with_nodes v_nodes v_leaf_max v_next v_root].
    assert (∀ c, parent_page_id_ <$> nodes1 !! c = parent_page_id_ <$> v_nodes v !! c)
      as Hptr.
    { intros c. unfold nodes1. destruct (decide (c = L)) as [->|].
      - by rewrite lookup_insert_eq, Hln.
      - by rewrite lookup_insert_ne. }
    split; [done|]. split.
    + constructor.
      * intros p sp Hp _. destruct (decide (p = L)) as [->|HpL].
        -- exists ln1. split; [apply lookup_insert_eq|].
           rewrite HGL in Hp. injection Hp as <-.
           split; [done|]. split; [done|]. split; [done|].
           split; [by apply without_sorted|]. split.
           ++ apply Forall_forall. intros k Hk. rewrite Forall_forall in Hrange.
              by apply Hrange, (without_keys _ key).
           ++ pose proof (without_length (array_ ln) key). cbn. lia.
        -- destruct (sh_nodes _ _ _ _ _ _ _ _ _ Hsh _ _ Hp) as (n & Hn & Hok); [done|].
           exists n. split; [unfold nodes1; by rewrite lookup_insert_ne|].
           eapply keep_node_ok; [exact Hok|done..|]. intros c _ _. by split.
      * intros p Hp. apply (sh_ids _ _ _ _ _ _ _ _ _ Hsh).
        unfold nodes1 in Hp. destruct (decide (p = L)) as [->|]; [by eexists|].
        by rewrite lookup_insert_ne in Hp.
      * apply (sh_height _ _ _ _ _ _ _ _ _ Hsh).
      * intros p Hp _.
        destruct (sh_attached _ _ _ _ _ _ _ _ _ Hsh p Hp)
          as [?|(Q & l & r & hq & qn & HQ & Hqn & Hin)]; [done|by left|].
        right. exists Q, l, r, hq, qn. split; [done|]. split; [|done].
        unfold nodes1. rewrite lookup_insert_ne; [done|]. intros <-. congruence.
      * intros p l r n k Hp Hn Hr. unfold nodes1 in Hn.
        destruct (decide (p = L)) as [->|HpL].
        -- rewrite lookup_insert_eq in Hn. injection Hn as <-. cbn [ln1 set_array array_].
           rewrite HGL in Hp. injection Hp as <- <-.
           rewrite lookup_key_without. destruct (decide (k = key)) as [->|Hk].
           ++ by rewrite lookup_delete_eq.
           ++ rewrite lookup_delete_ne by done.
              by apply (sh_leaves _ _ _ _ _ _ _ _ _ Hsh L lo hi).
        -- rewrite lookup_insert_ne in Hn by done.
           rewrite lookup_delete_ne.
           ++ by apply (sh_leaves _ _ _ _ _ _ _ _ _ Hsh p l r).
           ++ intros <-. apply HpL.
              by apply (sh_disjoint _ _ _ _ _ _ _ _ _ Hsh p L l r lo hi key).
      * apply (sh_disjoint _ _ _ _ _ _ _ _ _ Hsh).
    + destruct Hroot as [HGr Hparr]. split; [done|]. cbn. by rewrite Hptr.
Qed.


End bpt_remove.

Section bpt_remove_witness.
Import BPT.
#[local] Existing Instance scenario_layout.


End bpt_remove_witness.
